(** * MergeCalls: a shallow embedding of [src/llvm/MergeCallsPass.cpp]

    The pass works on one LLVM function.  Pointers to IR objects
    ([BasicBlock*], [Instruction*], [Function*]) are modelled by their
    addresses, as [positive] numbers; a function body is the list of its
    basic blocks in layout order, a basic block the list of its
    instructions.  The IR primitives the pass calls ([splitBasicBlock],
    [DemoteRegToStack], [moveBefore], [replaceAllUsesWith],
    [eraseFromParent], ...) are modelled after their LLVM implementation,
    restricted to the instructions of the model (no invoke, no EH pads). *)

From Stdlib Require Import String DecimalString.
From Stdlib Require Import List PArith ZArith NArith Bool Lia Permutation Sorted.
Import ListNotations.
Local Open Scope positive_scope.

(** ** Data model *)

Definition blockid := positive.
Definition instid := positive.
Definition funcid := positive.

Inductive typ : Type :=
| TVoid
| TInt (bits : N)
| TPtr
| TOther (n : positive).

Inductive value : Type :=
| VInst (i : instid)
| VArg (n : nat)
| VConstInt (bits : N) (z : Z)
| VGlobal (n : positive)
| VFunc (f : funcid)
| VInlineAsm (n : positive)
| VUndef.

Inductive ikind : Type :=
| Alloca (allocated : typ)
| Call (called : value) (args : list value)
| PHI (incoming : list (value * blockid))
| Load (ptr : value)
| Store (v : value) (ptr : value)
| BitCast (v : value)
| Br (dest : blockid)
| CondBr (c : value) (t f : blockid)
| Switch (v : value) (default : blockid) (cases : list (value * blockid))
| Ret (v : option value)
| Unreachable
| Op (opcode : positive) (operands : list value).

Record instruction : Type := mkInst {
  iid : instid;
  iname : string;
  ity : typ;
  ikd : ikind
}.

Record basicblock : Type := mkBlock {
  bid : blockid;
  insts : list instruction
}.

Definition function := list basicblock.

Definition value_eqb (a b : value) : bool :=
  match a, b with
  | VInst i, VInst j => Pos.eqb i j
  | VArg n, VArg m => Nat.eqb n m
  | VConstInt w z, VConstInt w' z' => N.eqb w w' && Z.eqb z z'
  | VGlobal n, VGlobal m => Pos.eqb n m
  | VFunc f, VFunc g => Pos.eqb f g
  | VInlineAsm n, VInlineAsm m => Pos.eqb n m
  | VUndef, VUndef => true
  | _, _ => false
  end.

(** [APInt(bits, v, isSigned)]: the value is truncated to [bits] bits. *)
Definition APInt (bits : N) (v : Z) : Z := (v mod 2 ^ Z.of_N bits)%Z.

(** ** Queries on instructions *)

Definition operands (k : ikind) : list value :=
  match k with
  | Alloca _ => []
  | Call c args => args ++ [c]
  | PHI inc => map fst inc
  | Load p => [p]
  | Store v p => [v; p]
  | BitCast v => [v]
  | Br _ => []
  | CondBr c _ _ => [c]
  | Switch v _ cases => v :: map fst cases
  | Ret (Some v) => [v]
  | Ret None => []
  | Unreachable => []
  | Op _ ops => ops
  end.

Definition isVInst (x : instid) (v : value) : bool :=
  match v with VInst i => Pos.eqb i x | _ => false end.

(** [U] has [x] among its operands, i.e. [U] is a user of [x]. *)
Definition usesb (x : instid) (U : instruction) : bool :=
  existsb (isVInst x) (operands (ikd U)).

Definition isCall (I : instruction) : bool :=
  match ikd I with Call _ _ => true | _ => false end.
Definition isPHI (I : instruction) : bool :=
  match ikd I with PHI _ => true | _ => false end.
Definition isAlloca (I : instruction) : bool :=
  match ikd I with Alloca _ => true | _ => false end.
Definition isTerminator (I : instruction) : bool :=
  match ikd I with
  | Br _ | CondBr _ _ _ | Switch _ _ _ | Ret _ | Unreachable => true
  | _ => false
  end.

Definition successors (k : ikind) : list blockid :=
  match k with
  | Br d => [d]
  | CondBr _ t f => [t; f]
  | Switch _ d cases => d :: map snd cases
  | _ => []
  end.

(** ** Queries on functions *)

Definition ids (F : function) : list instid :=
  flat_map (fun b => map iid (insts b)) F.
Definition bids (F : function) : list blockid := map bid F.

Fixpoint findIn (i : instid) (l : list instruction) : option instruction :=
  match l with
  | [] => None
  | x :: l' => if Pos.eqb (iid x) i then Some x else findIn i l'
  end.

Fixpoint findInst (F : function) (i : instid) : option instruction :=
  match F with
  | [] => None
  | b :: F' =>
      match findIn i (insts b) with
      | Some x => Some x
      | None => findInst F' i
      end
  end.

(** [I->getParent()] *)
Fixpoint getParent (F : function) (i : instid) : option blockid :=
  match F with
  | [] => None
  | b :: F' =>
      match findIn i (insts b) with
      | Some _ => Some (bid b)
      | None => getParent F' i
      end
  end.

Fixpoint getBlock (F : function) (B : blockid) : option basicblock :=
  match F with
  | [] => None
  | b :: F' => if Pos.eqb (bid b) B then Some b else getBlock F' B
  end.

(** The use list of [x]: every instruction of the function that has [x]
    as an operand, with the block it lives in, in layout order. *)
Definition users (F : function) (x : instid) : list (blockid * instruction) :=
  flat_map (fun b => map (fun U => (bid b, U)) (filter (usesb x) (insts b))) F.

(** ** [MergeCalls::valueEscapes] *)

Fixpoint escapesLoop (BB : blockid) (us : list (blockid * instruction)) : bool :=
  match us with
  | [] => false
  | (UB, UI) :: us' =>
      if negb (Pos.eqb UB BB) || isPHI UI then true else escapesLoop BB us'
  end.

Definition valueEscapes (F : function) (Inst : instid) : bool :=
  match getParent F Inst with
  | Some BB => escapesLoop BB (users F Inst)
  | None => false
  end.

(** ** Ordered maps

    [std::map<K*, V>] iterates in ascending key (address) order; it is
    modelled as an association list kept sorted by key. *)

Section OrderedMap.
Context {V : Type}.

Fixpoint oinsert (k : positive) (v : V) (m : list (positive * V)) : list (positive * V) :=
  match m with
  | [] => [(k, v)]
  | (k', v') :: m' =>
      match Pos.compare k k' with
      | Lt => (k, v) :: m
      | Eq => (k, v) :: m'
      | Gt => (k', v') :: oinsert k v m'
      end
  end.

Fixpoint olookup (k : positive) (m : list (positive * V)) : option V :=
  match m with
  | [] => None
  | (k', v') :: m' => if Pos.eqb k k' then Some v' else olookup k m'
  end.
End OrderedMap.

(** [m[f].push_back(c)] on a [std::map<Function*, std::vector<CallInst*>>] *)
Fixpoint pushBack (f : funcid) (c : instid) (m : list (funcid * list instid))
  : list (funcid * list instid) :=
  match m with
  | [] => [(f, [c])]
  | (g, l) :: m' =>
      match Pos.compare f g with
      | Lt => (f, [c]) :: m
      | Eq => (g, l ++ [c]) :: m'
      | Gt => (g, l) :: pushBack f c m'
      end
  end.

(** ** IR mutation primitives *)

Definition setKind (I : instruction) (k : ikind) : instruction :=
  mkInst (iid I) (iname I) (ity I) k.

Definition mapOperands (g : value -> value) (k : ikind) : ikind :=
  match k with
  | Alloca t => Alloca t
  | Call c args => Call (g c) (map g args)
  | PHI inc => PHI (map (fun p => (g (fst p), snd p)) inc)
  | Load p => Load (g p)
  | Store v p => Store (g v) (g p)
  | BitCast v => BitCast (g v)
  | Br d => Br d
  | CondBr c t f => CondBr (g c) t f
  | Switch v d cases => Switch (g v) d (map (fun p => (g (fst p), snd p)) cases)
  | Ret (Some v) => Ret (Some (g v))
  | Ret None => Ret None
  | Unreachable => Unreachable
  | Op o ops => Op o (map g ops)
  end.

Definition substValue (x : instid) (w : value) (v : value) : value :=
  if isVInst x v then w else v.

(** [U->replaceUsesOfWith(x, w)] *)
Definition replaceUsesOfWith (x : instid) (w : value) (U : instruction) : instruction :=
  setKind U (mapOperands (substValue x w) (ikd U)).

Definition mapInsts (g : instruction -> instruction) (F : function) : function :=
  map (fun b => mkBlock (bid b) (map g (insts b))) F.

(** Mutation of the instruction at address [i]. *)
Definition updInst (i : instid) (g : instruction -> instruction) (F : function) : function :=
  mapInsts (fun x => if Pos.eqb (iid x) i then g x else x) F.

(** [x->replaceAllUsesWith(w)] *)
Definition replaceAllUsesWith (x : instid) (w : value) (F : function) : function :=
  mapInsts (replaceUsesOfWith x w) F.

(** [i->eraseFromParent()] *)
Definition eraseFromParent (i : instid) (F : function) : function :=
  map (fun b => mkBlock (bid b) (filter (fun x => negb (Pos.eqb (iid x) i)) (insts b))) F.

Definition insertNth (k : nat) (n : instruction) (l : list instruction) : list instruction :=
  firstn k l ++ n :: skipn k l.

(** Insertion of a new instruction: [pos] tells, for a block, whether the
    insertion point lies in it and at which index. *)
Fixpoint insertAt (pos : basicblock -> option nat) (n : instruction) (F : function) : function :=
  match F with
  | [] => []
  | b :: F' =>
      match pos b with
      | Some k => mkBlock (bid b) (insertNth k n (insts b)) :: F'
      | None => b :: insertAt pos n F'
      end
  end.

Fixpoint indexOf (i : instid) (l : list instruction) : option nat :=
  match l with
  | [] => None
  | x :: l' => if Pos.eqb (iid x) i then Some O else option_map S (indexOf i l')
  end.

Fixpoint countWhile (p : instruction -> bool) (l : list instruction) : nat :=
  match l with
  | x :: l' => if p x then S (countWhile p l') else O
  | [] => O
  end.

(** [B->getTerminator()] *)
Definition getTerminator (l : list instruction) : option instruction :=
  match rev l with
  | t :: _ => if isTerminator t then Some t else None
  | [] => None
  end.

(** Insertion points. *)
Definition posBefore (i : instid) (b : basicblock) : option nat :=
  indexOf i (insts b).
Definition posEnd (B : blockid) (b : basicblock) : option nat :=
  if Pos.eqb (bid b) B then Some (length (insts b)) else None.
(** before [B->getFirstNonPHI()] *)
Definition posFirstNonPHI (B : blockid) (b : basicblock) : option nat :=
  if Pos.eqb (bid b) B then Some (countWhile isPHI (insts b)) else None.
(** before [B->getTerminator()]; an instruction created with a null
    insertion point is not inserted at all *)
Definition posTerminator (B : blockid) (b : basicblock) : option nat :=
  if Pos.eqb (bid b) B then
    match getTerminator (insts b) with
    | Some _ => Some (pred (length (insts b)))
    | None => None
    end
  else None.
(** after [i], skipping the PHI nodes that follow it *)
Definition posAfterSkipPHI (i : instid) (b : basicblock) : option nat :=
  match indexOf i (insts b) with
  | Some k => Some (S k + countWhile isPHI (skipn (S k) (insts b)))%nat
  | None => None
  end.
(** before the first non-alloca instruction of the entry block *)
Definition posAfterAllocas (b : basicblock) : option nat :=
  Some (countWhile isAlloca (insts b)).

(** [c->moveBefore(B->getFirstNonPHI())] *)
Definition moveToFirstNonPHI (c : instid) (B : blockid) (F : function) : function :=
  match findInst F c with
  | Some ci => insertAt (posFirstNonPHI B) ci (eraseFromParent c F)
  | None => F
  end.

(** [br->getPrevNode()->eraseFromParent()] *)
Fixpoint erasePrevIn (i : instid) (l : list instruction) : list instruction :=
  match l with
  | x :: ((y :: _) as l') =>
      if Pos.eqb (iid y) i then l' else x :: erasePrevIn i l'
  | _ => l
  end.
Definition erasePrev (i : instid) (F : function) : function :=
  map (fun b => mkBlock (bid b) (erasePrevIn i (insts b))) F.

(** *** [BasicBlock::splitBasicBlock] *)

Definition replaceIncomingBlockWith (Old New : blockid) (I : instruction) : instruction :=
  match ikd I with
  | PHI inc =>
      setKind I (PHI (map (fun p => (fst p, if Pos.eqb (snd p) Old then New else snd p)) inc))
  | _ => I
  end.

(** [BasicBlock::replacePhiUsesWith]: the leading PHI nodes only *)
Fixpoint replacePhiUsesWith (Old New : blockid) (l : list instruction) : list instruction :=
  match l with
  | x :: l' =>
      if isPHI x then replaceIncomingBlockWith Old New x :: replacePhiUsesWith Old New l'
      else l
  | [] => []
  end.

Definition replaceSuccessorsPhiUsesWith (succs : list blockid) (Old New : blockid)
  (F : function) : function :=
  map (fun b => if existsb (Pos.eqb (bid b)) succs
                then mkBlock (bid b) (replacePhiUsesWith Old New (insts b))
                else b) F.

(** The block holding [c] keeps the instructions up to and including [c],
    followed by a branch to the new block; the new block receives the
    rest and is linked right after the old one. *)
Fixpoint splitAt (c : instid) (New : blockid) (br : instruction) (F : function) : function :=
  match F with
  | [] => []
  | b :: F' =>
      match indexOf c (insts b) with
      | Some k =>
          mkBlock (bid b) (firstn (S k) (insts b) ++ [br])
            :: mkBlock New (skipn (S k) (insts b)) :: F'
      | None => b :: splitAt c New br F'
      end
  end.

(** [c->getParent()->splitBasicBlock(c->getNextNode(), "")] *)
Definition splitBasicBlock (F : function) (c : instid) (New : blockid) (brId : instid)
  : function :=
  match getParent F c with
  | None => F
  | Some Old =>
      let F1 := splitAt c New (mkInst brId "" TVoid (Br New)) F in
      let succs :=
        match getBlock F1 New with
        | Some nb =>
            match getTerminator (insts nb) with
            | Some t => successors (ikd t)
            | None => []
            end
        | None => []
        end in
      replaceSuccessorsPhiUsesWith succs Old New F1
  end.

(** ** The pass

    [alloc] is the memory allocator: given the addresses of the live
    objects it returns the address of a new one.  [uniqueName] is the
    symbol table of the function ([ValueSymbolTable::createValueName]):
    [uniqueName F nm] is the name a new value gets in the function [F]
    when the name [nm] is asked for -- [nm] itself when it is free,
    otherwise [nm] followed by a suffix that makes it unique.  The suffix
    comes from a counter kept in the table, so the answer is left open.
    [arg_types], [ret_type]
    and [isIntrinsic] describe the functions of the enclosing module
    ([target->args()], the callee's return type,
    [target->isIntrinsic()]). *)

Record rewriterState : Type := mkRS {
  rsF : function;
  callerToRet : list (blockid * blockid);
  callerToOrigParent : list (instid * blockid)
}.

Section Pass.
Variable alloc : list positive -> positive.
Variable uniqueName : function -> string -> string.
Variable arg_types : funcid -> list typ.
Variable ret_type : funcid -> typ.
Variable isIntrinsic : funcid -> bool.

(** *** [llvm::DemoteRegToStack] *)

(** [new LoadInst(I.getType(), Slot, I.getName() + ".reload", ...)]; [nm]
    is the name the symbol table gives. *)
Definition mkReload (ld : instid) (nm : string) (ty : typ) (slot : instid) : instruction :=
  mkInst ld nm ty (Load (VInst slot)).

(** The incoming values of one PHI user: a load is inserted before the
    terminator of each incoming block, once per block ([Loads]). *)
Fixpoint demotePHILoop (x slot : instid) (nm : string) (ty : typ)
  (inc : list (value * blockid)) (Loads : list (blockid * value)) (F : function)
  : function * list (value * blockid) :=
  match inc with
  | [] => (F, [])
  | (v, b) :: inc' =>
      if isVInst x v then
        match olookup b Loads with
        | Some V =>
            let r := demotePHILoop x slot nm ty inc' Loads F in
            (fst r, (V, b) :: snd r)
        | None =>
            let ld := alloc (ids F) in
            let F1 := insertAt (posTerminator b)
                        (mkReload ld (uniqueName F (nm ++ ".reload")) ty slot) F in
            let r := demotePHILoop x slot nm ty inc' ((b, VInst ld) :: Loads) F1 in
            (fst r, (VInst ld, b) :: snd r)
        end
      else
        let r := demotePHILoop x slot nm ty inc' Loads F in
        (fst r, (v, b) :: snd r)
  end.

(** One iteration of [while (!I.use_empty())], for the user [U]. *)
Definition demoteUser (x slot : instid) (nm : string) (ty : typ)
  (F : function) (U : instid) : function :=
  match findInst F U with
  | Some UI =>
      match ikd UI with
      | PHI inc =>
          let r := demotePHILoop x slot nm ty inc [] F in
          updInst U (fun PN => setKind PN (PHI (snd r))) (fst r)
      | _ =>
          let ld := alloc (ids F) in
          updInst U (replaceUsesOfWith x (VInst ld))
            (insertAt (posBefore U)
               (mkReload ld (uniqueName F (nm ++ ".reload")) ty slot) F)
      end
  | None => F
  end.

(** [DemoteRegToStack(x, false, AllocaPoint)].  The users are visited
    in layout order. *)
Definition DemoteRegToStack (F : function) (x : instid) (AllocaPoint : instid) : function :=
  match findInst F x with
  | None => F
  | Some xi =>
      match users F x with
      | [] => eraseFromParent x F
      | us =>
          let Slot := alloc (ids F) in
          let F1 := insertAt (posBefore AllocaPoint)
                      (mkInst Slot (uniqueName F (iname xi ++ ".reg2mem")) TPtr
                         (Alloca (ity xi))) F in
          let F2 := fold_left (demoteUser x Slot (iname xi) (ity xi))
                      (map (fun u => iid (snd u)) us) F1 in
          let st := alloc (ids F2) in
          insertAt (posAfterSkipPHI x)
            (mkInst st "" TVoid (Store (VInst x) (VInst Slot))) F2
      end
  end.

(** *** Call-site collection (lines 34-55) *)

Definition isInlineAsm (called : value) : bool :=
  match called with VInlineAsm _ => true | _ => false end.
Definition getCalledFunction (called : value) : option funcid :=
  match called with VFunc f => Some f | _ => None end.

Definition collectInst (m : list (funcid * list instid)) (I : instruction)
  : list (funcid * list instid) :=
  match ikd I with
  | Call called _ =>
      if isInlineAsm called then m
      else match getCalledFunction called with
           | None => m
           | Some f => if isIntrinsic f then m else pushBack f (iid I) m
           end
  | _ => m
  end.

Definition collect (F : function) : list (funcid * list instid) :=
  fold_left (fun m b => fold_left collectInst (insts b) m) F [].

(** *** Control-flow rewriting of one call site (lines 71-101) *)

Definition blockInsts (F : function) (B : blockid) : list instruction :=
  match getBlock F B with Some b => insts b | None => [] end.

Definition rewriteCaller (callBlock BBEntry : blockid) (AllocaInsertionPoint : instid)
  (rs : rewriterState) (caller : instid) : rewriterState :=
  let F := rsF rs in
  match getParent F caller with
  | None => rs
  | Some parentBlock =>
      let returnBlock := alloc (bids F) in
      let F1 := splitBasicBlock F caller returnBlock (alloc (ids F)) in
      let toDemote :=
        filter (fun I => negb (isAlloca I && Pos.eqb parentBlock BBEntry)
                         && valueEscapes F1 (iid I))
               (blockInsts F1 parentBlock) in
      let F2 := fold_left (fun G d => DemoteRegToStack G d AllocaInsertionPoint)
                  (map iid toDemote) F1 in
      let F3 := moveToFirstNonPHI caller returnBlock F2 in
      let F4 := match users F3 caller with
                | [] => F3
                | _ :: _ => DemoteRegToStack F3 caller AllocaInsertionPoint
                end in
      let ourBranch := alloc (ids F4) in
      let F5 := insertAt (posEnd parentBlock) (mkInst ourBranch "" TVoid (Br callBlock)) F4 in
      mkRS (erasePrev ourBranch F5)
           (oinsert parentBlock returnBlock (callerToRet rs))
           (oinsert caller parentBlock (callerToOrigParent rs))
  end.

(** *** The shared call block (lines 103-123) *)

Definition addIncoming (node : instid) (v : value) (b : blockid) (F : function) : function :=
  updInst node (fun PN => match ikd PN with
                          | PHI inc => setKind PN (PHI (inc ++ [(v, b)]))
                          | _ => PN
                          end) F.

Definition addCase (sw : instid) (v : value) (b : blockid) (F : function) : function :=
  updInst sw (fun SI => match ikd SI with
                        | Switch c d cases => setKind SI (Switch c d (cases ++ [(v, b)]))
                        | _ => SI
                        end) F.

(** [caller->getArgOperand(i)] *)
Definition getArgOperand (F : function) (caller : instid) (i : nat) : value :=
  match findInst F caller with
  | Some ci => match ikd ci with
               | Call _ args => nth i args VUndef
               | _ => VUndef
               end
  | None => VUndef
  end.

Definition buildArgPHI (callBlock : blockid) (callers : list instid)
  (origParent : list (instid * blockid))
  (st : function * list value * nat) (A : typ) : function * list value * nat :=
  let '(F, callArgs, argCtr) := st in
  let argNode := alloc (ids F) in
  let F1 := insertAt (posEnd callBlock) (mkInst argNode "" A (PHI [])) F in
  let F2 := fold_left
              (fun G caller =>
                 match olookup caller origParent with
                 | Some p => addIncoming argNode (getArgOperand G caller argCtr) p G
                 | None => G
                 end) callers F1 in
  (F2, callArgs ++ [VInst argNode], S argCtr).

Definition buildArgs (callBlock : blockid) (target : funcid) (callers : list instid)
  (origParent : list (instid * blockid)) (F : function) : function * list value :=
  if (0 <? List.length (arg_types target))%nat then
    fst (fold_left (buildArgPHI callBlock callers origParent) (arg_types target) (F, [], O))
  else (F, []).

(** *** The return router (lines 125-135) *)

Definition routeBack (whereFromNode switchBackInstr : instid)
  (st : function * Z) (e : blockid * blockid) : function * Z :=
  let '(F, switchCtr) := st in
  let branchIdx := VConstInt 32 (APInt 32 switchCtr) in
  (addCase switchBackInstr branchIdx (snd e)
     (addIncoming whereFromNode branchIdx (fst e) F),
   (switchCtr + 1)%Z).

(** *** One iteration of the loop over [funcToInvokers] (lines 57-137)

    The body is cut into its stages, so that the intermediate states
    can be named. *)

(** [new BitCastInst(Constant::getNullValue(i32), i32, "mergecalls alloca
    point", &*I)]; [nm] is the name the symbol table gives. *)
Definition allocaPoint (nm : string) (AllocaInsertionPoint : instid) : instruction :=
  mkInst AllocaInsertionPoint nm (TInt 32) (BitCast (VConstInt 32 0)).

(** [BasicBlock::Create(F.getContext(), "", &F, nullptr)] *)
Definition callBlockOf (F : function) : blockid := alloc (bids F).
Definition withCallBlock (F : function) : function :=
  F ++ [mkBlock (callBlockOf F) []].

(** [&F.getEntryBlock()] *)
Definition entryOf (F : function) : blockid :=
  match F with b :: _ => bid b | [] => callBlockOf F end.

Definition allocaPointOf (F : function) : instid := alloc (ids (withCallBlock F)).
Definition allocaPointName (F : function) : string :=
  uniqueName (withCallBlock F) "mergecalls alloca point".

(** lines 62-69 *)
Definition prepared (F : function) : function :=
  insertAt posAfterAllocas (allocaPoint (allocaPointName F) (allocaPointOf F))
    (withCallBlock F).

(** lines 71-101 *)
Definition rewriteGroup (F : function) (callers : list instid) : rewriterState :=
  fold_left (rewriteCaller (callBlockOf F) (entryOf F) (allocaPointOf F))
    callers (mkRS (prepared F) [] []).

(** lines 103-117 *)
Definition builtArgs (F : function) (target : funcid) (callers : list instid)
  : function * list value :=
  let rs := rewriteGroup F callers in
  buildArgs (callBlockOf F) target callers (callerToOrigParent rs) (rsF rs).

Definition callInstrOf (F : function) (target : funcid) (callers : list instid) : instid :=
  alloc (ids (fst (builtArgs F target callers))).

Definition emitCall (F : function) (target : funcid) (callers : list instid) : function :=
  let ba := builtArgs F target callers in
  insertAt (posEnd (callBlockOf F))
    (mkInst (callInstrOf F target callers) "" (ret_type target)
       (Call (VFunc target) (snd ba)))
    (fst ba).

(** lines 119-123 *)
Definition eraseCallers (callInstr : instid) (callers : list instid) (F : function)
  : function :=
  fold_left
    (fun G caller =>
       eraseFromParent caller (replaceAllUsesWith caller (VInst callInstr) G))
    callers F.

Definition unified (F : function) (target : funcid) (callers : list instid) : function :=
  eraseCallers (callInstrOf F target callers) callers (emitCall F target callers).

(** lines 126-135 *)
Definition emitRouter (callBlock : blockid) (callInstr : instid)
  (toRet : list (blockid * blockid)) (F : function) : function :=
  let whereFromNode := alloc (ids F) in
  let F5 := insertAt (posBefore callInstr)
              (mkInst whereFromNode "" (TInt 32) (PHI [])) F in
  match toRet with
  | [] => F5
  | first :: _ =>
      let switchBackInstr := alloc (ids F5) in
      let F6 := insertAt (posEnd callBlock)
                  (mkInst switchBackInstr "" TVoid
                     (Switch (VInst whereFromNode) (snd first) [])) F5 in
      fst (fold_left (routeBack whereFromNode switchBackInstr) toRet (F6, 0%Z))
  end.

Definition mergeGroup (F : function) (g : funcid * list instid) : function :=
  let target := fst g in
  let callers := snd g in
  if (1 <? List.length callers)%nat then
    emitRouter (callBlockOf F) (callInstrOf F target callers)
      (callerToRet (rewriteGroup F callers))
      (unified F target callers)
  else F.

(** *** [MergeCalls::runOnFunction] *)

Definition runOnFunction (F : function) : function * bool :=
  (fold_left mergeGroup (collect F) F, false).

End Pass.

(** ** Views used in the statements

    The pass moves, splits and rewrites freely; what the properties below
    are about is where the call instructions (and the alloca insertion
    points) sit.  [view] keeps of an instruction what no operand
    rewriting changes: of a call its address, its callee and arguments
    as far as they are not instruction results. *)

Definition absv (v : value) : option value :=
  match v with VInst _ => None | _ => Some v end.

Inductive mark : Type :=
| MCall (i : instid) (called : option value) (args : list (option value))
| MAllocaPoint (i : instid).

(** A bitcast of the null [i32] constant to [i32] whose name is
    "mergecalls alloca point", possibly followed by the suffix that made
    it unique. *)
Definition isAllocaPoint (I : instruction) : bool :=
  match ikd I, ity I with
  | BitCast (VConstInt 32 0), TInt 32 => String.prefix "mergecalls alloca point" (iname I)
  | _, _ => false
  end.

Definition view (I : instruction) : option mark :=
  match ikd I with
  | Call c args => Some (MCall (iid I) (absv c) (map absv args))
  | _ => if isAllocaPoint I then Some (MAllocaPoint (iid I)) else None
  end.

Definition marks (l : list instruction) : list mark :=
  flat_map (fun I => match view I with Some m => [m] | None => [] end) l.

Definition bview (F : function) : list (blockid * list mark) :=
  map (fun b => (bid b, marks (insts b))) F.

Definition allInsts (F : function) : list instruction := flat_map insts F.

Definition allMarks (F : function) : list mark := flat_map (fun b => marks (insts b)) F.

Definition markId (m : mark) : instid :=
  match m with MCall i _ _ => i | MAllocaPoint i => i end.

(** the mark is a direct call to [t] *)
Definition callsTarget (t : funcid) (m : mark) : bool :=
  match m with
  | MCall _ (Some (VFunc f)) _ => Pos.eqb f t
  | _ => false
  end.

Definition isAPMark (m : mark) : bool :=
  match m with MAllocaPoint _ => true | _ => false end.
Definition isCallMark (m : mark) : bool :=
  match m with MCall _ _ _ => true | _ => false end.

(** The call instructions of [F] whose callee is the function [t], in
    layout order. *)
Definition isCallTo (t : funcid) (I : instruction) : bool :=
  match ikd I with
  | Call (VFunc f) _ => Pos.eqb f t
  | _ => false
  end.

Definition callsTo (t : funcid) (F : function) : list instid :=
  map iid (filter (isCallTo t) (allInsts F)).

(** A call the collector skips: inline assembly, an indirect call, or a
    call of an intrinsic. *)
Definition ineligible (isIntrinsic : funcid -> bool) (I : instruction) : bool :=
  match ikd I with
  | Call (VInlineAsm _) _ => true
  | Call (VFunc f) _ => isIntrinsic f
  | Call _ _ => true
  | _ => false
  end.

(** Well-formed functions: no two instructions and no two blocks share
    an address. *)
Definition wf (F : function) : Prop := NoDup (ids F) /\ NoDup (bids F).

(** The relation kept by every step that inserts loads, stores, stack
    slots, PHI nodes or branches, or rewrites operands: related
    instructions have the same address and the same view, and still use
    every value outside [S] that they used before. *)
Definition inst_rel (S : instid -> Prop) (i i' : instruction) : Prop :=
  iid i = iid i' /\ view i = view i' /\
  forall y, ~ S y -> usesb y i = true -> usesb y i' = true.

Inductive lrel (S : instid -> Prop) : list instruction -> list instruction -> Prop :=
| lrel_nil : lrel S [] []
| lrel_keep i i' l l' : inst_rel S i i' -> lrel S l l' -> lrel S (i :: l) (i' :: l')
| lrel_ins n l l' : view n = None -> lrel S l l' -> lrel S l (n :: l').

Definition brel (S : instid -> Prop) (b b' : basicblock) : Prop :=
  bid b = bid b' /\ lrel S (insts b) (insts b') /\ (insts b = [] -> insts b' = []).

Definition frel (S : instid -> Prop) (F F' : function) : Prop := Forall2 (brel S) F F'.

(** A step of the pass that keeps the instruction addresses distinct and
    the views in place. *)
Definition gstep (S : instid -> Prop) (F F' : function) : Prop :=
  NoDup (ids F) -> frel S F F' /\ NoDup (ids F').

(** The block ends with an instruction without view (a branch, say). *)
Definition lastPlain (l : list instruction) : Prop :=
  exists l0 x, l = l0 ++ [x] /\ view x = None.

(** The view after the instruction at address [c] has been erased. *)
Definition verase (c : instid) (A : list (blockid * list mark)) : list (blockid * list mark) :=
  map (fun p => (fst p, filter (fun m => negb (Pos.eqb (markId m) c)) (snd p))) A.

(** [l1] is obtained from [l2] by dropping elements. *)
Inductive subseq {A : Type} : list A -> list A -> Prop :=
| subseq_nil l : subseq [] l
| subseq_take x l1 l2 : subseq l1 l2 -> subseq (x :: l1) (x :: l2)
| subseq_skip x l1 l2 : subseq l1 l2 -> subseq l1 (x :: l2).

(** In the marks of a block, no alloca insertion point comes after a
    call: whatever follows a call is a call. *)
Definition apLead (M : list mark) : Prop :=
  forall M1 m M2, M = M1 ++ m :: M2 -> isCallMark m = true ->
                  Forall (fun m' => isCallMark m' = true) M2.

(** The invariant of the loop over the call sites of one group (lines
    71-101): [done] are the call sites already rewritten, [cs] the ones
    still to come, [Mall] the marks of the function in layout order, [E]
    the entry block and [ME0] its marks when the loop starts. *)
Definition rewInv (cb : blockid) (t : funcid) (Mall : list mark)
  (E : blockid) (ME0 : list mark)
  (done cs : list instid) (rs : rewriterState) : Prop :=
  NoDup (ids (rsF rs)) /\ NoDup (bids (rsF rs)) /\
  allMarks (rsF rs) = Mall /\
  In cb (bids (rsF rs)) /\ blockInsts (rsF rs) cb = [] /\
  subseq cs (map markId Mall) /\
  (forall c, In c cs -> exists m, In m Mall /\ markId m = c /\ callsTarget t m = true) /\
  (forall c, In c done -> ~ In c cs) /\
  StronglySorted Pos.lt (map fst (callerToRet rs)) /\
  List.length (callerToRet rs) = List.length done /\
  incl (map fst (callerToRet rs)) (bids (rsF rs)) /\
  (forall P M m, In P (map fst (callerToRet rs)) -> In (P, M) (bview (rsF rs)) ->
                 In m M -> ~ In (markId m) cs) /\
  (forall c, In c done ->
     exists P R M m, olookup c (callerToOrigParent rs) = Some P /\
                     olookup P (callerToRet rs) = Some R /\
                     In (R, m :: M) (bview (rsF rs)) /\ markId m = c) /\
  (exists ME rest, bview (rsF rs) = (E, ME) :: rest /\
                   (apLead ME0 -> apLead ME /\
                                  filter isAPMark ME = filter isAPMark ME0)).

(** The incoming pairs of the PHI node built for parameter [i] (lines
    108-110), read off the state [F]. *)
Definition incomingFor (F : function) (toPar : list (instid * blockid))
  (callers : list instid) (i : nat) : list (value * blockid) :=
  flat_map (fun c => match olookup c toPar with
                     | Some p => [(getArgOperand F c i, p)]
                     | None => []
                     end) callers.

Definition appendIncoming (l : list (value * blockid)) (PN : instruction) : instruction :=
  match ikd PN with
  | PHI inc => setKind PN (PHI (inc ++ l))
  | _ => PN
  end.

Definition appendCases (l : list (value * blockid)) (SI : instruction) : instruction :=
  match ikd SI with
  | Switch c d cases => setKind SI (Switch c d (cases ++ l))
  | _ => SI
  end.

(** The tags [ctr], [ctr+1], ... as 32-bit constants. *)
Fixpoint tagsFrom (ctr : Z) (n : nat) : list value :=
  match n with
  | O => []
  | S n' => VConstInt 32 (APInt 32 ctr) :: tagsFrom (ctr + 1) n'
  end.

(** Membership of an address in a list of addresses. *)
Definition inb (x : positive) (l : list positive) : bool := existsb (Pos.eqb x) l.

(** What the loop of lines 119-123 does to one instruction that it does
    not erase. *)
Definition substAll (callers : list instid) (w : value) (I : instruction) : instruction :=
  fold_left (fun J c => replaceUsesOfWith c w J) callers I.

Definition substAllV (callers : list instid) (w : value) (v : value) : value :=
  fold_left (fun u c => substValue c w u) callers v.

Definition ineligibleMark (isIntrinsic : funcid -> bool) (m : mark) : bool :=
  match m with
  | MCall _ (Some (VFunc f)) _ => isIntrinsic f
  | MCall _ _ _ => true
  | MAllocaPoint _ => false
  end.

(** No alloca insertion point sits after a call in the block. *)
Fixpoint noAPAfterCall (l : list instruction) : bool :=
  match l with
  | [] => true
  | x :: l' =>
      if isCall x then forallb (fun y => negb (isAllocaPoint y)) l'
      else noAPAfterCall l'
  end.

(** The number of alloca insertion points in the entry block. *)
Definition entryInsts (F : function) : list instruction :=
  match F with b :: _ => insts b | [] => [] end.

Definition countAP (F : function) : nat :=
  List.length (filter isAllocaPoint (entryInsts F)).

(** The groups the pass merges. *)
Definition merged (groups : list (funcid * list instid)) : list (funcid * list instid) :=
  filter (fun g => (1 <? List.length (snd g))%nat) groups.

(** The eligible calls of [t] among the instructions [l], as the
    collector sees them. *)
Definition elig (isIntrinsic : funcid -> bool) (t : funcid) (l : list instruction)
  : list instid :=
  if isIntrinsic t then [] else map iid (filter (isCallTo t) l).

Definition mergeOpt (o : option (list instid)) (l : list instid) : option (list instid) :=
  match l with
  | [] => o
  | _ => Some (match o with Some l0 => l0 ++ l | None => l end)
  end.

(** * Concrete instances

    A bump allocator, a small module environment and three functions on
    which the pass is run. *)

(** A bump allocator: the address after the highest live one. *)
Definition amax (l : list positive) : positive := Pos.succ (fold_right Pos.max 1 l).

(** A symbol table without history: an asked name that is taken gets the
    first of the suffixes 1, 2, ... that makes it free. *)
Fixpoint firstFree (used : list string) (nm : string) (k fuel : nat) : string :=
  let cand := (nm ++ NilEmpty.string_of_uint (Nat.to_uint k))%string in
  match fuel with
  | O => cand
  | Datatypes.S fuel' =>
      if existsb (String.eqb cand) used then firstFree used nm (Datatypes.S k) fuel'
      else cand
  end.

Definition freshName (F : function) (nm : string) : string :=
  let used := map iname (allInsts F) in
  if existsb (String.eqb nm) used then firstFree used nm 1 (List.length used) else nm.

Fixpoint nodupb (l : list positive) : bool :=
  match l with
  | [] => true
  | x :: r => negb (inb x r) && nodupb r
  end.

Definition wfb (F : function) : bool := nodupb (ids F) && nodupb (bids F).

(** Function 100 is [i32 f(i32)], function 200 is an intrinsic. *)
Definition ex_args (f : funcid) : list typ := if Pos.eqb f 100 then [TInt 32] else [].
Definition ex_ret (f : funcid) : typ := TInt 32.
Definition ex_intr (f : funcid) : bool := Pos.eqb f 200.

Definition I_ (i : instid) (k : ikind) : instruction := mkInst i "" (TInt 32) k.

(** Two calls of [f]; the argument of the first is an instruction result
    that is also used in the second block.
<<
  10:  %1 = op1 %arg0          20:  %5 = call f(%arg1)
       %2 = call f(%1)              %6 = op2 %5, %1
       %3 = op2 %2                  ret
       br 20
>> *)
Definition exF : function :=
  [ mkBlock 10 [I_ 1 (Op 1 [VArg 0]); I_ 2 (Call (VFunc 100) [VInst 1]);
                I_ 3 (Op 2 [VInst 2]); I_ 4 (Br 20)];
    mkBlock 20 [I_ 5 (Call (VFunc 100) [VArg 1]); I_ 6 (Op 2 [VInst 5; VInst 1]);
                I_ 7 (Ret None)] ].

(** Two calls of [f]; the block that comes first in the layout has the
    higher address.
<<
  20:  %1 = call f(%arg0)      10:  %3 = call f(%arg1)
       br 10                        ret
>> *)
Definition exOrder : function :=
  [ mkBlock 20 [I_ 1 (Call (VFunc 100) [VArg 0]); I_ 2 (Br 10)];
    mkBlock 10 [I_ 3 (Call (VFunc 100) [VArg 1]); I_ 4 (Ret None)] ].

(** Two calls of [f] and a call of the intrinsic 200 whose argument is
    defined in the first block.
<<
  10:  %1 = op1 %arg0          20:  %4 = call f(%arg1)
       %2 = call f(%arg0)           %5 = call @200(%1)
       br 20                        ret
>> *)
Definition exIntr : function :=
  [ mkBlock 10 [I_ 1 (Op 1 [VArg 0]); I_ 2 (Call (VFunc 100) [VArg 0]); I_ 3 (Br 20)];
    mkBlock 20 [I_ 4 (Call (VFunc 100) [VArg 1]); I_ 5 (Call (VFunc 200) [VInst 1]);
                I_ 6 (Ret None)] ].

(** The claims as the specification words them, for comparison with the
    code. *)

(** The incoming pairs of an argument PHI carry the call sites' original
    arguments. *)
Definition originalArgs (F : function) (toParent : list (instid * blockid))
  (callers : list instid) (i : nat) (inc : list (value * blockid)) : Prop :=
  Forall2 (fun c p => olookup c toParent = Some (snd p) /\ fst p = getArgOperand F c i)
          callers inc.

(** The tags 0..k-1 go to the call sites' predecessor blocks in first-seen
    order. *)
Definition firstSeenTags (toParent : list (instid * blockid)) (callers : list instid)
  (inc : list (value * blockid)) : Prop :=
  Forall2 (fun c p => olookup c toParent = Some (snd p)) callers inc /\
  map fst inc = tagsFrom 0 (List.length callers).

(** An ineligible call is left as it is. *)
Definition leftUnchanged (F' : function) (I : instruction) : Prop := In I (allInsts F').

(** * Further instances and notions *)

(** One direct call of [f] and one of the intrinsic 200: no target is
    called twice.
<<
  10:  %1 = call f(%arg0)
       %2 = call @200(%1)
       ret
>> *)
Definition exOnce : function :=
  [ mkBlock 10 [I_ 1 (Call (VFunc 100) [VArg 0]); I_ 2 (Call (VFunc 200) [VInst 1]);
                I_ 3 (Ret None)] ].

(** The number of blocks the merged groups add: the shared block and one
    continuation block per call site. *)
Definition newBlocks (groups : list (funcid * list instid)) : nat :=
  list_sum (map (fun g => Datatypes.S (List.length (snd g))) (merged groups)).

(** The operand [v] after every use of one of [callers] has been replaced
    by the instruction [w]. *)
Definition redirect (callers : list instid) (w : instid) (v : value) : value :=
  match v with
  | VInst c => if inb c callers then VInst w else v
  | _ => v
  end.

(** The instruction list [l] ends with the instruction [x]. *)
Definition endsWith (x : instruction) (l : list instruction) : Prop :=
  exists l0, l = l0 ++ [x].

(** [x] is an unconditional branch. *)
Definition isBr (x : instruction) : bool :=
  match ikd x with Br _ => true | _ => false end.

(** Instructions no operand rewriting changes: stack slots and casts of a
    constant. *)
Definition inert (x : instruction) : bool :=
  match ikd x with
  | Alloca _ => true
  | BitCast (VConstInt _ _) => true
  | _ => false
  end.

(** The instruction list [l] starts with [pre], followed by at least [n]
    more instructions. *)
Definition startsWith (pre : list instruction) (n : nat) (l : list instruction) : Prop :=
  exists tail, l = pre ++ tail /\ (n <= List.length tail)%nat.

(** The head of the entry block: the allocas [A] and [S], then allocas
    [news] whose addresses are not among [old], then the alloca insertion
    point [ap], then at least [n] more instructions. *)
Definition atAllocaPoint (A S : list instruction) (ap : instruction)
  (old : list instid) (n : nat) (l : list instruction) : Prop :=
  exists news tail,
    l = A ++ (S ++ news) ++ ap :: tail /\
    Forall (fun s => isAlloca s = true) news /\
    Forall (fun s => ~ In (iid s) old) news /\
    (n <= List.length tail)%nat.

(** * Notions for the alloca insertion point *)





(** * What the pass keeps of an instruction

    Demotion redirects operands to reloads, and nothing else happens to
    an instruction that is not one of the merged calls. *)

Definition isLoad (I : instruction) : bool :=
  match ikd I with Load _ => true | _ => false end.

(** [r] is the address of a load instruction of [F]. *)
Definition loadAt (F : function) (r : instid) : Prop :=
  exists L, In L (allInsts F) /\ iid L = r /\ isLoad L = true.

(** An operand before ([v]) and after ([v']): the same value, or, for
    an instruction result, the address of a load instruction of [F']. *)
Definition reloaded (F' : function) (v v' : value) : Prop :=
  v' = v \/ exists x r, v = VInst x /\ v' = VInst r /\ loadAt F' r.

(** The kind of an instruction without its operands. *)
Definition skeleton (k : ikind) : ikind := mapOperands (fun _ => VUndef) k.

(** [I'] is what became of [I]: same address, name and type; a PHI node
    is still a PHI node; any other instruction has the same kind, with
    operands that are the same or were redirected to a load of [F']. *)
Definition kept (F' : function) (I I' : instruction) : Prop :=
  iid I' = iid I /\ iname I' = iname I /\ ity I' = ity I /\
  (isPHI I = true -> isPHI I' = true) /\
  (isPHI I = false ->
   skeleton (ikd I') = skeleton (ikd I) /\
   Forall2 (reloaded F') (operands (ikd I)) (operands (ikd I'))).

(** From [F] to [F'] the load instructions stay, and so does every
    instruction whose address satisfies [K]. *)
Definition keeps (K : instid -> Prop) (F F' : function) : Prop :=
  (forall r, loadAt F r -> loadAt F' r) /\
  (forall I, In I (allInsts F) -> K (iid I) ->
     exists I', In I' (allInsts F') /\ kept F' I I').

(** The instruction list ends with an instruction that is no load and
    whose address is none of [old]. *)
Definition endsFresh (old : list instid) (l : list instruction) : Prop :=
  exists l0 y, l = l0 ++ [y] /\ ~ In (iid y) old /\ isLoad y = false.

(** A step that keeps every instruction and adds or changes PHI nodes
    only. *)
Definition quiet (G G' : function) : Prop :=
  (forall K, keeps K G G') /\
  (forall I, In I (allInsts G') -> isPHI I = false -> In I (allInsts G)).

(** * Reloads

    What [DemoteRegToStack] leaves behind for a demoted instruction [x]:
    a stack slot in the entry block, a store of [x] into the slot, and
    loads from the slot in place of the uses of [x]. *)

(** The instruction produces a value: it is no store and no
    terminator. *)
Definition yields (I : instruction) : bool :=
  match ikd I with
  | Store _ _ | Br _ | CondBr _ _ _ | Switch _ _ _ | Ret _ | Unreachable => false
  | _ => true
  end.

(** An operand that is an instruction result names an instruction of [F]
    that produces a value. *)
Definition defined (F : function) (v : value) : Prop :=
  forall x, v = VInst x -> exists X, In X (allInsts F) /\ iid X = x /\ yields X = true.

(** Every operand of [F] is defined. *)
Definition closed (F : function) : Prop :=
  forall I v, In I (allInsts F) -> In v (operands (ikd I)) -> defined F v.

(** [r] is the address of a load from [s]; some store puts [w] into
    [s]. *)
Definition loadFrom (F : function) (r s : instid) : Prop :=
  exists L, In L (allInsts F) /\ iid L = r /\ ikd L = Load (VInst s).
Definition storeTo (F : function) (w : value) (s : instid) : Prop :=
  exists S, In S (allInsts F) /\ ikd S = Store w (VInst s).

(** The instruction [X] sits in the list [l] and no call comes before it
    there; the same for the block [E] of [F]. *)
Definition leadsIn (l : list instruction) (X : instruction) : Prop :=
  exists pre post, l = pre ++ X :: post /\ Forall (fun x => isCall x = false) pre.
Definition leads (E : blockid) (F : function) (X : instruction) : Prop :=
  leadsIn (blockInsts F E) X.

(** [s] is the address of a stack slot: an alloca of the block [E] that
    no call precedes. *)
Definition slotIn (E : blockid) (F : function) (s : instid) : Prop :=
  exists A, leads E F A /\ iid A = s /\ isAlloca A = true.

(** [spilled Sl B F v v']: in [F] the operand [v'] stands for [v].  It is
    [v] itself, or the call [ci] that replaced a merged call ([B c ci]),
    or a load from a stack slot into which [F] stores a value that
    stands for [v]. *)
Inductive spilled (Sl : instid -> Prop) (B : instid -> instid -> Prop) (F : function)
  (v : value) : value -> Prop :=
| sp_same : spilled Sl B F v v
| sp_merge c ci :
    spilled Sl B F v (VInst c) -> B c ci ->
    spilled Sl B F v (VInst ci)
| sp_load w s r :
    spilled Sl B F v w -> Sl s -> storeTo F w s -> defined F w -> loadFrom F r s ->
    spilled Sl B F v (VInst r).

(** From [G] to [G']: the stack slots stay; the loads from them stay;
    a store of a defined value into one of them stays, with a value that
    stands for the one it had; the calls that replaced merged calls
    stay; and every instruction whose address satisfies [K], PHI nodes
    apart, stays with the same kind and with operands that stand for the
    ones it had. *)
Definition tracks (Sl Sl' : instid -> Prop) (B : instid -> instid -> Prop)
  (K : instid -> Prop) (G G' : function) : Prop :=
  (forall s, Sl s -> Sl' s) /\
  (forall r s, Sl s -> loadFrom G r s -> loadFrom G' r s) /\
  (forall w s, Sl s -> storeTo G w s -> defined G w ->
     exists w', storeTo G' w' s /\ spilled Sl' B G' w w' /\ defined G' w') /\
  (forall I, In I (allInsts G) -> K (iid I) -> isPHI I = false ->
     exists I', In I' (allInsts G') /\ iid I' = iid I /\
                skeleton (ikd I') = skeleton (ikd I) /\
                Forall2 (fun v v' => defined G v ->
                                     spilled Sl' B G' v v' /\ defined G' v')
                        (operands (ikd I)) (operands (ikd I'))).

(** The image of an instruction under a step that rewrites operands:
    same address, same kind, operands related by [R]. *)
Definition img (R : value -> value -> Prop) (I I' : instruction) : Prop :=
  iid I' = iid I /\ skeleton (ikd I') = skeleton (ikd I) /\
  Forall2 R (operands (ikd I)) (operands (ikd I')).

(** What one demotion does to an operand while its store is still to
    come: nothing, or a load from [slot] in place of [x]. *)
Definition pending (x slot : instid) (F' : function) (v v' : value) : Prop :=
  v' = v \/ (v = VInst x /\ exists ld, v' = VInst ld /\ loadFrom F' ld slot).

(** What [ourBranch->getPrevNode()] can be: the branch at [b] that
    [splitBasicBlock] made, or, had that branch itself been demoted, the
    store of its result. *)
Definition victim (b : instid) (old : list instid) (y : instruction) : Prop :=
  (iid y = b /\ isBr y = true) \/
  (exists p, ikd y = Store (VInst b) p /\ ~ In (iid y) old /\
             forall x, In x old -> usesb x y = true -> x = b).

(** [y] is no alloca of the block [E], or sits in another block. *)
Definition notSlot (E : blockid) (F : function) (y : instid) : Prop :=
  (exists Y, In Y (allInsts F) /\ iid Y = y /\ isAlloca Y = false) \/
  (exists P, P <> E /\ In y (map iid (blockInsts F P))).
(** [v] is spilled nowhere: the function stores it in no slot, and it is
    not the result of a call that was merged. *)
Definition unspilled (Sl : instid -> Prop) (B : instid -> instid -> Prop) (F : function)
  (v : value) : Prop :=
  (forall s, Sl s -> ~ storeTo F v s) /\ (forall c ci, v = VInst c -> ~ B c ci).

(** The callee or an argument [v] of an instruction of [F] and what is
    in its place, [v'], in [F']. *)
Definition standsFor (Sl : instid -> Prop) (B : instid -> instid -> Prop)
  (F F' : function) (v v' : value) : Prop :=
  reloaded F' v v' /\
  (defined F v -> spilled Sl B F' v v' /\ (unspilled Sl B F' v -> v' = v)).

Section Merged.
Variable alloc : list positive -> positive.
Variable uniqueName : function -> string -> string.
Variable arg_types : funcid -> list typ.
Variable ret_type : funcid -> typ.

(** [c] is a call site of a group that is merged while the pass works
    through [groups], starting in [F], and [ci] is the address of the
    call instruction created for that group (line 117). *)
Definition mergedBy (groups : list (funcid * list instid)) (F : function)
  (c ci : instid) : Prop :=
  exists gs1 t callers gs2,
    groups = gs1 ++ (t, callers) :: gs2 /\
    (1 <? List.length callers)%nat = true /\ In c callers /\
    ci = callInstrOf alloc uniqueName arg_types
           (fold_left (mergeGroup alloc uniqueName arg_types ret_type) gs1 F) t callers.

Definition mergedInto (isIntrinsic : funcid -> bool) (F : function) (c ci : instid) : Prop :=
  mergedBy (collect isIntrinsic F) F c ci.
End Merged.

(** * Basic facts about the relation between states *)

Section Relation.
Variable S : instid -> Prop.

Lemma inst_rel_refl i : inst_rel S i i.
Proof. repeat split; auto. Qed.

Lemma lrel_refl l : lrel S l l.
Proof. induction l; constructor; auto using inst_rel_refl. Qed.

Lemma inst_rel_trans i1 i2 i3 :
  inst_rel S i1 i2 -> inst_rel S i2 i3 -> inst_rel S i1 i3.
Proof.
  intros (a1 & b1 & c1) (a2 & b2 & c2). repeat split; try congruence.
  intros y Hy Hu. auto.
Qed.

Lemma lrel_trans l1 l2 l3 : lrel S l1 l2 -> lrel S l2 l3 -> lrel S l1 l3.
Proof.
  intros H12 H23. revert l1 H12.
  induction H23 as [| i2 i3 l2 l3 Hi H23 IH | n l2 l3 Hn H23 IH]; intros l1 H12.
  - exact H12.
  - inversion H12; subst.
    + apply lrel_keep; eauto using inst_rel_trans.
    + apply lrel_ins; auto. destruct Hi as (_ & Hv & _). congruence.
  - apply lrel_ins; auto.
Qed.

Lemma lrel_marks l l' : lrel S l l' -> marks l = marks l'.
Proof.
  induction 1 as [| i i' l l' Hi H IH | n l l' Hn H IH]; simpl; auto.
  - destruct Hi as (_ & Hv & _). rewrite Hv, IH. reflexivity.
  - rewrite Hn. simpl. exact IH.
Qed.

Lemma lrel_In l l' i :
  lrel S l l' -> In i l -> exists i', In i' l' /\ inst_rel S i i'.
Proof.
  induction 1 as [| j j' l l' Hj H IH | n l l' Hn H IH]; simpl; intros Hin.
  - contradiction.
  - destruct Hin as [-> | Hin]; eauto.
    destruct (IH Hin) as (i' & ? & ?); eauto.
  - destruct (IH Hin) as (i' & ? & ?); eauto.
Qed.

Lemma lrel_ids l l' x : lrel S l l' -> In x (map iid l) -> In x (map iid l').
Proof.
  intros H Hin. apply in_map_iff in Hin. destruct Hin as (i & <- & Hin).
  destruct (lrel_In _ _ _ H Hin) as (i' & Hin' & (He & _)).
  rewrite He. apply in_map. exact Hin'.
Qed.

Lemma lrel_app l1 l1' l2 l2' :
  lrel S l1 l1' -> lrel S l2 l2' -> lrel S (l1 ++ l2) (l1' ++ l2').
Proof. induction 1; simpl; intros; auto; constructor; auto. Qed.

Lemma lrel_insertNth k n l : view n = None -> lrel S l (insertNth k n l).
Proof.
  intros Hn. unfold insertNth.
  rewrite <- (firstn_skipn k l) at 1.
  apply lrel_app; [apply lrel_refl|]. apply lrel_ins; auto using lrel_refl.
Qed.

Lemma brel_refl b : brel S b b.
Proof. repeat split; auto using lrel_refl. Qed.

Lemma frel_refl F : frel S F F.
Proof. induction F; constructor; auto using brel_refl. Qed.

Lemma brel_trans b1 b2 b3 : brel S b1 b2 -> brel S b2 b3 -> brel S b1 b3.
Proof.
  intros (a1 & r1 & e1) (a2 & r2 & e2). repeat split; try congruence.
  - eapply lrel_trans; eauto.
  - auto.
Qed.

Lemma frel_trans F1 F2 F3 : frel S F1 F2 -> frel S F2 F3 -> frel S F1 F3.
Proof.
  intros H12. revert F3. induction H12; intros F3 H23; inversion H23; subst.
  - constructor.
  - constructor; eauto using brel_trans. apply IHForall2; auto.
Qed.

Lemma frel_bids F F' : frel S F F' -> bids F = bids F'.
Proof.
  unfold bids. induction 1 as [| b b' F F' (Hb & _) H IH]; simpl; auto. congruence.
Qed.

Lemma frel_bview F F' : frel S F F' -> bview F = bview F'.
Proof.
  unfold bview. induction 1 as [| b b' F F' (Hb & Hl & _) H IH]; simpl; auto.
  rewrite Hb, (lrel_marks _ _ Hl), IH. reflexivity.
Qed.

Lemma frel_In F F' i :
  frel S F F' -> In i (allInsts F) -> exists i', In i' (allInsts F') /\ inst_rel S i i'.
Proof.
  induction 1 as [| b b' F F' (Hb & Hl & _) H IH]; simpl; intros Hin.
  - contradiction.
  - apply in_app_or in Hin. destruct Hin as [Hin | Hin].
    + destruct (lrel_In _ _ _ Hl Hin) as (i' & ? & ?).
      exists i'. split; auto. apply in_or_app; auto.
    + destruct (IH Hin) as (i' & ? & ?).
      exists i'. split; auto. apply in_or_app; auto.
Qed.
End Relation.

Lemma inst_rel_mono (S S' : instid -> Prop) i i' :
  (forall y, S y -> S' y) -> inst_rel S i i' -> inst_rel S' i i'.
Proof.
  intros HS (a & b & c). repeat split; auto.
Qed.

Lemma lrel_mono (S S' : instid -> Prop) l l' :
  (forall y, S y -> S' y) -> lrel S l l' -> lrel S' l l'.
Proof.
  intros HS. induction 1; constructor; eauto using inst_rel_mono.
Qed.

Lemma frel_mono (S S' : instid -> Prop) F F' :
  (forall y, S y -> S' y) -> frel S F F' -> frel S' F F'.
Proof.
  intros HS. induction 1 as [| b b' F F' (Hb & Hl & He) H IH]; constructor; auto.
  repeat split; eauto using lrel_mono.
Qed.

(** * Lists *)

Lemma NoDup_app_inv {A} (l1 l2 : list A) :
  NoDup (l1 ++ l2) -> NoDup l1 /\ NoDup l2 /\ forall a, In a l1 -> ~ In a l2.
Proof.
  induction l1 as [| x l1 IH]; simpl; intros H.
  - repeat split; auto. constructor.
  - inversion H; subst. destruct (IH H3) as (a1 & a2 & a3).
    repeat split; auto.
    + constructor; auto. intros Hx. apply H2. apply in_or_app; auto.
    + intros a [<- | Ha]; auto. intros Hx. apply H2. apply in_or_app; auto.
Qed.

(** * Views and addresses under the primitives *)

Lemma block_eta b : mkBlock (bid b) (insts b) = b.
Proof. destruct b; reflexivity. Qed.

Lemma marks_app l1 l2 : marks (l1 ++ l2) = marks l1 ++ marks l2.
Proof. unfold marks. apply flat_map_app. Qed.

Lemma marks_insertNth k n l : view n = None -> marks (insertNth k n l) = marks l.
Proof.
  intros Hn. unfold insertNth. rewrite marks_app. simpl. rewrite Hn. simpl.
  rewrite <- marks_app, firstn_skipn. reflexivity.
Qed.

Lemma ids_app F G : ids (F ++ G) = ids F ++ ids G.
Proof. unfold ids. apply flat_map_app. Qed.

Lemma allMarks_bview F : allMarks F = flat_map snd (bview F).
Proof.
  unfold allMarks, bview. induction F; simpl; auto. rewrite IHF. reflexivity.
Qed.

Lemma ids_allInsts F : ids F = map iid (allInsts F).
Proof.
  unfold ids, allInsts. induction F; simpl; auto. rewrite map_app, IHF. reflexivity.
Qed.

Lemma map_iid_insertNth k n l :
  Permutation (map iid (insertNth k n l)) (iid n :: map iid l).
Proof.
  unfold insertNth. rewrite map_app. simpl.
  rewrite <- (firstn_skipn k l) at 3. rewrite map_app.
  symmetry. apply Permutation_middle.
Qed.

Lemma bids_insertAt pos n F : bids (insertAt pos n F) = bids F.
Proof.
  unfold bids. induction F as [| b F IH]; simpl; auto.
  destruct (pos b); simpl; congruence.
Qed.

Lemma ids_insertAt pos n F :
  insertAt pos n F = F \/ Permutation (ids (insertAt pos n F)) (iid n :: ids F).
Proof.
  induction F as [| b F IH]; simpl; auto.
  destruct (pos b) as [k|].
  - right. unfold ids. simpl. fold (ids F).
    rewrite (map_iid_insertNth k n (insts b)). reflexivity.
  - destruct IH as [IH | IH]; [left; congruence | right].
    unfold ids in *. simpl.
    eapply perm_trans; [apply Permutation_app_head; exact IH|].
    symmetry. apply Permutation_middle.
Qed.

Lemma NoDup_insertAt pos n F :
  NoDup (ids F) -> ~ In (iid n) (ids F) -> NoDup (ids (insertAt pos n F)).
Proof.
  intros Hnd Hn. destruct (ids_insertAt pos n F) as [-> | Hp]; auto.
  eapply Permutation_NoDup; [symmetry; exact Hp|]. constructor; auto.
Qed.

Lemma ids_insertAt_incl pos n F : incl (ids F) (ids (insertAt pos n F)).
Proof.
  destruct (ids_insertAt pos n F) as [-> | Hp]; [apply incl_refl|].
  intros x Hx. eapply Permutation_in; [symmetry; exact Hp|]. right; auto.
Qed.

Lemma ids_insertAt_sub pos n F : incl (ids (insertAt pos n F)) (iid n :: ids F).
Proof.
  destruct (ids_insertAt pos n F) as [-> | Hp]; [apply incl_tl, incl_refl|].
  intros x Hx. eapply Permutation_in; [exact Hp|]. auto.
Qed.

Lemma bview_insertAt pos n F : view n = None -> bview (insertAt pos n F) = bview F.
Proof.
  intros Hn. unfold bview. induction F as [| b F IH]; simpl; auto.
  destruct (pos b) as [k|]; simpl.
  - rewrite marks_insertNth; auto.
  - rewrite IH. reflexivity.
Qed.

Lemma insertAt_frel S pos n F :
  view n = None ->
  (forall b k, pos b = Some k -> insts b <> []) ->
  frel S F (insertAt pos n F).
Proof.
  intros Hn Hpos. induction F as [| b F IH]; simpl.
  - constructor.
  - destruct (pos b) as [k|] eqn:Hp.
    + constructor; [| apply frel_refl].
      repeat split; simpl; auto using lrel_insertNth.
      intros He. exfalso. eapply Hpos; eauto.
    + constructor; auto using brel_refl.
Qed.

Lemma bids_mapInsts g F : bids (mapInsts g F) = bids F.
Proof. unfold bids, mapInsts. rewrite map_map. reflexivity. Qed.

Lemma ids_mapInsts g F : (forall i, iid (g i) = iid i) -> ids (mapInsts g F) = ids F.
Proof.
  intros Hg. unfold ids, mapInsts. induction F as [| b F IH]; simpl; auto.
  rewrite IH, map_map. f_equal. apply map_ext. auto.
Qed.

Lemma lrel_map S g l :
  (forall i, In i l -> inst_rel S i (g i)) -> lrel S l (map g l).
Proof.
  induction l; simpl; intros H; constructor; auto.
Qed.

Lemma mapInsts_frel S g F :
  (forall i, In i (allInsts F) -> inst_rel S i (g i)) -> frel S F (mapInsts g F).
Proof.
  unfold mapInsts, allInsts. induction F as [| b F IH]; simpl; intros H; constructor.
  - repeat split; simpl.
    + apply lrel_map. intros i Hi. apply H. apply in_or_app; auto.
    + intros ->. reflexivity.
  - apply IH. intros i Hi. apply H. apply in_or_app; auto.
Qed.

Lemma bids_eraseFromParent c F : bids (eraseFromParent c F) = bids F.
Proof. unfold bids, eraseFromParent. rewrite map_map. reflexivity. Qed.

Lemma bids_erasePrev c F : bids (erasePrev c F) = bids F.
Proof. unfold bids, erasePrev. rewrite map_map. reflexivity. Qed.

(** * Looking instructions up *)

Lemma findIn_Some i l x : findIn i l = Some x -> In x l /\ iid x = i.
Proof.
  induction l as [| y l IH]; simpl; [discriminate|].
  destruct (Pos.eqb_spec (iid y) i).
  - intros [= ->]. auto.
  - intros H. destruct (IH H). auto.
Qed.

Lemma findIn_None i l : findIn i l = None <-> ~ In i (map iid l).
Proof.
  induction l as [| y l IH]; simpl; [tauto|].
  destruct (Pos.eqb_spec (iid y) i); split; try discriminate; try tauto.
Qed.

Lemma findIn_NoDup l x : NoDup (map iid l) -> In x l -> findIn (iid x) l = Some x.
Proof.
  induction l as [| y l IH]; simpl; [tauto|].
  intros Hnd [-> | Hin].
  - rewrite Pos.eqb_refl. reflexivity.
  - inversion Hnd; subst. destruct (Pos.eqb_spec (iid y) (iid x)) as [e|]; auto.
    exfalso. apply H1. rewrite e. apply in_map. exact Hin.
Qed.

Lemma findInst_Some F i x : findInst F i = Some x -> In x (allInsts F) /\ iid x = i.
Proof.
  unfold allInsts. induction F as [| b F IH]; simpl; [discriminate|].
  destruct (findIn i (insts b)) eqn:E.
  - intros [= ->]. apply findIn_Some in E. destruct E. split; auto. apply in_or_app; auto.
  - intros H. destruct (IH H). split; auto. apply in_or_app; auto.
Qed.

Lemma findInst_None F i : findInst F i = None <-> ~ In i (ids F).
Proof.
  unfold ids. induction F as [| b F IH]; simpl; [tauto|].
  destruct (findIn i (insts b)) eqn:E.
  - split; [discriminate|]. intros H. exfalso. apply H. apply in_or_app. left.
    apply findIn_Some in E. destruct E as [? <-]. apply in_map; auto.
  - apply findIn_None in E. rewrite IH. rewrite in_app_iff. tauto.
Qed.

Lemma findInst_NoDup F x : NoDup (ids F) -> In x (allInsts F) -> findInst F (iid x) = Some x.
Proof.
  unfold ids, allInsts. induction F as [| b F IH]; simpl; [tauto|].
  intros Hnd Hin. apply in_app_or in Hin.
  destruct Hin as [Hin | Hin].
  - rewrite findIn_NoDup; auto. eapply NoDup_app_remove_r; eauto.
  - destruct (findIn (iid x) (insts b)) eqn:E.
    + exfalso. apply findIn_Some in E. destruct E as [E1 E2].
      apply NoDup_app_inv in Hnd. destruct Hnd as (_ & _ & Hd).
      apply (Hd (iid x)).
      * rewrite <- E2. apply in_map; auto.
      * change (In (iid x) (ids F)). rewrite ids_allInsts. apply in_map. exact Hin.
    + apply IH; auto. eapply NoDup_app_remove_l; eauto.
Qed.

(** * Operand rewriting keeps the views *)

Lemma operands_mapOperands g k : operands (mapOperands g k) = map g (operands k).
Proof.
  destruct k as [| c args | inc | | | | | | v d cases | [v|] | |]; simpl; auto.
  - rewrite map_app. reflexivity.
  - rewrite !map_map. reflexivity.
  - rewrite !map_map. reflexivity.
Qed.

Lemma absv_eq_inv a b :
  absv a = absv b -> a = b \/ (exists i j, a = VInst i /\ b = VInst j).
Proof.
  destruct a, b; simpl; intros H; try discriminate; try (left; congruence).
  right; eauto.
Qed.

Lemma view_mapOperands g I :
  (forall v, absv (g v) = absv v) ->
  view (setKind I (mapOperands g (ikd I))) = view I.
Proof.
  intros Hg. unfold view, isAllocaPoint. destruct I as [i nm ty k]. simpl.
  destruct k as [| c args | inc | | | v | | | v d cases | [v|] | |]; simpl; auto.
  - rewrite Hg, map_map. do 2 f_equal. apply map_ext. auto.
  - destruct (absv_eq_inv _ _ (Hg v)) as [-> | (a & b & E1 & ->)]; auto.
    rewrite E1. reflexivity.
Qed.

Lemma absv_substValue x l v : absv (substValue x (VInst l) v) = absv v.
Proof.
  unfold substValue. destruct v; simpl; auto. destruct (Pos.eqb i x); auto.
Qed.

Lemma view_replaceUsesOfWith x l I : view (replaceUsesOfWith x (VInst l) I) = view I.
Proof. apply view_mapOperands. apply absv_substValue. Qed.

Lemma isVInst_true y v : isVInst y v = true <-> v = VInst y.
Proof.
  destruct v; simpl; split; try discriminate.
  - intros H. apply Pos.eqb_eq in H. congruence.
  - intros [= ->]. apply Pos.eqb_refl.
Qed.

Lemma usesb_In y I : usesb y I = true <-> In (VInst y) (operands (ikd I)).
Proof.
  unfold usesb. rewrite existsb_exists. split.
  - intros (v & Hin & Hv). apply isVInst_true in Hv. congruence.
  - intros H. exists (VInst y). split; auto. apply isVInst_true; auto.
Qed.

Lemma usesb_replaceUsesOfWith x w y I :
  y <> x -> usesb y I = true -> usesb y (replaceUsesOfWith x w I) = true.
Proof.
  intros Hne. rewrite !usesb_In. unfold replaceUsesOfWith. simpl.
  rewrite operands_mapOperands. intros H.
  apply in_map_iff. exists (VInst y). split; auto.
  unfold substValue. simpl. destruct (Pos.eqb_spec y x); congruence.
Qed.

Lemma inst_rel_replaceUsesOfWith x l I :
  inst_rel (eq x) I (replaceUsesOfWith x (VInst l) I).
Proof.
  repeat split.
  - apply eq_sym, view_replaceUsesOfWith.
  - intros y Hy. apply usesb_replaceUsesOfWith. congruence.
Qed.

(** * Steps *)

Lemma gstep_refl S F : gstep S F F.
Proof. intros H. split; auto using frel_refl. Qed.

Lemma gstep_trans S F1 F2 F3 : gstep S F1 F2 -> gstep S F2 F3 -> gstep S F1 F3.
Proof.
  intros H12 H23 Hnd. destruct (H12 Hnd) as [a b]. destruct (H23 b) as [c d].
  split; auto. eapply frel_trans; eauto.
Qed.

Lemma gstep_mono (S S' : instid -> Prop) F F' :
  (forall y, S y -> S' y) -> gstep S F F' -> gstep S' F F'.
Proof.
  intros HS H Hnd. destruct (H Hnd). split; auto. eapply frel_mono; eauto.
Qed.

Lemma allInsts_insertAt pos n F : incl (allInsts F) (allInsts (insertAt pos n F)).
Proof.
  unfold allInsts. induction F as [| b F IH]; simpl; [apply incl_refl|].
  destruct (pos b) as [k|]; simpl.
  - apply incl_app; [| apply incl_appr, incl_refl].
    apply incl_appl. unfold insertNth. intros i Hi.
    rewrite <- (firstn_skipn k (insts b)) in Hi.
    apply in_app_or in Hi. apply in_or_app. simpl. tauto.
  - apply incl_app; [apply incl_appl, incl_refl | apply incl_appr, IH].
Qed.

Lemma ids_mapInsts_in g F :
  (forall i, In i (allInsts F) -> iid (g i) = iid i) -> ids (mapInsts g F) = ids F.
Proof.
  unfold ids, mapInsts, allInsts. induction F as [| b F IH]; simpl; auto.
  intros Hg. rewrite IH, map_map.
  - f_equal. apply map_ext_in. intros i Hi. apply Hg. apply in_or_app; auto.
  - intros i Hi. apply Hg. apply in_or_app; auto.
Qed.

Lemma updInst_gstep S u g F :
  (forall i, In i (allInsts F) -> iid i = u -> inst_rel S i (g i)) ->
  gstep S F (updInst u g F).
Proof.
  intros Hg Hnd. unfold updInst.
  assert (Hrel : forall i, In i (allInsts F) ->
                           inst_rel S i (if Pos.eqb (iid i) u then g i else i)).
  { intros i Hi. destruct (Pos.eqb_spec (iid i) u); auto using inst_rel_refl. }
  split.
  - apply mapInsts_frel. exact Hrel.
  - rewrite ids_mapInsts_in; auto. intros i Hi.
    destruct (Hrel i Hi) as (e & _). auto.
Qed.

Section Demote.
Variable alloc : list positive -> positive.
Hypothesis alloc_fresh : forall l, ~ In (alloc l) l.
Variable uniqueName : function -> string -> string.
Hypothesis uniqueName_prefix :
  forall F nm, String.prefix nm (uniqueName F nm) = true.

Lemma insert_gstep S pos n F :
  view n = None ->
  (forall b k, pos b = Some k -> insts b <> []) ->
  iid n = alloc (ids F) ->
  gstep S F (insertAt pos n F).
Proof.
  intros Hn Hpos Hid Hnd. split.
  - apply insertAt_frel; auto.
  - apply NoDup_insertAt; auto. rewrite Hid. apply alloc_fresh.
Qed.

Lemma indexOf_nonempty i b k : indexOf i (insts b) = Some k -> insts b <> [].
Proof. destruct (insts b); simpl; congruence. Qed.

Lemma posBefore_nonempty i b k : posBefore i b = Some k -> insts b <> [].
Proof. apply indexOf_nonempty. Qed.

Lemma posTerminator_nonempty B b k : posTerminator B b = Some k -> insts b <> [].
Proof.
  unfold posTerminator, getTerminator.
  destruct (Pos.eqb (bid b) B); [| discriminate].
  destruct (insts b); simpl; congruence.
Qed.

Lemma posAfterSkipPHI_nonempty i b k : posAfterSkipPHI i b = Some k -> insts b <> [].
Proof.
  unfold posAfterSkipPHI. destruct (indexOf i (insts b)) eqn:E; [| discriminate].
  intros _. eapply indexOf_nonempty; eauto.
Qed.

Lemma view_mkReload ld nm ty slot : view (mkReload ld nm ty slot) = None.
Proof. reflexivity. Qed.

Lemma demotePHILoop_gstep S x slot nm ty inc :
  forall Loads F, gstep S F (fst (demotePHILoop alloc uniqueName x slot nm ty inc Loads F)).
Proof.
  induction inc as [| [v b] inc IH]; simpl; intros Loads F.
  - apply gstep_refl.
  - destruct (isVInst x v); [| simpl; apply IH].
    destruct (olookup b Loads); simpl; [apply IH|].
    eapply gstep_trans; [| apply IH].
    apply insert_gstep; auto. apply posTerminator_nonempty.
Qed.

Lemma demotePHILoop_keeps x slot nm ty y inc :
  y <> x ->
  forall Loads F,
    In (VInst y) (map fst inc) ->
    In (VInst y) (map fst (snd (demotePHILoop alloc uniqueName x slot nm ty inc Loads F))).
Proof.
  intros Hne. induction inc as [| [v b] inc IH]; simpl; intros Loads F; auto.
  intros [-> | Hin].
  - simpl. destruct (Pos.eqb_spec y x); [congruence|]. simpl. auto.
  - destruct (isVInst x v); [destruct (olookup b Loads)|]; simpl; right; apply IH; auto.
Qed.

Lemma demoteUser_gstep x slot nm ty F U :
  gstep (eq x) F (demoteUser alloc uniqueName x slot nm ty F U).
Proof.
  unfold demoteUser. destruct (findInst F U) as [UI|] eqn:EU; [| apply gstep_refl].
  intros Hnd.
  assert (HUI : In UI (allInsts F) /\ iid UI = U) by (apply findInst_Some; auto).
  destruct HUI as [HUI HUid].
  destruct (ikd UI) as [| c args | inc | | | | | | | | |] eqn:EK.
  3: {
    destruct (demotePHILoop_gstep (eq x) x slot nm ty inc [] F Hnd) as [Hf Hnd2].
    assert (H3 : In UI (allInsts (fst (demotePHILoop alloc uniqueName x slot nm ty inc [] F)))).
    { clear - HUI. generalize (@nil (blockid * value)).
      revert F HUI. induction inc as [| [v b] inc IH]; simpl; intros F HUI L; auto.
      destruct (isVInst x v); [destruct (olookup b L)|]; simpl; auto.
      apply IH. apply allInsts_insertAt. exact HUI. }
    assert (G2 : gstep (eq x) (fst (demotePHILoop alloc uniqueName x slot nm ty inc [] F))
                   (updInst U (fun PN => setKind PN
                      (PHI (snd (demotePHILoop alloc uniqueName x slot nm ty inc [] F))))
                      (fst (demotePHILoop alloc uniqueName x slot nm ty inc [] F)))).
    { apply updInst_gstep. intros i Hi Hid.
      assert (i = UI).
      { apply findInst_NoDup in H3; auto. apply findInst_NoDup in Hi; auto.
        rewrite HUid in H3. rewrite Hid in Hi. congruence. }
      subst i. repeat split.
      - unfold view, isAllocaPoint. simpl. rewrite EK. reflexivity.
      - intros y Hy. rewrite !usesb_In. simpl. rewrite EK. simpl.
        apply demotePHILoop_keeps. congruence. }
    destruct (G2 Hnd2) as [Hf2 Hnd3]. split; auto. eapply frel_trans; eauto. }
  all: revert Hnd; eapply gstep_trans;
    [ apply insert_gstep; [apply view_mkReload | apply posBefore_nonempty | reflexivity]
    | apply updInst_gstep; intros; apply inst_rel_replaceUsesOfWith ].
Qed.

Lemma fold_demoteUser_gstep x slot nm ty us :
  forall F, gstep (eq x) F (fold_left (demoteUser alloc uniqueName x slot nm ty) us F).
Proof.
  induction us as [| u us IH]; simpl; intros F.
  - apply gstep_refl.
  - eapply gstep_trans; [apply demoteUser_gstep | apply IH].
Qed.

Lemma DemoteRegToStack_gstep F x AllocaPoint :
  users F x <> [] -> gstep (eq x) F (DemoteRegToStack alloc uniqueName F x AllocaPoint).
Proof.
  intros Hu. unfold DemoteRegToStack.
  destruct (findInst F x) as [xi|]; [| apply gstep_refl].
  destruct (users F x) as [| u us] eqn:E; [congruence|].
  eapply gstep_trans; [eapply gstep_trans|].
  3: apply insert_gstep; [reflexivity | apply posAfterSkipPHI_nonempty | reflexivity].
  2: apply fold_demoteUser_gstep.
  apply insert_gstep; [reflexivity | apply posBefore_nonempty | reflexivity].
Qed.
End Demote.

(** * Marks and addresses *)

Lemma view_markId i m : view i = Some m -> markId m = iid i.
Proof.
  unfold view. destruct (ikd i); try (destruct (isAllocaPoint i)); intros [= <-]; reflexivity.
Qed.

Lemma marks_In m l : In m (marks l) -> exists i, In i l /\ view i = Some m.
Proof.
  unfold marks. rewrite in_flat_map. intros (i & Hi & Hm).
  exists i. split; auto. destruct (view i); simpl in Hm; [| contradiction].
  destruct Hm as [-> | []]. reflexivity.
Qed.

Lemma In_marks i m l : In i l -> view i = Some m -> In m (marks l).
Proof.
  intros Hi Hv. unfold marks. apply in_flat_map. exists i. split; auto.
  rewrite Hv. simpl. auto.
Qed.

Lemma marks_ids_incl l : incl (map markId (marks l)) (map iid l).
Proof.
  intros x Hx. apply in_map_iff in Hx. destruct Hx as (m & <- & Hm).
  apply marks_In in Hm. destruct Hm as (i & Hi & Hv).
  rewrite (view_markId _ _ Hv). apply in_map. exact Hi.
Qed.

Lemma marks_NoDup l : NoDup (map iid l) -> NoDup (map markId (marks l)).
Proof.
  induction l as [| i l IH]; simpl; intros H; [constructor|].
  inversion H; subst. destruct (view i) as [m|] eqn:Hv; simpl; auto.
  constructor; auto. rewrite (view_markId _ _ Hv).
  intros Hin. apply H2. apply marks_ids_incl. exact Hin.
Qed.

Lemma allMarks_ids_incl F : incl (map markId (allMarks F)) (ids F).
Proof.
  unfold allMarks, ids. induction F as [| b F IH]; simpl; [apply incl_refl|].
  rewrite map_app. apply incl_app.
  - apply incl_appl. apply marks_ids_incl.
  - apply incl_appr. exact IH.
Qed.

Lemma allMarks_NoDup F : NoDup (ids F) -> NoDup (map markId (allMarks F)).
Proof.
  unfold allMarks, ids. induction F as [| b F IH]; simpl; intros H; [constructor|].
  apply NoDup_app_inv in H. destruct H as (H1 & H2 & H3).
  rewrite map_app. apply NoDup_app; auto using marks_NoDup.
  intros a Ha Hb. apply (H3 a).
  - apply marks_ids_incl; auto.
  - apply allMarks_ids_incl in Hb. exact Hb.
Qed.

(** Decomposing a function along its view. *)

Lemma bview_app_inv F A1 A2 :
  bview F = A1 ++ A2 -> exists G1 G2, F = G1 ++ G2 /\ bview G1 = A1 /\ bview G2 = A2.
Proof.
  unfold bview. intros H. apply map_eq_app in H.
  destruct H as (G1 & G2 & -> & H1 & H2). eauto.
Qed.

Lemma bview_cons_inv F P M A :
  bview F = (P, M) :: A ->
  exists b G, F = b :: G /\ bid b = P /\ marks (insts b) = M /\ bview G = A.
Proof.
  destruct F as [| b G]; simpl; [discriminate|]. intros [= <- <- <-].
  exists b, G. auto.
Qed.

Lemma marks_cons_inv l m M :
  marks l = m :: M ->
  exists l1 i l2, l = l1 ++ i :: l2 /\ marks l1 = [] /\ view i = Some m /\ marks l2 = M.
Proof.
  induction l as [| i l IH]; simpl; [discriminate|].
  destruct (view i) as [m'|] eqn:Hv; simpl.
  - intros [= -> <-]. exists [], i, l. auto.
  - intros H. destruct (IH H) as (l1 & j & l2 & -> & H1 & H2 & H3).
    exists (i :: l1), j, l2. repeat split; auto. simpl. rewrite Hv. exact H1.
Qed.

Lemma marks_app_inv l M1 M2 :
  marks l = M1 ++ M2 -> exists l1 l2, l = l1 ++ l2 /\ marks l1 = M1 /\ marks l2 = M2.
Proof.
  revert l. induction M1 as [| m M1 IH]; simpl; intros l H.
  - exists [], l. auto.
  - apply marks_cons_inv in H. destruct H as (l1 & i & l2 & -> & H1 & H2 & H3).
    destruct (IH _ H3) as (l3 & l4 & -> & H4 & H5).
    exists (l1 ++ i :: l3), l4. rewrite <- app_assoc. simpl. repeat split; auto.
    rewrite marks_app. simpl. rewrite H1, H2. simpl. congruence.
Qed.

Lemma marks_mid_inv l M1 m M2 :
  marks l = M1 ++ m :: M2 ->
  exists l1 i l2, l = l1 ++ i :: l2 /\ marks l1 = M1 /\ view i = Some m /\ marks l2 = M2.
Proof.
  intros H. apply marks_app_inv in H. destruct H as (l1 & l2 & -> & H1 & H2).
  apply marks_cons_inv in H2. destruct H2 as (l3 & i & l4 & -> & H3 & H4 & H5).
  exists (l1 ++ l3), i, l4. rewrite <- app_assoc. repeat split; auto.
  rewrite marks_app, H1, H3. apply app_nil_r.
Qed.

(** * Erasing and moving *)

Lemma marks_erase c l :
  marks (filter (fun x => negb (Pos.eqb (iid x) c)) l)
  = filter (fun m => negb (Pos.eqb (markId m) c)) (marks l).
Proof.
  induction l as [| i l IH]; simpl; auto.
  destruct (view i) as [m|] eqn:Hv; simpl.
  - rewrite (view_markId _ _ Hv). destruct (Pos.eqb (iid i) c); simpl; auto.
    rewrite Hv. simpl. congruence.
  - destruct (Pos.eqb (iid i) c); simpl; auto. rewrite Hv. simpl. exact IH.
Qed.

Lemma countWhile_firstn p l : Forall (fun x => p x = true) (firstn (countWhile p l) l).
Proof.
  induction l as [| x l IH]; simpl; [constructor|].
  destruct (p x) eqn:E; simpl; constructor; auto.
Qed.

Lemma marks_plain l : Forall (fun x => view x = None) l -> marks l = [].
Proof.
  induction 1 as [| x l Hx H IH]; simpl; auto. rewrite Hx. exact IH.
Qed.

Lemma view_PHI x : isPHI x = true -> view x = None.
Proof.
  unfold isPHI, view, isAllocaPoint. destruct (ikd x); try discriminate. reflexivity.
Qed.

Lemma view_Alloca x : isAlloca x = true -> view x = None.
Proof.
  unfold isAlloca, view, isAllocaPoint. destruct (ikd x); try discriminate. reflexivity.
Qed.

Lemma marks_insert_lead p n l :
  (forall x, p x = true -> view x = None) ->
  marks (insertNth (countWhile p l) n l) = marks [n] ++ marks l.
Proof.
  intros Hp.
  assert (H0 : marks (firstn (countWhile p l) l) = []).
  { apply marks_plain. eapply Forall_impl; [| apply countWhile_firstn]. auto. }
  assert (H1 : marks l = marks (skipn (countWhile p l) l)).
  { rewrite <- (firstn_skipn (countWhile p l) l) at 1. rewrite marks_app, H0. reflexivity. }
  unfold insertNth. rewrite marks_app, H0.
  change (n :: skipn (countWhile p l) l) with ([n] ++ skipn (countWhile p l) l).
  rewrite marks_app, H1. reflexivity.
Qed.

(** * Splitting a block *)

Lemma indexOf_notin c l : ~ In c (map iid l) -> indexOf c l = None.
Proof.
  induction l as [| x l IH]; simpl; auto. intros H.
  destruct (Pos.eqb_spec (iid x) c); [tauto|]. rewrite IH; auto.
Qed.

Lemma indexOf_mid c l1 ci l2 :
  ~ In c (map iid l1) -> iid ci = c -> indexOf c (l1 ++ ci :: l2) = Some (List.length l1).
Proof.
  intros H Hc. induction l1 as [| x l1 IH]; simpl in *.
  - rewrite Hc, Pos.eqb_refl. reflexivity.
  - destruct (Pos.eqb_spec (iid x) c); [tauto|]. rewrite IH; auto.
Qed.

Lemma ids_In_block G b : In b G -> incl (map iid (insts b)) (ids G).
Proof.
  intros Hb x Hx. unfold ids. apply in_flat_map. eauto.
Qed.

Lemma getParent_mid G1 b G2 c :
  ~ In c (ids G1) -> In c (map iid (insts b)) -> getParent (G1 ++ b :: G2) c = Some (bid b).
Proof.
  induction G1 as [| a G1 IH]; simpl; intros H1 H2.
  - destruct (findIn c (insts b)) eqn:E; auto. apply findIn_None in E. tauto.
  - unfold ids in H1. simpl in H1. rewrite in_app_iff in H1.
    destruct (findIn c (insts a)) eqn:E.
    + apply findIn_Some in E. destruct E as [E1 E2]. exfalso. apply H1. left.
      rewrite <- E2. apply in_map; auto.
    + apply IH; auto.
Qed.

Lemma firstn_S_mid {A} (l1 : list A) x l2 :
  firstn (Datatypes.S (List.length l1)) (l1 ++ x :: l2) = l1 ++ [x].
Proof. induction l1; simpl; [destruct l2|]; simpl; f_equal; auto. Qed.

Lemma skipn_S_mid {A} (l1 : list A) x l2 :
  skipn (Datatypes.S (List.length l1)) (l1 ++ x :: l2) = l2.
Proof. induction l1; simpl; auto. Qed.

Lemma splitAt_mid G1 b G2 c l1 ci l2 R br :
  ~ In c (ids G1) -> insts b = l1 ++ ci :: l2 -> ~ In c (map iid l1) -> iid ci = c ->
  splitAt c R br (G1 ++ b :: G2)
  = G1 ++ mkBlock (bid b) (l1 ++ [ci; br]) :: mkBlock R l2 :: G2.
Proof.
  intros H1 Hb Hl Hc. induction G1 as [| a G1 IH]; simpl.
  - rewrite Hb, indexOf_mid; auto.
    change (match l1 ++ ci :: l2 with [] => [] | a :: l => a :: firstn (List.length l1) l end)
      with (firstn (Datatypes.S (List.length l1)) (l1 ++ ci :: l2)).
    change (match l1 ++ ci :: l2 with [] => [] | _ :: l => skipn (List.length l1) l end)
      with (skipn (Datatypes.S (List.length l1)) (l1 ++ ci :: l2)).
    rewrite firstn_S_mid, skipn_S_mid, <- app_assoc. reflexivity.
  - unfold ids in H1. simpl in H1. rewrite in_app_iff in H1.
    rewrite indexOf_notin by tauto. rewrite IH; auto.
Qed.

Lemma inst_rel_replaceIncomingBlockWith S Old New x :
  inst_rel S x (replaceIncomingBlockWith Old New x).
Proof.
  unfold replaceIncomingBlockWith. destruct (ikd x) eqn:E; try apply inst_rel_refl.
  repeat split.
  - unfold view, isAllocaPoint. simpl. rewrite E. reflexivity.
  - intros y _. rewrite !usesb_In. simpl. rewrite E. simpl. rewrite map_map. simpl. auto.
Qed.

Lemma lrel_replacePhiUsesWith S Old New l : lrel S l (replacePhiUsesWith Old New l).
Proof.
  induction l as [| x l IH]; simpl; [constructor|].
  destruct (isPHI x); [| apply lrel_refl].
  constructor; auto using inst_rel_replaceIncomingBlockWith.
Qed.

Lemma ids_replacePhiUsesWith Old New l :
  map iid (replacePhiUsesWith Old New l) = map iid l.
Proof.
  induction l as [| x l IH]; simpl; auto.
  destruct (isPHI x); simpl; auto. rewrite IH. f_equal.
  unfold replaceIncomingBlockWith. destruct (ikd x); reflexivity.
Qed.

Lemma replaceSuccessorsPhiUsesWith_gstep S succs Old New F :
  gstep S F (replaceSuccessorsPhiUsesWith succs Old New F).
Proof.
  intros Hnd. split.
  - unfold replaceSuccessorsPhiUsesWith. induction F as [| b F IH]; simpl; constructor.
    + destruct (existsb (Pos.eqb (bid b)) succs); [| apply brel_refl].
      repeat split; simpl; auto using lrel_replacePhiUsesWith.
      intros ->. reflexivity.
    + apply IH. unfold ids in Hnd. simpl in Hnd. eapply NoDup_app_remove_l; eauto.
  - replace (ids (replaceSuccessorsPhiUsesWith succs Old New F)) with (ids F); auto.
    clear Hnd. unfold ids, replaceSuccessorsPhiUsesWith.
    induction F as [| b F IH]; simpl; auto. rewrite <- IH. f_equal.
    destruct (existsb (Pos.eqb (bid b)) succs); simpl; auto.
    symmetry. apply ids_replacePhiUsesWith.
Qed.

Lemma splitBasicBlock_spec S G1 b G2 c l1 ci l2 R brId :
  ~ In c (ids G1) -> insts b = l1 ++ ci :: l2 -> ~ In c (map iid l1) -> iid ci = c ->
  gstep S (G1 ++ mkBlock (bid b) (l1 ++ [ci; mkInst brId "" TVoid (Br R)])
              :: mkBlock R l2 :: G2)
          (splitBasicBlock (G1 ++ b :: G2) c R brId).
Proof.
  intros H1 Hb Hl Hc. unfold splitBasicBlock.
  rewrite getParent_mid; auto.
  - erewrite splitAt_mid; eauto. apply replaceSuccessorsPhiUsesWith_gstep.
  - rewrite Hb, map_app. apply in_or_app. right. simpl. auto.
Qed.

(** * The contents of one block *)

Lemma frel_blockInsts S F F' B :
  frel S F F' ->
  lrel S (blockInsts F B) (blockInsts F' B) /\
  (blockInsts F B = [] -> blockInsts F' B = []).
Proof.
  unfold blockInsts.
  induction 1 as [| b b' F F' (Hb & Hl & He) H IH]; simpl.
  - split; auto. constructor.
  - rewrite <- Hb. destruct (Pos.eqb (bid b) B); auto.
Qed.

Lemma lastPlain_cons x l : lastPlain l -> lastPlain (x :: l).
Proof. intros (l0 & y & -> & Hy). exists (x :: l0), y. auto. Qed.

Lemma lastPlain_cons_inv x l :
  lastPlain (x :: l) -> (l = [] /\ view x = None) \/ lastPlain l.
Proof.
  intros (l0 & y & E & Hy). destruct l0 as [| z l0]; simpl in E.
  - injection E as -> ->. auto.
  - injection E as -> ->. right. exists l0, y. auto.
Qed.

Lemma lastPlain_plain l : Forall (fun x => view x = None) l -> l <> [] -> lastPlain l.
Proof.
  intros H Hne. destruct (exists_last Hne) as (l0 & x & ->).
  exists l0, x. split; auto. rewrite Forall_app in H. destruct H as [_ H].
  inversion H; auto.
Qed.

Lemma lrel_nil_plain S l' : lrel S [] l' -> Forall (fun x => view x = None) l'.
Proof.
  intros H. remember [] as e. induction H; try discriminate; constructor; auto.
Qed.

Lemma lrel_lastPlain S l l' : lrel S l l' -> lastPlain l -> lastPlain l'.
Proof.
  induction 1 as [| i i' l l' Hi H IH | n l l' Hn H IH]; intros Hl; auto.
  - destruct (lastPlain_cons_inv _ _ Hl) as [[-> Hv] | Hl'].
    + apply lastPlain_plain; [| discriminate].
      constructor; [| eapply lrel_nil_plain; eauto].
      destruct Hi as (_ & Hv' & _). congruence.
    + apply lastPlain_cons; auto.
  - apply lastPlain_cons; auto.
Qed.

Lemma blockInsts_map h F B :
  h [] = [] ->
  blockInsts (map (fun b => mkBlock (bid b) (h (insts b))) F) B = h (blockInsts F B).
Proof.
  intros Hh. unfold blockInsts. induction F as [| b F IH]; simpl; auto.
  destruct (Pos.eqb (bid b) B); auto.
Qed.

Lemma blockInsts_insertAt pos n F B :
  (forall b, bid b = B -> pos b = None) ->
  blockInsts (insertAt pos n F) B = blockInsts F B.
Proof.
  intros Hp. unfold blockInsts. induction F as [| b F IH]; simpl; auto.
  destruct (pos b) as [k|] eqn:E; simpl.
  - destruct (Pos.eqb_spec (bid b) B) as [e|]; auto.
    rewrite (Hp b e) in E. discriminate.
  - destruct (Pos.eqb (bid b) B); auto.
Qed.

Lemma insertAt_mid pos n G1 b G2 k :
  (forall b', In b' G1 -> pos b' = None) -> pos b = Some k ->
  insertAt pos n (G1 ++ b :: G2) = G1 ++ mkBlock (bid b) (insertNth k n (insts b)) :: G2.
Proof.
  intros H1 Hb. induction G1 as [| a G1 IH]; simpl.
  - rewrite Hb. reflexivity.
  - rewrite (H1 a) by (left; auto). rewrite IH; auto. intros; apply H1; right; auto.
Qed.

Lemma bview_eraseFromParent c F :
  bview (eraseFromParent c F) = verase c (bview F).
Proof.
  unfold verase, bview, eraseFromParent. rewrite !map_map. apply map_ext.
  intros b. simpl. rewrite marks_erase. reflexivity.
Qed.

Lemma bview_fst F : map fst (bview F) = bids F.
Proof. unfold bview, bids. rewrite map_map. reflexivity. Qed.

Lemma bview_insert_lead R I F A1 M A2 :
  bview F = A1 ++ (R, M) :: A2 -> ~ In R (map fst A1) ->
  bview (insertAt (posFirstNonPHI R) I F) = A1 ++ (R, marks [I] ++ M) :: A2.
Proof.
  intros HF HR. apply bview_app_inv in HF. destruct HF as (G1 & G2' & -> & H1 & H2).
  apply bview_cons_inv in H2. destruct H2 as (b & G2 & -> & Hb & HM & H2).
  rewrite insertAt_mid with (k := countWhile isPHI (insts b)).
  - unfold bview. rewrite map_app. simpl. fold (bview G1). fold (bview G2).
    rewrite marks_insert_lead by apply view_PHI. rewrite H1, Hb, HM, H2. reflexivity.
  - intros b' Hb'. unfold posFirstNonPHI.
    destruct (Pos.eqb_spec (bid b') R) as [e|]; auto.
    exfalso. apply HR. rewrite <- H1, bview_fst, <- e. apply in_map. exact Hb'.
  - unfold posFirstNonPHI. rewrite Hb, Pos.eqb_refl. reflexivity.
Qed.

(** * Addresses under erasure *)

Lemma NoDup_ids_map h F :
  (forall l, NoDup (map iid l) -> NoDup (map iid (h l))) ->
  (forall l, incl (map iid (h l)) (map iid l)) ->
  NoDup (ids F) -> NoDup (ids (map (fun b => mkBlock (bid b) (h (insts b))) F)).
Proof.
  intros H1 H2. unfold ids. induction F as [| b F IH]; simpl; auto.
  intros H. apply NoDup_app_inv in H. destruct H as (Ha & Hb & Hc).
  apply NoDup_app; auto.
  intros a Hin Hin'. apply (Hc a).
  - apply H2; auto.
  - apply in_flat_map in Hin'. destruct Hin' as (b' & Hb' & Hx).
    apply in_map_iff in Hb'. destruct Hb' as (b0 & <- & Hb0). simpl in Hx.
    apply in_flat_map. exists b0. split; auto. apply H2; auto.
Qed.

Lemma ids_map_incl h F :
  (forall l, incl (map iid (h l)) (map iid l)) ->
  incl (ids (map (fun b => mkBlock (bid b) (h (insts b))) F)) (ids F).
Proof.
  intros H2 x Hx. unfold ids in *. apply in_flat_map in Hx.
  destruct Hx as (b' & Hb' & Hx).
  apply in_map_iff in Hb'. destruct Hb' as (b0 & <- & Hb0). simpl in Hx.
  apply in_flat_map. exists b0. split; auto. apply H2; auto.
Qed.

Lemma NoDup_map_filter {A B} (f : A -> B) p l :
  NoDup (map f l) -> NoDup (map f (filter p l)).
Proof.
  induction l as [| x l IH]; simpl; auto. intros H. inversion H; subst.
  destruct (p x); simpl; auto. constructor; auto.
  intros Hin. apply H2. apply in_map_iff in Hin. destruct Hin as (y & <- & Hy).
  apply in_map. apply filter_In in Hy. tauto.
Qed.

Lemma NoDup_eraseFromParent c F :
  NoDup (ids F) -> NoDup (ids (eraseFromParent c F)).
Proof.
  apply NoDup_ids_map with (h := filter (fun x => negb (Pos.eqb (iid x) c))).
  - intros l. apply NoDup_map_filter.
  - intros l x Hx. apply in_map_iff in Hx. destruct Hx as (y & <- & Hy).
    apply in_map. apply filter_In in Hy. tauto.
Qed.

Lemma ids_eraseFromParent c F x :
  In x (ids (eraseFromParent c F)) <-> In x (ids F) /\ x <> c.
Proof.
  unfold ids, eraseFromParent. rewrite !in_flat_map. split.
  - intros (b' & Hb' & Hx). apply in_map_iff in Hb'. destruct Hb' as (b0 & <- & Hb0).
    simpl in Hx. apply in_map_iff in Hx. destruct Hx as (y & <- & Hy).
    apply filter_In in Hy. destruct Hy as [Hy Hc]. split.
    + exists b0. split; auto. apply in_map; auto.
    + destruct (Pos.eqb_spec (iid y) c); [discriminate | auto].
  - intros ((b & Hb & Hx) & Hne). exists (mkBlock (bid b) (filter (fun x0 => negb (Pos.eqb (iid x0) c)) (insts b))).
    split.
    + apply in_map_iff. exists b. auto.
    + simpl. apply in_map_iff in Hx. destruct Hx as (y & <- & Hy).
      apply in_map. apply filter_In. split; auto.
      destruct (Pos.eqb_spec (iid y) c); [contradiction | auto].
Qed.

(** * Removing the branch left by the split *)

Lemma erasePrevIn_notin i l : ~ In i (map iid l) -> erasePrevIn i l = l.
Proof.
  induction l as [| x l IH]; simpl; auto.
  destruct l as [| y l']; auto. intros H.
  destruct (Pos.eqb_spec (iid y) i) as [e|].
  - exfalso. apply H. right. left. exact e.
  - f_equal. apply IH. intros Hin. apply H. right. exact Hin.
Qed.

Lemma erasePrevIn_last i l0 y n :
  ~ In i (map iid (l0 ++ [y])) -> iid n = i ->
  erasePrevIn i (l0 ++ [y; n]) = l0 ++ [n].
Proof.
  intros H Hn. induction l0 as [| x l0 IH].
  - simpl. rewrite Hn, Pos.eqb_refl. reflexivity.
  - change (erasePrevIn i (x :: (l0 ++ [y; n])) = x :: (l0 ++ [n])).
    simpl in H.
    destruct (l0 ++ [y; n]) as [| z l'] eqn:E.
    + destruct l0; discriminate.
    + simpl. assert (Hz : iid z <> i).
      { intros e. apply H. right. destruct l0 as [| w l0]; simpl in *.
        - injection E as <- _. left. exact e.
        - injection E as <- _. left. exact e. }
      destruct (Pos.eqb_spec (iid z) i); [contradiction|].
      f_equal. apply IH. tauto.
Qed.

Lemma erasePrevIn_sub i l : incl (map iid (erasePrevIn i l)) (map iid l).
Proof.
  induction l as [| x l IH]; simpl; [apply incl_refl|].
  destruct l as [| y l']; [apply incl_refl|].
  destruct (Pos.eqb (iid y) i).
  - apply incl_tl, incl_refl.
  - intros a [<- | Ha]; [left; auto | right; apply IH; exact Ha].
Qed.

Lemma erasePrevIn_NoDup i l : NoDup (map iid l) -> NoDup (map iid (erasePrevIn i l)).
Proof.
  induction l as [| x l IH]; simpl; auto.
  destruct l as [| y l']; auto. intros H. inversion H; subst.
  destruct (Pos.eqb (iid y) i); auto.
  change (NoDup (iid x :: map iid (erasePrevIn i (y :: l')))).
  constructor; auto. intros Hin. apply H2. apply (erasePrevIn_sub i (y :: l')). exact Hin.
Qed.

Lemma NoDup_erasePrev i F : NoDup (ids F) -> NoDup (ids (erasePrev i F)).
Proof.
  apply NoDup_ids_map with (h := erasePrevIn i).
  - apply erasePrevIn_NoDup.
  - apply erasePrevIn_sub.
Qed.

Lemma insertNth_end n (l : list instruction) : insertNth (List.length l) n l = l ++ [n].
Proof. unfold insertNth. rewrite firstn_all, skipn_all. reflexivity. Qed.

Lemma erasePrev_id i F : ~ In i (ids F) -> erasePrev i F = F.
Proof.
  unfold erasePrev, ids. induction F as [| b F IH]; simpl; auto.
  intros H. rewrite in_app_iff in H. rewrite IH by tauto.
  rewrite erasePrevIn_notin by tauto. rewrite block_eta. reflexivity.
Qed.

Lemma bview_erasePrev_insertEnd P n F :
  view n = None -> ~ In (iid n) (ids F) -> lastPlain (blockInsts F P) ->
  bview (erasePrev (iid n) (insertAt (posEnd P) n F)) = bview F.
Proof.
  intros Hn. unfold blockInsts. induction F as [| b F IH]; simpl; auto.
  intros Hid Hl. unfold ids in Hid. simpl in Hid. rewrite in_app_iff in Hid.
  unfold posEnd at 1. destruct (Pos.eqb (bid b) P).
  - simpl. rewrite insertNth_end. destruct Hl as (l0 & y & E & Hy). rewrite E in *.
    rewrite <- app_assoc. simpl. rewrite erasePrevIn_last by (try tauto; reflexivity).
    fold (erasePrev (iid n) F). rewrite erasePrev_id by tauto.
    rewrite !marks_app. simpl. rewrite Hn, Hy. reflexivity.
  - simpl. rewrite erasePrevIn_notin by tauto. f_equal. apply IH; tauto.
Qed.

(** * Users *)

Lemma users_nonempty F y :
  users F y <> [] <-> exists U, In U (allInsts F) /\ usesb y U = true.
Proof.
  unfold users, allInsts. split.
  - intros H. destruct (flat_map _ F) as [| [B U] us] eqn:E; [congruence|].
    assert (Hin : In (B, U) (flat_map (fun b => map (fun U => (bid b, U))
                                                (filter (usesb y) (insts b))) F))
      by (rewrite E; left; auto).
    apply in_flat_map in Hin. destruct Hin as (b & Hb & Hin).
    apply in_map_iff in Hin. destruct Hin as (U' & [= _ ->] & HU).
    apply filter_In in HU. exists U. split; [| tauto].
    apply in_flat_map. exists b. tauto.
  - intros (U & HU & Hy) E. apply in_flat_map in HU. destruct HU as (b & Hb & HU).
    assert (Hin : In (bid b, U) (flat_map (fun b => map (fun U => (bid b, U))
                                                (filter (usesb y) (insts b))) F)).
    { apply in_flat_map. exists b. split; auto.
      apply in_map. apply filter_In. auto. }
    rewrite E in Hin. contradiction.
Qed.

Lemma frel_users S F F' y :
  frel S F F' -> ~ S y -> users F y <> [] -> users F' y <> [].
Proof.
  intros Hf Hy. rewrite !users_nonempty. intros (U & HU & Hu).
  destruct (frel_In S F F' U Hf HU) as (U' & HU' & (_ & _ & Huses)).
  exists U'. auto.
Qed.

Lemma escapes_users F x : valueEscapes F x = true -> users F x <> [].
Proof.
  unfold valueEscapes. destruct (getParent F x); [| discriminate].
  destruct (users F x); simpl; [discriminate | discriminate].
Qed.

Section DemoteAll.
Variable alloc : list positive -> positive.
Hypothesis alloc_fresh : forall l, ~ In (alloc l) l.
Variable uniqueName : function -> string -> string.
Hypothesis uniqueName_prefix :
  forall F nm, String.prefix nm (uniqueName F nm) = true.

Lemma fold_Demote_gstep AP xs :
  NoDup xs ->
  forall F, (forall x, In x xs -> users F x <> []) ->
  gstep (fun y => In y xs) F
    (fold_left (fun G d => DemoteRegToStack alloc uniqueName G d AP) xs F).
Proof.
  induction 1 as [| x xs Hx Hnd IH]; simpl; intros F Hu.
  - apply gstep_refl.
  - intros HF.
    assert (G1 : gstep (eq x) F (DemoteRegToStack alloc uniqueName F x AP))
      by (apply DemoteRegToStack_gstep; auto).
    destruct (G1 HF) as [Hf1 Hn1].
    assert (G2 : gstep (fun y => In y xs) (DemoteRegToStack alloc uniqueName F x AP)
                   (fold_left (fun G d => DemoteRegToStack alloc uniqueName G d AP) xs
                      (DemoteRegToStack alloc uniqueName F x AP))).
    { apply IH. intros x' Hx'. eapply frel_users; eauto.
      intros ->. contradiction. }
    destruct (G2 Hn1) as [Hf2 Hn2]. split; auto.
    eapply frel_trans.
    + eapply frel_mono; [| exact Hf1]. intros y <-. auto.
    + eapply frel_mono; [| exact Hf2]. intros y Hy. simpl. auto.
Qed.
End DemoteAll.

(** * More on blocks *)

Lemma ids_splitAt c R br F :
  splitAt c R br F = F \/ Permutation (ids (splitAt c R br F)) (iid br :: ids F).
Proof.
  induction F as [| b F IH]; simpl; auto.
  destruct (indexOf c (insts b)) as [k|].
  - right. unfold ids. simpl. fold (ids F).
    rewrite map_app. simpl. rewrite <- app_assoc. simpl.
    rewrite <- (firstn_skipn (Datatypes.S k) (insts b)) at 3.
    rewrite map_app, <- app_assoc.
    symmetry. apply Permutation_middle.
  - destruct IH as [IH | IH]; [left; congruence | right].
    unfold ids in *. simpl.
    eapply perm_trans; [apply Permutation_app_head; exact IH|].
    symmetry. apply Permutation_middle.
Qed.

Lemma NoDup_splitAt c R br F :
  NoDup (ids F) -> ~ In (iid br) (ids F) -> NoDup (ids (splitAt c R br F)).
Proof.
  intros Hnd Hn. destruct (ids_splitAt c R br F) as [-> | Hp]; auto.
  eapply Permutation_NoDup; [symmetry; exact Hp|]. constructor; auto.
Qed.

Lemma blockInsts_app_notin G1 G2 B :
  ~ In B (bids G1) -> blockInsts (G1 ++ G2) B = blockInsts G2 B.
Proof.
  unfold blockInsts, bids. induction G1 as [| a G1 IH]; simpl; auto.
  intros H. destruct (Pos.eqb_spec (bid a) B); [tauto|]. apply IH. tauto.
Qed.

Lemma blockInsts_cons_eq b G : blockInsts (b :: G) (bid b) = insts b.
Proof. unfold blockInsts. simpl. rewrite Pos.eqb_refl. reflexivity. Qed.

Lemma blockInsts_cons_ne b G B : bid b <> B -> blockInsts (b :: G) B = blockInsts G B.
Proof.
  unfold blockInsts. simpl. intros H. destruct (Pos.eqb_spec (bid b) B); tauto.
Qed.

Lemma blockInsts_skip G1 b G2 B :
  bid b <> B -> blockInsts (G1 ++ b :: G2) B = blockInsts (G1 ++ G2) B.
Proof.
  intros H. unfold blockInsts. induction G1 as [| a G1 IH]; simpl.
  - destruct (Pos.eqb_spec (bid b) B); tauto.
  - destruct (Pos.eqb (bid a) B); auto.
Qed.

Lemma blockInsts_In F B x : In x (blockInsts F B) -> In x (allInsts F).
Proof.
  unfold blockInsts, allInsts. induction F as [| b F IH]; simpl; [tauto|].
  destruct (Pos.eqb (bid b) B); intros H; apply in_or_app; auto.
Qed.

Lemma blockInsts_NoDup F B : NoDup (ids F) -> NoDup (map iid (blockInsts F B)).
Proof.
  unfold blockInsts, ids. induction F as [| b F IH]; simpl; [constructor|].
  intros H. apply NoDup_app_inv in H. destruct H as (H1 & H2 & _).
  destruct (Pos.eqb (bid b) B); auto.
Qed.

Lemma bids_app F G : bids (F ++ G) = bids F ++ bids G.
Proof. unfold bids. apply map_app. Qed.

(** * Filtering marks *)

Lemma filter_marks_notin c M :
  ~ In c (map markId M) -> filter (fun m => negb (Pos.eqb (markId m) c)) M = M.
Proof.
  induction M as [| m M IH]; simpl; auto. intros H.
  destruct (Pos.eqb_spec (markId m) c); [tauto|]. simpl. rewrite IH; tauto.
Qed.

Lemma filter_view_notin c (A : list (blockid * list mark)) :
  ~ In c (map markId (flat_map snd A)) ->
  verase c A = A.
Proof.
  unfold verase. induction A as [| [B M] A IH]; simpl; auto. rewrite map_app, in_app_iff. intros H.
  rewrite filter_marks_notin, IH by tauto. reflexivity.
Qed.

Lemma NoDup_mid_notin {A} (X Y Z W : list A) c :
  NoDup (X ++ (Y ++ [c]) ++ Z ++ W) ->
  ~ In c X /\ ~ In c Y /\ ~ In c Z /\ ~ In c W.
Proof.
  intros H.
  assert (Hp : Permutation (X ++ (Y ++ [c]) ++ Z ++ W) (c :: (X ++ Y) ++ Z ++ W)).
  { replace (X ++ (Y ++ [c]) ++ Z ++ W) with ((X ++ Y) ++ c :: Z ++ W)
      by (rewrite <- !app_assoc; reflexivity).
    symmetry. apply Permutation_middle. }
  apply (Permutation_NoDup Hp) in H. inversion H; subst.
  rewrite !in_app_iff in H2. tauto.
Qed.

Lemma filter_view_mid c A1 P M1 m R M2 A2 :
  NoDup (map markId (flat_map snd (A1 ++ (P, M1 ++ [m]) :: (R, M2) :: A2))) ->
  markId m = c ->
  verase c (A1 ++ (P, M1 ++ [m]) :: (R, M2) :: A2)
  = A1 ++ (P, M1) :: (R, M2) :: A2.
Proof.
  intros Hnd Hc. unfold verase. rewrite flat_map_app in Hnd.
  simpl in Hnd. rewrite !map_app in Hnd. simpl in Hnd.
  apply NoDup_mid_notin in Hnd. destruct Hnd as (H1 & H2 & H3 & H4).
  rewrite Hc in *.
  rewrite map_app. simpl. rewrite filter_app. simpl.
  rewrite Hc, Pos.eqb_refl. simpl. rewrite app_nil_r.
  fold (verase c A1). fold (verase c A2).
  rewrite !filter_view_notin, !filter_marks_notin; auto.
Qed.

Lemma NoDup_mid_notin' {A} (X Y Z W : list A) c :
  NoDup (X ++ (Y ++ c :: Z) ++ W) ->
  ~ In c X /\ ~ In c Y /\ ~ In c Z /\ ~ In c W.
Proof.
  intros H. apply NoDup_mid_notin.
  replace (X ++ (Y ++ [c]) ++ Z ++ W) with (X ++ (Y ++ c :: Z) ++ W); auto.
  rewrite <- !app_assoc. reflexivity.
Qed.

Lemma gstep_frel S F F' : gstep S F F' -> NoDup (ids F) -> frel S F F'.
Proof. intros H Hnd. apply H; auto. Qed.

Lemma gstep_NoDup S F F' : gstep S F F' -> NoDup (ids F) -> NoDup (ids F').
Proof. intros H Hnd. apply H; auto. Qed.

Section Rewrite.
Variable alloc : list positive -> positive.
Hypothesis alloc_fresh : forall l, ~ In (alloc l) l.
Variable uniqueName : function -> string -> string.
Hypothesis uniqueName_prefix :
  forall F nm, String.prefix nm (uniqueName F nm) = true.

Lemma rewriteCaller_spec cb E AP F toRet toPar c A1 P M1 m M2 A2 :
  NoDup (ids F) -> NoDup (bids F) ->
  bview F = A1 ++ (P, M1 ++ m :: M2) :: A2 -> markId m = c ->
  In cb (bids F) -> blockInsts F cb = [] ->
  let rs' := rewriteCaller alloc uniqueName cb E AP (mkRS F toRet toPar) c in
  NoDup (ids (rsF rs')) /\
  bview (rsF rs') = A1 ++ (P, M1) :: (alloc (bids F), m :: M2) :: A2 /\
  blockInsts (rsF rs') cb = [] /\
  callerToRet rs' = oinsert P (alloc (bids F)) toRet /\
  callerToOrigParent rs' = oinsert c P toPar.
Proof.
  intros Hnd Hnb Hv Hc Hcb Hcbe.
  destruct (bview_app_inv _ _ _ Hv) as (G1 & G2' & HF & HA1 & H2).
  destruct (bview_cons_inv _ _ _ _ H2) as (b & G2 & -> & HbP & HM & HA2).
  destruct (marks_mid_inv _ _ _ _ HM) as (l1 & ci & l2 & Hb & HM1 & Hci & HM2).
  assert (Hcid : iid ci = c) by (rewrite <- (view_markId _ _ Hci); auto).
  assert (Hids : ids F = ids G1 ++ (map iid l1 ++ c :: map iid l2) ++ ids G2).
  { rewrite HF, ids_app. unfold ids at 2. simpl. fold (ids G2).
    rewrite Hb, map_app. simpl. rewrite Hcid. reflexivity. }
  assert (Hbids : bids F = bids G1 ++ P :: bids G2).
  { rewrite HF, bids_app. simpl. rewrite HbP. reflexivity. }
  assert (HcN : ~ In c (ids G1) /\ ~ In c (map iid l1)).
  { rewrite Hids in Hnd. apply NoDup_mid_notin' in Hnd. tauto. }
  destruct HcN as [HcG1 Hcl1].
  assert (HPN : ~ In P (bids G1) /\ ~ In P (bids G2)).
  { rewrite Hbids in Hnb. apply NoDup_remove_2 in Hnb. rewrite in_app_iff in Hnb. tauto. }
  destruct HPN as [HPG1 HPG2].
  set (R := alloc (bids F)).
  assert (HR : ~ In R (bids F)) by apply alloc_fresh.
  assert (HRP : R <> P).
  { intros e. apply HR. rewrite Hbids, e. apply in_or_app. right. left. auto. }
  assert (HcbP : cb <> P).
  { intros e. rewrite e, HF in Hcbe. rewrite blockInsts_app_notin in Hcbe by auto.
    rewrite <- HbP, blockInsts_cons_eq, Hb in Hcbe. destruct l1; discriminate. }
  assert (HcbR : cb <> R) by (intros e; apply HR; rewrite <- e; auto).
  set (brI := mkInst (alloc (ids F)) "" TVoid (Br R)).
  set (F1a := G1 ++ mkBlock (bid b) (l1 ++ [ci; brI]) :: mkBlock R l2 :: G2).
  assert (HF1a : F1a = splitAt c R brI F).
  { unfold F1a. rewrite HF. symmetry. apply splitAt_mid; auto. }
  assert (Hnd1a : NoDup (ids F1a)).
  { rewrite HF1a. apply NoDup_splitAt; auto. apply alloc_fresh. }
  intros rs'. subst rs'. unfold rewriteCaller. simpl rsF.
  assert (HgP : getParent F c = Some P).
  { rewrite HF, <- HbP. apply getParent_mid; auto.
    rewrite Hb, map_app. apply in_or_app. right. left. auto. }
  rewrite HgP. cbv zeta. simpl callerToRet. simpl callerToOrigParent.
  fold R. simpl rsF.
  set (F1 := splitBasicBlock F c R (alloc (ids F))).
  assert (Hs1 : gstep (fun _ => False) F1a F1).
  { generalize (splitBasicBlock_spec (fun _ => False) G1 b G2 c l1 ci l2 R
                  (alloc (ids F)) HcG1 Hb Hcl1 Hcid).
    rewrite <- HF. auto. }
  assert (Hf1 : frel (fun _ => False) F1a F1) by (apply Hs1; auto).
  assert (Hnd1 : NoDup (ids F1)) by (apply Hs1; auto).
  set (xs := map iid (filter (fun I => negb (isAlloca I && Pos.eqb P E)
                                       && valueEscapes F1 (iid I)) (blockInsts F1 P))).
  set (F2 := fold_left (fun G d => DemoteRegToStack alloc uniqueName G d AP) xs F1).
  assert (Hs2 : gstep (fun y => In y xs) F1 F2).
  { apply fold_Demote_gstep; auto.
    - unfold xs. apply NoDup_map_filter. apply blockInsts_NoDup. exact Hnd1.
    - intros x Hx. unfold xs in Hx. apply in_map_iff in Hx.
      destruct Hx as (I & <- & HI). apply filter_In in HI. destruct HI as [_ HI].
      apply andb_true_iff in HI. apply escapes_users. tauto. }
  assert (Hf2 : frel (fun y => In y xs) F1a F2).
  { eapply frel_trans; [| apply Hs2; auto].
    eapply frel_mono; [| exact Hf1]. intros y []. }
  assert (Hnd2 : NoDup (ids F2)) by (apply Hs2; auto).
  assert (Hbv1a : bview F1a = A1 ++ (P, M1 ++ [m]) :: (R, M2) :: A2).
  { unfold F1a, bview. rewrite map_app. simpl. fold (bview G1). fold (bview G2).
    rewrite marks_app. simpl. rewrite Hci. simpl.
    rewrite HA1, HbP, HM1, HM2, HA2. reflexivity. }
  assert (Hbv2 : bview F2 = A1 ++ (P, M1 ++ [m]) :: (R, M2) :: A2).
  { rewrite <- Hbv1a. symmetry. eapply frel_bview; eauto. }
  assert (HfstA1 : map fst A1 = bids G1) by (rewrite <- HA1; apply bview_fst).
  assert (Hci2 : exists ci2, In ci2 (allInsts F2) /\ iid ci2 = c /\ view ci2 = Some m).
  { assert (Hin : In ci (allInsts F1a)).
    { unfold F1a, allInsts. rewrite flat_map_app. apply in_or_app. right. simpl.
      apply in_or_app. left. apply in_or_app. right. left. reflexivity. }
    destruct (frel_In _ _ _ _ Hf2 Hin) as (ci2 & Hin2 & (e1 & e2 & _)).
    exists ci2. repeat split; auto; congruence. }
  destruct Hci2 as (ci2 & Hci2in & Hci2id & Hci2v).
  assert (HfI2 : findInst F2 c = Some ci2).
  { rewrite <- Hci2id. apply findInst_NoDup; auto. }
  assert (HbP1a : blockInsts F1a P = l1 ++ [ci; brI]).
  { unfold F1a. rewrite blockInsts_app_notin by auto.
    rewrite <- HbP. apply (blockInsts_cons_eq (mkBlock (bid b) (l1 ++ [ci; brI]))). }
  assert (HlP2 : lastPlain (blockInsts F2 P)).
  { destruct (frel_blockInsts _ _ _ P Hf2) as [Hl _].
    eapply lrel_lastPlain; eauto. rewrite HbP1a.
    exists (l1 ++ [ci]), brI. rewrite <- app_assoc. auto. }
  assert (Hcb1a : blockInsts F1a cb = []).
  { unfold F1a. rewrite blockInsts_skip by (simpl; congruence).
    rewrite blockInsts_skip by (simpl; congruence).
    rewrite <- Hcbe, HF. symmetry. apply blockInsts_skip. congruence. }
  assert (Hcb2 : blockInsts F2 cb = []).
  { destruct (frel_blockInsts _ _ _ cb Hf2) as [_ He]. auto. }
  set (F3 := moveToFirstNonPHI c R F2).
  assert (HF3 : F3 = insertAt (posFirstNonPHI R) ci2 (eraseFromParent c F2)).
  { unfold F3, moveToFirstNonPHI. rewrite HfI2. reflexivity. }
  assert (Hbv3 : bview F3 = A1 ++ (P, M1) :: (R, m :: M2) :: A2).
  { rewrite HF3.
    rewrite bview_insert_lead with (A1 := A1 ++ [(P, M1)]) (M := M2) (A2 := A2).
    - rewrite <- app_assoc. simpl. rewrite Hci2v. reflexivity.
    - rewrite bview_eraseFromParent, Hbv2, filter_view_mid; auto.
      + rewrite <- app_assoc. reflexivity.
      + assert (H := allMarks_NoDup _ Hnd2). rewrite allMarks_bview, Hbv2 in H. exact H.
    - rewrite map_app, in_app_iff, HfstA1. simpl. intros [Hin | [e | []]].
      + apply HR. rewrite Hbids. apply in_or_app. auto.
      + apply HRP. auto. }
  assert (Hnd3 : NoDup (ids F3)).
  { rewrite HF3. apply NoDup_insertAt.
    - apply NoDup_eraseFromParent. exact Hnd2.
    - rewrite Hci2id, ids_eraseFromParent. tauto. }
  assert (HbI3 : forall B, B <> R -> blockInsts F3 B
                 = filter (fun x => negb (Pos.eqb (iid x) c)) (blockInsts F2 B)).
  { intros B HB. rewrite HF3. rewrite blockInsts_insertAt.
    - unfold eraseFromParent.
      apply (blockInsts_map (filter (fun x => negb (Pos.eqb (iid x) c)))). reflexivity.
    - intros b0 Hb0. unfold posFirstNonPHI.
      destruct (Pos.eqb_spec (bid b0) R); congruence. }
  assert (HlP3 : lastPlain (blockInsts F3 P)).
  { rewrite HbI3 by auto. destruct HlP2 as (l0 & x & E0 & Hx).
    rewrite E0, filter_app. simpl.
    destruct (Pos.eqb_spec (iid x) c) as [e|]; simpl.
    - exfalso. assert (Hin : In x (allInsts F2)).
      { apply (blockInsts_In F2 P). rewrite E0. apply in_or_app. right. left. auto. }
      apply findInst_NoDup in Hin; auto. rewrite e, HfI2 in Hin. congruence.
    - eexists _, x. eauto. }
  assert (Hcb3 : blockInsts F3 cb = []).
  { rewrite HbI3 by auto. rewrite Hcb2. reflexivity. }
  set (F4 := match users F3 c with
             | [] => F3
             | _ :: _ => DemoteRegToStack alloc uniqueName F3 c AP
             end).
  assert (Hs4 : gstep (eq c) F3 F4).
  { unfold F4. destruct (users F3 c) eqn:EU; [apply gstep_refl|].
    apply DemoteRegToStack_gstep; auto. rewrite EU. discriminate. }
  assert (Hf4 : frel (eq c) F3 F4) by (apply Hs4; auto).
  assert (Hnd4 : NoDup (ids F4)) by (apply Hs4; auto).
  assert (HlP4 : lastPlain (blockInsts F4 P)).
  { destruct (frel_blockInsts _ _ _ P Hf4) as [Hl _]. eapply lrel_lastPlain; eauto. }
  assert (Hcb4 : blockInsts F4 cb = []).
  { destruct (frel_blockInsts _ _ _ cb Hf4) as [_ He]. auto. }
  set (brC := mkInst (alloc (ids F4)) "" TVoid (Br cb)).
  change (alloc (ids F4)) with (iid brC).
  repeat split.
  - apply NoDup_erasePrev. apply NoDup_insertAt; auto. apply alloc_fresh.
  - rewrite bview_erasePrev_insertEnd; auto.
    + rewrite <- Hbv3. symmetry. eapply frel_bview; eauto.
    + apply alloc_fresh.
  - unfold erasePrev. rewrite (blockInsts_map (erasePrevIn (iid brC))) by reflexivity.
    rewrite blockInsts_insertAt.
    + rewrite Hcb4. reflexivity.
    + intros b0 Hb0. unfold posEnd. destruct (Pos.eqb_spec (bid b0) P); congruence.
Qed.
End Rewrite.

(** * Subsequences *)

Lemma subseq_In {A} (l1 l2 : list A) x : subseq l1 l2 -> In x l1 -> In x l2.
Proof.
  induction 1; simpl; intros Hx; tauto.
Qed.

Lemma subseq_tail {A} (x : A) l1 l2 : subseq (x :: l1) l2 -> subseq l1 l2.
Proof.
  intros H. remember (x :: l1) as l eqn:E. revert x l1 E.
  induction H; intros y l' E; try discriminate.
  - injection E as -> ->. apply subseq_skip. exact H.
  - apply subseq_skip. eapply IHsubseq; eauto.
Qed.

Lemma subseq_split {A} (X : list A) c cs Y :
  NoDup (X ++ c :: Y) -> subseq (c :: cs) (X ++ c :: Y) -> subseq cs Y.
Proof.
  induction X as [| x X IH]; simpl; intros Hnd H.
  - inversion H; subst; auto.
    inversion Hnd; subst. exfalso. apply H3.
    eapply subseq_In; eauto. left; auto.
  - inversion Hnd; subst. inversion H; subst.
    + exfalso. apply H2. apply in_or_app. right. left. auto.
    + apply IH; auto.
Qed.

Lemma subseq_NoDup {A} (l1 l2 : list A) : subseq l1 l2 -> NoDup l2 -> NoDup l1.
Proof.
  induction 1; intros Hnd; try constructor.
  - inversion Hnd; subst. intros Hin. apply H2. eapply subseq_In; eauto.
  - inversion Hnd; auto.
  - inversion Hnd; auto.
Qed.

Lemma subseq_map_filter {A B} (f : A -> B) p l : subseq (map f (filter p l)) (map f l).
Proof.
  induction l as [| x l IH]; simpl; [constructor|].
  destruct (p x); simpl; constructor; auto.
Qed.

(** * Ordered maps *)

Lemma olookup_oinsert {V} k (v : V) m k' :
  olookup k' (oinsert k v m) = if Pos.eqb k' k then Some v else olookup k' m.
Proof.
  induction m as [| [k0 v0] m IH]; simpl.
  - reflexivity.
  - destruct (Pos.compare_spec k k0) as [e | l | g]; simpl.
    + subst k0. destruct (Pos.eqb k' k); reflexivity.
    + reflexivity.
    + rewrite IH. destruct (Pos.eqb_spec k' k0), (Pos.eqb_spec k' k); auto.
      subst. lia.
Qed.

Lemma keys_oinsert {V} k (v : V) m k' :
  In k' (map fst (oinsert k v m)) <-> k' = k \/ In k' (map fst m).
Proof.
  induction m as [| [k0 v0] m IH]; simpl.
  - intuition.
  - destruct (Pos.compare_spec k k0) as [e | l | g]; simpl.
    + subst. intuition.
    + intuition.
    + rewrite IH. intuition.
Qed.

Lemma length_oinsert {V} k (v : V) m :
  ~ In k (map fst m) -> List.length (oinsert k v m) = Datatypes.S (List.length m).
Proof.
  induction m as [| [k0 v0] m IH]; simpl; auto. intros H.
  destruct (Pos.compare_spec k k0) as [e | l | g]; simpl; auto.
  - exfalso. apply H. left. auto.
  - f_equal. apply IH. tauto.
Qed.

Lemma sorted_oinsert {V} k (v : V) m :
  StronglySorted Pos.lt (map fst m) -> StronglySorted Pos.lt (map fst (oinsert k v m)).
Proof.
  induction m as [| [k0 v0] m IH]; simpl; intros H.
  - constructor; constructor.
  - inversion H; subst.
    destruct (Pos.compare_spec k k0) as [e | l | g]; simpl.
    + subst. constructor; auto.
    + constructor; auto. constructor; auto.
      eapply Forall_impl; [| exact H3]. intros a Ha. simpl in Ha. lia.
    + constructor; auto. apply Forall_forall. intros a Ha.
      apply keys_oinsert in Ha. destruct Ha as [-> | Ha]; auto.
      rewrite Forall_forall in H3. auto.
Qed.

Lemma sorted_NoDup l : StronglySorted Pos.lt l -> NoDup l.
Proof.
  induction 1; constructor; auto.
  intros Hin. rewrite Forall_forall in H0. specialize (H0 _ Hin). lia.
Qed.

(** * Finding a mark in the view *)

Lemma view_find (A : list (blockid * list mark)) c :
  In c (map markId (flat_map snd A)) ->
  exists A1 P M1 m M2 A2, A = A1 ++ (P, M1 ++ m :: M2) :: A2 /\ markId m = c.
Proof.
  intros H. apply in_map_iff in H. destruct H as (m & Hm & Hin).
  apply in_flat_map in Hin. destruct Hin as ([P M] & HPM & HmM). simpl in HmM.
  apply in_split in HPM. destruct HPM as (A1 & A2 & ->).
  apply in_split in HmM. destruct HmM as (M1 & M2 & ->).
  exists A1, P, M1, m, M2, A2. auto.
Qed.

Lemma NoDup_fst_unique {K V} (l : list (K * V)) k v v' :
  NoDup (map fst l) -> In (k, v) l -> In (k, v') l -> v = v'.
Proof.
  induction l as [| [k0 v0] l IH]; simpl; [tauto|].
  intros Hnd H1 H2. inversion Hnd; subst.
  destruct H1 as [E1 | H1], H2 as [E2 | H2].
  - congruence.
  - exfalso. injection E1 as -> ->. apply (in_map fst) in H2. simpl in H2. contradiction.
  - exfalso. injection E2 as -> ->. apply (in_map fst) in H1. simpl in H1. contradiction.
  - auto.
Qed.

Lemma NoDup_map_inj_in {A B} (f : A -> B) l a b :
  NoDup (map f l) -> In a l -> In b l -> f a = f b -> a = b.
Proof.
  induction l as [| x l IH]; simpl; [tauto|].
  intros Hnd Ha Hb E. inversion Hnd; subst.
  destruct Ha as [-> | Ha], Hb as [-> | Hb]; auto.
  - exfalso. apply H1. rewrite E. apply in_map. exact Hb.
  - exfalso. apply H1. rewrite <- E. apply in_map. exact Ha.
Qed.

Lemma NoDup_insert_after {A} (X Y : list A) P R :
  NoDup (X ++ P :: Y) -> ~ In R (X ++ P :: Y) -> NoDup (X ++ P :: R :: Y).
Proof.
  intros Hnd HR.
  assert (Hp : Permutation (R :: X ++ P :: Y) (X ++ P :: R :: Y)).
  { replace (X ++ P :: R :: Y) with ((X ++ [P]) ++ R :: Y)
      by (rewrite <- app_assoc; reflexivity).
    replace (X ++ P :: Y) with ((X ++ [P]) ++ Y) by (rewrite <- app_assoc; reflexivity).
    apply Permutation_middle. }
  eapply Permutation_NoDup; [exact Hp|]. constructor; auto.
Qed.

Lemma olookup_Some_In {V} k (v : V) m : olookup k m = Some v -> In k (map fst m).
Proof.
  induction m as [| [k0 v0] m IH]; simpl; [discriminate|].
  destruct (Pos.eqb_spec k k0); auto.
Qed.

Lemma callsTarget_isCall t m : callsTarget t m = true -> isCallMark m = true.
Proof. destruct m; simpl; auto; discriminate. Qed.

Lemma isCall_notAP m : isCallMark m = true -> isAPMark m = false.
Proof. destruct m; simpl; auto. Qed.

Lemma apLead_prefix M1 M2 : apLead (M1 ++ M2) -> apLead M1.
Proof.
  intros H X m Y E Hm. subst M1.
  specialize (H X m (Y ++ M2)). rewrite <- app_assoc in H. simpl in H.
  specialize (H eq_refl Hm). apply Forall_app in H. tauto.
Qed.

Lemma apLead_filter_prefix M1 m M2 :
  apLead (M1 ++ m :: M2) -> isCallMark m = true ->
  filter isAPMark (M1 ++ m :: M2) = filter isAPMark M1.
Proof.
  intros H Hm. specialize (H M1 m M2 eq_refl Hm).
  rewrite filter_app. simpl. rewrite (isCall_notAP _ Hm).
  replace (filter isAPMark M2) with (@nil mark); [apply app_nil_r|].
  induction H as [| x M2 Hx H IH]; simpl; auto.
  rewrite (isCall_notAP _ Hx). exact IH.
Qed.

Section Loop.
Variable alloc : list positive -> positive.
Hypothesis alloc_fresh : forall l, ~ In (alloc l) l.
Variable uniqueName : function -> string -> string.
Hypothesis uniqueName_prefix :
  forall F nm, String.prefix nm (uniqueName F nm) = true.

Lemma rewInv_step cb t Mall E ME0 EB AP done c cs rs :
  rewInv cb t Mall E ME0 done (c :: cs) rs ->
  rewInv cb t Mall E ME0 (done ++ [c]) cs (rewriteCaller alloc uniqueName cb EB AP rs c).
Proof.
  destruct rs as [F toRet toPar]. unfold rewInv. simpl.
  intros (Hnd & Hnb & HM & Hcb & Hcbe & Hsub & Htgt & Hdone & Hsort & Hlen & Hkb
          & Hkeys & Hsites & (ME & rest & Hhd & HAPs)).
  assert (HndM : NoDup (map markId Mall)).
  { rewrite <- HM. apply allMarks_NoDup. exact Hnd. }
  assert (Hc : In c (map markId (flat_map snd (bview F)))).
  { rewrite <- allMarks_bview, HM. eapply subseq_In; eauto. left; auto. }
  destruct (view_find _ _ Hc) as (A1 & P & M1 & m & M2 & A2 & Hv & Hmc).
  destruct (rewriteCaller_spec alloc alloc_fresh uniqueName cb EB AP F toRet toPar c
              A1 P M1 m M2 A2 Hnd Hnb Hv Hmc Hcb Hcbe)
    as (Hnd' & Hv' & Hcbe' & HtoRet & HtoPar).
  set (rs' := rewriteCaller alloc uniqueName cb EB AP (mkRS F toRet toPar) c) in *.
  set (R := alloc (bids F)) in *.
  assert (HR : ~ In R (bids F)) by apply alloc_fresh.
  assert (Hbids : bids F = map fst A1 ++ P :: map fst A2).
  { rewrite <- bview_fst, Hv, map_app. reflexivity. }
  assert (Hbids' : bids (rsF rs') = map fst A1 ++ P :: R :: map fst A2).
  { rewrite <- bview_fst, Hv', map_app. reflexivity. }
  assert (Hnb' : NoDup (bids (rsF rs'))).
  { rewrite Hbids'. apply NoDup_insert_after; rewrite <- Hbids; auto. }
  assert (HinclB : incl (bids F) (bids (rsF rs'))).
  { rewrite Hbids, Hbids'. intros x Hx. apply in_app_or in Hx. apply in_or_app.
    simpl in *. tauto. }
  assert (HMall : Mall = flat_map snd A1 ++ M1 ++ m :: M2 ++ flat_map snd A2).
  { rewrite <- HM, allMarks_bview, Hv, flat_map_app. simpl.
    rewrite <- app_assoc. reflexivity. }
  assert (Hmin : In m Mall).
  { rewrite HMall. apply in_or_app. right. apply in_or_app. right. left. auto. }
  assert (Hmt : callsTarget t m = true).
  { destruct (Htgt c (or_introl eq_refl)) as (m' & Hm' & Hid & Ht).
    assert (m' = m) by (eapply NoDup_map_inj_in; eauto; congruence).
    congruence. }
  assert (HL : map markId Mall
               = (map markId (flat_map snd A1) ++ map markId M1)
                   ++ c :: (map markId M2 ++ map markId (flat_map snd A2))).
  { rewrite HMall, !map_app. simpl. rewrite Hmc, map_app, <- app_assoc. reflexivity. }
  assert (Hsub' : subseq cs (map markId M2 ++ map markId (flat_map snd A2))).
  { rewrite HL in Hsub, HndM. eapply subseq_split; eauto. }
  assert (Hbefore : forall m0, In m0 (flat_map snd A1 ++ M1) -> ~ In (markId m0) cs).
  { intros m0 Hm0 Hin. rewrite HL in HndM.
    apply NoDup_app_inv in HndM. destruct HndM as (_ & _ & Hd).
    apply (Hd (markId m0)).
    - rewrite <- map_app. apply in_map. exact Hm0.
    - right. eapply subseq_In; eauto. }
  assert (HPk : ~ In P (map fst toRet)).
  { intros HP. apply (Hkeys P (M1 ++ m :: M2) m HP).
    - rewrite Hv. apply in_or_app. right. left. auto.
    - apply in_or_app. right. left. auto.
    - left. auto. }
  assert (Hcs : ~ In c cs).
  { assert (H : NoDup (c :: cs)) by (eapply subseq_NoDup; eauto).
    inversion H; auto. }
  repeat match goal with |- _ /\ _ => split end.
  - exact Hnd'.
  - exact Hnb'.
  - (* allMarks *)
    rewrite allMarks_bview, Hv', HMall, flat_map_app. simpl. reflexivity.
  - apply HinclB. exact Hcb.
  - exact Hcbe'.
  - eapply subseq_tail; eauto.
  - intros c' Hc'. apply Htgt. right. auto.
  - intros c' Hc' Hin. apply in_app_or in Hc'. destruct Hc' as [Hc' | [<- | []]].
    + apply (Hdone c' Hc'). right. auto.
    + auto.
  - rewrite HtoRet. apply sorted_oinsert. auto.
  - rewrite HtoRet. rewrite length_oinsert by auto. rewrite length_app. simpl.
    rewrite Nat.add_1_r. f_equal. exact Hlen.
  - rewrite HtoRet. intros x Hx. apply keys_oinsert in Hx. destruct Hx as [-> | Hx].
    + rewrite Hbids'. apply in_or_app. right. left. auto.
    + apply HinclB. apply Hkb. auto.
  - (* key blocks hold no pending call *)
    intros P0 M0 m0 HP0 HPM Hm0. rewrite HtoRet in HP0. apply keys_oinsert in HP0.
    rewrite Hv' in HPM.
    destruct HP0 as [-> | HP0].
    + assert (M0 = M1).
      { eapply NoDup_fst_unique with (l := bview (rsF rs')).
        - rewrite bview_fst. exact Hnb'.
        - rewrite Hv'. exact HPM.
        - rewrite Hv'. apply in_or_app. right. left. auto. }
      subst M0. apply Hbefore. apply in_or_app. auto.
    + assert (HP0b : In P0 (bids F)) by (apply Hkb; auto).
      assert (HinF : In (P0, M0) (bview F)).
      { rewrite Hv. apply in_app_or in HPM. apply in_or_app.
        destruct HPM as [H | [H | [H | H]]]; auto.
        - injection H as <- _. contradiction.
        - injection H as <- _. contradiction.
        - right. right. auto. }
      intros Hin. apply (Hkeys P0 M0 m0 HP0 HinF Hm0). right. auto.
  - (* the sites rewritten so far *)
    intros c' Hc'. apply in_app_or in Hc'. destruct Hc' as [Hc' | [<- | []]].
    + destruct (Hsites c' Hc') as (P' & R' & M' & m' & Hl1 & Hl2 & Hin & Hid).
      assert (c' <> c) by (intros ->; apply (Hdone c Hc'); left; auto).
      assert (P' <> P) by (intros ->; apply HPk; eapply olookup_Some_In; eauto).
      rewrite Hv in Hin. apply in_app_or in Hin.
      destruct Hin as [Hin | [Hin | Hin]].
      * exists P', R', M', m'. rewrite HtoRet, HtoPar, !olookup_oinsert.
        destruct (Pos.eqb_spec c' c); [contradiction|].
        destruct (Pos.eqb_spec P' P); [contradiction|].
        repeat split; auto. rewrite Hv'. apply in_or_app. auto.
      * injection Hin as <- HMM.
        destruct M1 as [| m1 M1'].
        { simpl in HMM. injection HMM as <- _. congruence. }
        simpl in HMM. injection HMM as <- <-.
        exists P', P, M1', m1. rewrite HtoRet, HtoPar, !olookup_oinsert.
        destruct (Pos.eqb_spec c' c); [contradiction|].
        destruct (Pos.eqb_spec P' P); [contradiction|].
        repeat split; auto. rewrite Hv'. apply in_or_app. right. left. auto.
      * exists P', R', M', m'. rewrite HtoRet, HtoPar, !olookup_oinsert.
        destruct (Pos.eqb_spec c' c); [contradiction|].
        destruct (Pos.eqb_spec P' P); [contradiction|].
        repeat split; auto. rewrite Hv'. apply in_or_app. right. right. right. auto.
    + exists P, R, M2, m. rewrite HtoRet, HtoPar, !olookup_oinsert, !Pos.eqb_refl.
      repeat split; auto. rewrite Hv'. apply in_or_app. right. right. left. auto.
  - (* the entry block *)
    rewrite Hv'. rewrite Hv in Hhd. destruct A1 as [| a A1]; simpl in *.
    + injection Hhd as <- <- <-. exists M1, ((R, m :: M2) :: A2).
      split; auto. intros H0. destruct (HAPs H0) as [Hap HAP]. split.
      * eapply apLead_prefix; eauto.
      * rewrite <- HAP. symmetry. apply apLead_filter_prefix; auto.
        eapply callsTarget_isCall; eauto.
    + injection Hhd as -> <-. exists ME, (A1 ++ (P, M1) :: (R, m :: M2) :: A2).
      split; auto.
Qed.
End Loop.

Lemma apLead_cons_AP i M : apLead M -> apLead (MAllocaPoint i :: M).
Proof.
  intros H M1 m M2 E Hm. destruct M1 as [| m1 M1]; simpl in E.
  - injection E as <- <-. discriminate.
  - injection E as <- ->. eapply H; eauto.
Qed.

Lemma blockInsts_last F cb l :
  ~ In cb (bids F) -> blockInsts (F ++ [mkBlock cb l]) cb = l.
Proof.
  intros H. rewrite blockInsts_app_notin by auto.
  apply (blockInsts_cons_eq (mkBlock cb l)).
Qed.

Section Group.
Variable alloc : list positive -> positive.
Hypothesis alloc_fresh : forall l, ~ In (alloc l) l.
Variable uniqueName : function -> string -> string.
Hypothesis uniqueName_prefix :
  forall F nm, String.prefix nm (uniqueName F nm) = true.

Lemma rewInv_fold cb t Mall E ME0 EB AP cs :
  forall done rs,
    rewInv cb t Mall E ME0 done cs rs ->
    rewInv cb t Mall E ME0 (done ++ cs) []
      (fold_left (rewriteCaller alloc uniqueName cb EB AP) cs rs).
Proof.
  induction cs as [| c cs IH]; simpl; intros done rs H.
  - rewrite app_nil_r. exact H.
  - replace (done ++ c :: cs) with ((done ++ [c]) ++ cs)
      by (rewrite <- app_assoc; reflexivity).
    apply IH. apply rewInv_step; auto.
Qed.

Lemma ids_withCallBlock F : ids (withCallBlock alloc F) = ids F.
Proof. unfold withCallBlock. rewrite ids_app. simpl. apply app_nil_r. Qed.

Lemma prepared_cons b F :
  prepared alloc uniqueName (b :: F)
  = mkBlock (bid b)
      (insertNth (countWhile isAlloca (insts b))
         (allocaPoint (allocaPointName alloc uniqueName (b :: F)) (allocaPointOf alloc (b :: F))) (insts b))
      :: F ++ [mkBlock (callBlockOf alloc (b :: F)) []].
Proof. reflexivity. Qed.

Lemma view_allocaPoint nm i :
  String.prefix "mergecalls alloca point" nm = true ->
  view (allocaPoint nm i) = Some (MAllocaPoint i).
Proof. intros H. unfold view, isAllocaPoint. simpl. rewrite H. reflexivity. Qed.

(** The state in which the loop over the call sites starts. *)
Lemma rewInv_prepared t F b G callers :
  NoDup (ids F) -> NoDup (bids F) -> F = b :: G ->
  callers = map markId (filter (callsTarget t) (allMarks F)) ->
  rewInv (callBlockOf alloc F) t
    (MAllocaPoint (allocaPointOf alloc F) :: allMarks F)
    (bid b) (MAllocaPoint (allocaPointOf alloc F) :: marks (insts b))
    [] callers (mkRS (prepared alloc uniqueName F) [] []).
Proof.
  intros Hnd Hnb HF Hcallers. set (ME0 := marks (insts b)).
  assert (HME : marks (insts b) = ME0) by reflexivity.
  set (cb := callBlockOf alloc F). set (ap := allocaPointOf alloc F).
  assert (Hcb : ~ In cb (bids F)) by apply alloc_fresh.
  assert (Hbv : bview (prepared alloc uniqueName F)
                = (bid b, MAllocaPoint ap :: ME0) :: bview G ++ [(cb, [])]).
  { rewrite HF at 1. rewrite prepared_cons. rewrite <- HF. fold ap. fold cb.
    unfold bview. simpl. rewrite map_app. simpl.
    rewrite marks_insert_lead by apply view_Alloca.
    simpl. rewrite view_allocaPoint by apply uniqueName_prefix. simpl. rewrite HME. reflexivity. }
  assert (Hbids : bids (prepared alloc uniqueName F) = bids F ++ [cb]).
  { unfold prepared. rewrite bids_insertAt. unfold withCallBlock.
    rewrite bids_app. reflexivity. }
  unfold rewInv. simpl.
  repeat match goal with |- _ /\ _ => split end.
  - unfold prepared. apply NoDup_insertAt.
    + rewrite ids_withCallBlock. exact Hnd.
    + simpl. apply alloc_fresh.
  - rewrite Hbids. apply NoDup_app; auto.
    + constructor; auto. constructor.
    + intros a Ha [<- | []]. contradiction.
  - rewrite allMarks_bview, Hbv. simpl. rewrite flat_map_app. simpl.
    rewrite app_nil_r. rewrite HF, allMarks_bview. simpl. rewrite HME. reflexivity.
  - rewrite Hbids. apply in_or_app. right. left. reflexivity.
  - rewrite HF at 1. rewrite prepared_cons. rewrite <- HF. fold cb.
    rewrite blockInsts_cons_ne.
    + apply blockInsts_last. intros Hin. apply Hcb. rewrite HF. right. exact Hin.
    + simpl. intros e. apply Hcb. rewrite HF. left. exact e.
  - rewrite Hcallers. apply subseq_skip. apply subseq_map_filter.
  - intros c Hc. rewrite Hcallers in Hc. apply in_map_iff in Hc.
    destruct Hc as (m & Hm & Hin). apply filter_In in Hin.
    exists m. simpl. tauto.
  - intros c [].
  - constructor.
  - reflexivity.
  - intros x [].
  - intros P M m [].
  - intros c [].
  - exists (MAllocaPoint ap :: ME0), (bview G ++ [(cb, [])]).
    split; auto.
Qed.

(** The state after the loop over the call sites. *)
Lemma rewriteGroup_spec t F b G callers :
  NoDup (ids F) -> NoDup (bids F) -> F = b :: G ->
  callers = map markId (filter (callsTarget t) (allMarks F)) ->
  rewInv (callBlockOf alloc F) t
    (MAllocaPoint (allocaPointOf alloc F) :: allMarks F)
    (bid b) (MAllocaPoint (allocaPointOf alloc F) :: marks (insts b))
    callers [] (rewriteGroup alloc uniqueName F callers).
Proof.
  intros. unfold rewriteGroup.
  apply (rewInv_fold _ _ _ _ _ _ _ callers [] _).
  eapply rewInv_prepared; eauto.
Qed.
End Group.

(** * Lookups under insertion and update *)

Lemma findIn_insert x n l1 l2 :
  iid n <> x -> findIn x (l1 ++ n :: l2) = findIn x (l1 ++ l2).
Proof.
  intros Hn. induction l1 as [| y l1 IH]; simpl.
  - destruct (Pos.eqb_spec (iid n) x); [contradiction | reflexivity].
  - destruct (Pos.eqb (iid y) x); auto.
Qed.

Lemma findIn_insertNth x k n l : iid n <> x -> findIn x (insertNth k n l) = findIn x l.
Proof.
  intros Hn. unfold insertNth. rewrite findIn_insert by auto.
  rewrite firstn_skipn. reflexivity.
Qed.

Lemma findInst_insertAt pos n F x :
  iid n <> x -> findInst (insertAt pos n F) x = findInst F x.
Proof.
  intros Hn. induction F as [| b F IH]; simpl; auto.
  destruct (pos b) as [k|]; simpl.
  - rewrite findIn_insertNth; auto.
  - rewrite IH. reflexivity.
Qed.

Lemma findIn_map_other x g l :
  (forall y, iid (g y) = iid y) -> (forall y, iid y <> x -> g y = y) ->
  findIn x l = None -> findIn x (map g l) = None.
Proof.
  intros Hid Hg. induction l as [| y l IH]; simpl; auto.
  rewrite Hid. destruct (Pos.eqb (iid y) x); [discriminate | auto].
Qed.

Lemma findInst_updInst u g F x :
  (forall y, iid (g y) = iid y) -> x <> u ->
  findInst (updInst u g F) x = findInst F x.
Proof.
  intros Hid Hx. unfold updInst, mapInsts. induction F as [| b F IH]; simpl; auto.
  rewrite IH.
  assert (E : findIn x (map (fun y => if Pos.eqb (iid y) u then g y else y) (insts b))
              = findIn x (insts b)).
  { clear IH. induction (insts b) as [| y l IHl]; simpl; auto.
    destruct (Pos.eqb_spec (iid y) u) as [e|].
    - rewrite Hid, e. destruct (Pos.eqb_spec u x); [congruence | exact IHl].
    - destruct (Pos.eqb (iid y) x); auto. }
  rewrite E. reflexivity.
Qed.

Lemma updInst_updInst u g1 g2 F :
  (forall y, iid (g1 y) = iid y) ->
  updInst u g2 (updInst u g1 F) = updInst u (fun y => g2 (g1 y)) F.
Proof.
  intros Hid. unfold updInst, mapInsts. rewrite map_map. apply map_ext.
  intros b. simpl. rewrite map_map. f_equal. apply map_ext. intros y.
  destruct (Pos.eqb_spec (iid y) u) as [e|n].
  - rewrite Hid, e, Pos.eqb_refl. reflexivity.
  - destruct (Pos.eqb_spec (iid y) u); [contradiction | reflexivity].
Qed.

Lemma updInst_comm u1 u2 g1 g2 F :
  u1 <> u2 ->
  (forall y, iid (g1 y) = iid y) -> (forall y, iid (g2 y) = iid y) ->
  updInst u1 g1 (updInst u2 g2 F) = updInst u2 g2 (updInst u1 g1 F).
Proof.
  intros Hne H1 H2. unfold updInst, mapInsts. rewrite !map_map. apply map_ext.
  intros b. simpl. rewrite !map_map. f_equal. apply map_ext. intros y.
  destruct (Pos.eqb_spec (iid y) u2) as [e2|n2], (Pos.eqb_spec (iid y) u1) as [e1|n1];
    try congruence.
  - rewrite H2. destruct (Pos.eqb_spec (iid y) u1); [congruence|].
    destruct (Pos.eqb_spec (iid y) u2); congruence.
  - rewrite H1. destruct (Pos.eqb_spec (iid y) u2); [congruence|].
    destruct (Pos.eqb_spec (iid y) u1); congruence.
  - destruct (Pos.eqb_spec (iid y) u1), (Pos.eqb_spec (iid y) u2); congruence.
Qed.

Lemma updInst_ext u g1 g2 F :
  (forall y, g1 y = g2 y) -> updInst u g1 F = updInst u g2 F.
Proof.
  intros H. unfold updInst, mapInsts. apply map_ext. intros b. f_equal.
  apply map_ext. intros y. rewrite H. reflexivity.
Qed.

Lemma mapInsts_id F : mapInsts (fun y => y) F = F.
Proof.
  unfold mapInsts. induction F as [| b F IH]; simpl; auto.
  rewrite map_id, block_eta, IH. reflexivity.
Qed.

Lemma bview_mapInsts g F :
  (forall y, In y (allInsts F) -> view (g y) = view y) -> bview (mapInsts g F) = bview F.
Proof.
  unfold bview, mapInsts, allInsts. induction F as [| b F IH]; simpl; auto.
  intros H. rewrite IH by (intros; apply H; apply in_or_app; auto). f_equal. f_equal.
  assert (H' : forall y, In y (insts b) -> view (g y) = view y)
    by (intros; apply H; apply in_or_app; auto).
  clear - H'. induction (insts b) as [| y l IHl]; simpl; auto.
  rewrite H' by (left; auto). rewrite IHl; auto. intros. apply H'. right. auto.
Qed.

Lemma blockInsts_mapInsts g F B :
  blockInsts (mapInsts g F) B = map g (blockInsts F B).
Proof. unfold mapInsts. apply (blockInsts_map (map g)). reflexivity. Qed.

Lemma blockInsts_insertEnd cb n F :
  In cb (bids F) -> blockInsts (insertAt (posEnd cb) n F) cb = blockInsts F cb ++ [n].
Proof.
  unfold blockInsts, bids. induction F as [| b F IH]; simpl; [tauto|].
  intros H. unfold posEnd at 1. destruct (Pos.eqb_spec (bid b) cb) as [e|ne]; simpl.
  - rewrite e, Pos.eqb_refl. apply insertNth_end.
  - destruct (Pos.eqb_spec (bid b) cb); [contradiction|]. apply IH. tauto.
Qed.

Lemma blockInsts_insertEnd_other cb n F B :
  B <> cb -> blockInsts (insertAt (posEnd cb) n F) B = blockInsts F B.
Proof.
  intros H. apply blockInsts_insertAt. intros b Hb. unfold posEnd.
  destruct (Pos.eqb_spec (bid b) cb); congruence.
Qed.

Lemma map_upd_notin u g l :
  ~ In u (map iid l) -> map (fun y => if Pos.eqb (iid y) u then g y else y) l = l.
Proof.
  induction l as [| y l IH]; simpl; auto. intros H.
  destruct (Pos.eqb_spec (iid y) u); [tauto|]. rewrite IH; tauto.
Qed.

Lemma blockInsts_ids_incl F B : incl (map iid (blockInsts F B)) (ids F).
Proof.
  intros x Hx. apply in_map_iff in Hx. destruct Hx as (y & <- & Hy).
  rewrite ids_allInsts. apply in_map. eapply blockInsts_In; eauto.
Qed.

Lemma blockInsts_insertBefore i n F B l1 x l2 :
  NoDup (ids F) -> blockInsts F B = l1 ++ x :: l2 -> iid x = i ->
  blockInsts (insertAt (posBefore i) n F) B = l1 ++ n :: x :: l2.
Proof.
  unfold blockInsts. induction F as [| b F IH]; simpl.
  - intros _ H. destruct l1; discriminate.
  - intros Hnd. unfold ids in Hnd. simpl in Hnd.
    apply NoDup_app_inv in Hnd. destruct Hnd as (Hn1 & Hn2 & Hd).
    destruct (Pos.eqb_spec (bid b) B) as [e|ne]; intros HB Hx.
    + assert (Hl1 : ~ In i (map iid l1)).
      { rewrite HB, map_app in Hn1. simpl in Hn1. apply NoDup_remove_2 in Hn1.
        rewrite Hx in Hn1. rewrite in_app_iff in Hn1. tauto. }
      assert (Hp : posBefore i b = Some (List.length l1)).
      { unfold posBefore. rewrite HB. apply indexOf_mid; auto. }
      rewrite Hp. simpl. rewrite e, Pos.eqb_refl.
      unfold insertNth. rewrite HB.
      rewrite firstn_app, firstn_all, Nat.sub_diag, skipn_app, skipn_all, Nat.sub_diag.
      simpl. rewrite app_nil_r. reflexivity.
    + assert (Hi : In i (ids F)).
      { assert (H : In x (blockInsts F B)).
        { unfold blockInsts. rewrite HB. apply in_or_app. right. left. auto. }
        rewrite <- Hx. rewrite ids_allInsts. apply in_map.
        eapply blockInsts_In; eauto. }
      assert (Hp : posBefore i b = None).
      { unfold posBefore. apply indexOf_notin. intros Hin. apply (Hd i); auto. }
      rewrite Hp. simpl. destruct (Pos.eqb_spec (bid b) B); [contradiction|].
      apply IH; auto.
Qed.

(** * Building the argument PHI nodes *)

Lemma setKind_same y : setKind y (ikd y) = y.
Proof. destruct y; reflexivity. Qed.

Lemma updInst_id u g F : (forall y, g y = y) -> updInst u g F = F.
Proof.
  intros H. unfold updInst. rewrite <- (mapInsts_id F) at 2.
  unfold mapInsts. apply map_ext. intros b. f_equal. apply map_ext.
  intros y. rewrite H. destruct (Pos.eqb (iid y) u); reflexivity.
Qed.

Lemma appendIncoming_nil y : appendIncoming [] y = y.
Proof.
  unfold appendIncoming. destruct (ikd y) eqn:E; auto.
  rewrite app_nil_r, <- E. apply setKind_same.
Qed.

Lemma appendIncoming_app l1 l2 y :
  appendIncoming l2 (appendIncoming l1 y) = appendIncoming (l1 ++ l2) y.
Proof.
  unfold appendIncoming. destruct (ikd y) eqn:E; simpl; rewrite ?E; auto.
  unfold setKind. simpl. rewrite app_assoc. reflexivity.
Qed.

Lemma appendIncoming_iid l y : iid (appendIncoming l y) = iid y.
Proof. unfold appendIncoming. destruct (ikd y); reflexivity. Qed.

Lemma appendCases_nil y : appendCases [] y = y.
Proof.
  unfold appendCases. destruct (ikd y) eqn:E; auto.
  rewrite app_nil_r, <- E. apply setKind_same.
Qed.

Lemma appendCases_app l1 l2 y :
  appendCases l2 (appendCases l1 y) = appendCases (l1 ++ l2) y.
Proof.
  unfold appendCases. destruct (ikd y) eqn:E; simpl; rewrite ?E; auto.
  unfold setKind. simpl. rewrite app_assoc. reflexivity.
Qed.

Lemma appendCases_iid l y : iid (appendCases l y) = iid y.
Proof. unfold appendCases. destruct (ikd y); reflexivity. Qed.

Lemma getArgOperand_ext F G c i :
  findInst G c = findInst F c -> getArgOperand G c i = getArgOperand F c i.
Proof. unfold getArgOperand. intros ->. reflexivity. Qed.

Lemma incomingFor_ext F G toPar callers i :
  (forall c, In c callers -> findInst G c = findInst F c) ->
  incomingFor G toPar callers i = incomingFor F toPar callers i.
Proof.
  unfold incomingFor. induction callers as [| c cs IH]; simpl; auto.
  intros H. rewrite IH by auto. rewrite (getArgOperand_ext F G) by auto. reflexivity.
Qed.

Lemma fold_addIncoming node toPar i cs :
  forall G, ~ In node cs ->
  fold_left (fun G caller =>
               match olookup caller toPar with
               | Some p => addIncoming node (getArgOperand G caller i) p G
               | None => G
               end) cs G
  = updInst node (appendIncoming (incomingFor G toPar cs i)) G.
Proof.
  induction cs as [| c cs IH]; simpl; intros G Hn.
  - symmetry. apply updInst_id. apply appendIncoming_nil.
  - unfold incomingFor. simpl. fold (incomingFor G toPar cs i).
    destruct (olookup c toPar) as [p|].
    + rewrite IH by tauto.
      change (addIncoming node (getArgOperand G c i) p G)
        with (updInst node (appendIncoming [(getArgOperand G c i, p)]) G).
      rewrite updInst_updInst by apply appendIncoming_iid.
      rewrite (incomingFor_ext G).
      * apply updInst_ext. intros y. apply appendIncoming_app.
      * intros c' Hc'. apply findInst_updInst; [apply appendIncoming_iid|].
        intros ->. tauto.
    + simpl. apply IH. tauto.
Qed.

Lemma view_appendIncoming l y : view (appendIncoming l y) = view y.
Proof.
  unfold appendIncoming. destruct (ikd y) eqn:E; auto.
  unfold view, isAllocaPoint. simpl. rewrite E. reflexivity.
Qed.

Lemma view_appendCases l y : view (appendCases l y) = view y.
Proof.
  unfold appendCases. destruct (ikd y) eqn:E; auto.
  unfold view, isAllocaPoint. simpl. rewrite E. reflexivity.
Qed.

Lemma ids_updInst u g F : (forall y, iid (g y) = iid y) -> ids (updInst u g F) = ids F.
Proof.
  intros H. unfold updInst. apply ids_mapInsts. intros y.
  destruct (Pos.eqb (iid y) u); auto.
Qed.

Lemma bids_updInst u g F : bids (updInst u g F) = bids F.
Proof. apply bids_mapInsts. Qed.

Lemma bview_updInst u g F : (forall y, view (g y) = view y) -> bview (updInst u g F) = bview F.
Proof.
  intros H. unfold updInst. apply bview_mapInsts. intros y _.
  destruct (Pos.eqb (iid y) u); auto.
Qed.

Lemma blockInsts_updInst u g F B :
  blockInsts (updInst u g F) B
  = map (fun y => if Pos.eqb (iid y) u then g y else y) (blockInsts F B).
Proof. unfold updInst. apply blockInsts_mapInsts. Qed.

Section BuildArgs.
Variable alloc : list positive -> positive.
Hypothesis alloc_fresh : forall l, ~ In (alloc l) l.
Variable uniqueName : function -> string -> string.
Hypothesis uniqueName_prefix :
  forall F nm, String.prefix nm (uniqueName F nm) = true.

Lemma buildArgPHI_spec cb callers toPar G args i A :
  NoDup (ids G) -> In cb (bids G) -> (forall c, In c callers -> In c (ids G)) ->
  let st' := buildArgPHI alloc cb callers toPar (G, args, i) A in
  let G' := fst (fst st') in
  let phi := mkInst (alloc (ids G)) "" A (PHI (incomingFor G toPar callers i)) in
  NoDup (ids G') /\ bids G' = bids G /\ bview G' = bview G /\
  incl (ids G) (ids G') /\
  (forall x, In x (ids G) -> findInst G' x = findInst G x) /\
  blockInsts G' cb = blockInsts G cb ++ [phi] /\
  snd (fst st') = args ++ [VInst (alloc (ids G))] /\ snd st' = Datatypes.S i.
Proof.
  intros Hnd Hcb Hcs. unfold buildArgPHI. cbv zeta. simpl fst. simpl snd.
  set (node := alloc (ids G)).
  assert (Hfresh : ~ In node (ids G)) by apply alloc_fresh.
  set (phi0 := mkInst node "" A (PHI [])).
  set (F1 := insertAt (posEnd cb) phi0 G).
  assert (Hnode : ~ In node callers) by (intros H; apply Hfresh; auto).
  rewrite fold_addIncoming by auto.
  assert (Hf1 : forall x, In x (ids G) -> findInst F1 x = findInst G x).
  { intros x Hx. apply findInst_insertAt. simpl. intros ->. contradiction. }
  rewrite (incomingFor_ext G F1) by (intros; apply Hf1; auto).
  set (l := incomingFor G toPar callers i).
  repeat match goal with |- _ /\ _ => split end.
  - rewrite ids_updInst by apply appendIncoming_iid.
    apply NoDup_insertAt; auto.
  - rewrite bids_updInst. apply bids_insertAt.
  - rewrite bview_updInst by apply view_appendIncoming.
    apply bview_insertAt. reflexivity.
  - rewrite ids_updInst by apply appendIncoming_iid. apply ids_insertAt_incl.
  - intros x Hx. rewrite findInst_updInst; auto.
    + apply appendIncoming_iid.
    + intros ->. contradiction.
  - rewrite blockInsts_updInst. unfold F1. rewrite blockInsts_insertEnd by auto.
    rewrite map_app. simpl. rewrite Pos.eqb_refl. rewrite map_upd_notin.
    + reflexivity.
    + intros Hin. apply Hfresh. eapply blockInsts_ids_incl; eauto.
  - reflexivity.
  - reflexivity.
Qed.

Lemma buildArgs_fold cb callers toPar tys :
  forall G args i,
  NoDup (ids G) -> In cb (bids G) -> (forall c, In c callers -> In c (ids G)) ->
  let st' := fold_left (buildArgPHI alloc cb callers toPar) tys (G, args, i) in
  let G' := fst (fst st') in
  NoDup (ids G') /\ bids G' = bids G /\ bview G' = bview G /\
  incl (ids G) (ids G') /\
  (forall x, In x (ids G) -> findInst G' x = findInst G x) /\
  exists phis,
    blockInsts G' cb = blockInsts G cb ++ phis /\
    snd (fst st') = args ++ map (fun p => VInst (iid p)) phis /\
    map ikd phis = map (fun j => PHI (incomingFor G toPar callers j))
                       (seq i (List.length tys)) /\
    map ity phis = tys /\
    (forall p, In p phis -> ~ In (iid p) (ids G)).
Proof.
  induction tys as [| A tys IH]; intros G args i Hnd Hcb Hcs; cbn [fold_left].
  - simpl. repeat match goal with |- _ /\ _ => split end; auto using incl_refl.
    exists []. rewrite !app_nil_r. repeat split; auto.
  - pose proof (buildArgPHI_spec cb callers toPar G args i A Hnd Hcb Hcs) as HS.
    cbv zeta in HS.
    remember (buildArgPHI alloc cb callers toPar (G, args, i) A) as st1 eqn:Est.
    destruct st1 as [[G1 args1] i1]. simpl in HS.
    destruct HS as (H1 & H2 & H3 & H4 & H5 & H6 & H7 & H8).
    subst args1 i1.
    assert (Hcb1 : In cb (bids G1)) by (rewrite H2; auto).
    assert (Hcs1 : forall c, In c callers -> In c (ids G1)) by (intros; apply H4; auto).
    destruct (IH G1 (args ++ [VInst (alloc (ids G))]) (Datatypes.S i) H1 Hcb1 Hcs1)
      as (K1 & K2 & K3 & K4 & K5 & (phis & K6 & K7 & K8 & K9 & K10)).
    repeat match goal with |- _ /\ _ => split end.
    + exact K1.
    + congruence.
    + congruence.
    + eapply incl_tran; eauto.
    + intros x Hx. rewrite K5 by auto. auto.
    + exists (mkInst (alloc (ids G)) "" A (PHI (incomingFor G toPar callers i)) :: phis).
      repeat match goal with |- _ /\ _ => split end.
      * rewrite K6, H6, <- app_assoc. reflexivity.
      * rewrite K7, <- app_assoc. reflexivity.
      * simpl. f_equal. rewrite K8. apply map_ext_in. intros j _.
        f_equal. apply incomingFor_ext. intros c Hc. apply H5. auto.
      * simpl. f_equal. exact K9.
      * intros p [<- | Hp]; simpl.
        -- apply alloc_fresh.
        -- intros Hin. apply (K10 p Hp). apply H4. exact Hin.
Qed.
End BuildArgs.

(** * Emitting the call *)

Lemma allMarks_insertEnd cb n m F :
  In cb (bids F) -> view n = Some m ->
  exists Ma Mb, allMarks F = Ma ++ Mb /\
                allMarks (insertAt (posEnd cb) n F) = Ma ++ m :: Mb.
Proof.
  unfold allMarks, bids. induction F as [| b F IH]; simpl; [tauto|].
  intros Hin Hn. unfold posEnd at 1.
  destruct (Pos.eqb_spec (bid b) cb) as [e|ne]; simpl.
  - exists (marks (insts b)), (flat_map (fun b0 => marks (insts b0)) F).
    split; auto. rewrite insertNth_end, marks_app. simpl. rewrite Hn. simpl.
    rewrite <- app_assoc. reflexivity.
  - destruct IH as (Ma & Mb & E1 & E2); [tauto | auto |].
    exists (marks (insts b) ++ Ma), Mb. rewrite E1, E2, <- !app_assoc. auto.
Qed.

Lemma bview_head_insertEnd cb n F E ME rest :
  bview F = (E, ME) :: rest -> E <> cb ->
  exists rest', bview (insertAt (posEnd cb) n F) = (E, ME) :: rest'.
Proof.
  destruct F as [| b F]; simpl; [discriminate|]. intros [= <- <- <-] Hne.
  unfold posEnd at 1. destruct (Pos.eqb_spec (bid b) cb); [contradiction|].
  simpl. eauto.
Qed.

(** * Erasing the original calls *)

Lemma allMarks_verase c F :
  flat_map snd (verase c (bview F))
  = filter (fun m => negb (Pos.eqb (markId m) c)) (allMarks F).
Proof.
  unfold verase, bview, allMarks. induction F as [| b F IH]; simpl; auto.
  rewrite filter_app, IH. reflexivity.
Qed.

Lemma view_replace_inst c w y : view (replaceUsesOfWith c (VInst w) y) = view y.
Proof. apply view_replaceUsesOfWith. Qed.

Lemma iid_replaceUsesOfWith c w y : iid (replaceUsesOfWith c w y) = iid y.
Proof. reflexivity. Qed.

Lemma eraseStep_spec c w G :
  NoDup (ids G) ->
  let G' := eraseFromParent c (replaceAllUsesWith c (VInst w) G) in
  NoDup (ids G') /\ bids G' = bids G /\ bview G' = verase c (bview G) /\
  (forall x, In x (ids G') <-> In x (ids G) /\ x <> c) /\
  (forall B, blockInsts G' B
             = filter (fun x => negb (Pos.eqb (iid x) c))
                      (map (replaceUsesOfWith c (VInst w)) (blockInsts G B))).
Proof.
  intros Hnd G'. unfold G', replaceAllUsesWith.
  assert (Hids : ids (mapInsts (replaceUsesOfWith c (VInst w)) G) = ids G)
    by (apply ids_mapInsts; reflexivity).
  repeat match goal with |- _ /\ _ => split end.
  - apply NoDup_eraseFromParent. rewrite Hids. exact Hnd.
  - rewrite bids_eraseFromParent. apply bids_mapInsts.
  - rewrite bview_eraseFromParent. f_equal. apply bview_mapInsts.
    intros. apply view_replace_inst.
  - intros x. rewrite ids_eraseFromParent, Hids. tauto.
  - intros B. unfold eraseFromParent.
    rewrite (blockInsts_map (filter (fun x => negb (Pos.eqb (iid x) c)))) by reflexivity.
    rewrite blockInsts_mapInsts. reflexivity.
Qed.

Lemma inb_true x l : inb x l = true <-> In x l.
Proof.
  unfold inb. rewrite existsb_exists. split.
  - intros (y & Hy & E). apply Pos.eqb_eq in E. congruence.
  - intros H. exists x. split; auto. apply Pos.eqb_refl.
Qed.

Lemma filter_filter {A} (p q : A -> bool) l :
  filter q (filter p l) = filter (fun x => p x && q x) l.
Proof.
  induction l as [| x l IH]; simpl; auto.
  destruct (p x); simpl; [destruct (q x); simpl; congruence | auto].
Qed.

Lemma substAll_iid cs w y : iid (substAll cs w y) = iid y.
Proof.
  unfold substAll. revert y. induction cs as [| c cs IH]; simpl; intros y; auto.
  rewrite IH. reflexivity.
Qed.

Lemma view_substAll cs w y : view (substAll cs (VInst w) y) = view y.
Proof.
  unfold substAll. revert y. induction cs as [| c cs IH]; simpl; intros y; auto.
  rewrite IH. apply view_replace_inst.
Qed.

Lemma eraseCallers_spec w cs :
  forall G, NoDup (ids G) ->
  let G' := eraseCallers w cs G in
  NoDup (ids G') /\ bids G' = bids G /\
  bview G' = fold_left (fun A c => verase c A) cs (bview G) /\
  (forall x, In x (ids G') <-> In x (ids G) /\ ~ In x cs) /\
  (forall B, (forall y, In y (blockInsts G B) -> ~ In (iid y) cs) ->
             blockInsts G' B = map (substAll cs (VInst w)) (blockInsts G B)).
Proof.
  unfold eraseCallers. induction cs as [| c cs IH]; simpl; intros G Hnd.
  - repeat match goal with |- _ /\ _ => split end; auto.
    + intros x. tauto.
    + intros B _. unfold substAll. simpl. rewrite map_id. reflexivity.
  - destruct (eraseStep_spec c w G Hnd) as (H1 & H2 & H3 & H4 & H5).
    destruct (IH _ H1) as (K1 & K2 & K3 & K4 & K5).
    repeat match goal with |- _ /\ _ => split end.
    + exact K1.
    + congruence.
    + rewrite K3, H3. reflexivity.
    + intros x. rewrite K4, H4. intuition.
    + intros B HB. rewrite K5.
      * rewrite H5.
        assert (E : filter (fun x => negb (Pos.eqb (iid x) c))
                      (map (replaceUsesOfWith c (VInst w)) (blockInsts G B))
                    = map (replaceUsesOfWith c (VInst w)) (blockInsts G B)).
        { induction (blockInsts G B) as [| y l IHl]; simpl; auto.
          destruct (Pos.eqb_spec (iid y) c) as [e|].
          - exfalso. apply (HB y); simpl; auto.
          - simpl. rewrite IHl; auto. intros z Hz. apply HB. right. auto. }
        rewrite E, map_map. reflexivity.
      * intros y Hy. rewrite H5 in Hy. apply filter_In in Hy. destruct Hy as [Hy _].
        apply in_map_iff in Hy. destruct Hy as (z & <- & Hz).
        intros Hin. apply (HB z Hz). right. exact Hin.
Qed.

Lemma allMarks_fold_verase cs :
  forall A, flat_map snd (fold_left (fun A c => verase c A) cs A)
            = filter (fun m => negb (inb (markId m) cs)) (flat_map snd A).
Proof.
  induction cs as [| c cs IH]; simpl; intros A.
  - induction (flat_map snd A) as [| m l IHl]; simpl; auto. congruence.
  - rewrite IH. unfold verase.
    assert (E : flat_map snd
                  (map (fun p : blockid * list mark =>
                          (fst p, filter (fun m => negb (Pos.eqb (markId m) c)) (snd p))) A)
                = filter (fun m => negb (Pos.eqb (markId m) c)) (flat_map snd A)).
    { induction A as [| [B M] A IHA]; simpl; auto. rewrite filter_app, IHA. reflexivity. }
    rewrite E, filter_filter. apply filter_ext. intros m.
    destruct (Pos.eqb (markId m) c); simpl; auto.
Qed.

(** No use of an erased call is left. *)

Lemma usesb_replace_inv c c' w y :
  usesb c (replaceUsesOfWith c' (VInst w) y) = true ->
  (usesb c y = true /\ c <> c') \/ w = c.
Proof.
  rewrite !usesb_In. unfold replaceUsesOfWith. simpl. rewrite operands_mapOperands.
  intros H. apply in_map_iff in H. destruct H as (v & Hv & Hin).
  unfold substValue in Hv. destruct (isVInst c' v) eqn:E.
  - right. congruence.
  - left. subst v. split; auto. intros ->. simpl in E. rewrite Pos.eqb_refl in E.
    discriminate.
Qed.

Lemma allInsts_eraseStep c g G U :
  In U (allInsts (eraseFromParent c (mapInsts g G))) ->
  exists y, In y (allInsts G) /\ U = g y.
Proof.
  unfold allInsts, eraseFromParent, mapInsts. rewrite !in_flat_map.
  intros (b & Hb & HU). apply in_map_iff in Hb. destruct Hb as (b1 & <- & Hb1).
  apply in_map_iff in Hb1. destruct Hb1 as (b0 & <- & Hb0). simpl in HU.
  apply filter_In in HU. destruct HU as [HU _].
  apply in_map_iff in HU. destruct HU as (y & <- & Hy).
  exists y. split; auto. apply in_flat_map. eauto.
Qed.

Lemma eraseCallers_no_users w cs :
  forall G c, c <> w ->
    (In c cs \/ forall U, In U (allInsts G) -> usesb c U = false) ->
    forall U, In U (allInsts (eraseCallers w cs G)) -> usesb c U = false.
Proof.
  unfold eraseCallers. induction cs as [| c1 cs IH]; simpl; intros G c Hw H.
  - destruct H as [[] | H]. exact H.
  - apply IH; auto.
    destruct H as [[-> | H] | H]; auto; right; intros U HU;
      unfold replaceAllUsesWith in HU;
      apply allInsts_eraseStep in HU; destruct HU as (y & Hy & ->);
      destruct (usesb c (replaceUsesOfWith _ (VInst w) y)) eqn:E; auto;
      apply usesb_replace_inv in E; destruct E as [[E1 E2] | E]; try congruence.
    rewrite (H y Hy) in E1. discriminate.
Qed.

(** * The return router *)

Lemma fold_routeBack wf sw l :
  wf <> sw ->
  forall F ctr,
    fst (fold_left (routeBack wf sw) l (F, ctr))
    = updInst sw (appendCases (combine (tagsFrom ctr (List.length l)) (map snd l)))
        (updInst wf (appendIncoming (combine (tagsFrom ctr (List.length l)) (map fst l))) F).
Proof.
  intros Hne. induction l as [| e l IH]; intros F ctr.
  - simpl. rewrite !updInst_id; auto using appendIncoming_nil, appendCases_nil.
  - cbn [fold_left]. unfold routeBack at 2. cbv zeta. rewrite IH.
    change (addCase sw (VConstInt 32 (APInt 32 ctr)) (snd e)
              (addIncoming wf (VConstInt 32 (APInt 32 ctr)) (fst e) F))
      with (updInst sw (appendCases [(VConstInt 32 (APInt 32 ctr), snd e)])
              (updInst wf (appendIncoming [(VConstInt 32 (APInt 32 ctr), fst e)]) F)).
    rewrite (updInst_comm wf sw) by (auto using appendIncoming_iid, appendCases_iid).
    rewrite updInst_updInst by apply appendCases_iid.
    rewrite updInst_updInst by apply appendIncoming_iid.
    simpl.
    rewrite (updInst_ext wf _
               (appendIncoming ((VConstInt 32 (APInt 32 ctr), fst e)
                  :: combine (tagsFrom (ctr + 1) (List.length l)) (map fst l))))
      by (intros y; apply appendIncoming_app).
    apply updInst_ext. intros y. apply appendCases_app.
Qed.

Section Router.
Variable alloc : list positive -> positive.
Hypothesis alloc_fresh : forall l, ~ In (alloc l) l.
Variable uniqueName : function -> string -> string.
Hypothesis uniqueName_prefix :
  forall F nm, String.prefix nm (uniqueName F nm) = true.

Lemma emitRouter_spec cb ci first rest G L1 callI :
  NoDup (ids G) -> In cb (bids G) ->
  blockInsts G cb = L1 ++ [callI] -> iid callI = ci ->
  let toRet := first :: rest in
  let F' := emitRouter alloc cb ci toRet G in
  let wf := alloc (ids G) in
  let tags := tagsFrom 0 (List.length toRet) in
  exists sw,
    NoDup (ids F') /\ bids F' = bids G /\ bview F' = bview G /\
    wf <> sw /\ ~ In sw (ids G) /\
    blockInsts F' cb
    = L1 ++ [mkInst wf "" (TInt 32) (PHI (combine tags (map fst toRet)));
             callI;
             mkInst sw "" TVoid
               (Switch (VInst wf) (snd first) (combine tags (map snd toRet)))].
Proof.
  intros Hnd Hcb HL Hci toRet F' wf tags.
  set (wf0 := mkInst wf "" (TInt 32) (PHI [])).
  set (F5 := insertAt (posBefore ci) wf0 G).
  set (sw := alloc (ids F5)).
  set (sw0 := mkInst sw "" TVoid (Switch (VInst wf) (snd first) [])).
  set (F6 := insertAt (posEnd cb) sw0 F5).
  assert (Hwf : ~ In wf (ids G)) by apply alloc_fresh.
  assert (Hsw : ~ In sw (ids F5)) by apply alloc_fresh.
  assert (Hnd5 : NoDup (ids F5)) by (apply NoDup_insertAt; auto).
  assert (Hnd6 : NoDup (ids F6)) by (apply NoDup_insertAt; auto).
  assert (HL5 : blockInsts F5 cb = L1 ++ [wf0; callI]).
  { unfold F5. erewrite blockInsts_insertBefore; eauto. }
  assert (Hcb5 : In cb (bids F5)) by (unfold F5; rewrite bids_insertAt; auto).
  assert (HL6 : blockInsts F6 cb = L1 ++ [wf0; callI; sw0]).
  { unfold F6. rewrite blockInsts_insertEnd by auto. rewrite HL5, <- app_assoc.
    reflexivity. }
  assert (Hwf5 : In wf (ids F5)).
  { rewrite ids_allInsts. change wf with (iid wf0). apply in_map.
    apply (blockInsts_In F5 cb). rewrite HL5. apply in_or_app. right. left. auto. }
  assert (Hne : wf <> sw) by (intros e; apply Hsw; rewrite <- e; auto).
  assert (HF' : F' = updInst sw (appendCases (combine tags (map snd toRet)))
                       (updInst wf (appendIncoming (combine tags (map fst toRet))) F6)).
  { unfold F', emitRouter, toRet. cbv zeta. fold wf. fold wf0. fold F5. fold sw.
    fold sw0. fold F6. apply fold_routeBack. exact Hne. }
  exists sw. rewrite HF'.
  repeat match goal with |- _ /\ _ => split end.
  - rewrite !ids_updInst; auto using appendIncoming_iid, appendCases_iid.
  - rewrite !bids_updInst. unfold F6, F5. rewrite !bids_insertAt. reflexivity.
  - rewrite !bview_updInst; auto using view_appendIncoming, view_appendCases.
    unfold F6, F5. rewrite !bview_insertAt; reflexivity.
  - exact Hne.
  - intros Hin. apply Hsw. apply ids_insertAt_incl. exact Hin.
  - rewrite !blockInsts_updInst, HL6, !map_app.
    assert (HL1 : forall u, ~ In u (ids G) ->
               forall g, map (fun y => if Pos.eqb (iid y) u then g y else y) L1 = L1).
    { intros u Hu g. apply map_upd_notin. intros Hin. apply Hu.
      apply (blockInsts_ids_incl G cb). rewrite HL, map_app. apply in_or_app. auto. }
    assert (HswG : ~ In sw (ids G)).
    { intros Hin. apply Hsw. apply ids_insertAt_incl. exact Hin. }
    assert (HciG : In ci (ids G)).
    { apply (blockInsts_ids_incl G cb). rewrite HL, map_app. apply in_or_app.
      right. simpl. auto. }
    rewrite (HL1 wf Hwf), (HL1 sw HswG). f_equal. cbn [map].
    change (iid wf0) with wf. change (iid sw0) with sw. rewrite Hci.
    assert (E1 : Pos.eqb ci wf = false).
    { apply Pos.eqb_neq. intros e. apply Hwf. rewrite <- e. auto. }
    assert (E2 : Pos.eqb ci sw = false).
    { apply Pos.eqb_neq. intros e. apply HswG. rewrite <- e. auto. }
    assert (E3 : Pos.eqb wf sw = false) by (apply Pos.eqb_neq; auto).
    assert (E4 : Pos.eqb sw wf = false) by (apply Pos.eqb_neq; auto).
    rewrite !Pos.eqb_refl, E1, E4, Hci, E2, appendIncoming_iid.
    change (iid wf0) with wf. change (iid sw0) with sw.
    rewrite E3, Pos.eqb_refl. reflexivity.
Qed.
End Router.

(** * What the erasure loop does to the operands *)

Lemma mapOperands_mapOperands f g k :
  mapOperands g (mapOperands f k) = mapOperands (fun v => g (f v)) k.
Proof.
  destruct k as [| c args | inc | | | | | | v d cases | [v|] | |]; simpl; auto;
    rewrite ?map_map; reflexivity.
Qed.

Lemma mapOperands_ext f g k : (forall v, f v = g v) -> mapOperands f k = mapOperands g k.
Proof.
  intros H.
  destruct k as [| c args | inc | | | | | | v d cases | [v|] | |]; simpl; auto;
    rewrite ?H; try reflexivity; f_equal; apply map_ext; intros; rewrite ?H; reflexivity.
Qed.

Lemma mapOperands_id k : mapOperands (fun v => v) k = k.
Proof.
  destruct k as [| c args | inc | | | | | | v d cases | [v|] | |]; simpl; auto;
    rewrite ?map_id; auto; f_equal; rewrite <- (map_id inc) at 2 || rewrite <- (map_id cases) at 2;
    apply map_ext; intros []; reflexivity.
Qed.

Lemma ikd_substAll cs w y :
  ikd (substAll cs w y) = mapOperands (substAllV cs w) (ikd y).
Proof.
  unfold substAll, substAllV. revert y. induction cs as [| c cs IH]; simpl; intros y.
  - symmetry. apply mapOperands_id.
  - rewrite IH. simpl. rewrite mapOperands_mapOperands. reflexivity.
Qed.

Lemma ity_substAll cs w y : ity (substAll cs w y) = ity y.
Proof.
  unfold substAll. revert y. induction cs as [| c cs IH]; simpl; intros y; auto.
  rewrite IH. reflexivity.
Qed.

Lemma iname_substAll cs w y : iname (substAll cs w y) = iname y.
Proof.
  unfold substAll. revert y. induction cs as [| c cs IH]; simpl; intros y; auto.
  rewrite IH. reflexivity.
Qed.

Lemma substAllV_other cs w v :
  (forall c, In c cs -> v <> VInst c) -> substAllV cs w v = v.
Proof.
  unfold substAllV. revert v. induction cs as [| c cs IH]; simpl; intros v H; auto.
  assert (E : substValue c w v = v).
  { unfold substValue. destruct (isVInst c v) eqn:E; auto.
    apply isVInst_true in E. exfalso. apply (H c); auto. }
  rewrite E. apply IH. intros c' Hc'. apply H. auto.
Qed.

Lemma absv_substAllV cs w v : absv (substAllV cs (VInst w) v) = absv v.
Proof.
  unfold substAllV. revert v. induction cs as [| c cs IH]; simpl; intros v; auto.
  rewrite IH. apply absv_substValue.
Qed.

Lemma instruction_eq (x y : instruction) :
  iid x = iid y -> iname x = iname y -> ity x = ity y -> ikd x = ikd y -> x = y.
Proof. destruct x, y; simpl; intros; congruence. Qed.

Lemma apLead_filter p M : apLead M -> apLead (filter p M).
Proof.
  intros H M1 m M2 E Hm.
  assert (G : forall M M1 m M2, filter p M = M1 ++ m :: M2 ->
               exists N1 N2, M = N1 ++ m :: N2 /\ M2 = filter p N2).
  { clear. induction M as [| x M IH]; simpl; intros M1 m M2 E.
    - destruct M1; discriminate.
    - destruct (p x) eqn:Ex.
      + destruct M1 as [| y M1]; simpl in E.
        * injection E as <- <-. exists [], M. auto.
        * injection E as <- E. destruct (IH _ _ _ E) as (N1 & N2 & -> & ->).
          exists (x :: N1), N2. auto.
      + destruct (IH _ _ _ E) as (N1 & N2 & -> & ->).
        exists (x :: N1), N2. auto. }
  destruct (G _ _ _ _ E) as (N1 & N2 & -> & ->).
  specialize (H N1 m N2 eq_refl Hm).
  apply Forall_forall. intros z Hz. apply filter_In in Hz.
  rewrite Forall_forall in H. apply H. tauto.
Qed.

Lemma fold_verase_head cs :
  forall E ME rest,
    exists rest',
      fold_left (fun A c => verase c A) cs ((E, ME) :: rest)
      = (E, filter (fun m => negb (inb (markId m) cs)) ME) :: rest'.
Proof.
  induction cs as [| c cs IH]; simpl; intros E ME rest.
  - exists rest. f_equal. f_equal. induction ME as [| m l IHl]; simpl; auto. congruence.
  - destruct (IH E (filter (fun m => negb (Pos.eqb (markId m) c)) ME)
                (verase c rest)) as (rest' & Hr).
    exists rest'.
    change (verase c ((E, ME) :: rest))
      with ((E, filter (fun m => negb (Pos.eqb (markId m) c)) ME) :: verase c rest).
    rewrite Hr.
    f_equal. f_equal. rewrite filter_filter. apply filter_ext. intros m.
    destruct (Pos.eqb (markId m) c); simpl; auto.
Qed.

Section Merge.
Variable alloc : list positive -> positive.
Hypothesis alloc_fresh : forall l, ~ In (alloc l) l.
Variable uniqueName : function -> string -> string.
Hypothesis uniqueName_prefix :
  forall F nm, String.prefix nm (uniqueName F nm) = true.
Variable arg_types : funcid -> list typ.
Variable ret_type : funcid -> typ.

Lemma buildArgs_eq cb t callers toPar F :
  buildArgs alloc arg_types cb t callers toPar F
  = fst (fold_left (buildArgPHI alloc cb callers toPar) (arg_types t) (F, [], O)).
Proof.
  unfold buildArgs. destruct (arg_types t); reflexivity.
Qed.

Lemma mergeGroup_spec t F b G callers :
  NoDup (ids F) -> NoDup (bids F) -> F = b :: G ->
  callers = map markId (filter (callsTarget t) (allMarks F)) ->
  (2 <= List.length callers)%nat ->
  let cb := callBlockOf alloc F in
  let ap := allocaPointOf alloc F in
  let rs := rewriteGroup alloc uniqueName F callers in
  let ci := callInstrOf alloc uniqueName arg_types F t callers in
  let F4 := unified alloc uniqueName arg_types ret_type F t callers in
  let F' := mergeGroup alloc uniqueName arg_types ret_type F (t, callers) in
  let mcall := MCall ci (Some (VFunc t)) (map (fun _ => None) (arg_types t)) in
  let tags := tagsFrom 0 (List.length (callerToRet rs)) in
  NoDup (ids F') /\ NoDup (bids F') /\
  ~ In ci callers /\
  (forall c, In c callers ->
     ~ In c (ids F4) /\ forall U, In U (allInsts F4) -> usesb c U = false) /\
  (exists Ma Mb,
      MAllocaPoint ap :: allMarks F = Ma ++ Mb /\
      allMarks F' = filter (fun m => negb (inb (markId m) callers)) (Ma ++ mcall :: Mb)) /\
  (exists ME' rest',
      bview F' = (bid b, ME') :: rest' /\
      (apLead (marks (insts b)) ->
       apLead ME' /\
       filter isAPMark ME' = MAllocaPoint ap :: filter isAPMark (marks (insts b)))) /\
  (exists phis wf sw,
      blockInsts F' cb
      = phis ++ [mkInst wf "" (TInt 32) (PHI (combine tags (map fst (callerToRet rs))));
                 mkInst ci "" (ret_type t)
                   (Call (VFunc t) (map (fun p => VInst (iid p)) phis));
                 mkInst sw "" TVoid
                   (Switch (VInst wf) (snd (hd (cb, cb) (callerToRet rs)))
                      (combine tags (map snd (callerToRet rs))))] /\
      map ity phis = arg_types t /\
      map ikd phis
      = map (fun j => PHI (map (fun p => (substAllV callers (VInst ci) (fst p), snd p))
                             (incomingFor (rsF rs) (callerToOrigParent rs) callers j)))
            (seq 0 (List.length (arg_types t)))).
Proof.
  intros Hnd Hnb HF Hcallers Hk cb ap rs ci F4 F' mcall tags.
  pose proof (rewriteGroup_spec alloc alloc_fresh uniqueName uniqueName_prefix t F b G callers Hnd Hnb HF Hcallers)
    as HR.
  fold cb in HR. fold ap in HR. fold rs in HR. unfold rewInv in HR.
  destruct HR as (R1 & R2 & R3 & R4 & R5 & _ & _ & _ & R9 & R10 & R11 & _ & R13 & R14).
  set (Frs := rsF rs) in *. set (toRet := callerToRet rs) in *.
  set (toPar := callerToOrigParent rs) in *.
  (* the call sites are still there *)
  assert (HcM : forall c, In c callers ->
            exists m, In m (allMarks F) /\ markId m = c /\ callsTarget t m = true).
  { intros c Hc. rewrite Hcallers in Hc. apply in_map_iff in Hc.
    destruct Hc as (m & Hm & Hin). apply filter_In in Hin. exists m. tauto. }
  assert (Hcs : forall c, In c callers -> In c (ids Frs)).
  { intros c Hc. destruct (HcM c Hc) as (m & Hm & Hid & _).
    apply allMarks_ids_incl. rewrite R3. rewrite <- Hid. apply in_map. right. exact Hm. }
  (* the argument PHIs *)
  pose proof (buildArgs_fold alloc alloc_fresh cb callers toPar (arg_types t)
                Frs [] O R1 R4 Hcs) as HB.
  cbv zeta in HB.
  assert (Hba : builtArgs alloc uniqueName arg_types F t callers
                = fst (fold_left (buildArgPHI alloc cb callers toPar) (arg_types t)
                         (Frs, [], O))).
  { unfold builtArgs. apply buildArgs_eq. }
  remember (fold_left (buildArgPHI alloc cb callers toPar) (arg_types t) (Frs, [], O))
    as st eqn:Est.
  destruct st as [[Fa callArgs] ctr]. simpl in HB, Hba.
  destruct HB as (B1 & B2 & B3 & B4 & B5 & (phis & B6 & B7 & B8 & B9 & B10)).
  rewrite R5 in B6. simpl in B6, B7.
  (* the call *)
  assert (Hci : ci = alloc (ids Fa)).
  { unfold ci, callInstrOf. rewrite Hba. reflexivity. }
  assert (HciF : ~ In ci (ids Fa)) by (rewrite Hci; apply alloc_fresh).
  assert (HciC : ~ In ci callers) by (intros H; apply HciF; apply B4; auto).
  set (callI := mkInst ci "" (ret_type t) (Call (VFunc t) callArgs)).
  set (F3 := insertAt (posEnd cb) callI Fa).
  assert (HF3 : emitCall alloc uniqueName arg_types ret_type F t callers = F3).
  { unfold emitCall. fold ci. rewrite Hba. reflexivity. }
  assert (Hcba : In cb (bids Fa)) by (rewrite B2; exact R4).
  assert (Hnd3 : NoDup (ids F3)) by (apply NoDup_insertAt; auto).
  assert (HL3 : blockInsts F3 cb = phis ++ [callI]).
  { unfold F3. rewrite blockInsts_insertEnd by auto. rewrite B6. reflexivity. }
  assert (Hvc : view callI = Some mcall).
  { unfold view, mcall. simpl. rewrite B7, map_map. simpl. f_equal. f_equal.
    rewrite <- B9, map_map. reflexivity. }
  destruct (allMarks_insertEnd cb callI mcall Fa Hcba Hvc) as (Ma & Mb & HM1 & HM2).
  fold F3 in HM2.
  assert (HMa : MAllocaPoint ap :: allMarks F = Ma ++ Mb).
  { rewrite <- HM1. rewrite (allMarks_bview Fa), B3, <- (allMarks_bview Frs).
    symmetry. exact R3. }
  (* erasing the original calls *)
  assert (HF4 : F4 = eraseCallers ci callers F3).
  { unfold F4, unified. fold ci. rewrite HF3. reflexivity. }
  destruct (eraseCallers_spec ci callers F3 Hnd3) as (E1 & E2 & E3 & E4 & E5).
  rewrite <- HF4 in E1, E2, E3, E4, E5.
  assert (HL4 : blockInsts F4 cb = map (substAll callers (VInst ci)) (phis ++ [callI])).
  { rewrite E5, HL3; auto. intros y Hy Hin. rewrite HL3 in Hy.
    apply in_app_or in Hy. destruct Hy as [Hy | [<- | []]].
    - apply (B10 y Hy). apply Hcs. exact Hin.
    - apply HciC. exact Hin. }
  rewrite map_app in HL4. simpl in HL4.
  set (phis' := map (substAll callers (VInst ci)) phis) in *.
  set (callI' := mkInst ci "" (ret_type t)
                   (Call (VFunc t) (map (fun p => VInst (iid p)) phis'))).
  assert (HcallI : substAll callers (VInst ci) callI = callI').
  { apply instruction_eq.
    - rewrite substAll_iid. reflexivity.
    - rewrite iname_substAll. reflexivity.
    - rewrite ity_substAll. reflexivity.
    - rewrite ikd_substAll. simpl. f_equal.
      + apply substAllV_other. intros; discriminate.
      + rewrite B7. unfold phis'. rewrite !map_map. apply map_ext_in.
        intros p Hp. rewrite substAll_iid. apply substAllV_other.
        intros c Hc e. injection e as e. apply (B10 p Hp). apply Hcs. rewrite e. exact Hc. }
  rewrite HcallI in HL4.
  assert (Hlen : List.length toRet = List.length callers) by exact R10.
  destruct toRet as [| first rest] eqn:EtoRet; [simpl in Hlen; lia|].
  assert (Hcb4 : In cb (bids F4)) by (rewrite E2; unfold F3; rewrite bids_insertAt; auto).
  destruct (emitRouter_spec alloc alloc_fresh cb ci first rest F4 phis' callI'
              E1 Hcb4 HL4 eq_refl) as (sw & Q1 & Q2 & Q3 & Q4 & Q5 & Q6).
  assert (HF' : F' = emitRouter alloc cb ci (first :: rest) F4).
  { unfold F', mergeGroup. simpl fst. simpl snd.
    assert (Hlt : (1 <? List.length callers)%nat = true) by (apply Nat.ltb_lt; lia).
    rewrite Hlt. fold cb. fold ci. fold rs. fold F4.
    change (callerToRet rs) with toRet. rewrite EtoRet. reflexivity. }
  rewrite <- HF' in Q1, Q2, Q3, Q6.
  assert (Hbv4 : bview F4 = fold_left (fun A c => verase c A) callers (bview F3)) by exact E3.
  assert (HndM : NoDup (map markId (allMarks Frs))) by (apply allMarks_NoDup; exact R1).
  repeat match goal with |- _ /\ _ => split end.
  - exact Q1.
  - rewrite Q2, E2. unfold F3. rewrite bids_insertAt, B2. exact R2.
  - exact HciC.
  - intros c Hc. split.
    + rewrite E4. tauto.
    + rewrite HF4. apply eraseCallers_no_users; auto. intros ->. contradiction.
  - exists Ma, Mb. split; auto.
    rewrite allMarks_bview, Q3, Hbv4, allMarks_fold_verase, <- allMarks_bview, HM2.
    reflexivity.
  - destruct R14 as (ME & rest0 & Hhd & HAP).
    assert (Hbcb : bid b <> cb).
    { intros e. apply (alloc_fresh (bids F)). fold (callBlockOf alloc F). fold cb.
      rewrite <- e, HF. left. reflexivity. }
    assert (Hhd3 : exists r3, bview F3 = (bid b, ME) :: r3).
    { unfold F3. eapply bview_head_insertEnd; [rewrite B3; exact Hhd | exact Hbcb]. }
    destruct Hhd3 as (r3 & Hhd3).
    destruct (fold_verase_head callers (bid b) ME r3) as (r4 & Hhd4).
    exists (filter (fun m => negb (inb (markId m) callers)) ME), r4.
    split.
    + rewrite Q3, Hbv4, Hhd3. exact Hhd4.
    + intros Hap0. destruct (HAP (apLead_cons_AP ap _ Hap0)) as [Hap1 Hap2]. split.
      * apply apLead_filter. exact Hap1.
      * simpl in Hap2. rewrite <- Hap2.
        assert (Hkeep : forall m, In m ME -> isAPMark m = true ->
                                  negb (inb (markId m) callers) = true).
        { intros m Hm HmAP. destruct (inb (markId m) callers) eqn:Ein; auto.
          apply inb_true in Ein. destruct (HcM _ Ein) as (m' & Hm' & Hid & Ht).
          assert (HmF : In m (allMarks Frs)).
          { rewrite allMarks_bview, Hhd. simpl. apply in_or_app. auto. }
          assert (Hm'F : In m' (allMarks Frs)) by (rewrite R3; right; exact Hm').
          assert (m' = m).
          { eapply NoDup_map_inj_in; eauto. }
          subst m'. apply callsTarget_isCall in Ht. apply isCall_notAP in Ht.
          congruence. }
        clear - Hkeep. induction ME as [| m ME IH]; simpl; auto.
        destruct (isAPMark m) eqn:Em.
        -- rewrite (Hkeep m) by (simpl; auto). simpl. rewrite Em. f_equal.
           apply IH. intros; apply Hkeep; simpl; auto.
        -- destruct (negb (inb (markId m) callers)); simpl; rewrite ?Em;
             apply IH; intros; apply Hkeep; simpl; auto.
  - exists phis', (alloc (ids F4)), sw. split; [exact Q6 | split].
    + unfold phis'. rewrite map_map. rewrite <- B9. apply map_ext.
      intros p. apply ity_substAll.
    + unfold phis'. rewrite map_map.
      transitivity (map (mapOperands (substAllV callers (VInst ci))) (map ikd phis)).
      * rewrite map_map. apply map_ext. intros p. apply ikd_substAll.
      * rewrite B8, map_map. reflexivity.
Qed.
End Merge.

(** * Calls and marks *)

Lemma view_isCallTo t I :
  isCallTo t I = match view I with Some m => callsTarget t m | None => false end.
Proof.
  unfold isCallTo, view. destruct (ikd I) as [| c args | | | | | | | | | |]; simpl;
    try (destruct (isAllocaPoint I); reflexivity).
  destruct c; reflexivity.
Qed.

Lemma callsTo_marks_list t l :
  map iid (filter (isCallTo t) l) = map markId (filter (callsTarget t) (marks l)).
Proof.
  induction l as [| I l IH]; simpl; auto.
  rewrite view_isCallTo. destruct (view I) as [m|] eqn:Hv; simpl; auto.
  destruct (callsTarget t m); simpl; auto.
  rewrite (view_markId _ _ Hv), IH. reflexivity.
Qed.

Lemma allMarks_allInsts F : allMarks F = marks (allInsts F).
Proof.
  unfold allMarks, allInsts. induction F as [| b F IH]; simpl; auto.
  rewrite marks_app, IH. reflexivity.
Qed.

Lemma callsTo_marks t F :
  callsTo t F = map markId (filter (callsTarget t) (allMarks F)).
Proof. unfold callsTo. rewrite allMarks_allInsts. apply callsTo_marks_list. Qed.

(** * The collector *)

Lemma olookup_notin {V} k (m : list (positive * V)) :
  ~ In k (map fst m) -> olookup k m = None.
Proof.
  induction m as [| [g l] m IH]; simpl; auto. intros H.
  destruct (Pos.eqb_spec k g); [exfalso; apply H; left; auto|]. apply IH. tauto.
Qed.

Lemma In_olookup {V} k (v : V) m :
  NoDup (map fst m) -> In (k, v) m -> olookup k m = Some v.
Proof.
  induction m as [| [g l] m IH]; simpl; [tauto|]. intros Hnd Hin.
  inversion Hnd; subst. destruct Hin as [[= -> ->] | Hin].
  - rewrite Pos.eqb_refl. reflexivity.
  - destruct (Pos.eqb_spec k g) as [->|]; auto.
    exfalso. apply H1. apply (in_map fst) in Hin. exact Hin.
Qed.

Section Collect.
Variable isIntrinsic : funcid -> bool.

Lemma collect_flat F :
  collect isIntrinsic F = fold_left (collectInst isIntrinsic) (allInsts F) [].
Proof.
  unfold collect, allInsts. generalize (@nil (funcid * list instid)).
  induction F as [| b F IH]; simpl; intros m; auto.
  rewrite fold_left_app. apply IH.
Qed.

Lemma keys_pushBack f c m k :
  In k (map fst (pushBack f c m)) <-> k = f \/ In k (map fst m).
Proof.
  induction m as [| [g l] m IH]; simpl.
  - intuition.
  - destruct (Pos.compare_spec f g) as [e | lt | gt]; simpl.
    + subst. intuition.
    + intuition.
    + rewrite IH. intuition.
Qed.

Lemma sorted_pushBack f c m :
  StronglySorted Pos.lt (map fst m) -> StronglySorted Pos.lt (map fst (pushBack f c m)).
Proof.
  induction m as [| [g l] m IH]; simpl; intros H.
  - constructor; constructor.
  - inversion H; subst.
    destruct (Pos.compare_spec f g) as [e | lt | gt]; simpl.
    + constructor; auto.
    + constructor; auto. constructor; auto.
      eapply Forall_impl; [| exact H3]. intros a Ha. simpl in Ha. lia.
    + constructor; auto. apply Forall_forall. intros a Ha.
      apply keys_pushBack in Ha. destruct Ha as [-> | Ha]; auto.
      rewrite Forall_forall in H3. auto.
Qed.

Lemma olookup_pushBack f c m t :
  StronglySorted Pos.lt (map fst m) ->
  olookup t (pushBack f c m)
  = if Pos.eqb t f
    then Some (match olookup f m with Some l => l ++ [c] | None => [c] end)
    else olookup t m.
Proof.
  induction m as [| [g l] m IH]; simpl; intros H.
  - destruct (Pos.eqb t f); reflexivity.
  - inversion H; subst.
    destruct (Pos.compare_spec f g) as [e | lt | gt]; simpl.
    + subst g. rewrite Pos.eqb_refl. destruct (Pos.eqb t f); reflexivity.
    + destruct (Pos.eqb_spec f g); [lia|].
      rewrite (olookup_notin f m).
      * destruct (Pos.eqb t f); reflexivity.
      * intros Hin. rewrite Forall_forall in H3. specialize (H3 _ Hin). lia.
    + destruct (Pos.eqb_spec f g); [lia|].
      rewrite IH by auto.
      destruct (Pos.eqb_spec t g), (Pos.eqb_spec t f); auto. subst. contradiction.
Qed.

Lemma collectInst_spec m I :
  StronglySorted Pos.lt (map fst m) ->
  StronglySorted Pos.lt (map fst (collectInst isIntrinsic m I)) /\
  forall t, olookup t (collectInst isIntrinsic m I) = mergeOpt (olookup t m) (elig isIntrinsic t [I]).
Proof.
  intros H. unfold collectInst, elig, isCallTo. simpl.
  destruct (ikd I) as [| c args | | | | | | | | | |];
    try (split; [exact H | intros t0; destruct (isIntrinsic t0); reflexivity]).
  destruct c; simpl;
    try (split; [exact H | intros t0; destruct (isIntrinsic t0); reflexivity]).
  destruct (isIntrinsic f) eqn:Ef.
  - split; auto. intros t. destruct (isIntrinsic t) eqn:Et; auto.
    destruct (Pos.eqb_spec f t); [congruence | reflexivity].
  - split; [apply sorted_pushBack; auto|]. intros t.
    rewrite olookup_pushBack by auto.
    destruct (Pos.eqb_spec t f) as [->|n].
    + rewrite Ef, Pos.eqb_refl. simpl. destruct (olookup f m); reflexivity.
    + destruct (Pos.eqb_spec f t); [congruence|].
      destruct (isIntrinsic t); reflexivity.
Qed.

Lemma mergeOpt_app o l1 l2 : mergeOpt (mergeOpt o l1) l2 = mergeOpt o (l1 ++ l2).
Proof.
  destruct l1 as [| x l1]; simpl; auto.
  destruct l2 as [| y l2]; simpl.
  - rewrite app_nil_r. reflexivity.
  - destruct o; simpl; rewrite <- ?app_assoc; reflexivity.
Qed.

Lemma elig_cons t I l : elig isIntrinsic t (I :: l) = elig isIntrinsic t [I] ++ elig isIntrinsic t l.
Proof.
  unfold elig. destruct (isIntrinsic t); simpl; auto.
  destruct (isCallTo t I); reflexivity.
Qed.

Lemma fold_collectInst_spec l :
  forall m, StronglySorted Pos.lt (map fst m) ->
  StronglySorted Pos.lt (map fst (fold_left (collectInst isIntrinsic) l m)) /\
  forall t, olookup t (fold_left (collectInst isIntrinsic) l m)
            = mergeOpt (olookup t m) (elig isIntrinsic t l).
Proof.
  induction l as [| I l IH]; simpl; intros m H.
  - split; auto. intros t. unfold elig. destruct (isIntrinsic t); reflexivity.
  - destruct (collectInst_spec m I H) as [H1 H2].
    destruct (IH _ H1) as [K1 K2]. split; auto.
    intros t. rewrite K2, H2, mergeOpt_app, <- elig_cons. reflexivity.
Qed.

(** The groups are keyed by distinct targets in ascending order; the
    group of [t] lists the calls of [t] in layout order, and exists
    exactly when [t] is not an intrinsic and is called. *)
Lemma collect_spec F :
  StronglySorted Pos.lt (map fst (collect isIntrinsic F)) /\
  forall t, olookup t (collect isIntrinsic F)
            = if isIntrinsic t then None
              else match callsTo t F with [] => None | cs => Some cs end.
Proof.
  rewrite collect_flat.
  destruct (fold_collectInst_spec (allInsts F) [] (SSorted_nil _)) as [H1 H2].
  split; auto. intros t. rewrite H2. unfold elig, callsTo. simpl.
  destruct (isIntrinsic t); auto.
  destruct (map iid (filter (isCallTo t) (allInsts F))); reflexivity.
Qed.

Lemma collect_In F t cs :
  In (t, cs) (collect isIntrinsic F) ->
  isIntrinsic t = false /\ cs = callsTo t F /\ cs <> [].
Proof.
  intros Hin. destruct (collect_spec F) as [H1 H2].
  apply In_olookup in Hin; [| apply sorted_NoDup; exact H1].
  rewrite H2 in Hin. destruct (isIntrinsic t); [discriminate|].
  destruct (callsTo t F) eqn:E; [discriminate|].
  injection Hin as <-. repeat split; auto. discriminate.
Qed.
End Collect.

(** * Alloca insertion points, on instructions and on marks *)

Lemma view_isCall x : isCall x = match view x with Some m => isCallMark m | None => false end.
Proof.
  unfold isCall, view. destruct (ikd x); try (destruct (isAllocaPoint x)); reflexivity.
Qed.

Lemma view_isAllocaPoint x :
  isAllocaPoint x = match view x with Some m => isAPMark m | None => false end.
Proof.
  unfold view. destruct (ikd x) eqn:E; try (destruct (isAllocaPoint x); reflexivity).
  unfold isAllocaPoint. rewrite E. reflexivity.
Qed.

Lemma countAP_marks l :
  List.length (filter isAllocaPoint l) = List.length (filter isAPMark (marks l)).
Proof.
  induction l as [| x l IH]; simpl; auto.
  rewrite view_isAllocaPoint. destruct (view x) as [m|]; simpl; auto.
  destruct (isAPMark m); simpl; auto.
Qed.

Lemma apLead_suffix M1 M2 : apLead (M1 ++ M2) -> apLead M2.
Proof.
  intros H X m Y E Hm. apply (H (M1 ++ X) m Y); auto.
  rewrite E, <- app_assoc. reflexivity.
Qed.

Lemma apLead_calls M : Forall (fun m => isCallMark m = true) M -> apLead M.
Proof.
  intros H X m Y E _. subst M. apply Forall_app in H. destruct H as [_ H].
  inversion H; auto.
Qed.

Lemma noAPAfterCall_apLead l : noAPAfterCall l = true <-> apLead (marks l).
Proof.
  induction l as [| x l IH]; simpl.
  - split; auto. intros _ X m Y E. destruct X; discriminate.
  - rewrite view_isCall. destruct (view x) as [m|] eqn:Hv; simpl.
    + destruct (isCallMark m) eqn:Hm.
      * split.
        -- intros H. apply apLead_calls. constructor; auto.
           apply Forall_forall. intros m' Hm'. apply marks_In in Hm'.
           destruct Hm' as (y & Hy & Hvy).
           rewrite forallb_forall in H. specialize (H y Hy).
           rewrite view_isAllocaPoint, Hvy in H. destruct m'; simpl in *; congruence.
        -- intros H. specialize (H [] m (marks l) eq_refl Hm).
           apply forallb_forall. intros y Hy. rewrite view_isAllocaPoint.
           destruct (view y) as [m'|] eqn:Hvy; auto.
           rewrite Forall_forall in H. specialize (H m' (In_marks _ _ _ Hy Hvy)).
           destruct m'; simpl in *; congruence.
      * rewrite IH. split.
        -- intros H. destruct m; simpl in Hm; [discriminate|]. apply apLead_cons_AP. exact H.
        -- intros H. apply (apLead_suffix [m]). exact H.
    + exact IH.
Qed.

(** * One group *)

Lemma filter_ext_in' {A} (p q : A -> bool) l :
  (forall x, In x l -> p x = q x) -> filter p l = filter q l.
Proof.
  induction l as [| x l IH]; simpl; intros H; auto.
  rewrite (H x) by auto. rewrite IH by auto. reflexivity.
Qed.

Section OneGroup.
Variable alloc : list positive -> positive.
Hypothesis alloc_fresh : forall l, ~ In (alloc l) l.
Variable uniqueName : function -> string -> string.
Hypothesis uniqueName_prefix :
  forall F nm, String.prefix nm (uniqueName F nm) = true.
Variable arg_types : funcid -> list typ.
Variable ret_type : funcid -> typ.

Lemma callsTo_nonempty t F : callsTo t F <> [] -> exists b G, F = b :: G.
Proof.
  destruct F as [| b G]; [intros H; exfalso; apply H; reflexivity | eauto].
Qed.

Lemma mergeGroup_marks t F callers :
  wf F -> callers = callsTo t F -> (2 <= List.length callers)%nat ->
  let F' := mergeGroup alloc uniqueName arg_types ret_type F (t, callers) in
  let ci := callInstrOf alloc uniqueName arg_types F t callers in
  wf F' /\
  (forall t', callsTo t' F' = if Pos.eqb t' t then [ci] else callsTo t' F) /\
  (forall m, In m (allMarks F) -> callsTarget t m = false -> In m (allMarks F')).
Proof.
  intros [Hnd Hnb] Hc Hk F' ci.
  assert (Hne : callsTo t F <> []).
  { rewrite <- Hc. destruct callers; simpl in Hk; [lia | discriminate]. }
  destruct (callsTo_nonempty t F Hne) as (b & G & HF).
  assert (Hc' : callers = map markId (filter (callsTarget t) (allMarks F))).
  { rewrite Hc. apply callsTo_marks. }
  destruct (mergeGroup_spec alloc alloc_fresh uniqueName uniqueName_prefix arg_types ret_type t F b G callers
              Hnd Hnb HF Hc' Hk)
    as (S1 & S2 & S3 & _ & (Ma & Mb & HM1 & HM2) & _ & _).
  fold F' in S1, S2, HM2. fold ci in S3, HM2.
  set (mcall := MCall ci (Some (VFunc t)) (map (fun _ => None) (arg_types t))) in *.
  set (ap := allocaPointOf alloc F) in *.
  assert (HndM : NoDup (map markId (allMarks F))) by (apply allMarks_NoDup; auto).
  assert (Hin : forall m, In m (Ma ++ Mb) <-> m = MAllocaPoint ap \/ In m (allMarks F)).
  { intros m. rewrite <- HM1. simpl. intuition. }
  assert (Hq : forall m, In m (allMarks F) ->
                 inb (markId m) callers = callsTarget t m).
  { intros m Hm. destruct (callsTarget t m) eqn:Et.
    - apply inb_true. rewrite Hc'. apply in_map. apply filter_In. auto.
    - destruct (inb (markId m) callers) eqn:Ei; auto. apply inb_true in Ei.
      rewrite Hc' in Ei. apply in_map_iff in Ei. destruct Ei as (m' & Hid & Hm').
      apply filter_In in Hm'. destruct Hm' as [Hm' Ht].
      assert (m' = m) by (eapply NoDup_map_inj_in; eauto). congruence. }
  assert (Hqci : inb ci callers = false).
  { destruct (inb ci callers) eqn:E; auto. apply inb_true in E. contradiction. }
  assert (HMab : forall p,
             filter p (MAllocaPoint ap :: allMarks F) = filter p Ma ++ filter p Mb).
  { intros p. rewrite HM1. apply filter_app. }
  repeat split; auto.
  - intros t'. rewrite callsTo_marks, HM2, filter_filter, filter_app. simpl.
    change (markId mcall) with ci. rewrite Hqci. simpl.
    assert (Hf : forall M, incl M (Ma ++ Mb) ->
               filter (fun x => negb (inb (markId x) callers) && callsTarget t' x) M
               = if Pos.eqb t' t then [] else filter (callsTarget t') M).
    { intros M HM. destruct (Pos.eqb_spec t' t) as [->|n].
      - induction M as [| m M IH]; simpl; auto.
        rewrite IH by (intros x Hx; apply HM; right; auto).
        assert (Hm : In m (Ma ++ Mb)) by (apply HM; left; auto).
        apply Hin in Hm. destruct Hm as [-> | Hm]; simpl.
        + rewrite andb_false_r. reflexivity.
        + rewrite (Hq m Hm). destruct (callsTarget t m); reflexivity.
      - apply filter_ext_in'. intros m Hm. apply HM in Hm. apply Hin in Hm.
        destruct Hm as [-> | Hm]; simpl.
        + apply andb_false_r.
        + rewrite (Hq m Hm). destruct (callsTarget t' m) eqn:E1; [| apply andb_false_r].
          destruct (callsTarget t m) eqn:E2; auto.
          exfalso. destruct m as [i [[| | | | f | |]|] args|]; simpl in *; try discriminate.
          apply Pos.eqb_eq in E1, E2. congruence. }
    rewrite (Hf Ma) by (apply incl_appl, incl_refl).
    rewrite (Hf Mb) by (apply incl_appr, incl_refl).
    destruct (Pos.eqb_spec t t') as [<-|n].
    + rewrite Pos.eqb_refl. reflexivity.
    + destruct (Pos.eqb_spec t' t); [congruence|].
      rewrite (callsTo_marks t' F).
      rewrite !map_app. rewrite <- map_app, <- filter_app, <- HM1. simpl.
      reflexivity.
  - intros m Hm Ht. rewrite HM2. apply filter_In. split.
    + assert (H : In m (Ma ++ Mb)) by (apply Hin; auto).
      apply in_app_or in H. apply in_or_app. simpl. tauto.
    + rewrite (Hq m Hm), Ht. reflexivity.
Qed.

Lemma mergeGroup_entry t F callers :
  wf F -> callers = callsTo t F -> (2 <= List.length callers)%nat ->
  noAPAfterCall (entryInsts F) = true ->
  let F' := mergeGroup alloc uniqueName arg_types ret_type F (t, callers) in
  noAPAfterCall (entryInsts F') = true /\ countAP F' = Datatypes.S (countAP F).
Proof.
  intros [Hnd Hnb] Hc Hk Hap F'.
  assert (Hne : callsTo t F <> []).
  { rewrite <- Hc. destruct callers; simpl in Hk; [lia | discriminate]. }
  destruct (callsTo_nonempty t F Hne) as (b & G & HF).
  assert (Hc' : callers = map markId (filter (callsTarget t) (allMarks F))).
  { rewrite Hc. apply callsTo_marks. }
  destruct (mergeGroup_spec alloc alloc_fresh uniqueName uniqueName_prefix arg_types ret_type t F b G callers
              Hnd Hnb HF Hc' Hk)
    as (_ & _ & _ & _ & _ & (ME' & rest' & Hhd & HAP) & _).
  fold F' in Hhd.
  apply bview_cons_inv in Hhd. destruct Hhd as (b' & G' & HF' & Hb' & HME & _).
  assert (Hap0 : apLead (marks (insts b))).
  { apply noAPAfterCall_apLead. rewrite HF in Hap. exact Hap. }
  destruct (HAP Hap0) as [H1 H2].
  unfold countAP. rewrite HF', HF. simpl. split.
  - apply noAPAfterCall_apLead. rewrite HME. exact H1.
  - rewrite !countAP_marks, HME, H2. reflexivity.
Qed.
End OneGroup.

Lemma callsTarget_eligible isIntrinsic t m :
  isIntrinsic t = false -> callsTarget t m = true -> ineligibleMark isIntrinsic m = false.
Proof.
  intros Ht. destruct m as [i [[| | | | f | |]|] args|]; simpl; try discriminate.
  intros E. apply Pos.eqb_eq in E. congruence.
Qed.

Section Run.
Variable alloc : list positive -> positive.
Hypothesis alloc_fresh : forall l, ~ In (alloc l) l.
Variable uniqueName : function -> string -> string.
Hypothesis uniqueName_prefix :
  forall F nm, String.prefix nm (uniqueName F nm) = true.
Variable arg_types : funcid -> list typ.
Variable ret_type : funcid -> typ.
Variable isIntrinsic : funcid -> bool.

Lemma mergeGroup_small F t cs :
  (1 <? List.length cs)%nat = false -> mergeGroup alloc uniqueName arg_types ret_type F (t, cs) = F.
Proof. intros H. unfold mergeGroup. simpl. rewrite H. reflexivity. Qed.

(** The loop over the groups (lines 57-137), started in any well-formed
    state whose groups are up to date. *)
Lemma run_fold groups :
  forall F,
    wf F -> NoDup (map fst groups) ->
    (forall t cs, In (t, cs) groups ->
                  cs = callsTo t F /\ cs <> [] /\ isIntrinsic t = false) ->
    let F' := fold_left (mergeGroup alloc uniqueName arg_types ret_type) groups F in
    wf F' /\
    (forall t, List.length (callsTo t F')
               = match olookup t groups with
                 | Some cs => if (1 <? List.length cs)%nat then 1%nat else List.length cs
                 | None => List.length (callsTo t F)
                 end) /\
    (forall m, In m (allMarks F) -> ineligibleMark isIntrinsic m = true ->
               In m (allMarks F')) /\
    (noAPAfterCall (entryInsts F) = true ->
     noAPAfterCall (entryInsts F') = true /\
     countAP F' = (countAP F + List.length (merged groups))%nat).
Proof.
  induction groups as [| [t0 cs0] rest IH]; intros F Hwf Hnd Hg; cbn [fold_left].
  - simpl. split; [exact Hwf|]. split; [reflexivity|]. split; [auto|].
    intros Hap. split; auto; unfold merged; simpl; lia.
  - inversion Hnd as [| ? ? Hn0 Hnd']; subst.
    destruct (Hg t0 cs0 (or_introl eq_refl)) as (Hc0 & Hne0 & Hi0).
    destruct (1 <? List.length cs0)%nat eqn:Ek.
    + (* the group is merged *)
      assert (Hk : (2 <= List.length cs0)%nat) by (apply Nat.ltb_lt in Ek; lia).
      destruct (mergeGroup_marks alloc alloc_fresh uniqueName uniqueName_prefix arg_types ret_type t0 F cs0 Hwf Hc0 Hk)
        as (W1 & W2 & W3).
      set (F1 := mergeGroup alloc uniqueName arg_types ret_type F (t0, cs0)) in *.
      assert (Hg1 : forall t cs, In (t, cs) rest ->
                      cs = callsTo t F1 /\ cs <> [] /\ isIntrinsic t = false).
      { intros t cs Hin. destruct (Hg t cs (or_intror Hin)) as (a1 & a2 & a3).
        repeat split; auto. rewrite W2.
        destruct (Pos.eqb_spec t t0) as [->|]; auto.
        exfalso. apply Hn0. apply (in_map fst) in Hin. exact Hin. }
      destruct (IH F1 W1 Hnd' Hg1) as (K1 & K2 & K3 & K4).
      repeat match goal with |- _ /\ _ => split end.
      * exact K1.
      * intros t. rewrite K2. simpl. destruct (Pos.eqb_spec t t0) as [->|n].
        -- rewrite (olookup_notin t0 rest Hn0), Ek, W2, Pos.eqb_refl. reflexivity.
        -- destruct (olookup t rest); auto. rewrite W2.
           destruct (Pos.eqb_spec t t0); [contradiction | reflexivity].
      * intros m Hm Hin. apply K3; auto. apply W3; auto.
        destruct (callsTarget t0 m) eqn:E; auto.
        rewrite (callsTarget_eligible isIntrinsic t0 m Hi0 E) in Hin. discriminate.
      * intros Hap.
        destruct (mergeGroup_entry alloc alloc_fresh uniqueName uniqueName_prefix arg_types ret_type t0 F cs0
                    Hwf Hc0 Hk Hap) as [E1 E2].
        fold F1 in E1, E2. destruct (K4 E1) as [L1 L2]. split; auto.
        rewrite L2, E2. unfold merged. simpl. rewrite Ek. simpl. lia.
    + (* the group is skipped *)
      rewrite mergeGroup_small by auto.
      assert (Hg1 : forall t cs, In (t, cs) rest ->
                      cs = callsTo t F /\ cs <> [] /\ isIntrinsic t = false).
      { intros t cs Hin. apply Hg. right. exact Hin. }
      destruct (IH F Hwf Hnd' Hg1) as (K1 & K2 & K3 & K4).
      repeat match goal with |- _ /\ _ => split end; auto.
      * intros t. rewrite K2. simpl. destruct (Pos.eqb_spec t t0) as [->|n]; auto.
        rewrite (olookup_notin t0 rest Hn0), Ek, Hc0. reflexivity.
      * intros Hap. destruct (K4 Hap) as [L1 L2]. split; auto.
        rewrite L2. unfold merged. simpl. rewrite Ek. reflexivity.
Qed.

Lemma run_spec F :
  wf F ->
  let F' := fst (runOnFunction alloc uniqueName arg_types ret_type isIntrinsic F) in
  wf F' /\
  (forall t, isIntrinsic t = false ->
             List.length (callsTo t F')
             = if (1 <? List.length (callsTo t F))%nat then 1%nat
               else List.length (callsTo t F)) /\
  (forall m, In m (allMarks F) -> ineligibleMark isIntrinsic m = true ->
             In m (allMarks F')) /\
  (noAPAfterCall (entryInsts F) = true ->
   noAPAfterCall (entryInsts F') = true /\
   countAP F' = (countAP F + List.length (merged (collect isIntrinsic F)))%nat).
Proof.
  intros Hwf F'. destruct (collect_spec isIntrinsic F) as [Hs Hl].
  assert (Hg : forall t cs, In (t, cs) (collect isIntrinsic F) ->
                 cs = callsTo t F /\ cs <> [] /\ isIntrinsic t = false).
  { intros t cs Hin. apply collect_In in Hin. tauto. }
  destruct (run_fold (collect isIntrinsic F) F Hwf (sorted_NoDup _ Hs) Hg)
    as (K1 & K2 & K3 & K4).
  unfold F', runOnFunction. simpl.
  split; [exact K1|]. split; [| split; [exact K3 | exact K4]].
  intros t Ht. rewrite K2, Hl, Ht.
  destruct (callsTo t F) eqn:E; reflexivity.
Qed.
End Run.

(** * Auxiliary facts for the main theorems *)

Lemma getParent_blockInsts F B x :
  NoDup (ids F) -> In x (blockInsts F B) -> getParent F (iid x) = Some B.
Proof.
  unfold blockInsts, ids. induction F as [| b F IH]; simpl; [tauto|].
  intros Hnd. apply NoDup_app_inv in Hnd. destruct Hnd as (H1 & H2 & H3).
  destruct (Pos.eqb_spec (bid b) B) as [e|ne]; intros Hx.
  - rewrite findIn_NoDup; auto. congruence.
  - destruct (findIn (iid x) (insts b)) eqn:E.
    + exfalso. apply findIn_Some in E. destruct E as [E1 E2].
      apply (H3 (iid x)).
      * rewrite <- E2. apply in_map. exact E1.
      * change (In (iid x) (ids F)). rewrite ids_allInsts. apply in_map.
        apply (blockInsts_In F B). exact Hx.
    + apply IH; auto.
Qed.

Lemma users_nil F c :
  (forall U, In U (allInsts F) -> usesb c U = false) -> users F c = [].
Proof.
  intros H. destruct (users F c) eqn:E; auto.
  assert (Hne : users F c <> []) by (rewrite E; discriminate).
  apply users_nonempty in Hne. destruct Hne as (U & HU & Hu).
  rewrite (H U HU) in Hu. discriminate.
Qed.

Lemma view_AP_inv I i :
  view I = Some (MAllocaPoint i) -> I = allocaPoint (iname I) i.
Proof.
  unfold view. destruct (ikd I) eqn:Ek; try discriminate;
    destruct (isAllocaPoint I) eqn:Ea; try discriminate.
  all: intros [= <-].
  all: unfold isAllocaPoint in Ea; rewrite Ek in Ea; try discriminate.
  destruct v as [| | bits z | | | |]; try discriminate.
  destruct bits as [| p]; try discriminate.
  destruct I as [id nm ty kd]. simpl in *. subst kd.
  revert Ea. repeat (destruct p as [p | p |]; try discriminate).
  destruct z; try discriminate.
  destruct ty as [| bits' | |]; try discriminate.
  destruct bits' as [| q]; try discriminate.
  repeat (destruct q as [q | q |]; try discriminate).
  intros _. reflexivity.
Qed.


Lemma ineligible_view isIntrinsic I :
  ineligible isIntrinsic I
  = match view I with Some m => ineligibleMark isIntrinsic m | None => false end.
Proof.
  unfold ineligible, view. destruct (ikd I) as [| c args | | | | | | | | | |];
    try (destruct (isAllocaPoint I); reflexivity).
  destruct c; reflexivity.
Qed.

Lemma fold_left_fix {A B} (f : A -> B -> A) l a :
  (forall b, In b l -> f a b = a) -> fold_left f l a = a.
Proof.
  induction l as [| b l IH]; simpl; intros H; auto.
  rewrite H by auto. apply IH. intros; apply H; auto.
Qed.

Lemma olookup_all_None {V} (m : list (positive * V)) :
  (forall k, olookup k m = None) -> m = [].
Proof.
  destruct m as [| [k v] m]; auto. intros H. specialize (H k). simpl in H.
  rewrite Pos.eqb_refl in H. discriminate.
Qed.

Lemma callsTo_In t F c :
  In c (callsTo t F) <-> exists I, In I (allInsts F) /\ iid I = c /\ isCallTo t I = true.
Proof.
  unfold callsTo. rewrite in_map_iff. split.
  - intros (I & E & HI). apply filter_In in HI. exists I. tauto.
  - intros (I & HI & E & Ht). exists I. split; auto. apply filter_In. auto.
Qed.

(** * The main theorems *)

Section Claims.
Variable alloc : list positive -> positive.
Hypothesis alloc_fresh : forall l, ~ In (alloc l) l.
Variable uniqueName : function -> string -> string.
Hypothesis uniqueName_prefix :
  forall F nm, String.prefix nm (uniqueName F nm) = true.
Variable arg_types : funcid -> list typ.
Variable ret_type : funcid -> typ.
Variable isIntrinsic : funcid -> bool.

(** C7.  Whatever the function, [runOnFunction] returns [false] to the
    pass manager, also when groups were merged and the control-flow
    graph rebuilt (line 139). *)
Theorem reports_no_change (F : function) :
  snd (runOnFunction alloc uniqueName arg_types ret_type isIntrinsic F) = false.
Proof. reflexivity. Qed.

(** A function with k >= 2 calls of a target [t] that is not an
    intrinsic has exactly one call of [t] after the pass.  When the
    group of [t] is merged (in any well-formed state [F]), the one call
    left is the new instruction [callInstr], it sits in the new shared
    block, and right after the loop of lines 119-123 every original
    call is gone from the function and has no user left. *)
Lemma merged_call_count (F : function) (t : funcid) :
  wf F -> isIntrinsic t = false -> (2 <= List.length (callsTo t F))%nat ->
  let callers := callsTo t F in
  let callBlock := callBlockOf alloc F in
  let callInstr := callInstrOf alloc uniqueName arg_types F t callers in
  let U := unified alloc uniqueName arg_types ret_type F t callers in
  let F1 := mergeGroup alloc uniqueName arg_types ret_type F (t, callers) in
  List.length (callsTo t (fst (runOnFunction alloc uniqueName arg_types ret_type isIntrinsic F)))
    = 1%nat /\
  callsTo t F1 = [callInstr] /\ ~ In callInstr callers /\
  getParent F1 callInstr = Some callBlock /\ ~ In callBlock (bids F) /\
  (forall c, In c callers -> ~ In c (ids U) /\ users U c = []).
Proof.
  intros Hwf Ht Hk callers callBlock callInstr U F1.
  destruct (run_spec alloc alloc_fresh uniqueName uniqueName_prefix arg_types ret_type isIntrinsic F Hwf)
    as (_ & Hlen & _).
  destruct (mergeGroup_marks alloc alloc_fresh uniqueName uniqueName_prefix arg_types ret_type t F callers
              Hwf eq_refl Hk) as (W1 & W2 & _).
  fold F1 in W1, W2. fold callInstr in W2.
  assert (Hne : callsTo t F <> []).
  { intros E. rewrite E in Hk. simpl in Hk. lia. }
  destruct (callsTo_nonempty t F Hne) as (b & G & HF).
  destruct Hwf as [Hnd Hnb].
  destruct (mergeGroup_spec alloc alloc_fresh uniqueName uniqueName_prefix arg_types ret_type t F b G callers
              Hnd Hnb HF (callsTo_marks t F) Hk)
    as (S1 & S2 & S3 & S4 & _ & _ & (phis & wfN & sw & HL & _)).
  fold F1 in S1, HL. fold callInstr in S3, HL. fold callBlock in HL. fold U in S4.
  repeat match goal with |- _ /\ _ => split end.
  - rewrite (Hlen t Ht).
    assert (E : (1 <? List.length (callsTo t F))%nat = true) by (apply Nat.ltb_lt; lia).
    rewrite E. reflexivity.
  - rewrite W2, Pos.eqb_refl. reflexivity.
  - exact S3.
  - set (callI := mkInst callInstr "" (ret_type t)
                    (Call (VFunc t) (map (fun p => VInst (iid p)) phis))) in *.
    change callInstr with (iid callI).
    apply getParent_blockInsts; auto.
    rewrite HL. apply in_or_app. right. right. left. reflexivity.
  - apply alloc_fresh.
  - intros c Hc. destruct (S4 c Hc) as [H1 H2]. split; auto. apply users_nil; auto.
Qed.

(** C6.  After a run on a well-formed function no target has two
    eligible call sites left, so a second run merges nothing and
    returns the function as it is. *)
Theorem second_run_noop (F : function) :
  wf F ->
  let F' := fst (runOnFunction alloc uniqueName arg_types ret_type isIntrinsic F) in
  (forall t cs, In (t, cs) (collect isIntrinsic F') -> (List.length cs <= 1)%nat) /\
  fst (runOnFunction alloc uniqueName arg_types ret_type isIntrinsic F') = F'.
Proof.
  intros Hwf F'.
  destruct (run_spec alloc alloc_fresh uniqueName uniqueName_prefix arg_types ret_type isIntrinsic F Hwf)
    as (_ & Hlen & _).
  fold F' in Hlen.
  assert (H1 : forall t cs, In (t, cs) (collect isIntrinsic F') ->
                            (List.length cs <= 1)%nat).
  { intros t cs Hin. apply collect_In in Hin. destruct Hin as (Ht & -> & _).
    rewrite (Hlen t Ht). destruct (1 <? List.length (callsTo t F))%nat eqn:E; auto.
    apply Nat.ltb_ge in E. lia. }
  split; auto.
  unfold runOnFunction. simpl. apply fold_left_fix.
  intros [t cs] Hin. apply mergeGroup_small. apply Nat.ltb_ge.
  specialize (H1 t cs Hin). lia.
Qed.

(** The groups hold eligible calls only, a function whose calls are all
    ineligible is returned as it is, and in general every ineligible
    call is still in the function after the pass, at the same address
    and with the same view. *)
Lemma ineligible_calls_views (F : function) :
  wf F ->
  let F' := fst (runOnFunction alloc uniqueName arg_types ret_type isIntrinsic F) in
  (forall t cs c, In (t, cs) (collect isIntrinsic F) -> In c cs ->
      exists I, In I (allInsts F) /\ iid I = c /\ isCall I = true /\
                ineligible isIntrinsic I = false) /\
  ((forall I, In I (allInsts F) -> isCall I = true -> ineligible isIntrinsic I = true) ->
   collect isIntrinsic F = [] /\ F' = F) /\
  (forall I, In I (allInsts F) -> ineligible isIntrinsic I = true ->
      exists I', In I' (allInsts F') /\ iid I' = iid I /\ view I' = view I /\
                 ineligible isIntrinsic I' = true).
Proof.
  intros Hwf F'.
  assert (Hcalls : forall t I, isCallTo t I = true ->
            isCall I = true /\ ineligible isIntrinsic I = isIntrinsic t).
  { intros t I. unfold isCallTo, isCall, ineligible.
    destruct (ikd I) as [| c args | | | | | | | | | |]; try discriminate.
    destruct c; try discriminate. intros E. apply Pos.eqb_eq in E. subst. auto. }
  repeat match goal with |- _ /\ _ => split end.
  - intros t cs c Hin Hc. apply collect_In in Hin. destruct Hin as (Ht & -> & _).
    apply callsTo_In in Hc. destruct Hc as (I & HI & Hid & HcI).
    destruct (Hcalls t I HcI) as [E1 E2].
    exists I. repeat split; auto. congruence.
  - intros Hall.
    assert (E : collect isIntrinsic F = []).
    { apply olookup_all_None. intros t.
      destruct (collect_spec isIntrinsic F) as [_ Hl]. rewrite Hl.
      destruct (isIntrinsic t) eqn:Ht; auto.
      destruct (callsTo t F) as [| c cs] eqn:Ec; auto.
      assert (Hc : In c (callsTo t F)) by (rewrite Ec; left; auto).
      apply callsTo_In in Hc. destruct Hc as (I & HI & _ & HcI).
      destruct (Hcalls t I HcI) as [E1 E2].
      rewrite (Hall I HI E1) in E2. congruence. }
    split; auto. unfold F', runOnFunction. simpl. rewrite E. reflexivity.
  - intros I HI Hin.
    destruct (run_spec alloc alloc_fresh uniqueName uniqueName_prefix arg_types ret_type isIntrinsic F Hwf)
      as (_ & _ & Hm & _).
    fold F' in Hm.
    rewrite ineligible_view in Hin. destruct (view I) as [m|] eqn:Hv; [| discriminate].
    assert (HmF : In m (allMarks F)).
    { rewrite allMarks_allInsts. eapply In_marks; eauto. }
    specialize (Hm m HmF Hin). rewrite allMarks_allInsts in Hm.
    apply marks_In in Hm. destruct Hm as (I' & HI' & Hv').
    exists I'. repeat split; auto.
    + rewrite <- (view_markId _ _ Hv), <- (view_markId _ _ Hv'). reflexivity.
    + rewrite ineligible_view, Hv'. exact Hin.
Qed.

End Claims.

(** * Tags and dispatch tables *)

Lemma length_tagsFrom c n : List.length (tagsFrom c n) = n.
Proof. revert c. induction n; simpl; intros; auto. Qed.

Lemma tagsFrom_In c n v :
  In v (tagsFrom c n) ->
  exists j, (c <= j < c + Z.of_nat n)%Z /\ v = VConstInt 32 (APInt 32 j).
Proof.
  revert c. induction n as [| n IH]; simpl; intros c H; [tauto|].
  destruct H as [<- | H].
  - exists c. split; auto. lia.
  - destruct (IH _ H) as (j & Hj & ->). exists j. split; auto. lia.
Qed.

Lemma tagsFrom_NoDup c n :
  (0 <= c)%Z -> (c + Z.of_nat n <= 2 ^ 32)%Z -> NoDup (tagsFrom c n).
Proof.
  revert c. induction n as [| n IH]; simpl; intros c H0 H1; constructor.
  - intros Hin. apply tagsFrom_In in Hin. destruct Hin as (j & Hj & E).
    injection E as E. unfold APInt in E.
    change (2 ^ Z.of_N 32)%Z with (2 ^ 32)%Z in E.
    rewrite !Z.mod_small in E by lia. lia.
  - apply IH; lia.
Qed.

Lemma map_fst_combine {A B} (l : list A) (l' : list B) :
  List.length l = List.length l' -> map fst (combine l l') = l.
Proof.
  revert l'. induction l as [| a l IH]; destruct l'; simpl; intros H; try discriminate; auto.
  f_equal. apply IH. lia.
Qed.

Lemma map_snd_combine {A B} (l : list A) (l' : list B) :
  List.length l = List.length l' -> map snd (combine l l') = l'.
Proof.
  revert l'. induction l as [| a l IH]; destruct l'; simpl; intros H; try discriminate; auto.
  f_equal. apply IH. lia.
Qed.

Lemma combine_pair_In {A B C} (tags : list A) (m : list (B * C)) P R :
  List.length tags = List.length m -> In (P, R) m ->
  exists tag, In (tag, P) (combine tags (map fst m)) /\
              In (tag, R) (combine tags (map snd m)).
Proof.
  revert tags. induction m as [| [p r] m IH]; simpl; intros tags Hl Hin; [tauto|].
  destruct tags as [| tg tags]; simpl in Hl; [discriminate|].
  destruct Hin as [[= -> ->] | Hin].
  - exists tg. simpl. auto.
  - destruct (IH tags) as (tag & H1 & H2); auto. exists tag. simpl. auto.
Qed.

Lemma olookup_In {V} k (v : V) m : olookup k m = Some v -> In (k, v) m.
Proof.
  induction m as [| [k0 v0] m IH]; simpl; [discriminate|].
  destruct (Pos.eqb_spec k k0) as [->|]; auto. intros [= ->]. auto.
Qed.

(** * Call sites in the rewritten function *)

Lemma getParent_of_view F R M m :
  NoDup (ids F) -> In (R, M) (bview F) -> In m M -> getParent F (markId m) = Some R.
Proof.
  intros Hnd HR Hm. apply in_split in HR. destruct HR as (A1 & A2 & HA).
  apply bview_app_inv in HA. destruct HA as (G1 & G2' & -> & H1 & H2).
  apply bview_cons_inv in H2. destruct H2 as (b & G2 & -> & Hb & HM & _).
  rewrite <- HM in Hm. apply marks_In in Hm. destruct Hm as (I & HI & Hv).
  rewrite (view_markId _ _ Hv), <- Hb.
  rewrite ids_app in Hnd. apply NoDup_app_inv in Hnd. destruct Hnd as (_ & _ & Hd).
  apply getParent_mid.
  - intros Hin. apply (Hd _ Hin). unfold ids. simpl. apply in_or_app. left.
    apply in_map. exact HI.
  - apply in_map. exact HI.
Qed.

Lemma getArgOperand_view F G c I I' i :
  findInst F c = Some I -> findInst G c = Some I' -> view I = view I' ->
  isCall I = true ->
  absv (getArgOperand G c i) = absv (getArgOperand F c i).
Proof.
  unfold getArgOperand, isCall. intros -> -> Hv Hc.
  unfold view in Hv. destruct (ikd I) as [| c0 args | | | | | | | | | |]; try discriminate.
  destruct (ikd I') as [| c1 args' | | | | | | | | | |];
    try (destruct (isAllocaPoint I'); discriminate).
  injection Hv as _ _ Hargs.
  change (absv VUndef) with (absv VUndef).
  rewrite <- (map_nth absv args' VUndef), <- (map_nth absv args VUndef), Hargs.
  reflexivity.
Qed.

Lemma incomingFor_Forall2 F toPar callers i :
  (forall c, In c callers -> exists P, olookup c toPar = Some P) ->
  Forall2 (fun c p => olookup c toPar = Some (snd p) /\ fst p = getArgOperand F c i)
          callers (incomingFor F toPar callers i).
Proof.
  unfold incomingFor. induction callers as [| c cs IH]; simpl; intros H; [constructor|].
  destruct (H c (or_introl eq_refl)) as (P & HP). rewrite HP. simpl.
  constructor; auto.
Qed.

Lemma map_seq_nth_error {A} (f : instruction -> A) g phis :
  forall s n i phi,
    map f phis = map g (seq s n) -> nth_error phis i = Some phi ->
    (i < n)%nat /\ f phi = g (s + i)%nat.
Proof.
  induction phis as [| p phis IH]; intros s n i phi E Hn.
  - destruct i; discriminate.
  - destruct n as [| n]; [discriminate|]. simpl in E. injection E as E1 E2.
    destruct i as [| i]; simpl in Hn.
    + injection Hn as <-. rewrite Nat.add_0_r. split; auto. lia.
    + destruct (IH _ _ _ _ E2 Hn) as [H1 H2]. split; [lia|].
      rewrite H2. f_equal. lia.
Qed.

Lemma Forall2_impl_map {A B C} (P : A -> B -> Prop) (Q : A -> C -> Prop) (g : B -> C)
  l1 l2 :
  Forall2 P l1 l2 -> (forall a b, In a l1 -> P a b -> Q a (g b)) ->
  Forall2 Q l1 (map g l2).
Proof.
  induction 1 as [| a b l1 l2 Hab H IH]; simpl; intros HPQ; constructor.
  - apply HPQ; simpl; auto.
  - apply IH. intros a' b' Hin. apply HPQ. right. exact Hin.
Qed.

Section GroupShape.
Variable alloc : list positive -> positive.
Hypothesis alloc_fresh : forall l, ~ In (alloc l) l.
Variable uniqueName : function -> string -> string.
Hypothesis uniqueName_prefix :
  forall F nm, String.prefix nm (uniqueName F nm) = true.
Variable arg_types : funcid -> list typ.
Variable ret_type : funcid -> typ.

(** What one merged group looks like. *)
Lemma group_shape (F : function) (t : funcid) :
  wf F -> (2 <= List.length (callsTo t F))%nat ->
  let callers := callsTo t F in
  let rs := rewriteGroup alloc uniqueName F callers in
  let cb := callBlockOf alloc F in
  let F1 := mergeGroup alloc uniqueName arg_types ret_type F (t, callers) in
  let tags := tagsFrom 0 (List.length callers) in
  let toRet := callerToRet rs in
  exists phis wfN ci sw,
    blockInsts F1 cb
    = phis ++ [mkInst wfN "" (TInt 32) (PHI (combine tags (map fst toRet)));
               mkInst ci "" (ret_type t)
                 (Call (VFunc t) (map (fun p => VInst (iid p)) phis));
               mkInst sw "" TVoid
                 (Switch (VInst wfN) (snd (hd (cb, cb) toRet))
                    (combine tags (map snd toRet)))] /\
    map ity phis = arg_types t /\
    (forall i phi, nth_error phis i = Some phi ->
       exists inc, ikd phi = PHI inc /\
         Forall2 (fun c p => olookup c (callerToOrigParent rs) = Some (snd p) /\
                             absv (fst p) = absv (getArgOperand F c i))
                 callers inc) /\
    StronglySorted Pos.lt (map fst toRet) /\
    List.length toRet = List.length callers /\
    (forall c, In c callers ->
       exists P R, olookup c (callerToOrigParent rs) = Some P /\
                   olookup P toRet = Some R /\
                   getParent (rsF rs) c = Some R).
Proof.
  intros [Hnd Hnb] Hk callers rs cb F1 tags toRet.
  assert (Hne : callsTo t F <> []).
  { intros E. rewrite E in Hk. simpl in Hk. lia. }
  destruct (callsTo_nonempty t F Hne) as (b & G & HF).
  pose proof (rewriteGroup_spec alloc alloc_fresh uniqueName uniqueName_prefix t F b G callers Hnd Hnb HF
                (callsTo_marks t F)) as HR.
  fold rs in HR. unfold rewInv in HR.
  destruct HR as (R1 & R2 & R3 & R4 & R5 & _ & _ & _ & R9 & R10 & R11 & _ & R13 & _).
  destruct (mergeGroup_spec alloc alloc_fresh uniqueName uniqueName_prefix arg_types ret_type t F b G callers
              Hnd Hnb HF (callsTo_marks t F) Hk)
    as (_ & _ & _ & _ & _ & _ & (phis & wfN & sw & HL & Hty & Hkd)).
  fold F1 in HL. fold cb in HL. fold rs in HL, Hkd. fold toRet in HL, R9, R10, R11.
  replace (List.length toRet) with (List.length callers) in HL by (symmetry; exact R10).
  fold tags in HL.
  set (ci := callInstrOf alloc uniqueName arg_types F t callers) in *.
  exists phis, wfN, ci, sw.
  assert (Hsites : forall c, In c callers ->
            exists P R, olookup c (callerToOrigParent rs) = Some P /\
                        olookup P toRet = Some R /\ getParent (rsF rs) c = Some R).
  { intros c Hc. destruct (R13 c Hc) as (P & R & M & m & H1 & H2 & H3 & H4).
    exists P, R. repeat split; auto. rewrite <- H4.
    eapply getParent_of_view; eauto. left. reflexivity. }
  assert (Hargs : forall c i, In c callers ->
            absv (getArgOperand (rsF rs) c i) = absv (getArgOperand F c i)).
  { intros c i Hc. apply callsTo_In in Hc. destruct Hc as (I & HI & Hid & Ht).
    assert (Hv : exists m, view I = Some m /\ isCall I = true).
    { unfold isCallTo in Ht. unfold view, isCall.
      destruct (ikd I) as [| c0 args | | | | | | | | | |]; try discriminate. eauto. }
    destruct Hv as (m & Hv & HcI).
    assert (Hm : In m (allMarks (rsF rs))).
    { rewrite R3. right. rewrite allMarks_allInsts. eapply In_marks; eauto. }
    rewrite allMarks_allInsts in Hm. apply marks_In in Hm.
    destruct Hm as (I' & HI' & Hv').
    assert (Hid' : iid I' = c).
    { rewrite <- (view_markId _ _ Hv'), (view_markId _ _ Hv). exact Hid. }
    eapply getArgOperand_view with (I := I) (I' := I'); auto.
    - rewrite <- Hid. apply findInst_NoDup; auto.
    - rewrite <- Hid'. apply findInst_NoDup; auto.
    - congruence. }
  repeat match goal with |- _ /\ _ => split end; auto.
  intros i phi Hn.
  destruct (map_seq_nth_error ikd _ phis _ _ _ _ Hkd Hn) as [Hi Hp]. simpl in Hp.
  eexists. split; [exact Hp|].
  assert (HF2 := incomingFor_Forall2 (rsF rs) (callerToOrigParent rs) callers i).
  assert (Hlk : forall c, In c callers ->
                  exists P, olookup c (callerToOrigParent rs) = Some P).
  { intros c Hc. destruct (Hsites c Hc) as (P & _ & H & _). eauto. }
  specialize (HF2 Hlk).
  eapply Forall2_impl_map; [exact HF2|].
  intros c p Hc [H1 H2]. simpl. split; auto.
  rewrite absv_substAllV, H2. apply Hargs. exact Hc.
Qed.
End GroupShape.

(** * The escape test *)

Lemma escapesLoop_true BB us :
  escapesLoop BB us = true <->
  exists B U, In (B, U) us /\ (B <> BB \/ isPHI U = true).
Proof.
  induction us as [| [B U] us IH]; simpl.
  - split; [discriminate | intros (B & U & [] & _)].
  - destruct (negb (Pos.eqb B BB) || isPHI U) eqn:E.
    + split; auto. intros _. exists B, U. split; auto.
      apply orb_true_iff in E. destruct E as [E | E]; auto.
      left. apply negb_true_iff in E. apply Pos.eqb_neq in E. exact E.
    + rewrite IH. apply orb_false_iff in E. destruct E as [E1 E2].
      apply negb_false_iff in E1. apply Pos.eqb_eq in E1.
      split; intros (B' & U' & Hin & H).
      * exists B', U'. auto.
      * destruct Hin as [[= <- <-] | Hin]; [| exists B', U'; auto].
        exfalso. destruct H; congruence.
Qed.

Lemma users_In F x B U :
  In (B, U) (users F x) <->
  exists b, In b F /\ bid b = B /\ In U (insts b) /\ usesb x U = true.
Proof.
  unfold users. rewrite in_flat_map. split.
  - intros (b & Hb & Hin). apply in_map_iff in Hin. destruct Hin as (U' & [= <- <-] & HU).
    apply filter_In in HU. exists b. tauto.
  - intros (b & Hb & <- & HU & Hu). exists b. split; auto.
    apply in_map_iff. exists U. split; auto. apply filter_In. auto.
Qed.

(** C8.  [valueEscapes] answers true exactly when some user of the
    instruction lives in another block than the instruction, or is a PHI
    node (wherever it lives); an instruction without users does not
    escape. *)
Theorem valueEscapes_iff (F : function) (Inst : instid) (BB : blockid) :
  getParent F Inst = Some BB ->
  (valueEscapes F Inst = true <->
   exists b U, In b F /\ In U (insts b) /\ usesb Inst U = true /\
               (bid b <> BB \/ isPHI U = true)) /\
  ((forall b U, In b F -> In U (insts b) -> usesb Inst U = false) ->
   valueEscapes F Inst = false).
Proof.
  intros HP. unfold valueEscapes. rewrite HP.
  assert (H : escapesLoop BB (users F Inst) = true <->
              exists b U, In b F /\ In U (insts b) /\ usesb Inst U = true /\
                          (bid b <> BB \/ isPHI U = true)).
  { rewrite escapesLoop_true. split.
    - intros (B & U & Hin & HB). apply users_In in Hin.
      destruct Hin as (b & Hb & <- & HU & Hu). exists b, U. auto.
    - intros (b & U & Hb & HU & Hu & HB). exists (bid b), U. split; auto.
      apply users_In. exists b. auto. }
  split; auto.
  intros Hno. apply not_true_iff_false. intros E.
  apply H in E. destruct E as (b & U & Hb & HU & Hu & _).
  rewrite (Hno b U Hb HU) in Hu. discriminate.
Qed.

Section GroupClaims.
Variable alloc : list positive -> positive.
Hypothesis alloc_fresh : forall l, ~ In (alloc l) l.
Variable uniqueName : function -> string -> string.
Hypothesis uniqueName_prefix :
  forall F nm, String.prefix nm (uniqueName F nm) = true.
Variable arg_types : funcid -> list typ.
Variable ret_type : funcid -> typ.

(** The shared block of a merged group starts with one PHI node per
    declared parameter of the callee, in declared order, followed by the
    discriminator PHI, the call and the switch; the call takes these
    PHI nodes as its arguments, in order.  The PHI for parameter [i] has
    one incoming pair per call site, in call-site order, from the
    predecessor block recorded for the call site. *)
Lemma arg_phis_shape (F : function) (t : funcid) :
  wf F -> (2 <= List.length (callsTo t F))%nat ->
  let callers := callsTo t F in
  let rs := rewriteGroup alloc uniqueName F callers in
  let callBlock := callBlockOf alloc F in
  let F1 := mergeGroup alloc uniqueName arg_types ret_type F (t, callers) in
  exists phis whereFromNode callInstr switchBackInstr,
    blockInsts F1 callBlock = phis ++ [whereFromNode; callInstr; switchBackInstr] /\
    List.length phis = List.length (arg_types t) /\
    map ity phis = arg_types t /\
    ikd callInstr = Call (VFunc t) (map (fun p => VInst (iid p)) phis) /\
    forall i phi, nth_error phis i = Some phi ->
      exists inc,
        ikd phi = PHI inc /\
        Forall2 (fun c p =>
                   olookup c (callerToOrigParent rs) = Some (snd p) /\
                   absv (fst p) = absv (getArgOperand F c i))
                callers inc.
Proof.
  intros Hwf Hk callers rs callBlock F1.
  destruct (group_shape alloc alloc_fresh uniqueName uniqueName_prefix arg_types ret_type F t Hwf Hk)
    as (phis & wfN & ci & sw & HL & Hty & Hphi & _).
  eexists phis, _, _, _. split; [exact HL|].
  repeat match goal with |- _ /\ _ => split end; auto.
  rewrite <- Hty. symmetry. apply length_map.
Qed.

(** The switch of a merged group of k call sites has exactly k cases
    with pairwise distinct tags, and the discriminator PHI exactly k
    incoming pairs from pairwise distinct blocks; for every call site,
    the tag that comes in from the block recorded for the call site
    selects the case that leads to the block the call was moved into.
    (k is at most 2^32, the number of 32-bit tags.) *)
Lemma router_shape (F : function) (t : funcid) :
  wf F -> (2 <= List.length (callsTo t F))%nat ->
  (Z.of_nat (List.length (callsTo t F)) <= 2 ^ 32)%Z ->
  let callers := callsTo t F in
  let rs := rewriteGroup alloc uniqueName F callers in
  let callBlock := callBlockOf alloc F in
  let F1 := mergeGroup alloc uniqueName arg_types ret_type F (t, callers) in
  exists phis whereFromNode callInstr switchBackInstr inc def cases,
    blockInsts F1 callBlock = phis ++ [whereFromNode; callInstr; switchBackInstr] /\
    ikd whereFromNode = PHI inc /\
    ikd switchBackInstr = Switch (VInst (iid whereFromNode)) def cases /\
    List.length cases = List.length callers /\ NoDup (map fst cases) /\
    List.length inc = List.length callers /\ NoDup (map snd inc) /\
    forall c, In c callers ->
      exists P R tag,
        olookup c (callerToOrigParent rs) = Some P /\
        getParent (rsF rs) c = Some R /\
        In (tag, P) inc /\ In (tag, R) cases.
Proof.
  intros Hwf Hk Hbound callers rs callBlock F1.
  destruct (group_shape alloc alloc_fresh uniqueName uniqueName_prefix arg_types ret_type F t Hwf Hk)
    as (phis & wfN & ci & sw & HL & _ & _ & Hsort & Hlen & Hsites).
  fold callers in Hlen, Hsites, HL, Hbound. fold rs in Hlen, Hsites, HL, Hsort.
  set (tags := tagsFrom 0 (List.length callers)) in *.
  set (toRet := callerToRet rs) in *.
  assert (Hlt : List.length tags = List.length toRet).
  { unfold tags. rewrite length_tagsFrom. symmetry. exact Hlen. }
  eexists phis, _, _, _, _, _, _. split; [exact HL|].
  repeat match goal with |- _ /\ _ => split end; try reflexivity.
  - rewrite length_combine, length_map, <- Hlt. unfold tags. rewrite length_tagsFrom. lia.
  - rewrite map_fst_combine by (rewrite length_map; exact Hlt).
    apply tagsFrom_NoDup; lia.
  - rewrite length_combine, length_map, <- Hlt. unfold tags. rewrite length_tagsFrom. lia.
  - rewrite map_snd_combine by (rewrite length_map; exact Hlt).
    apply sorted_NoDup. exact Hsort.
  - intros c Hc. destruct (Hsites c Hc) as (P & R & H1 & H2 & H3).
    apply olookup_In in H2.
    destruct (combine_pair_In tags toRet P R Hlt H2) as (tag & T1 & T2).
    exists P, R, tag. auto.
Qed.

(** C9.  The switch of a merged group is created with a default
    destination: the continuation block of the first entry of the
    predecessor-to-continuation map, which is also the target of the
    case with tag 0. *)
Theorem switch_default (F : function) (t : funcid) :
  wf F -> (2 <= List.length (callsTo t F))%nat ->
  let callers := callsTo t F in
  let rs := rewriteGroup alloc uniqueName F callers in
  let callBlock := callBlockOf alloc F in
  let F1 := mergeGroup alloc uniqueName arg_types ret_type F (t, callers) in
  exists phis whereFromNode callInstr switchBackInstr def cases P0 R0 rest,
    blockInsts F1 callBlock = phis ++ [whereFromNode; callInstr; switchBackInstr] /\
    ikd switchBackInstr = Switch (VInst (iid whereFromNode)) def cases /\
    List.length cases = List.length callers /\
    callerToRet rs = (P0, R0) :: rest /\
    def = R0 /\
    hd_error cases = Some (VConstInt 32 0, R0).
Proof.
  intros Hwf Hk callers rs callBlock F1.
  destruct (group_shape alloc alloc_fresh uniqueName uniqueName_prefix arg_types ret_type F t Hwf Hk)
    as (phis & wfN & ci & sw & HL & _ & _ & _ & Hlen & _).
  fold callers in Hlen, HL, Hk. fold rs in Hlen, HL.
  destruct (callerToRet rs) as [| [P0 R0] rest] eqn:E.
  { simpl in Hlen. lia. }
  destruct (List.length callers) as [| k] eqn:Ek; [lia|].
  eexists phis, _, _, _, _, _, P0, R0, rest. split; [exact HL|].
  repeat match goal with |- _ /\ _ => split end; try reflexivity.
  rewrite length_combine, length_map, length_tagsFrom. simpl in *. lia.
Qed.

(** C4, as amended.  The discriminator tags 0..k-1 of a merged group go
    to the predecessor blocks of its call sites in ascending order of
    the blocks' addresses, the iteration order of the
    predecessor-to-continuation map, and the cases of the switch follow
    the same order; every call site's predecessor block is among
    them. *)
Theorem tags_by_block_address (F : function) (t : funcid) :
  wf F -> (2 <= List.length (callsTo t F))%nat ->
  let callers := callsTo t F in
  let rs := rewriteGroup alloc uniqueName F callers in
  let callBlock := callBlockOf alloc F in
  let F1 := mergeGroup alloc uniqueName arg_types ret_type F (t, callers) in
  let tags := tagsFrom 0 (List.length callers) in
  exists phis whereFromNode callInstr switchBackInstr def preds conts,
    blockInsts F1 callBlock = phis ++ [whereFromNode; callInstr; switchBackInstr] /\
    preds = map fst (callerToRet rs) /\ conts = map snd (callerToRet rs) /\
    ikd whereFromNode = PHI (combine tags preds) /\
    ikd switchBackInstr = Switch (VInst (iid whereFromNode)) def (combine tags conts) /\
    List.length preds = List.length callers /\
    StronglySorted Pos.lt preds /\
    forall c, In c callers ->
      exists P, olookup c (callerToOrigParent rs) = Some P /\ In P preds.
Proof.
  intros Hwf Hk callers rs callBlock F1 tags.
  destruct (group_shape alloc alloc_fresh uniqueName uniqueName_prefix arg_types ret_type F t Hwf Hk)
    as (phis & wfN & ci & sw & HL & _ & _ & Hsort & Hlen & Hsites).
  eexists phis, _, _, _, _, _, _. split; [exact HL|].
  repeat match goal with |- _ /\ _ => split end; try reflexivity; auto.
  - rewrite length_map. exact Hlen.
  - intros c Hc. destruct (Hsites c Hc) as (P & R & H1 & H2 & _).
    exists P. split; auto. eapply olookup_Some_In; eauto.
Qed.
End GroupClaims.

(** * The concrete instances *)

Lemma prefix_app (a b : string) : String.prefix a (a ++ b) = true.
Proof. induction a as [| c a IH]; simpl; [destruct b; reflexivity|].
  destruct (Ascii.ascii_dec c c); [exact IH | congruence]. Qed.

Lemma prefix_refl (a : string) : String.prefix a a = true.
Proof. induction a as [| c a IH]; simpl; [reflexivity|].
  destruct (Ascii.ascii_dec c c); [exact IH | congruence]. Qed.

Lemma firstFree_prefix used nm fuel : forall k,
  String.prefix nm (firstFree used nm k fuel) = true.
Proof.
  induction fuel as [| fuel IH]; intros k; simpl; [apply prefix_app|].
  destruct (existsb _ used); [apply IH | apply prefix_app].
Qed.

Lemma freshName_prefix (F : function) (nm : string) :
  String.prefix nm (freshName F nm) = true.
Proof.
  unfold freshName. destruct (existsb _ _); [apply firstFree_prefix | apply prefix_refl].
Qed.

Lemma amax_fresh (l : list positive) : ~ In (amax l) l.
Proof.
  assert (H : forall x, In x l -> x <= fold_right Pos.max 1 l).
  { induction l as [| y l IH]; simpl; intros x Hx; [contradiction|].
    destruct Hx as [<- | Hx]; [lia|]. specialize (IH x Hx). lia. }
  intros Hin. apply H in Hin. unfold amax in Hin. lia.
Qed.

Lemma nodupb_NoDup (l : list positive) : nodupb l = true -> NoDup l.
Proof.
  induction l as [| x l IH]; simpl; intros H; constructor.
  - apply andb_true_iff in H. destruct H as [H _]. apply negb_true_iff in H.
    intros Hin. apply inb_true in Hin. congruence.
  - apply IH. apply andb_true_iff in H. tauto.
Qed.

Lemma wfb_wf (F : function) : wfb F = true -> wf F.
Proof.
  unfold wfb, wf. intros H. apply andb_true_iff in H.
  split; apply nodupb_NoDup; tauto.
Qed.

Lemma second_run_noop_witness :
  wf exF /\
  fst (runOnFunction amax freshName ex_args ex_ret ex_intr
         (fst (runOnFunction amax freshName ex_args ex_ret ex_intr exF)))
  = fst (runOnFunction amax freshName ex_args ex_ret ex_intr exF).
Proof.
  assert (Hwf : wf exF) by (apply wfb_wf; reflexivity).
  split; [exact Hwf|].
  destruct (second_run_noop amax amax_fresh freshName freshName_prefix ex_args ex_ret ex_intr exF Hwf) as (_ & H).
  exact H.
Defined.

Lemma valueEscapes_iff_witness :
  getParent exF 1 = Some 10 /\
  (valueEscapes exF 1 = true <->
   exists b U, In b exF /\ In U (insts b) /\ usesb 1 U = true /\
               (bid b <> 10 \/ isPHI U = true)).
Proof.
  split; [reflexivity|].
  apply (valueEscapes_iff exF 1 10). reflexivity.
Defined.

Lemma switch_default_witness :
  wf exOrder /\ (2 <= List.length (callsTo 100%positive exOrder))%nat /\
  exists phis whereFromNode callInstr switchBackInstr def cases P0 R0 rest,
    blockInsts (mergeGroup amax freshName ex_args ex_ret exOrder (100, callsTo 100 exOrder))
               (callBlockOf amax exOrder)
    = phis ++ [whereFromNode; callInstr; switchBackInstr] /\
    ikd switchBackInstr = Switch (VInst (iid whereFromNode)) def cases /\
    callerToRet (rewriteGroup amax freshName exOrder (callsTo 100 exOrder)) = (P0, R0) :: rest /\
    def = R0 /\ hd_error cases = Some (VConstInt 32 0, R0).
Proof.
  assert (Hwf : wf exOrder) by (apply wfb_wf; reflexivity).
  assert (Hk : (2 <= List.length (callsTo 100%positive exOrder))%nat) by (vm_compute; lia).
  split; [exact Hwf|]. split; [exact Hk|].
  destruct (switch_default amax amax_fresh freshName freshName_prefix ex_args ex_ret exOrder 100 Hwf Hk)
    as (phis & w & c & s & def & cases & P0 & R0 & rest & H1 & H2 & _ & H3 & H4 & H5).
  exists phis, w, c, s, def, cases, P0, R0, rest.
  split; [exact H1 | split; [exact H2 | split; [exact H3 | split; [exact H4 | exact H5]]]].
Defined.

Lemma tags_by_block_address_witness :
  wf exOrder /\ (2 <= List.length (callsTo 100%positive exOrder))%nat /\
  exists phis whereFromNode callInstr switchBackInstr preds,
    blockInsts (mergeGroup amax freshName ex_args ex_ret exOrder (100, callsTo 100 exOrder))
               (callBlockOf amax exOrder)
    = phis ++ [whereFromNode; callInstr; switchBackInstr] /\
    ikd whereFromNode
    = PHI (combine (tagsFrom 0 (List.length (callsTo 100%positive exOrder))) preds) /\
    StronglySorted Pos.lt preds.
Proof.
  assert (Hwf : wf exOrder) by (apply wfb_wf; reflexivity).
  assert (Hk : (2 <= List.length (callsTo 100%positive exOrder))%nat) by (vm_compute; lia).
  split; [exact Hwf|]. split; [exact Hk|].
  destruct (tags_by_block_address amax amax_fresh freshName freshName_prefix ex_args ex_ret exOrder 100 Hwf Hk)
    as (phis & w & c & s & def & preds & conts & H1 & _ & _ & H2 & _ & _ & H3 & _).
  exists phis, w, c, s, preds.
  split; [exact H1 | split; [exact H2 | exact H3]].
Defined.

(** * Where the code departs from the specification's wording *)

(** C2, counterexample.  In [exF] the argument [%1] of the first call is
    used in the second block as well, so it is demoted before the
    argument PHI is built, and the PHI receives the reload [%11] from
    block 10, not [%1]. *)
Lemma arg_phi_holds_reload :
  let F' := fst (runOnFunction amax freshName ex_args ex_ret ex_intr exF) in
  let callers := callsTo 100 exF in
  let rs := rewriteGroup amax freshName exF callers in
  collect ex_intr exF = [(100, callers)] /\
  getArgOperand exF 2 0 = VInst 1 /\
  olookup 2 (callerToOrigParent rs) = Some 10 /\
  exists phi inc,
    hd_error (blockInsts F' (callBlockOf amax exF)) = Some phi /\
    ikd phi = PHI inc /\ In (VInst 11, 10) inc /\
    ~ originalArgs exF (callerToOrigParent rs) callers 0 inc.
Proof.
  cbv zeta. split; [reflexivity|]. split; [reflexivity|]. split; [reflexivity|].
  eexists. eexists. split; [vm_compute; reflexivity|].
  split; [reflexivity|]. split; [left; reflexivity|].
  intros H. inversion H as [| c p cs ps [_ E] _ E1 E2]. discriminate E.
Qed.

(** C4, counterexample.  In [exOrder] the call seen first sits in block
    20, the second in block 10; the map from predecessor to continuation
    is walked in ascending address order, so block 10 gets tag 0 and the
    first-seen call site's predecessor, block 20, gets tag 1. *)
Lemma tags_not_first_seen :
  let F' := fst (runOnFunction amax freshName ex_args ex_ret ex_intr exOrder) in
  let callers := callsTo 100 exOrder in
  let rs := rewriteGroup amax freshName exOrder callers in
  collect ex_intr exOrder = [(100, callers)] /\
  hd_error callers = Some 1 /\
  olookup 1 (callerToOrigParent rs) = Some 20 /\
  exists whereFromNode inc,
    nth_error (blockInsts F' (callBlockOf amax exOrder)) 1 = Some whereFromNode /\
    ikd whereFromNode = PHI inc /\
    In (VConstInt 32 1, 20) inc /\
    ~ firstSeenTags (callerToOrigParent rs) callers inc.
Proof.
  cbv zeta. split; [reflexivity|]. split; [reflexivity|]. split; [reflexivity|].
  eexists. eexists. split; [vm_compute; reflexivity|].
  split; [reflexivity|]. split; [right; left; reflexivity|].
  intros [H _]. inversion H as [| c p cs ps E _ E1 E2]. discriminate E.
Qed.

(** C5, counterexample.  In [exIntr] the intrinsic call [%5] uses [%1],
    which is defined in the block of a merged call and escapes it; the
    demotion of [%1] redirects the operand of [%5] to a reload. *)
Lemma intrinsic_call_rewritten :
  let F' := fst (runOnFunction amax freshName ex_args ex_ret ex_intr exIntr) in
  let I := I_ 5 (Call (VFunc 200) [VInst 1]) in
  In I (allInsts exIntr) /\ ineligible ex_intr I = true /\
  In (I_ 5 (Call (VFunc 200) [VInst 10])) (allInsts F') /\
  ~ leftUnchanged F' I.
Proof.
  cbv zeta. split; [cbv [exIntr allInsts flat_map insts app]; do 4 right; left; reflexivity|].
  split; [reflexivity|].
  unfold leftUnchanged. split.
  - vm_compute. do 8 right. left. reflexivity.
  - intros H. vm_compute in H.
    repeat (destruct H as [H | H]; [discriminate H|]). exact H.
Qed.

(** * Further properties of the code *)

(** ** The collector (lines 32-55) *)

(** X1.  What the collector builds: the targets of the groups are
    pairwise distinct and come in ascending address order, and a pair
    [(t, cs)] is a group exactly when [t] is not an intrinsic and [cs] is
    the non-empty list of all direct calls of [t] in the function, in
    layout order. *)
Theorem collect_groups (isIntrinsic : funcid -> bool) (F : function) :
  StronglySorted Pos.lt (map fst (collect isIntrinsic F)) /\
  NoDup (map fst (collect isIntrinsic F)) /\
  forall t cs,
    In (t, cs) (collect isIntrinsic F) <->
    isIntrinsic t = false /\ cs = callsTo t F /\ cs <> [].
Proof.
  destruct (collect_spec isIntrinsic F) as [Hs Hl].
  split; [exact Hs|]. split; [apply sorted_NoDup; exact Hs|].
  intros t cs. split.
  - apply collect_In.
  - intros (Hi & -> & Hne). apply olookup_In. rewrite Hl, Hi.
    destruct (callsTo t F); [contradiction | reflexivity].
Qed.

(** ** The size test (line 58) *)

(** X2.  A function in which no function that is not an intrinsic is
    called directly more than once is returned as it is. *)
Theorem no_repeated_target_no_change
  (alloc : list positive -> positive) (uniqueName : function -> string -> string)
  (arg_types : funcid -> list typ)
  (ret_type : funcid -> typ) (isIntrinsic : funcid -> bool) (F : function) :
  (forall t, isIntrinsic t = false -> (List.length (callsTo t F) <= 1)%nat) ->
  runOnFunction alloc uniqueName arg_types ret_type isIntrinsic F = (F, false).
Proof.
  intros H. unfold runOnFunction. f_equal.
  apply fold_left_fix. intros [t cs] Hin.
  apply collect_In in Hin. destruct Hin as (Hi & -> & _).
  apply mergeGroup_small. apply Nat.ltb_ge. apply H. exact Hi.
Qed.

Lemma no_repeated_target_no_change_witness :
  (forall t, ex_intr t = false -> (List.length (callsTo t exOnce) <= 1)%nat) /\
  runOnFunction amax freshName ex_args ex_ret ex_intr exOnce = (exOnce, false).
Proof.
  assert (H : forall t, ex_intr t = false -> (List.length (callsTo t exOnce) <= 1)%nat).
  { intros t _. unfold callsTo, isCallTo. simpl.
    destruct (Pos.eqb_spec 100 t); destruct (Pos.eqb_spec 200 t); simpl; lia. }
  split; [exact H|].
  apply (no_repeated_target_no_change amax freshName ex_args ex_ret ex_intr exOnce H).
Defined.

(** ** Addresses *)

(** X3.  The pass keeps the addresses apart: when no two instructions and
    no two blocks of the input share an address, the same holds of the
    output (every block and instruction the pass creates is new, and no
    instruction is duplicated by a move). *)
Theorem run_keeps_wf
  (alloc : list positive -> positive) (alloc_fresh : forall l, ~ In (alloc l) l)
  (uniqueName : function -> string -> string)
  (uniqueName_prefix : forall F nm, String.prefix nm (uniqueName F nm) = true)
  (arg_types : funcid -> list typ) (ret_type : funcid -> typ)
  (isIntrinsic : funcid -> bool) (F : function) :
  wf F -> wf (fst (runOnFunction alloc uniqueName arg_types ret_type isIntrinsic F)).
Proof.
  intros Hwf.
  destruct (run_spec alloc alloc_fresh uniqueName uniqueName_prefix arg_types ret_type isIntrinsic F Hwf) as (H & _).
  exact H.
Qed.

Lemma run_keeps_wf_witness :
  wf exF /\ wf (fst (runOnFunction amax freshName ex_args ex_ret ex_intr exF)).
Proof.
  assert (Hwf : wf exF) by (apply wfb_wf; reflexivity).
  split; [exact Hwf|].
  apply (run_keeps_wf amax amax_fresh freshName freshName_prefix ex_args ex_ret ex_intr exF Hwf).
Defined.

(** ** The ordered maps (lines 60-61, 75-76) *)

Lemma oinsert_present {V} k (v v0 : V) m :
  StronglySorted Pos.lt (map fst m) -> olookup k m = Some v0 ->
  List.length (oinsert k v m) = List.length m.
Proof.
  induction m as [| [k' v'] m IH]; simpl; intros Hs Hl; [discriminate|].
  inversion Hs as [| ? ? Hs' Hall]; subst.
  destruct (Pos.compare_spec k k') as [-> | Hlt | Hgt].
  - reflexivity.
  - exfalso. destruct (Pos.eqb_spec k k') as [-> | _]; [lia|].
    apply olookup_Some_In in Hl. rewrite Forall_forall in Hall.
    specialize (Hall k Hl). lia.
  - destruct (Pos.eqb_spec k k') as [-> | _]; [lia|].
    simpl. f_equal. apply IH; auto.
Qed.

Lemma oinsert_twice {V} k (v v' : V) m :
  oinsert k v (oinsert k v' m) = oinsert k v m.
Proof.
  induction m as [| [k' w] m IH]; simpl.
  - rewrite Pos.compare_refl. reflexivity.
  - destruct (Pos.compare_spec k k') as [-> | Hlt | Hgt]; simpl.
    + rewrite Pos.compare_refl. reflexivity.
    + rewrite Pos.compare_refl. reflexivity.
    + rewrite (proj2 (Pos.compare_gt_iff k k')) by lia. rewrite IH. reflexivity.
Qed.

(** X4.  The assignment [m[k] = v] on the pass's [std::map]s: afterwards a
    lookup of [k] gives [v] and every other key is as before; the keys
    stay in ascending order; a key that was absent adds one entry, a key
    that was present is overwritten without adding one; and of two
    assignments to the same key only the second counts. *)
Theorem map_assign_lookup {V : Type} (k : positive) (v : V) (m : list (positive * V)) :
  StronglySorted Pos.lt (map fst m) ->
  StronglySorted Pos.lt (map fst (oinsert k v m)) /\
  (forall k', olookup k' (oinsert k v m) = if Pos.eqb k' k then Some v else olookup k' m) /\
  (olookup k m = None -> List.length (oinsert k v m) = Datatypes.S (List.length m)) /\
  (olookup k m <> None -> List.length (oinsert k v m) = List.length m) /\
  (forall v', oinsert k v (oinsert k v' m) = oinsert k v m).
Proof.
  intros Hs. split; [apply sorted_oinsert; exact Hs|].
  split; [intros k'; apply olookup_oinsert|].
  split; [| split].
  - intros Hn. apply length_oinsert. intros Hin.
    apply in_map_iff in Hin. destruct Hin as ([k0 v0] & Hk & Hin). simpl in Hk. subst k0.
    rewrite (In_olookup k v0 m (sorted_NoDup _ Hs) Hin) in Hn. discriminate.
  - intros Hn. destruct (olookup k m) as [v0|] eqn:E; [| contradiction].
    eapply oinsert_present; eauto.
  - intros v'. apply oinsert_twice.
Qed.

Lemma map_assign_lookup_witness :
  StronglySorted Pos.lt (map fst [(10, 23); (20, 22)]) /\
  olookup 20 (oinsert 20 24 [(10, 23); (20, 22)]) = Some 24 /\
  olookup 10 (oinsert 20 24 [(10, 23); (20, 22)]) = Some 23.
Proof.
  assert (Hs : StronglySorted Pos.lt (map fst [(10, 23); (20, 22)])).
  { simpl. repeat constructor. }
  split; [exact Hs|].
  destruct (map_assign_lookup 20 24 [(10, 23); (20, 22)] Hs) as (_ & H & _).
  split; [exact (H 20) | exact (H 10)].
Defined.

(** ** The block list *)

Lemma subseq_refl {A} (l : list A) : subseq l l.
Proof. induction l; constructor; auto. Qed.

Lemma subseq_app_r {A} (l r : list A) : subseq l (l ++ r).
Proof. induction l; simpl; constructor; auto. Qed.

Lemma subseq_trans {A} (l1 l2 l3 : list A) :
  subseq l1 l2 -> subseq l2 l3 -> subseq l1 l3.
Proof.
  intros H12 H23. revert l1 H12.
  induction H23 as [l | x l2 l3 H IH | x l2 l3 H IH]; intros l1 H12.
  - inversion H12; subst. constructor.
  - inversion H12; subst.
    + constructor.
    + apply subseq_take. apply IH. assumption.
    + apply subseq_skip. apply IH. assumption.
  - apply subseq_skip. apply IH. exact H12.
Qed.

Lemma subseq_insert {A} (l X Y : list A) x :
  subseq l (X ++ Y) -> subseq l (X ++ x :: Y).
Proof.
  revert l. induction X as [| a X IH]; simpl; intros l H.
  - apply subseq_skip. exact H.
  - inversion H; subst.
    + constructor.
    + apply subseq_take. apply IH. assumption.
    + apply subseq_skip. apply IH. assumption.
Qed.

Lemma subseq_length {A} (l1 l2 : list A) :
  subseq l1 l2 -> (List.length l1 <= List.length l2)%nat.
Proof. induction 1; simpl; lia. Qed.

Lemma adjacent_insert {A} (X Y : list A) P R P' R' :
  P' <> P ->
  (exists B1 B2, X ++ P :: Y = B1 ++ P' :: R' :: B2) ->
  exists B1 B2, X ++ P :: R :: Y = B1 ++ P' :: R' :: B2.
Proof.
  intros Hne. induction X as [| x X IH]; simpl; intros (B1 & B2 & E).
  - destruct B1 as [| a B1]; simpl in E; inversion E; subst.
    + contradiction.
    + exists (a :: R :: B1), B2. reflexivity.
  - destruct B1 as [| a B1]; simpl in E; inversion E as [[E1 E2]]; subst.
    + destruct X as [| r X]; simpl in E2; inversion E2; subst.
      * exists [], (R :: B2). reflexivity.
      * exists [], (X ++ P :: R :: Y). reflexivity.
    + destruct IH as (C1 & C2 & E3); [exists B1, B2; exact E2|].
      exists (a :: C1), C2. simpl. rewrite E3. reflexivity.
Qed.

Lemma last_insert {A} (X Y : list A) P R cb :
  P <> cb ->
  (exists B, X ++ P :: Y = B ++ [cb]) ->
  exists B, X ++ P :: R :: Y = B ++ [cb].
Proof.
  intros Hne (B & E).
  destruct (exists_last (l := P :: Y)) as (Y' & y & EY); [discriminate|].
  destruct Y as [| y0 Y0].
  - exfalso. apply app_inj_tail in E. destruct E as [_ E]. contradiction.
  - destruct (exists_last (l := y0 :: Y0)) as (Y1 & y1 & E1); [discriminate|].
    rewrite E1 in *.
    assert (E2 : (X ++ P :: Y1) ++ [y1] = B ++ [cb]).
    { rewrite <- E, <- app_assoc. reflexivity. }
    apply app_inj_tail in E2. destruct E2 as [_ ->].
    exists (X ++ P :: R :: Y1). rewrite <- app_assoc. reflexivity.
Qed.

Lemma In_oinsert {V} k (v : V) m p :
  In p (oinsert k v m) -> p = (k, v) \/ In p m.
Proof.
  induction m as [| [k' v'] m IH]; simpl.
  - intros [<- | []]. auto.
  - destruct (Pos.compare k k'); simpl.
    + intros [<- | H]; auto.
    + intros [<- | H]; auto.
    + intros [<- | H]; auto. destruct (IH H); auto.
Qed.

Lemma bview_blockInsts F P M :
  NoDup (bids F) -> In (P, M) (bview F) -> M = marks (blockInsts F P).
Proof.
  induction F as [| b F IH]; intros Hnd Hin; simpl in Hnd, Hin; [contradiction|].
  inversion Hnd as [| ? ? Hn Hnd']; subst.
  destruct Hin as [[= <- <-] | Hin].
  - rewrite blockInsts_cons_eq. reflexivity.
  - assert (HP : In P (bids F)).
    { rewrite <- bview_fst. apply (in_map fst) in Hin. exact Hin. }
    rewrite blockInsts_cons_ne by (intros E; apply Hn; rewrite E; exact HP).
    apply IH; auto.
Qed.

Section Layout.
Variable alloc : list positive -> positive.
Hypothesis alloc_fresh : forall l, ~ In (alloc l) l.
Variable uniqueName : function -> string -> string.
Hypothesis uniqueName_prefix :
  forall F nm, String.prefix nm (uniqueName F nm) = true.
Variable arg_types : funcid -> list typ.
Variable ret_type : funcid -> typ.

Lemma rewInv_step_bids cb t Mall E ME0 EB AP done c cs rs :
  rewInv cb t Mall E ME0 done (c :: cs) rs ->
  let rs' := rewriteCaller alloc uniqueName cb EB AP rs c in
  exists B1 P B2,
    bids (rsF rs) = B1 ++ P :: B2 /\
    bids (rsF rs') = B1 ++ P :: alloc (bids (rsF rs)) :: B2 /\
    callerToRet rs' = oinsert P (alloc (bids (rsF rs))) (callerToRet rs) /\
    P <> cb /\ ~ In P (map fst (callerToRet rs)).
Proof.
  destruct rs as [F toRet toPar]. unfold rewInv. simpl.
  intros (Hnd & Hnb & HM & Hcb & Hcbe & Hsub & _ & _ & _ & _ & _ & Hkeys & _).
  assert (Hc : In c (map markId (flat_map snd (bview F)))).
  { rewrite <- allMarks_bview, HM. eapply subseq_In; eauto. left; auto. }
  destruct (view_find _ _ Hc) as (A1 & P & M1 & m & M2 & A2 & Hv & Hmc).
  destruct (rewriteCaller_spec alloc alloc_fresh uniqueName cb EB AP F toRet toPar c
              A1 P M1 m M2 A2 Hnd Hnb Hv Hmc Hcb Hcbe)
    as (_ & Hv' & _ & HtoRet & _).
  assert (HinV : In (P, M1 ++ m :: M2) (bview F)).
  { rewrite Hv. apply in_or_app. right. left. reflexivity. }
  exists (map fst A1), P, (map fst A2).
  split; [rewrite <- bview_fst, Hv, map_app; reflexivity|].
  split; [rewrite <- bview_fst, Hv', map_app; reflexivity|].
  split; [exact HtoRet|]. split.
  - intros ->. apply bview_blockInsts in HinV; auto.
    rewrite Hcbe in HinV. simpl in HinV. destruct M1; discriminate.
  - intros HP. apply (Hkeys P (M1 ++ m :: M2) m HP HinV).
    + apply in_or_app. right. left. reflexivity.
    + left. auto.
Qed.

(** The block list along the loop over the call sites of one group. *)
Lemma rewrite_layout cb t Mall E ME0 EB AP B0 cs :
  forall done rs,
    rewInv cb t Mall E ME0 done cs rs ->
    subseq B0 (bids (rsF rs)) ->
    (exists B, bids (rsF rs) = B ++ [cb]) ->
    (forall P R, In (P, R) (callerToRet rs) ->
       ~ In R B0 /\ exists B1 B2, bids (rsF rs) = B1 ++ P :: R :: B2) ->
    let rs' := fold_left (rewriteCaller alloc uniqueName cb EB AP) cs rs in
    subseq B0 (bids (rsF rs')) /\
    (exists B, bids (rsF rs') = B ++ [cb]) /\
    (forall P R, In (P, R) (callerToRet rs') ->
       ~ In R B0 /\ exists B1 B2, bids (rsF rs') = B1 ++ P :: R :: B2) /\
    List.length (bids (rsF rs')) = (List.length (bids (rsF rs)) + List.length cs)%nat.
Proof.
  induction cs as [| c cs IH]; intros done rs Hinv Hsub Hlast Hadj; cbn [fold_left].
  - simpl. split; [exact Hsub|]. split; [exact Hlast|]. split; [exact Hadj | lia].
  - destruct (rewInv_step_bids cb t Mall E ME0 EB AP done c cs rs Hinv)
      as (B1 & P & B2 & Hb & Hb' & HtoRet & HPcb & HPk).
    pose proof (rewInv_step alloc alloc_fresh uniqueName cb t Mall E ME0 EB AP done c cs rs Hinv)
      as Hinv'.
    set (rs1 := rewriteCaller alloc uniqueName cb EB AP rs c) in *.
    set (R := alloc (bids (rsF rs))) in *.
    assert (HR : ~ In R (bids (rsF rs))) by apply alloc_fresh.
    assert (Hsub1 : subseq B0 (bids (rsF rs1))).
    { rewrite Hb'. rewrite Hb in Hsub.
      replace (B1 ++ P :: R :: B2) with ((B1 ++ [P]) ++ R :: B2)
        by (rewrite <- app_assoc; reflexivity).
      apply subseq_insert. rewrite <- app_assoc. exact Hsub. }
    assert (Hlast1 : exists B, bids (rsF rs1) = B ++ [cb]).
    { rewrite Hb'. rewrite Hb in Hlast. apply last_insert; auto. }
    assert (Hadj1 : forall P' R', In (P', R') (callerToRet rs1) ->
              ~ In R' B0 /\ exists C1 C2, bids (rsF rs1) = C1 ++ P' :: R' :: C2).
    { intros P' R' Hin. rewrite HtoRet in Hin. apply In_oinsert in Hin.
      destruct Hin as [[= -> ->] | Hin].
      - split.
        + intros HB. apply HR. eapply subseq_In; eauto.
        + exists B1, B2. exact Hb'.
      - destruct (Hadj P' R' Hin) as [Hn Hd]. split; [exact Hn|].
        rewrite Hb'. rewrite Hb in Hd. apply adjacent_insert; auto.
        intros ->. apply HPk. apply (in_map fst) in Hin. exact Hin. }
    destruct (IH (done ++ [c]) rs1 Hinv' Hsub1 Hlast1 Hadj1) as (K1 & K2 & K3 & K4).
    split; [exact K1|]. split; [exact K2|]. split; [exact K3|].
    rewrite K4, Hb', Hb, !length_app. simpl. lia.
Qed.

Lemma bids_buildArgs cb t callers toPar F :
  bids (fst (buildArgs alloc arg_types cb t callers toPar F)) = bids F.
Proof.
  unfold buildArgs. destruct (0 <? List.length (arg_types t))%nat; [| reflexivity].
  generalize (@nil value) O. revert F.
  induction (arg_types t) as [| A tys IH]; intros F args i; [reflexivity|].
  cbn [fold_left]. unfold buildArgPHI at 2.
  rewrite IH.
  assert (H : forall l G, bids (fold_left
              (fun G0 caller =>
                 match olookup caller toPar with
                 | Some p => addIncoming (alloc (ids F)) (getArgOperand G0 caller i) p G0
                 | None => G0
                 end) l G) = bids G).
  { induction l as [| c l IHl]; intros G; [reflexivity|].
    cbn [fold_left]. rewrite IHl. destruct (olookup c toPar); [| reflexivity].
    apply bids_updInst. }
  rewrite H. apply bids_insertAt.
Qed.

Lemma bids_eraseCallers w cs F : bids (eraseCallers w cs F) = bids F.
Proof.
  unfold eraseCallers. revert F. induction cs as [| c cs IH]; intros F; [reflexivity|].
  cbn [fold_left]. rewrite IH, bids_eraseFromParent. apply bids_mapInsts.
Qed.

Lemma bids_emitRouter cb ci toRet F : bids (emitRouter alloc cb ci toRet F) = bids F.
Proof.
  unfold emitRouter. destruct toRet as [| first rest]; [apply bids_insertAt|].
  set (w := alloc (ids F)). set (F5 := insertAt (posBefore ci) _ F).
  set (sw := alloc (ids F5)). set (F6 := insertAt (posEnd cb) _ F5).
  assert (H : forall l G z, bids (fst (fold_left (routeBack w sw) l (G, z))) = bids G).
  { induction l as [| e l IHl]; intros G z; [reflexivity|].
    cbn [fold_left]. unfold routeBack at 2. rewrite IHl.
    unfold addCase, addIncoming. rewrite !bids_updInst. reflexivity. }
  rewrite H. unfold F6, F5. rewrite !bids_insertAt. reflexivity.
Qed.

Lemma bids_mergeGroup F t callers :
  (1 <? List.length callers)%nat = true ->
  bids (mergeGroup alloc uniqueName arg_types ret_type F (t, callers))
  = bids (rsF (rewriteGroup alloc uniqueName F callers)).
Proof.
  intros Hk. unfold mergeGroup. simpl. rewrite Hk.
  rewrite bids_emitRouter. unfold unified. rewrite bids_eraseCallers.
  unfold emitCall. rewrite bids_insertAt. unfold builtArgs.
  apply bids_buildArgs.
Qed.

Lemma bids_prepared F : bids (prepared alloc uniqueName F) = bids F ++ [callBlockOf alloc F].
Proof.
  unfold prepared. rewrite bids_insertAt. unfold withCallBlock.
  rewrite bids_app. reflexivity.
Qed.

(** The block list after one merged group. *)
Lemma mergeGroup_layout F t callers :
  wf F -> callers = callsTo t F -> (2 <= List.length callers)%nat ->
  let rs := rewriteGroup alloc uniqueName F callers in
  let cb := callBlockOf alloc F in
  let F1 := mergeGroup alloc uniqueName arg_types ret_type F (t, callers) in
  ~ In cb (bids F) /\
  subseq (bids F) (bids F1) /\
  List.length (bids F1) = (List.length (bids F) + 1 + List.length callers)%nat /\
  (exists B, bids F1 = B ++ [cb]) /\
  hd_error (bids F1) = hd_error (bids F) /\
  (forall P R, In (P, R) (callerToRet rs) ->
     ~ In R (bids F) /\ R <> cb /\ exists B1 B2, bids F1 = B1 ++ P :: R :: B2).
Proof.
  intros [Hnd Hnb] Hc Hk rs cb F1. subst rs cb F1.
  assert (Hne : callsTo t F <> []).
  { rewrite <- Hc. destruct callers; [simpl in Hk; lia | discriminate]. }
  destruct (callsTo_nonempty t F Hne) as (b & G & HF).
  assert (Hc' : callers = map markId (filter (callsTarget t) (allMarks F))).
  { rewrite Hc. apply callsTo_marks. }
  pose proof (rewInv_prepared alloc alloc_fresh uniqueName uniqueName_prefix t F b G callers Hnd Hnb HF Hc') as H0.
  pose proof (rewriteGroup_spec alloc alloc_fresh uniqueName uniqueName_prefix t F b G callers Hnd Hnb HF Hc') as Hend.
  assert (Hltb : (1 <? List.length callers)%nat = true) by (apply Nat.ltb_lt; lia).
  rewrite (bids_mergeGroup F t callers Hltb).
  unfold rewriteGroup in *.
  destruct (rewrite_layout (callBlockOf alloc F) t _ _ _ (entryOf alloc F)
              (allocaPointOf alloc F)
              (bids F ++ [callBlockOf alloc F]) callers [] _ H0) as (K1 & K2 & K3 & K4).
  { simpl. rewrite bids_prepared. apply subseq_refl. }
  { simpl. rewrite bids_prepared. exists (bids F). reflexivity. }
  { simpl. intros P R []. }
  simpl in K4. rewrite bids_prepared, length_app in K4. simpl in K4.
  split; [apply alloc_fresh|].
  split; [eapply subseq_trans; [apply subseq_app_r | exact K1]|].
  split; [rewrite K4; lia|].
  split; [exact K2|].
  split.
  - destruct Hend as (_ & _ & _ & _ & _ & _ & _ & _ & _ & _ & _ & _ & _ & (ME & rest & Hv & _)).
    rewrite <- bview_fst, Hv, HF. reflexivity.
  - intros P R Hin. destruct (K3 P R Hin) as [Hn Hd].
    split; [intros HR; apply Hn; apply in_or_app; left; exact HR|].
    split; [intros ->; apply Hn; apply in_or_app; right; left; reflexivity|].
    exact Hd.
Qed.
End Layout.

Section RunLayout.
Variable alloc : list positive -> positive.
Hypothesis alloc_fresh : forall l, ~ In (alloc l) l.
Variable uniqueName : function -> string -> string.
Hypothesis uniqueName_prefix :
  forall F nm, String.prefix nm (uniqueName F nm) = true.
Variable arg_types : funcid -> list typ.
Variable ret_type : funcid -> typ.
Variable isIntrinsic : funcid -> bool.

Lemma run_layout_fold groups :
  forall F,
    wf F -> NoDup (map fst groups) ->
    (forall t cs, In (t, cs) groups -> cs = callsTo t F /\ cs <> []) ->
    let F' := fold_left (mergeGroup alloc uniqueName arg_types ret_type) groups F in
    (forall t, (forall cs, In (t, cs) groups -> (List.length cs <= 1)%nat) ->
               callsTo t F' = callsTo t F) /\
    subseq (bids F) (bids F') /\
    hd_error (bids F') = hd_error (bids F) /\
    List.length (bids F') = (List.length (bids F) + newBlocks groups)%nat.
Proof.
  induction groups as [| [t0 cs0] rest IH]; intros F Hwf Hnd Hg; cbn [fold_left].
  - simpl. split; [reflexivity|]. split; [apply subseq_refl|].
    split; [reflexivity|]. unfold newBlocks. simpl. lia.
  - inversion Hnd as [| ? ? Hn0 Hnd']; subst.
    destruct (Hg t0 cs0 (or_introl eq_refl)) as (Hc0 & Hne0).
    destruct (1 <? List.length cs0)%nat eqn:Ek.
    + assert (Hk : (2 <= List.length cs0)%nat) by (apply Nat.ltb_lt in Ek; lia).
      destruct (mergeGroup_marks alloc alloc_fresh uniqueName uniqueName_prefix arg_types ret_type t0 F cs0 Hwf Hc0 Hk)
        as (W1 & W2 & _).
      destruct (mergeGroup_layout alloc alloc_fresh uniqueName uniqueName_prefix arg_types ret_type F t0 cs0 Hwf Hc0 Hk)
        as (_ & L1 & L2 & _ & L3 & _).
      set (F1 := mergeGroup alloc uniqueName arg_types ret_type F (t0, cs0)) in *.
      assert (Hg1 : forall t cs, In (t, cs) rest -> cs = callsTo t F1 /\ cs <> []).
      { intros t cs Hin. destruct (Hg t cs (or_intror Hin)) as (a1 & a2).
        split; auto. rewrite W2.
        destruct (Pos.eqb_spec t t0) as [->|]; auto.
        exfalso. apply Hn0. apply (in_map fst) in Hin. exact Hin. }
      destruct (IH F1 W1 Hnd' Hg1) as (K1 & K2 & K3 & K4).
      split; [| split; [| split]].
      * intros t Ht. rewrite K1 by (intros cs Hin; apply Ht; right; exact Hin).
        rewrite W2. destruct (Pos.eqb_spec t t0) as [->|]; auto.
        specialize (Ht cs0 (or_introl eq_refl)). lia.
      * eapply subseq_trans; eauto.
      * rewrite K3. exact L3.
      * rewrite K4, L2. unfold newBlocks, merged. simpl. rewrite Ek. simpl. lia.
    + rewrite mergeGroup_small by auto.
      assert (Hg1 : forall t cs, In (t, cs) rest -> cs = callsTo t F /\ cs <> []).
      { intros t cs Hin. apply Hg. right. exact Hin. }
      destruct (IH F Hwf Hnd' Hg1) as (K1 & K2 & K3 & K4).
      split; [| split; [| split]]; auto.
      * intros t Ht. apply K1. intros cs Hin. apply Ht. right. exact Hin.
      * rewrite K4. unfold newBlocks, merged. simpl. rewrite Ek. reflexivity.
Qed.

Lemma run_layout_spec F :
  wf F ->
  let F' := fst (runOnFunction alloc uniqueName arg_types ret_type isIntrinsic F) in
  (forall t, (forall cs, In (t, cs) (collect isIntrinsic F) -> (List.length cs <= 1)%nat) ->
             callsTo t F' = callsTo t F) /\
  subseq (bids F) (bids F') /\
  hd_error (bids F') = hd_error (bids F) /\
  List.length (bids F') = (List.length (bids F) + newBlocks (collect isIntrinsic F))%nat.
Proof.
  intros Hwf. unfold runOnFunction. simpl.
  apply run_layout_fold; auto.
  - apply sorted_NoDup. apply (collect_spec isIntrinsic F).
  - intros t cs Hin. apply collect_In in Hin. tauto.
Qed.

(** X5.  Calls the pass does not merge stay where they are: for a
    function [t] that is an intrinsic or is called directly at most once,
    the direct calls of [t] in the output are the same instructions (by
    address), in the same order, as in the input. *)
Theorem unmerged_calls_stay (F : function) (t : funcid) :
  wf F ->
  isIntrinsic t = true \/ (List.length (callsTo t F) <= 1)%nat ->
  callsTo t (fst (runOnFunction alloc uniqueName arg_types ret_type isIntrinsic F)) = callsTo t F.
Proof.
  intros Hwf Ht. destruct (run_layout_spec F Hwf) as (H & _).
  apply H. intros cs Hin. apply collect_In in Hin. destruct Hin as (Hi & -> & _).
  destruct Ht as [Ht | Ht]; [congruence | exact Ht].
Qed.

(** X6.  The pass never removes, renames or reorders a block: the block
    list of the input is a subsequence of the block list of the output,
    the entry block stays first, and the output has, for every merged
    group of k call sites, k + 1 blocks more than the input (the shared
    block and one continuation block per call site). *)
Theorem run_block_list (F : function) :
  wf F ->
  let F' := fst (runOnFunction alloc uniqueName arg_types ret_type isIntrinsic F) in
  subseq (bids F) (bids F') /\
  hd_error (bids F') = hd_error (bids F) /\
  List.length (bids F') = (List.length (bids F) + newBlocks (collect isIntrinsic F))%nat.
Proof.
  intros Hwf. destruct (run_layout_spec F Hwf) as (_ & H). exact H.
Qed.

(** X7.  Where the new blocks of a merged group go: the shared block is
    a new block appended at the end of the function, and for every entry
    (P, R) of the predecessor-to-continuation map the continuation block
    R is a new block that sits right after P in the block list. *)
Theorem merge_block_placement (F : function) (t : funcid) :
  wf F -> (2 <= List.length (callsTo t F))%nat ->
  let callers := callsTo t F in
  let rs := rewriteGroup alloc uniqueName F callers in
  let callBlock := callBlockOf alloc F in
  let F1 := mergeGroup alloc uniqueName arg_types ret_type F (t, callers) in
  ~ In callBlock (bids F) /\
  (exists B, bids F1 = B ++ [callBlock]) /\
  List.length (bids F1) = (List.length (bids F) + 1 + List.length callers)%nat /\
  forall P R, In (P, R) (callerToRet rs) ->
    ~ In R (bids F) /\ R <> callBlock /\ exists B1 B2, bids F1 = B1 ++ P :: R :: B2.
Proof.
  intros Hwf Hk callers rs callBlock F1.
  destruct (mergeGroup_layout alloc alloc_fresh uniqueName uniqueName_prefix arg_types ret_type F t callers
              Hwf eq_refl Hk) as (H1 & _ & H2 & H3 & _ & H4).
  split; [exact H1|]. split; [exact H3|]. split; [exact H2 | exact H4].
Qed.
End RunLayout.

Lemma unmerged_calls_stay_witness :
  wf exIntr /\ ex_intr 200 = true /\
  callsTo 200 (fst (runOnFunction amax freshName ex_args ex_ret ex_intr exIntr)) = callsTo 200 exIntr.
Proof.
  assert (Hwf : wf exIntr) by (apply wfb_wf; reflexivity).
  split; [exact Hwf|]. split; [reflexivity|].
  apply (unmerged_calls_stay amax amax_fresh freshName freshName_prefix ex_args ex_ret ex_intr exIntr 200 Hwf).
  left. reflexivity.
Defined.

Lemma run_block_list_witness :
  wf exF /\
  List.length (bids (fst (runOnFunction amax freshName ex_args ex_ret ex_intr exF)))
  = (List.length (bids exF) + newBlocks (collect ex_intr exF))%nat.
Proof.
  assert (Hwf : wf exF) by (apply wfb_wf; reflexivity).
  split; [exact Hwf|].
  destruct (run_block_list amax amax_fresh freshName freshName_prefix ex_args ex_ret ex_intr exF Hwf) as (_ & _ & H).
  exact H.
Defined.

Lemma merge_block_placement_witness :
  wf exOrder /\ (2 <= List.length (callsTo 100%positive exOrder))%nat /\
  exists B, bids (mergeGroup amax freshName ex_args ex_ret exOrder (100, callsTo 100 exOrder))
            = B ++ [callBlockOf amax exOrder].
Proof.
  assert (Hwf : wf exOrder) by (apply wfb_wf; reflexivity).
  assert (Hk : (2 <= List.length (callsTo 100%positive exOrder))%nat) by (vm_compute; lia).
  split; [exact Hwf|]. split; [exact Hk|].
  destruct (merge_block_placement amax amax_fresh freshName freshName_prefix ex_args ex_ret exOrder 100 Hwf Hk)
    as (_ & H & _).
  exact H.
Defined.

(** ** Replacing and erasing the original calls (lines 119-123) *)

Lemma blockInsts_eraseFromParent c F B :
  blockInsts (eraseFromParent c F) B
  = filter (fun x => negb (Pos.eqb (iid x) c)) (blockInsts F B).
Proof.
  unfold eraseFromParent.
  apply (blockInsts_map (filter (fun x => negb (Pos.eqb (iid x) c)))). reflexivity.
Qed.

Lemma filter_erase_step (g : instruction -> instruction) c cs L :
  (forall y, iid (g y) = iid y) ->
  filter (fun y => negb (inb (iid y) cs))
         (filter (fun x => negb (Pos.eqb (iid x) c)) (map g L))
  = map g (filter (fun y => negb (inb (iid y) (c :: cs))) L).
Proof.
  intros Hg. induction L as [| y L IH]; simpl; [reflexivity|].
  rewrite Hg. destruct (Pos.eqb (iid y) c) eqn:E; simpl.
  - exact IH.
  - rewrite Hg. destruct (inb (iid y) cs); simpl; [exact IH | rewrite IH; reflexivity].
Qed.

Lemma blockInsts_eraseCallers w cs :
  forall G B,
    blockInsts (eraseCallers w cs G) B
    = map (substAll cs (VInst w))
          (filter (fun y => negb (inb (iid y) cs)) (blockInsts G B)).
Proof.
  unfold eraseCallers. induction cs as [| c cs IH]; intros G B; cbn [fold_left].
  - simpl. unfold substAll. simpl. rewrite map_id.
    symmetry. apply forallb_filter_id. apply forallb_forall. reflexivity.
  - rewrite IH, blockInsts_eraseFromParent.
    unfold replaceAllUsesWith. rewrite blockInsts_mapInsts.
    rewrite filter_erase_step by reflexivity.
    rewrite map_map. reflexivity.
Qed.

Lemma substAllV_redirect cs w v :
  ~ In w cs -> substAllV cs (VInst w) v = redirect cs w v.
Proof.
  intros Hw. unfold substAllV. revert v.
  induction cs as [| c cs IH]; intros v; cbn [fold_left].
  - destruct v; reflexivity.
  - assert (Hw' : ~ In w cs) by (intros H; apply Hw; right; exact H).
    rewrite (IH Hw'). unfold substValue.
    destruct v as [i | | | | | |]; simpl; try reflexivity.
    destruct (Pos.eqb_spec i c) as [-> | Hne]; simpl.
    + destruct (inb w cs); reflexivity.
    + reflexivity.
Qed.

(** X8.  What the loop of lines 119-123 leaves behind (the new call [w]
    is none of the original calls): no block is added or removed; in
    every block the original calls are gone and the other instructions
    are still there, in their order, unchanged except that every operand
    that named one of the original calls now names the new call. *)
Theorem callers_replaced (w : instid) (callers : list instid) (G : function) :
  ~ In w callers ->
  let G' := eraseCallers w callers G in
  bids G' = bids G /\
  forall B,
    blockInsts G' B
    = map (fun I => setKind I (mapOperands (redirect callers w) (ikd I)))
          (filter (fun I => negb (inb (iid I) callers)) (blockInsts G B)).
Proof.
  intros Hw G'. split; [apply bids_eraseCallers|].
  intros B. unfold G'. rewrite blockInsts_eraseCallers.
  apply map_ext. intros I. apply instruction_eq; simpl.
  - apply substAll_iid.
  - apply iname_substAll.
  - apply ity_substAll.
  - rewrite ikd_substAll. apply mapOperands_ext.
    intros v. apply substAllV_redirect. exact Hw.
Qed.

Lemma callers_replaced_witness :
  ~ In 30 [2; 5] /\
  blockInsts (eraseCallers 30 [2; 5] exF) 20
  = [I_ 6 (Op 2 [VInst 30; VInst 1]); I_ 7 (Ret None)].
Proof.
  assert (H : ~ In 30 [2; 5]).
  { simpl. intros [H | [H | []]]; discriminate H. }
  split; [exact H|].
  destruct (callers_replaced 30 [2; 5] exF H) as [_ H1].
  rewrite H1. reflexivity.
Defined.

(** ** The tags of the router (lines 126-135) *)

Lemma tagsFrom_seq n :
  forall c, (0 <= c)%Z -> (c + Z.of_nat n <= 2 ^ 32)%Z ->
  tagsFrom c n = map (fun i => VConstInt 32 (c + Z.of_nat i)) (seq 0 n).
Proof.
  induction n as [| n IH]; intros c H0 Hb; [reflexivity|].
  cbn [tagsFrom seq map]. f_equal.
  - unfold APInt. change (Z.of_N 32) with 32%Z.
    rewrite Z.mod_small by lia. f_equal. simpl. lia.
  - rewrite IH by lia. rewrite <- seq_shift, map_map.
    apply map_ext. intros i. f_equal. lia.
Qed.

Section Router.
Variable alloc : list positive -> positive.
Hypothesis alloc_fresh : forall l, ~ In (alloc l) l.
Variable uniqueName : function -> string -> string.
Hypothesis uniqueName_prefix :
  forall F nm, String.prefix nm (uniqueName F nm) = true.
Variable arg_types : funcid -> list typ.
Variable ret_type : funcid -> typ.

(** X9.  The router of a merged group of k call sites (k at most 2^32):
    the discriminator is an i32 PHI node placed right before the call,
    the call has the callee's return type, the switch reads the
    discriminator, and the tags of the PHI's incoming pairs and of the
    switch's cases are the 32-bit constants 0, 1, ..., k-1, in this
    order. *)
Theorem router_tags (F : function) (t : funcid) :
  wf F -> (2 <= List.length (callsTo t F))%nat ->
  (Z.of_nat (List.length (callsTo t F)) <= 2 ^ 32)%Z ->
  let callers := callsTo t F in
  let callBlock := callBlockOf alloc F in
  let F1 := mergeGroup alloc uniqueName arg_types ret_type F (t, callers) in
  let numbers := map (fun i => VConstInt 32 (Z.of_nat i)) (seq 0 (List.length callers)) in
  exists phis whereFromNode callInstr switchBackInstr inc def cases,
    blockInsts F1 callBlock = phis ++ [whereFromNode; callInstr; switchBackInstr] /\
    ity whereFromNode = TInt 32 /\ ikd whereFromNode = PHI inc /\
    ity callInstr = ret_type t /\
    ikd switchBackInstr = Switch (VInst (iid whereFromNode)) def cases /\
    map fst inc = numbers /\ map fst cases = numbers.
Proof.
  intros Hwf Hk Hb callers callBlock F1 numbers.
  destruct (group_shape alloc alloc_fresh uniqueName uniqueName_prefix arg_types ret_type F t Hwf Hk)
    as (phis & wfN & ci & sw & HL & _ & _ & _ & Hlen & _).
  fold callers in HL, Hlen, Hb.
  assert (Ht : tagsFrom 0 (List.length callers) = numbers).
  { unfold numbers. rewrite tagsFrom_seq by lia. reflexivity. }
  rewrite Ht in HL.
  assert (Hl : List.length numbers
               = List.length (callerToRet (rewriteGroup alloc uniqueName F callers))).
  { unfold numbers. rewrite length_map, length_seq. symmetry. exact Hlen. }
  eexists phis, _, _, _, _, _, _. split; [exact HL|].
  repeat match goal with |- _ /\ _ => split end; try reflexivity.
  - apply map_fst_combine. rewrite length_map. exact Hl.
  - apply map_fst_combine. rewrite length_map. exact Hl.
Qed.
End Router.

Lemma router_tags_witness :
  wf exOrder /\ (2 <= List.length (callsTo 100%positive exOrder))%nat /\
  (Z.of_nat (List.length (callsTo 100%positive exOrder)) <= 2 ^ 32)%Z /\
  exists phis whereFromNode callInstr switchBackInstr inc,
    blockInsts (mergeGroup amax freshName ex_args ex_ret exOrder (100, callsTo 100 exOrder))
               (callBlockOf amax exOrder)
    = phis ++ [whereFromNode; callInstr; switchBackInstr] /\
    ikd whereFromNode = PHI inc /\
    map fst inc = [VConstInt 32 0; VConstInt 32 1].
Proof.
  assert (Hwf : wf exOrder) by (apply wfb_wf; reflexivity).
  assert (Hk : (2 <= List.length (callsTo 100%positive exOrder))%nat) by (vm_compute; lia).
  assert (Hb : (Z.of_nat (List.length (callsTo 100%positive exOrder)) <= 2 ^ 32)%Z)
    by (simpl; lia).
  split; [exact Hwf|]. split; [exact Hk|]. split; [exact Hb|].
  destruct (router_tags amax amax_fresh freshName freshName_prefix ex_args ex_ret exOrder 100 Hwf Hk Hb)
    as (phis & w & c & s & inc & def & cases & H1 & _ & H2 & _ & _ & H3 & _).
  exists phis, w, c, s, inc. split; [exact H1 | split; [exact H2 | exact H3]].
Defined.

(** ** The last instruction of a block

    Instructions are inserted before an instruction, before a terminator
    or after an instruction that is followed by others; none of these
    touches a branch that ends a block. *)

Lemma endsWith_insertNth x l k n :
  endsWith x l -> (k < List.length l)%nat -> endsWith x (insertNth k n l).
Proof.
  intros [l0 ->] Hk. rewrite length_app in Hk. simpl in Hk.
  unfold insertNth. exists (firstn k l0 ++ n :: skipn k l0).
  rewrite firstn_app, skipn_app.
  replace (k - List.length l0)%nat with O by lia. simpl.
  rewrite app_nil_r, <- app_assoc. reflexivity.
Qed.

Lemma endsWith_insertAt pos n F B x :
  (forall b k, bid b = B -> insts b = blockInsts F B -> pos b = Some k ->
               (k < List.length (insts b))%nat) ->
  endsWith x (blockInsts F B) -> endsWith x (blockInsts (insertAt pos n F) B).
Proof.
  induction F as [| b F IH]; intros Hpos He; [exact He|].
  simpl. destruct (pos b) as [k|] eqn:Ep.
  - destruct (Pos.eqb_spec (bid b) B) as [e | ne].
    + subst B. rewrite blockInsts_cons_eq in He, Hpos.
      rewrite (blockInsts_cons_eq (mkBlock (bid b) (insertNth k n (insts b)))).
      simpl. apply endsWith_insertNth; auto.
    + rewrite (blockInsts_cons_ne (mkBlock (bid b) _)) by exact ne.
      rewrite blockInsts_cons_ne in He by exact ne. exact He.
  - destruct (Pos.eqb_spec (bid b) B) as [e | ne].
    + subst B. rewrite blockInsts_cons_eq in *. exact He.
    + rewrite blockInsts_cons_ne in * by exact ne. apply IH; auto.
Qed.

Lemma indexOf_lt i l k : indexOf i l = Some k -> (k < List.length l)%nat.
Proof.
  revert k. induction l as [| y l IH]; simpl; intros k H; [discriminate|].
  destruct (Pos.eqb (iid y) i).
  - inversion H. lia.
  - destruct (indexOf i l) as [k'|]; simpl in H; [| discriminate].
    inversion H. specialize (IH k' eq_refl). lia.
Qed.

Lemma indexOf_before_last i l0 x k :
  iid x <> i -> indexOf i (l0 ++ [x]) = Some k -> (k < List.length l0)%nat.
Proof.
  intros Hx. revert k. induction l0 as [| y l0 IH]; simpl; intros k H.
  - destruct (Pos.eqb_spec (iid x) i); [contradiction | discriminate].
  - destruct (Pos.eqb (iid y) i).
    + inversion H. lia.
    + destruct (indexOf i (l0 ++ [x])) as [k'|]; simpl in H; [| discriminate].
      inversion H. specialize (IH k' eq_refl). lia.
Qed.

Lemma countWhile_before_last p l0 x :
  p x = false -> (countWhile p (l0 ++ [x]) <= List.length l0)%nat.
Proof.
  intros Hx. induction l0 as [| y l0 IH]; simpl.
  - rewrite Hx. lia.
  - destruct (p y); lia.
Qed.

Lemma posBefore_lt i b k : posBefore i b = Some k -> (k < List.length (insts b))%nat.
Proof. apply indexOf_lt. Qed.

Lemma posTerminator_lt T b k :
  insts b <> [] -> posTerminator T b = Some k -> (k < List.length (insts b))%nat.
Proof.
  unfold posTerminator. intros Hne.
  destruct (Pos.eqb (bid b) T); [| discriminate].
  destruct (getTerminator (insts b)); [| discriminate].
  intros [= <-]. destruct (insts b); [contradiction | simpl; lia].
Qed.

Lemma posFirstNonPHI_lt T b k x :
  endsWith x (insts b) -> isPHI x = false ->
  posFirstNonPHI T b = Some k -> (k < List.length (insts b))%nat.
Proof.
  unfold posFirstNonPHI. intros [l0 E] Hx.
  destruct (Pos.eqb (bid b) T); [| discriminate].
  intros [= <-]. rewrite E, length_app. simpl.
  pose proof (countWhile_before_last isPHI l0 x Hx). lia.
Qed.

Lemma posAfterSkipPHI_lt i b k x :
  endsWith x (insts b) -> isPHI x = false -> iid x <> i ->
  posAfterSkipPHI i b = Some k -> (k < List.length (insts b))%nat.
Proof.
  unfold posAfterSkipPHI. intros [l0 E] Hx Hi. rewrite E.
  destruct (indexOf i (l0 ++ [x])) as [j|] eqn:Ej; [| discriminate].
  intros [= <-]. apply indexOf_before_last in Ej; auto.
  change (match l0 ++ [x] with [] => [] | _ :: l => skipn j l end)
    with (skipn (Datatypes.S j) (l0 ++ [x])).
  rewrite skipn_app, length_app.
  replace (Datatypes.S j - List.length l0)%nat with O by lia.
  cbn [skipn List.length].
  pose proof (countWhile_before_last isPHI (skipn (Datatypes.S j) l0) x Hx) as H.
  rewrite length_skipn in H.
  change (match l0 with [] => [] | _ :: l => skipn j l end)
    with (skipn (Datatypes.S j) l0).
  lia.
Qed.

Lemma endsWith_updInst u g F B x :
  (iid x = u -> g x = x) ->
  endsWith x (blockInsts F B) -> endsWith x (blockInsts (updInst u g F) B).
Proof.
  intros Hg [l0 E]. rewrite blockInsts_updInst, E, map_app. simpl.
  destruct (Pos.eqb_spec (iid x) u) as [e|]; [rewrite (Hg e)|]; eexists; reflexivity.
Qed.

Lemma endsWith_erase c F B x :
  iid x <> c ->
  endsWith x (blockInsts F B) -> endsWith x (blockInsts (eraseFromParent c F) B).
Proof.
  intros Hc [l0 E]. rewrite blockInsts_eraseFromParent, E, filter_app. simpl.
  destruct (Pos.eqb_spec (iid x) c); [contradiction|]. eexists; reflexivity.
Qed.

Lemma isBr_notPHI x : isBr x = true -> isPHI x = false.
Proof. unfold isBr, isPHI. destruct (ikd x); auto; discriminate. Qed.

Lemma isBr_view x : isBr x = true -> view x = None.
Proof.
  unfold isBr, view, isAllocaPoint. destruct (ikd x); try discriminate. reflexivity.
Qed.

Lemma isBr_replaceUsesOfWith y w x : isBr x = true -> replaceUsesOfWith y w x = x.
Proof.
  unfold isBr, replaceUsesOfWith. intros H.
  destruct x as [i nm ty k]. simpl in *. destruct k; try discriminate. reflexivity.
Qed.

Lemma endsWith_nonempty x l : endsWith x l -> l <> [].
Proof. intros [l0 ->]. destruct l0; discriminate. Qed.

Lemma endsWith_In x l : endsWith x l -> In x l.
Proof. intros [l0 ->]. apply in_or_app. right. left. reflexivity. Qed.

Lemma distinct_blocks F B B' x y :
  NoDup (ids F) -> B <> B' ->
  In x (blockInsts F B) -> In y (blockInsts F B') -> iid x <> iid y.
Proof.
  intros Hnd Hne Hx Hy e.
  apply getParent_blockInsts in Hx; auto. apply getParent_blockInsts in Hy; auto.
  rewrite e in Hx. congruence.
Qed.

Section EndDemote.
Variable alloc : list positive -> positive.
Hypothesis alloc_fresh : forall l, ~ In (alloc l) l.
Variable uniqueName : function -> string -> string.
Hypothesis uniqueName_prefix :
  forall F nm, String.prefix nm (uniqueName F nm) = true.

Lemma endsWith_insertBefore i n F B x :
  endsWith x (blockInsts F B) ->
  endsWith x (blockInsts (insertAt (posBefore i) n F) B).
Proof.
  apply endsWith_insertAt. intros b k _ _. apply posBefore_lt.
Qed.

Lemma endsWith_insertTerminator T n F B x :
  endsWith x (blockInsts F B) ->
  endsWith x (blockInsts (insertAt (posTerminator T) n F) B).
Proof.
  intros He. apply endsWith_insertAt; auto.
  intros b k _ Hb. apply posTerminator_lt. rewrite Hb.
  eapply endsWith_nonempty; eauto.
Qed.

Lemma endsWith_demotePHILoop x slot nm ty B xb inc :
  forall Loads F,
    endsWith xb (blockInsts F B) ->
    endsWith xb (blockInsts (fst (demotePHILoop alloc uniqueName x slot nm ty inc Loads F)) B).
Proof.
  induction inc as [| [v b] inc IH]; simpl; intros Loads F He; [exact He|].
  destruct (isVInst x v); [| simpl; apply IH; exact He].
  destruct (olookup b Loads); simpl; [apply IH; exact He|].
  apply IH. apply endsWith_insertTerminator. exact He.
Qed.

Lemma endsWith_demoteUser x slot nm ty F U B xb :
  NoDup (ids F) -> isBr xb = true ->
  endsWith xb (blockInsts F B) ->
  endsWith xb (blockInsts (demoteUser alloc uniqueName x slot nm ty F U) B).
Proof.
  intros Hnd Hbr He. unfold demoteUser.
  destruct (findInst F U) as [UI|] eqn:EU; [| exact He].
  assert (Hnot : forall inc, ikd UI = PHI inc -> iid xb <> U).
  { intros inc EK e.
    assert (Hin : In xb (allInsts F)).
    { eapply blockInsts_In. eapply endsWith_In. eauto. }
    apply findInst_NoDup in Hin; auto. rewrite e, EU in Hin.
    inversion Hin; subst. unfold isBr in Hbr. rewrite EK in Hbr. discriminate. }
  assert (Hother : endsWith xb
            (blockInsts (updInst U (replaceUsesOfWith x (VInst (alloc (ids F))))
               (insertAt (posBefore U)
                  (mkReload (alloc (ids F)) (uniqueName F (nm ++ ".reload")) ty slot)
                  F)) B)).
  { apply endsWith_updInst.
    - intros _. apply isBr_replaceUsesOfWith. exact Hbr.
    - apply endsWith_insertBefore. exact He. }
  destruct (ikd UI) as [| c args | inc | | | | | | | | |] eqn:EK; try exact Hother.
  apply endsWith_updInst.
  - intros e. exfalso. eapply Hnot; eauto.
  - apply endsWith_demotePHILoop. exact He.
Qed.

Lemma endsWith_fold_demoteUser x slot nm ty B xb us :
  forall F,
    NoDup (ids F) -> isBr xb = true ->
    endsWith xb (blockInsts F B) ->
    endsWith xb (blockInsts (fold_left (demoteUser alloc uniqueName x slot nm ty) us F) B).
Proof.
  induction us as [| U us IH]; simpl; intros F Hnd Hbr He; [exact He|].
  apply IH; auto.
  - eapply gstep_NoDup; [apply (demoteUser_gstep alloc alloc_fresh uniqueName ) | exact Hnd].
  - apply endsWith_demoteUser; auto.
Qed.

Lemma endsWith_Demote F y AP B xb :
  NoDup (ids F) -> isBr xb = true -> iid xb <> y ->
  endsWith xb (blockInsts F B) ->
  endsWith xb (blockInsts (DemoteRegToStack alloc uniqueName F y AP) B).
Proof.
  intros Hnd Hbr Hy He. unfold DemoteRegToStack.
  destruct (findInst F y) as [yi|]; [| exact He].
  destruct (users F y) as [| u us]; [apply endsWith_erase; auto|].
  set (Slot := alloc (ids F)).
  set (F1 := insertAt (posBefore AP) _ F).
  set (F2 := fold_left _ _ F1).
  assert (Hnd1 : NoDup (ids F1)).
  { unfold F1. apply NoDup_insertAt; auto. simpl. apply alloc_fresh. }
  assert (He2 : endsWith xb (blockInsts F2 B)).
  { unfold F2. apply endsWith_fold_demoteUser; auto.
    unfold F1. apply endsWith_insertBefore. exact He. }
  apply endsWith_insertAt; auto.
  intros b k _ Hb. apply (posAfterSkipPHI_lt y b k xb); auto.
  - rewrite Hb. exact He2.
  - apply isBr_notPHI. exact Hbr.
Qed.

Lemma endsWith_fold_Demote AP B xb xs :
  NoDup xs ->
  forall F,
    NoDup (ids F) -> (forall y, In y xs -> users F y <> []) ->
    isBr xb = true -> ~ In (iid xb) xs ->
    endsWith xb (blockInsts F B) ->
    endsWith xb
      (blockInsts (fold_left (fun G d => DemoteRegToStack alloc uniqueName G d AP) xs F) B).
Proof.
  induction 1 as [| y xs Hy Hndx IH]; simpl; intros F Hnd Hu Hbr Hxb He; [exact He|].
  assert (G1 : gstep (eq y) F (DemoteRegToStack alloc uniqueName F y AP)).
  { apply DemoteRegToStack_gstep; auto. }
  destruct (G1 Hnd) as [Hf1 Hn1].
  apply IH; auto.
  - intros y' Hy'. eapply frel_users; eauto. intros ->. contradiction.
  - apply endsWith_Demote; auto.
Qed.
End EndDemote.

Lemma endsWith_replacePhiUsesWith Old New xb l :
  isPHI xb = false -> endsWith xb l -> endsWith xb (replacePhiUsesWith Old New l).
Proof.
  intros Hx [l0 ->]. induction l0 as [| y l0 IH]; simpl.
  - rewrite Hx. exists []. reflexivity.
  - destruct (isPHI y).
    + destruct IH as [l1 E]. rewrite E. exists (replaceIncomingBlockWith Old New y :: l1).
      reflexivity.
    + exists (y :: l0). reflexivity.
Qed.

Lemma endsWith_replaceSuccessors succs Old New F B xb :
  isPHI xb = false ->
  endsWith xb (blockInsts F B) ->
  endsWith xb (blockInsts (replaceSuccessorsPhiUsesWith succs Old New F) B).
Proof.
  intros Hx. unfold replaceSuccessorsPhiUsesWith, blockInsts.
  induction F as [| b F IH]; simpl; intros He; [exact He|].
  destruct (existsb (Pos.eqb (bid b)) succs); simpl;
    destruct (Pos.eqb (bid b) B); auto.
  apply endsWith_replacePhiUsesWith; auto.
Qed.

Lemma blockInsts_notin F B : ~ In B (bids F) -> blockInsts F B = [].
Proof.
  unfold blockInsts. induction F as [| b F IH]; simpl; intros H; [reflexivity|].
  destruct (Pos.eqb_spec (bid b) B); [exfalso; apply H; left; assumption|].
  apply IH. intros Hin. apply H. right. exact Hin.
Qed.

Lemma endsWith_move c R F B xb :
  iid xb <> c -> isPHI xb = false ->
  endsWith xb (blockInsts F B) ->
  endsWith xb (blockInsts (moveToFirstNonPHI c R F) B).
Proof.
  intros Hc Hx He. unfold moveToFirstNonPHI.
  destruct (findInst F c) as [ci|]; [| exact He].
  apply endsWith_insertAt.
  - intros b k _ Hb. apply (posFirstNonPHI_lt R b k xb); auto.
    rewrite Hb. apply endsWith_erase; auto.
  - apply endsWith_erase; auto.
Qed.

Lemma NoDup_move c R F : NoDup (ids F) -> NoDup (ids (moveToFirstNonPHI c R F)).
Proof.
  intros Hnd. unfold moveToFirstNonPHI.
  destruct (findInst F c) as [ci|] eqn:E; [| exact Hnd].
  apply findInst_Some in E. destruct E as [_ Hid].
  apply NoDup_insertAt.
  - apply NoDup_eraseFromParent. exact Hnd.
  - rewrite Hid, ids_eraseFromParent. tauto.
Qed.

Lemma bids_move c R F : bids (moveToFirstNonPHI c R F) = bids F.
Proof.
  unfold moveToFirstNonPHI. destruct (findInst F c); [| reflexivity].
  rewrite bids_insertAt. apply bids_eraseFromParent.
Qed.

Lemma erasePrevIn_end i l n :
  ~ In i (map iid l) -> iid n = i -> endsWith n (erasePrevIn i (l ++ [n])).
Proof.
  intros Hi Hn.
  destruct l as [| y0 l0]; [exists []; reflexivity|].
  destruct (exists_last (l := y0 :: l0)) as (l1 & y & E); [discriminate|].
  rewrite E in *. rewrite <- app_assoc. simpl.
  rewrite erasePrevIn_last; auto. exists l1. reflexivity.
Qed.

Section EndRewrite.
Variable alloc : list positive -> positive.
Hypothesis alloc_fresh : forall l, ~ In (alloc l) l.
Variable uniqueName : function -> string -> string.
Hypothesis uniqueName_prefix :
  forall F nm, String.prefix nm (uniqueName F nm) = true.

(** One call site: the block that held the call ends with the branch to
    the shared block, and the branch that ends any other block is still
    there. *)
Lemma rewriteCaller_ends cb E AP F toRet toPar c A1 P M1 m M2 A2 :
  NoDup (ids F) -> NoDup (bids F) ->
  bview F = A1 ++ (P, M1 ++ m :: M2) :: A2 -> markId m = c ->
  let F' := rsF (rewriteCaller alloc uniqueName cb E AP (mkRS F toRet toPar) c) in
  (exists i, endsWith (mkInst i "" TVoid (Br cb)) (blockInsts F' P)) /\
  (forall B xb, B <> P -> isBr xb = true -> endsWith xb (blockInsts F B) ->
                endsWith xb (blockInsts F' B)).
Proof.
  intros Hnd Hnb Hv Hc.
  destruct (bview_app_inv _ _ _ Hv) as (G1 & G2' & HF & HA1 & H2).
  destruct (bview_cons_inv _ _ _ _ H2) as (b & G2 & -> & HbP & HM & HA2).
  destruct (marks_mid_inv _ _ _ _ HM) as (l1 & ci & l2 & Hb & HM1 & Hci & HM2).
  assert (Hcid : iid ci = c) by (rewrite <- (view_markId _ _ Hci); auto).
  assert (Hids : ids F = ids G1 ++ (map iid l1 ++ c :: map iid l2) ++ ids G2).
  { rewrite HF, ids_app. unfold ids at 2. simpl. fold (ids G2).
    rewrite Hb, map_app. simpl. rewrite Hcid. reflexivity. }
  assert (Hbids : bids F = bids G1 ++ P :: bids G2).
  { rewrite HF, bids_app. simpl. rewrite HbP. reflexivity. }
  assert (HcN : ~ In c (ids G1) /\ ~ In c (map iid l1)).
  { rewrite Hids in Hnd. apply NoDup_mid_notin' in Hnd. tauto. }
  destruct HcN as [HcG1 Hcl1].
  assert (HPN : ~ In P (bids G1) /\ ~ In P (bids G2)).
  { rewrite Hbids in Hnb. apply NoDup_remove_2 in Hnb. rewrite in_app_iff in Hnb. tauto. }
  destruct HPN as [HPG1 HPG2].
  set (R := alloc (bids F)).
  assert (HR : ~ In R (bids F)) by apply alloc_fresh.
  set (brI := mkInst (alloc (ids F)) "" TVoid (Br R)).
  set (F1a := G1 ++ mkBlock (bid b) (l1 ++ [ci; brI]) :: mkBlock R l2 :: G2).
  assert (HF1a : F1a = splitAt c R brI F).
  { unfold F1a. rewrite HF. symmetry. apply splitAt_mid; auto. }
  assert (Hnd1a : NoDup (ids F1a)).
  { rewrite HF1a. apply NoDup_splitAt; auto. apply alloc_fresh. }
  intros F'. subst F'. unfold rewriteCaller. simpl rsF.
  assert (HgP : getParent F c = Some P).
  { rewrite HF, <- HbP. apply getParent_mid; auto.
    rewrite Hb, map_app. apply in_or_app. right. left. auto. }
  rewrite HgP. cbv zeta. simpl rsF. fold R.
  set (F1 := splitBasicBlock F c R (alloc (ids F))).
  assert (HF1 : exists succs, F1 = replaceSuccessorsPhiUsesWith succs P R F1a).
  { unfold F1, splitBasicBlock. rewrite HgP. cbv zeta. fold brI. rewrite <- HF1a.
    eexists. reflexivity. }
  assert (Hs1 : gstep (fun _ => False) F1a F1).
  { generalize (splitBasicBlock_spec (fun _ => False) G1 b G2 c l1 ci l2 R
                  (alloc (ids F)) HcG1 Hb Hcl1 Hcid).
    rewrite <- HF. auto. }
  assert (Hf1 : frel (fun _ => False) F1a F1) by (apply Hs1; auto).
  assert (Hnd1 : NoDup (ids F1)) by (apply Hs1; auto).
  set (xs := map iid (filter (fun I => negb (isAlloca I && Pos.eqb P E)
                                       && valueEscapes F1 (iid I)) (blockInsts F1 P))).
  set (F2 := fold_left (fun G d => DemoteRegToStack alloc uniqueName G d AP) xs F1).
  assert (Hxs : NoDup xs).
  { unfold xs. apply NoDup_map_filter. apply blockInsts_NoDup. exact Hnd1. }
  assert (Hus : forall x, In x xs -> users F1 x <> []).
  { intros x Hx. unfold xs in Hx. apply in_map_iff in Hx.
    destruct Hx as (I & <- & HI). apply filter_In in HI. destruct HI as [_ HI].
    apply andb_true_iff in HI. apply escapes_users. tauto. }
  assert (Hs2 : gstep (fun y => In y xs) F1 F2).
  { apply fold_Demote_gstep; auto. }
  assert (Hnd2 : NoDup (ids F2)) by (apply Hs2; auto).
  set (F3 := moveToFirstNonPHI c R F2).
  assert (Hnd3 : NoDup (ids F3)) by (apply NoDup_move; exact Hnd2).
  set (F4 := match users F3 c with
             | [] => F3
             | _ :: _ => DemoteRegToStack alloc uniqueName F3 c AP
             end).
  assert (Hs4 : gstep (eq c) F3 F4).
  { unfold F4. destruct (users F3 c) eqn:EU; [apply gstep_refl|].
    apply DemoteRegToStack_gstep; auto. rewrite EU. discriminate. }
  assert (Hb4 : bids F4 = bids F1a).
  { rewrite <- (frel_bids _ _ _ (gstep_frel _ _ _ Hs4 Hnd3)).
    unfold F3. rewrite bids_move.
    rewrite <- (frel_bids _ _ _ (gstep_frel _ _ _ Hs2 Hnd1)).
    symmetry. eapply frel_bids; eauto. }
  set (brC := mkInst (alloc (ids F4)) "" TVoid (Br cb)).
  assert (HbrC : forall B, ~ In (alloc (ids F4)) (map iid (blockInsts F4 B))).
  { intros B Hin. apply (alloc_fresh (ids F4)). eapply blockInsts_ids_incl; eauto. }
  split.
  - exists (alloc (ids F4)). fold brC.
    unfold erasePrev. rewrite (blockInsts_map (erasePrevIn (alloc (ids F4)))) by reflexivity.
    rewrite blockInsts_insertEnd.
    + apply erasePrevIn_end; auto.
    + rewrite Hb4. unfold F1a. rewrite bids_app. apply in_or_app. right. left.
      simpl. exact HbP.
  - intros B xb HB Hbr He.
    assert (HBin : In B (bids F)).
    { destruct (in_dec Pos.eq_dec B (bids F)) as [|n]; auto.
      apply blockInsts_notin in n. rewrite n in He.
      apply endsWith_nonempty in He. contradiction. }
    assert (HBR : B <> R) by (intros ->; contradiction).
    assert (Hxc : iid xb <> c).
    { rewrite <- Hcid. apply (distinct_blocks F B P); auto.
      - apply endsWith_In. exact He.
      - rewrite HF, blockInsts_app_notin by auto.
        rewrite <- HbP, blockInsts_cons_eq, Hb. apply in_or_app. right. left. auto. }
    assert (He1a : endsWith xb (blockInsts F1a B)).
    { unfold F1a. rewrite blockInsts_skip by (simpl; congruence).
      rewrite blockInsts_skip by (simpl; congruence).
      rewrite HF in He. rewrite blockInsts_skip in He by congruence. exact He. }
    assert (He1 : endsWith xb (blockInsts F1 B)).
    { destruct HF1 as [succs ->]. apply endsWith_replaceSuccessors; auto.
      apply isBr_notPHI. exact Hbr. }
    assert (He2 : endsWith xb (blockInsts F2 B)).
    { unfold F2. apply endsWith_fold_Demote; auto.
      unfold xs. intros Hin. apply in_map_iff in Hin. destruct Hin as (I & HI & Hin).
      apply filter_In in Hin. destruct Hin as [Hin _].
      apply (distinct_blocks F1 B P xb I Hnd1 HB); auto.
      apply endsWith_In. exact He1. }
    assert (He3 : endsWith xb (blockInsts F3 B)).
    { unfold F3. apply endsWith_move; auto. apply isBr_notPHI. exact Hbr. }
    assert (He4 : endsWith xb (blockInsts F4 B)).
    { unfold F4. destruct (users F3 c); [exact He3|].
      apply endsWith_Demote; auto. }
    unfold erasePrev. rewrite (blockInsts_map (erasePrevIn (alloc (ids F4)))) by reflexivity.
    rewrite blockInsts_insertEnd_other by exact HB.
    rewrite erasePrevIn_notin by apply HbrC. exact He4.
Qed.
End EndRewrite.

Lemma isBr_Br x d : ikd x = Br d -> isBr x = true.
Proof. unfold isBr. intros ->. reflexivity. Qed.

Lemma endsWith_mapInsts g F B x :
  g x = x -> endsWith x (blockInsts F B) -> endsWith x (blockInsts (mapInsts g F) B).
Proof.
  intros Hg [l0 E]. rewrite blockInsts_mapInsts, E, map_app. simpl. rewrite Hg.
  eexists; reflexivity.
Qed.

Lemma endsWith_insertEnd_other cb n F B x :
  B <> cb -> endsWith x (blockInsts F B) ->
  endsWith x (blockInsts (insertAt (posEnd cb) n F) B).
Proof. intros HB He. rewrite blockInsts_insertEnd_other by exact HB. exact He. Qed.

Lemma endsWith_addIncoming node v b F B x :
  isBr x = true -> endsWith x (blockInsts F B) ->
  endsWith x (blockInsts (addIncoming node v b F) B).
Proof.
  intros Hbr. unfold addIncoming. apply endsWith_updInst.
  intros _. unfold isBr in Hbr. destruct (ikd x); try discriminate. reflexivity.
Qed.

Lemma endsWith_addCase sw v b F B x :
  isBr x = true -> endsWith x (blockInsts F B) ->
  endsWith x (blockInsts (addCase sw v b F) B).
Proof.
  intros Hbr. unfold addCase. apply endsWith_updInst.
  intros _. unfold isBr in Hbr. destruct (ikd x); try discriminate. reflexivity.
Qed.

Lemma endsWith_eraseCallers w cs B x :
  isBr x = true -> ~ In (iid x) cs ->
  forall F, endsWith x (blockInsts F B) ->
            endsWith x (blockInsts (eraseCallers w cs F) B).
Proof.
  intros Hbr. unfold eraseCallers.
  induction cs as [| c cs IH]; intros Hx F He; cbn [fold_left]; [exact He|].
  apply IH; [intros H; apply Hx; right; exact H|].
  apply endsWith_erase; [intros e; apply Hx; left; symmetry; exact e|].
  unfold replaceAllUsesWith. apply endsWith_mapInsts; auto.
  apply isBr_replaceUsesOfWith. exact Hbr.
Qed.

Section EndGroup.
Variable alloc : list positive -> positive.
Hypothesis alloc_fresh : forall l, ~ In (alloc l) l.
Variable uniqueName : function -> string -> string.
Hypothesis uniqueName_prefix :
  forall F nm, String.prefix nm (uniqueName F nm) = true.
Variable arg_types : funcid -> list typ.
Variable ret_type : funcid -> typ.

Lemma rewInv_step_ends cb t Mall E ME0 EB AP done c cs rs :
  rewInv cb t Mall E ME0 done (c :: cs) rs ->
  let rs' := rewriteCaller alloc uniqueName cb EB AP rs c in
  exists P,
    (forall P0, In P0 (map fst (callerToRet rs')) <->
                P0 = P \/ In P0 (map fst (callerToRet rs))) /\
    ~ In P (map fst (callerToRet rs)) /\
    (exists i, endsWith (mkInst i "" TVoid (Br cb)) (blockInsts (rsF rs') P)) /\
    (forall B xb, B <> P -> isBr xb = true -> endsWith xb (blockInsts (rsF rs) B) ->
                  endsWith xb (blockInsts (rsF rs') B)).
Proof.
  destruct rs as [F toRet toPar]. unfold rewInv. simpl.
  intros (Hnd & Hnb & HM & Hcb & Hcbe & Hsub & _ & _ & _ & _ & _ & Hkeys & _).
  assert (Hc : In c (map markId (flat_map snd (bview F)))).
  { rewrite <- allMarks_bview, HM. eapply subseq_In; eauto. left; auto. }
  destruct (view_find _ _ Hc) as (A1 & P & M1 & m & M2 & A2 & Hv & Hmc).
  destruct (rewriteCaller_spec alloc alloc_fresh uniqueName cb EB AP F toRet toPar c
              A1 P M1 m M2 A2 Hnd Hnb Hv Hmc Hcb Hcbe)
    as (_ & _ & _ & HtoRet & _).
  destruct (rewriteCaller_ends alloc alloc_fresh uniqueName cb EB AP F toRet toPar c
              A1 P M1 m M2 A2 Hnd Hnb Hv Hmc) as [K1 K2].
  assert (HinV : In (P, M1 ++ m :: M2) (bview F)).
  { rewrite Hv. apply in_or_app. right. left. reflexivity. }
  exists P. split; [| split; [| split]].
  - intros P0. rewrite HtoRet. apply keys_oinsert.
  - intros HP. apply (Hkeys P (M1 ++ m :: M2) m HP HinV).
    + apply in_or_app. right. left. reflexivity.
    + left. auto.
  - exact K1.
  - exact K2.
Qed.

Lemma rewrite_branches cb t Mall E ME0 EB AP cs :
  forall done rs,
    rewInv cb t Mall E ME0 done cs rs ->
    (forall P, In P (map fst (callerToRet rs)) ->
       exists xb, ikd xb = Br cb /\ endsWith xb (blockInsts (rsF rs) P)) ->
    let rs' := fold_left (rewriteCaller alloc uniqueName cb EB AP) cs rs in
    forall P, In P (map fst (callerToRet rs')) ->
      exists xb, ikd xb = Br cb /\ endsWith xb (blockInsts (rsF rs') P).
Proof.
  induction cs as [| c cs IH]; intros done rs Hinv Hends; cbn [fold_left]; [exact Hends|].
  destruct (rewInv_step_ends cb t Mall E ME0 EB AP done c cs rs Hinv)
    as (P & Hk & HP & (i & K1) & K2).
  pose proof (rewInv_step alloc alloc_fresh uniqueName cb t Mall E ME0 EB AP done c cs rs Hinv)
    as Hinv'.
  apply (IH (done ++ [c]) _ Hinv').
  intros P0 HP0. apply Hk in HP0. destruct HP0 as [-> | HP0].
  - eexists. split; [| exact K1]. reflexivity.
  - destruct (Hends P0 HP0) as (xb & Hxb & He). exists xb. split; [exact Hxb|].
    apply K2; auto.
    + intros ->. contradiction.
    + eapply isBr_Br; eauto.
Qed.

Lemma endsWith_buildArgs cb t callers toPar B x F :
  B <> cb -> isBr x = true -> endsWith x (blockInsts F B) ->
  endsWith x (blockInsts (fst (buildArgs alloc arg_types cb t callers toPar F)) B).
Proof.
  intros HB Hbr. unfold buildArgs.
  destruct (0 <? List.length (arg_types t))%nat; [| auto].
  generalize (@nil value) O. revert F.
  induction (arg_types t) as [| A tys IH]; intros F args i He; [exact He|].
  cbn [fold_left]. unfold buildArgPHI at 2. apply IH.
  assert (H : forall l G, endsWith x (blockInsts G B) ->
              endsWith x (blockInsts (fold_left
                (fun G0 caller =>
                   match olookup caller toPar with
                   | Some p => addIncoming (alloc (ids F)) (getArgOperand G0 caller i) p G0
                   | None => G0
                   end) l G) B)).
  { induction l as [| c l IHl]; intros G HG; [exact HG|].
    cbn [fold_left]. apply IHl. destruct (olookup c toPar); [| exact HG].
    apply endsWith_addIncoming; auto. }
  apply H. apply endsWith_insertEnd_other; auto.
Qed.

Lemma endsWith_emitRouter cb ci toRet B x F :
  B <> cb -> isBr x = true -> endsWith x (blockInsts F B) ->
  endsWith x (blockInsts (emitRouter alloc cb ci toRet F) B).
Proof.
  intros HB Hbr He. unfold emitRouter.
  assert (H5 : endsWith x (blockInsts
              (insertAt (posBefore ci)
                 (mkInst (alloc (ids F)) "" (TInt 32) (PHI [])) F) B)).
  { apply endsWith_insertBefore. exact He. }
  destruct toRet as [| first rest]; [exact H5|].
  set (w := alloc (ids F)) in *. set (F5 := insertAt (posBefore ci) _ F) in *.
  set (sw := alloc (ids F5)). set (F6 := insertAt (posEnd cb) _ F5).
  assert (H : forall l G z, endsWith x (blockInsts G B) ->
              endsWith x (blockInsts (fst (fold_left (routeBack w sw) l (G, z))) B)).
  { induction l as [| e l IHl]; intros G z HG; [exact HG|].
    cbn [fold_left]. unfold routeBack at 2. apply IHl.
    apply endsWith_addCase; auto. apply endsWith_addIncoming; auto. }
  apply H. unfold F6. apply endsWith_insertEnd_other; auto.
Qed.

(** The branches into the shared block after one merged group. *)
Lemma mergeGroup_branches F t callers :
  wf F -> callers = callsTo t F -> (2 <= List.length callers)%nat ->
  let rs := rewriteGroup alloc uniqueName F callers in
  let cb := callBlockOf alloc F in
  let F1 := mergeGroup alloc uniqueName arg_types ret_type F (t, callers) in
  forall P, In P (map fst (callerToRet rs)) ->
    exists xb, ikd xb = Br cb /\ endsWith xb (blockInsts F1 P).
Proof.
  intros [Hnd Hnb] Hc Hk rs cb F1 P HP. subst rs cb F1.
  assert (Hne : callsTo t F <> []).
  { rewrite <- Hc. destruct callers; [simpl in Hk; lia | discriminate]. }
  destruct (callsTo_nonempty t F Hne) as (b & G & HF).
  assert (Hc' : callers = map markId (filter (callsTarget t) (allMarks F))).
  { rewrite Hc. apply callsTo_marks. }
  pose proof (rewInv_prepared alloc alloc_fresh uniqueName uniqueName_prefix t F b G callers Hnd Hnb HF Hc') as H0.
  pose proof (rewriteGroup_spec alloc alloc_fresh uniqueName uniqueName_prefix t F b G callers Hnd Hnb HF Hc') as Hend.
  unfold rewriteGroup in *.
  pose proof (rewrite_branches (callBlockOf alloc F) t _ _ _ (entryOf alloc F)
                (allocaPointOf alloc F) callers [] _ H0) as Hbr.
  simpl in Hbr. specialize (Hbr (fun P0 (H : False) => match H with end) P HP).
  destruct Hbr as (xb & Hxb & He). exists xb. split; [exact Hxb|].
  set (rs := fold_left _ callers _) in *.
  set (cb := callBlockOf alloc F) in *.
  destruct Hend as (HndG & _ & HMall & _ & Hcbe & _ & _ & _ & _ & _ & _ & _ & _ & _).
  assert (Hbr : isBr xb = true) by (eapply isBr_Br; eauto).
  assert (HPcb : P <> cb).
  { intros ->. rewrite Hcbe in He. apply endsWith_nonempty in He. contradiction. }
  assert (Hxcs : ~ In (iid xb) callers).
  { intros Hin. rewrite Hc' in Hin. apply in_map_iff in Hin.
    destruct Hin as (m & Hm & Hin). apply filter_In in Hin. destruct Hin as [Hin _].
    assert (Hin' : In m (allMarks (rsF rs))).
    { rewrite HMall. right. exact Hin. }
    rewrite allMarks_allInsts in Hin'. apply marks_In in Hin'.
    destruct Hin' as (y & Hy & Hvy).
    assert (Hxin : In xb (allInsts (rsF rs))).
    { eapply blockInsts_In. eapply endsWith_In. eauto. }
    assert (e : iid y = iid xb).
    { rewrite <- (view_markId _ _ Hvy). exact Hm. }
    apply findInst_NoDup in Hy; auto. apply findInst_NoDup in Hxin; auto.
    rewrite e, Hxin in Hy. inversion Hy; subst.
    rewrite (isBr_view _ Hbr) in Hvy. discriminate. }
  assert (Hltb : (1 <? List.length callers)%nat = true) by (apply Nat.ltb_lt; lia).
  unfold mergeGroup. simpl. rewrite Hltb.
  apply endsWith_emitRouter; auto.
  unfold unified. apply endsWith_eraseCallers; auto.
  unfold emitCall. apply endsWith_insertEnd_other; auto.
  unfold builtArgs. apply endsWith_buildArgs; auto.
Qed.

(** X10.  After a group is merged, every call site's predecessor block
    (the block that held the call before its block was split) ends with
    an unconditional branch to the shared block. *)
Theorem predecessors_branch_to_shared_block (F : function) (t : funcid) :
  wf F -> (2 <= List.length (callsTo t F))%nat ->
  let callers := callsTo t F in
  let rs := rewriteGroup alloc uniqueName F callers in
  let callBlock := callBlockOf alloc F in
  let F1 := mergeGroup alloc uniqueName arg_types ret_type F (t, callers) in
  forall c, In c callers ->
    exists P l0 br,
      olookup c (callerToOrigParent rs) = Some P /\
      blockInsts F1 P = l0 ++ [br] /\ ikd br = Br callBlock.
Proof.
  intros Hwf Hk callers rs callBlock F1 c Hc.
  destruct (group_shape alloc alloc_fresh uniqueName uniqueName_prefix arg_types ret_type F t Hwf Hk)
    as (_ & _ & _ & _ & _ & _ & _ & _ & _ & Hsites).
  destruct (Hsites c Hc) as (P & R & H1 & H2 & _).
  destruct (mergeGroup_branches F t callers Hwf eq_refl Hk P) as (xb & Hxb & l0 & He).
  { eapply olookup_Some_In; eauto. }
  exists P, l0, xb. split; [exact H1 | split; [exact He | exact Hxb]].
Qed.
End EndGroup.

Lemma predecessors_branch_to_shared_block_witness :
  wf exF /\ (2 <= List.length (callsTo 100%positive exF))%nat /\
  exists P l0 br,
    olookup 2 (callerToOrigParent (rewriteGroup amax freshName exF (callsTo 100 exF))) = Some P /\
    blockInsts (mergeGroup amax freshName ex_args ex_ret exF (100, callsTo 100 exF)) P = l0 ++ [br] /\
    ikd br = Br (callBlockOf amax exF).
Proof.
  assert (Hwf : wf exF) by (apply wfb_wf; reflexivity).
  assert (Hk : (2 <= List.length (callsTo 100%positive exF))%nat) by (vm_compute; lia).
  split; [exact Hwf|]. split; [exact Hk|].
  apply (predecessors_branch_to_shared_block amax amax_fresh freshName freshName_prefix ex_args ex_ret exF 100 Hwf Hk).
  vm_compute. left. reflexivity.
Defined.

(** ** The head of a block

    What is inserted goes before an instruction that is not part of the
    head, before a terminator, after an instruction or at the end of a
    block. *)

Lemma inert_replaceUsesOfWith y w x : inert x = true -> replaceUsesOfWith y w x = x.
Proof.
  unfold inert, replaceUsesOfWith. intros H.
  destruct x as [i nm ty k]. simpl in *.
  destruct k as [| | | | | v | | | | | |]; try discriminate; [reflexivity|].
  destruct v; try discriminate. reflexivity.
Qed.

Lemma inert_usesb y x : inert x = true -> usesb y x = false.
Proof.
  unfold inert, usesb. destruct (ikd x) as [| | | | | v | | | | | |]; try discriminate.
  - reflexivity.
  - destruct v; try discriminate. reflexivity.
Qed.

Lemma inert_notTerminator x : inert x = true -> isTerminator x = false.
Proof. unfold inert, isTerminator. destruct (ikd x); try discriminate; reflexivity. Qed.

Lemma inert_notPHI x : inert x = true -> isPHI x = false.
Proof. unfold inert, isPHI. destruct (ikd x); try discriminate; reflexivity. Qed.

Lemma inert_notCall x : inert x = true -> isCall x = false.
Proof. unfold inert, isCall. destruct (ikd x); try discriminate; reflexivity. Qed.

Lemma isAlloca_inert x : isAlloca x = true -> inert x = true.
Proof. unfold inert, isAlloca. destruct (ikd x); try discriminate; reflexivity. Qed.

Lemma inert_allocaPoint apn ap : inert (allocaPoint apn ap) = true.
Proof. reflexivity. Qed.

Lemma startsWith_weaken pre n m l :
  (m <= n)%nat -> startsWith pre n l -> startsWith pre m l.
Proof. intros H (tail & E & Hn). exists tail. split; [exact E | lia]. Qed.

Lemma startsWith_insertNth pre n l k x :
  startsWith pre n l -> (List.length pre <= k)%nat -> startsWith pre n (insertNth k x l).
Proof.
  intros (tail & -> & Hn) Hk. unfold insertNth.
  exists (firstn (k - List.length pre) tail ++ x :: skipn (k - List.length pre) tail).
  split.
  - rewrite firstn_app, skipn_app, firstn_all2, skipn_all2 by lia.
    simpl. rewrite <- app_assoc. reflexivity.
  - rewrite length_app. simpl. rewrite length_firstn, length_skipn. lia.
Qed.

Lemma startsWith_insertAt pos x F E pre n :
  (forall b k, bid b = E -> insts b = blockInsts F E -> pos b = Some k ->
               (List.length pre <= k)%nat) ->
  startsWith pre n (blockInsts F E) ->
  startsWith pre n (blockInsts (insertAt pos x F) E).
Proof.
  induction F as [| b F IH]; intros Hpos He; [exact He|].
  simpl. destruct (pos b) as [k|] eqn:Ep.
  - destruct (Pos.eqb_spec (bid b) E) as [e | ne].
    + subst E. rewrite blockInsts_cons_eq in He, Hpos.
      rewrite (blockInsts_cons_eq (mkBlock (bid b) (insertNth k x (insts b)))).
      simpl. apply startsWith_insertNth; [exact He | apply (Hpos b k); auto].
    + rewrite (blockInsts_cons_ne (mkBlock (bid b) _)) by exact ne.
      rewrite blockInsts_cons_ne in He by exact ne. exact He.
  - destruct (Pos.eqb_spec (bid b) E) as [e | ne].
    + subst E. rewrite blockInsts_cons_eq in *. exact He.
    + rewrite blockInsts_cons_ne in * by exact ne. apply IH; auto.
Qed.

Lemma startsWith_updInst u g F E pre n :
  (forall y, In y pre -> iid y = u -> g y = y) ->
  startsWith pre n (blockInsts F E) -> startsWith pre n (blockInsts (updInst u g F) E).
Proof.
  intros Hg (tail & E0 & Hn). rewrite blockInsts_updInst, E0, map_app.
  eexists. split.
  - f_equal. rewrite <- (map_id pre) at 2. apply map_ext_in. intros y Hy.
    destruct (Pos.eqb_spec (iid y) u); auto.
  - rewrite length_map. exact Hn.
Qed.

Lemma startsWith_mapInsts g F E pre n :
  (forall y, In y pre -> g y = y) ->
  startsWith pre n (blockInsts F E) -> startsWith pre n (blockInsts (mapInsts g F) E).
Proof.
  intros Hg (tail & E0 & Hn). rewrite blockInsts_mapInsts, E0, map_app.
  eexists. split.
  - f_equal. rewrite <- (map_id pre) at 2. apply map_ext_in. exact Hg.
  - rewrite length_map. exact Hn.
Qed.

Lemma filter_ne_notin c (l : list instruction) :
  ~ In c (map iid l) -> filter (fun x => negb (Pos.eqb (iid x) c)) l = l.
Proof.
  induction l as [| y l IH]; simpl; intros H; [reflexivity|].
  destruct (Pos.eqb_spec (iid y) c) as [e|]; [exfalso; apply H; left; exact e|].
  simpl. rewrite IH; auto.
Qed.

Lemma length_filter_ne c (l : list instruction) :
  NoDup (map iid l) ->
  (List.length l <= Datatypes.S (List.length (filter (fun x => negb (Pos.eqb (iid x) c)) l)))%nat.
Proof.
  induction l as [| y l IH]; simpl; intros Hnd; [lia|].
  inversion Hnd as [| ? ? Hn Hnd']; subst.
  destruct (Pos.eqb_spec (iid y) c) as [e|]; simpl.
  - rewrite filter_ne_notin by (rewrite <- e; exact Hn). lia.
  - specialize (IH Hnd'). lia.
Qed.

Lemma startsWith_erase c F E pre n :
  ~ In c (map iid pre) -> NoDup (ids F) ->
  startsWith pre (Datatypes.S n) (blockInsts F E) ->
  startsWith pre n (blockInsts (eraseFromParent c F) E).
Proof.
  intros Hc Hnd (tail & E0 & Hn).
  rewrite blockInsts_eraseFromParent, E0, filter_app, filter_ne_notin by exact Hc.
  eexists. split; [reflexivity|].
  assert (Hndt : NoDup (map iid tail)).
  { pose proof (blockInsts_NoDup F E Hnd) as H. rewrite E0, map_app in H.
    apply NoDup_app_inv in H. tauto. }
  pose proof (length_filter_ne c tail Hndt). lia.
Qed.

Lemma startsWith_erase0 c F E pre n :
  ~ In c (map iid pre) ->
  startsWith pre n (blockInsts F E) ->
  startsWith pre 0 (blockInsts (eraseFromParent c F) E).
Proof.
  intros Hc (tail & E0 & Hn).
  rewrite blockInsts_eraseFromParent, E0, filter_app, filter_ne_notin by exact Hc.
  eexists. split; [reflexivity | lia].
Qed.

Lemma indexOf_ge u pre tail k :
  ~ In u (map iid pre) -> indexOf u (pre ++ tail) = Some k -> (List.length pre <= k)%nat.
Proof.
  revert k. induction pre as [| y pre IH]; simpl; intros k Hu H; [lia|].
  destruct (Pos.eqb_spec (iid y) u) as [e|]; [exfalso; apply Hu; left; exact e|].
  destruct (indexOf u (pre ++ tail)) as [k'|] eqn:Ek; simpl in H; [| discriminate].
  inversion H. subst. assert (List.length pre <= k')%nat; [| lia].
  apply IH; auto.
Qed.

Lemma posBefore_ge u b pre n k :
  startsWith pre n (insts b) -> ~ In u (map iid pre) ->
  posBefore u b = Some k -> (List.length pre <= k)%nat.
Proof.
  intros (tail & E0 & _) Hu. unfold posBefore. rewrite E0. apply indexOf_ge. exact Hu.
Qed.

Lemma posTerminator_ge T b pre n k :
  startsWith pre n (insts b) -> Forall (fun y => inert y = true) pre ->
  posTerminator T b = Some k -> (List.length pre <= k)%nat.
Proof.
  intros (tail & E0 & _) Hin. unfold posTerminator.
  destruct (Pos.eqb (bid b) T); [| discriminate].
  destruct (getTerminator (insts b)) as [t|] eqn:Et; [| discriminate].
  intros [= <-]. rewrite E0 in *.
  destruct tail as [| y tail].
  - exfalso. rewrite app_nil_r in Et. unfold getTerminator in Et.
    destruct (rev pre) as [| z r] eqn:Er; [discriminate|].
    assert (Hz : In z pre).
    { apply in_rev. rewrite Er. left. reflexivity. }
    rewrite Forall_forall in Hin. rewrite (inert_notTerminator z (Hin z Hz)) in Et.
    discriminate.
  - rewrite length_app. simpl. lia.
Qed.

Lemma posAfterSkipPHI_ge y b pre0 a n k :
  startsWith (pre0 ++ [a]) n (insts b) -> ~ In y (map iid pre0) ->
  posAfterSkipPHI y b = Some k -> (List.length (pre0 ++ [a]) <= k)%nat.
Proof.
  intros (tail & E0 & _) Hy. unfold posAfterSkipPHI. rewrite E0.
  destruct (indexOf y ((pre0 ++ [a]) ++ tail)) as [j|] eqn:Ej; [| discriminate].
  intros [= <-]. rewrite <- app_assoc in Ej. apply indexOf_ge in Ej; auto.
  rewrite length_app. simpl. lia.
Qed.

Lemma posEnd_ge T b pre n k :
  startsWith pre n (insts b) -> posEnd T b = Some k -> (List.length pre <= k)%nat.
Proof.
  intros (tail & E0 & _). unfold posEnd.
  destruct (Pos.eqb (bid b) T); [| discriminate].
  intros [= <-]. rewrite E0, length_app. lia.
Qed.

Section HeadDemote.
Variable alloc : list positive -> positive.
Hypothesis alloc_fresh : forall l, ~ In (alloc l) l.
Variable uniqueName : function -> string -> string.
Hypothesis uniqueName_prefix :
  forall F nm, String.prefix nm (uniqueName F nm) = true.

Lemma startsWith_insertBefore u x F E pre n :
  ~ In u (map iid pre) ->
  startsWith pre n (blockInsts F E) ->
  startsWith pre n (blockInsts (insertAt (posBefore u) x F) E).
Proof.
  intros Hu He. apply startsWith_insertAt; auto.
  intros b k _ Hb Hp. eapply posBefore_ge; eauto. rewrite Hb. exact He.
Qed.

Lemma startsWith_insertTerminator T x F E pre n :
  Forall (fun y => inert y = true) pre ->
  startsWith pre n (blockInsts F E) ->
  startsWith pre n (blockInsts (insertAt (posTerminator T) x F) E).
Proof.
  intros Hin He. apply startsWith_insertAt; auto.
  intros b k _ Hb Hp. eapply posTerminator_ge; eauto. rewrite Hb. exact He.
Qed.

Lemma startsWith_insertEnd T x F E pre n :
  startsWith pre n (blockInsts F E) ->
  startsWith pre n (blockInsts (insertAt (posEnd T) x F) E).
Proof.
  intros He. apply startsWith_insertAt; auto.
  intros b k _ Hb Hp. eapply posEnd_ge; eauto. rewrite Hb. exact He.
Qed.

Lemma startsWith_demotePHILoop x slot nm ty E pre n inc :
  Forall (fun y => inert y = true) pre ->
  forall Loads F,
    startsWith pre n (blockInsts F E) ->
    startsWith pre n (blockInsts (fst (demotePHILoop alloc uniqueName x slot nm ty inc Loads F)) E).
Proof.
  intros Hin. induction inc as [| [v b] inc IH]; simpl; intros Loads F He; [exact He|].
  destruct (isVInst x v); [| simpl; apply IH; exact He].
  destruct (olookup b Loads); simpl; [apply IH; exact He|].
  apply IH. apply startsWith_insertTerminator; auto.
Qed.

Lemma startsWith_demoteUser x slot nm ty F U E pre n :
  Forall (fun y => inert y = true) pre -> ~ In U (map iid pre) ->
  startsWith pre n (blockInsts F E) ->
  startsWith pre n (blockInsts (demoteUser alloc uniqueName x slot nm ty F U) E).
Proof.
  intros Hin HU He. unfold demoteUser.
  assert (Hvac : forall g (y : instruction), In y pre -> iid y = U -> g y = y).
  { intros g y Hy e. exfalso. apply HU. rewrite <- e. apply in_map. exact Hy. }
  destruct (findInst F U) as [UI|]; [| exact He].
  destruct (ikd UI);
    try (apply startsWith_updInst; [apply Hvac | apply startsWith_insertBefore; auto]).
  apply startsWith_updInst; [apply Hvac | apply startsWith_demotePHILoop; auto].
Qed.

Lemma startsWith_fold_demoteUser x slot nm ty E pre n us :
  Forall (fun y => inert y = true) pre ->
  (forall U, In U us -> ~ In U (map iid pre)) ->
  forall F,
    startsWith pre n (blockInsts F E) ->
    startsWith pre n (blockInsts (fold_left (demoteUser alloc uniqueName x slot nm ty) us F) E).
Proof.
  intros Hin. induction us as [| U us IH]; simpl; intros HU F He; [exact He|].
  apply IH; [intros U' H'; apply HU; right; exact H'|].
  apply startsWith_demoteUser; auto.
Qed.

Lemma users_allInsts F y B U : In (B, U) (users F y) -> In U (allInsts F) /\ usesb y U = true.
Proof.
  intros H. apply users_In in H. destruct H as (b & Hb & _ & HU & Hu).
  split; [| exact Hu]. unfold allInsts. apply in_flat_map. exists b. auto.
Qed.

Lemma In_ids_allInsts F x : In x (allInsts F) -> In (iid x) (ids F).
Proof.
  unfold allInsts, ids. intros H. apply in_flat_map in H. destruct H as (b & Hb & Hx).
  apply in_flat_map. exists b. split; auto. apply in_map. exact Hx.
Qed.

(** One demotion: the new stack slot goes right before the insertion
    point, everything else behind it. *)
Lemma atAllocaPoint_Demote F y APn AP E A S old n :
  NoDup (ids F) -> users F y <> [] ->
  Forall (fun s => isAlloca s = true) (A ++ S) ->
  incl old (ids F) -> In y old -> ~ In y (map iid (A ++ S)) ->
  atAllocaPoint A S (allocaPoint APn AP) old n (blockInsts F E) ->
  atAllocaPoint A S (allocaPoint APn AP) old n
    (blockInsts (DemoteRegToStack alloc uniqueName F y AP) E).
Proof.
  intros Hnd Hus HAS Hold Hy HyAS (news & tail & El & Hal & Hfr & Hn).
  unfold DemoteRegToStack.
  destruct (findInst F y) as [yi|] eqn:Ey;
    [| exists news, tail; auto].
  destruct (users F y) as [| u us] eqn:Eu; [contradiction|].
  set (Slot := alloc (ids F)).
  set (slotI := mkInst Slot (uniqueName F (iname yi ++ ".reg2mem")) TPtr (Alloca (ity yi))).
  set (F1 := insertAt (posBefore AP) slotI F).
  set (pre0 := A ++ (S ++ news ++ [slotI])).
  set (pre1 := pre0 ++ [allocaPoint APn AP]).
  assert (HSlot : ~ In Slot (ids F)) by apply alloc_fresh.
  assert (Hb1 : blockInsts F1 E = (A ++ (S ++ news)) ++ slotI :: allocaPoint APn AP :: tail).
  { unfold F1. apply blockInsts_insertBefore; auto.
    rewrite El. apply app_assoc. }
  assert (Hsw1 : startsWith pre1 n (blockInsts F1 E)).
  { exists tail. split; [| exact Hn]. rewrite Hb1. unfold pre1, pre0.
    repeat rewrite <- app_assoc. reflexivity. }
  assert (Hinert : Forall (fun s => inert s = true) pre1).
  { unfold pre1, pre0. repeat rewrite Forall_app. repeat split.
    - apply Forall_app in HAS. destruct HAS as [HA _].
      eapply Forall_impl; [| exact HA]. apply isAlloca_inert.
    - apply Forall_app in HAS. destruct HAS as [_ HS].
      eapply Forall_impl; [| exact HS]. apply isAlloca_inert.
    - eapply Forall_impl; [| exact Hal]. apply isAlloca_inert.
    - repeat constructor.
    - repeat constructor. }
  assert (Hold1 : forall s, In s pre1 -> s = slotI \/ (In s (blockInsts F E) /\ inert s = true)).
  { intros s Hs. rewrite Forall_forall in Hinert. pose proof (Hinert s Hs) as Hi.
    unfold pre1, pre0 in Hs. rewrite El.
    repeat rewrite in_app_iff in Hs. repeat rewrite in_app_iff. simpl in *.
    intuition. }
  assert (HU : forall U, In U (map (fun u0 => iid (snd u0)) (u :: us)) ->
                         ~ In U (map iid pre1)).
  { intros U HUin Hpre. rewrite <- Eu in HUin. apply in_map_iff in HUin.
    destruct HUin as ([B UI] & <- & HUI). simpl in Hpre.
    apply users_allInsts in HUI. destruct HUI as [HUI Huse].
    apply in_map_iff in Hpre. destruct Hpre as (s & Hid & Hs).
    destruct (Hold1 s Hs) as [-> | [Hsin Hsi]].
    - apply HSlot. simpl in Hid. rewrite Hid. apply In_ids_allInsts. exact HUI.
    - assert (s = UI).
      { apply blockInsts_In in Hsin.
        apply findInst_NoDup in Hsin; auto. apply findInst_NoDup in HUI; auto.
        rewrite Hid, HUI in Hsin. congruence. }
      subst s. rewrite (inert_usesb y UI Hsi) in Huse. discriminate. }
  set (F2 := fold_left _ _ F1).
  assert (Hsw2 : startsWith pre1 n (blockInsts F2 E)).
  { unfold F2. apply startsWith_fold_demoteUser; auto. }
  assert (Hy0 : ~ In y (map iid pre0)).
  { unfold pre0. rewrite !map_app, !in_app_iff. intros [H | [H | [H | H]]].
    - apply HyAS. rewrite map_app, in_app_iff. auto.
    - apply HyAS. rewrite map_app, in_app_iff. auto.
    - apply in_map_iff in H. destruct H as (s & Hid & Hs).
      rewrite Forall_forall in Hfr. apply (Hfr s Hs). rewrite Hid. exact Hy.
    - simpl in H. destruct H as [H | []]. apply HSlot. rewrite H. apply Hold. exact Hy. }
  assert (Hsw3 : startsWith pre1 n
            (blockInsts (insertAt (posAfterSkipPHI y)
               (mkInst (alloc (ids F2)) "" TVoid (Store (VInst y) (VInst Slot))) F2) E)).
  { apply startsWith_insertAt; auto.
    intros b k _ Hb Hp. apply (posAfterSkipPHI_ge y b pre0 (allocaPoint APn AP) n k); auto.
    rewrite Hb. exact Hsw2. }
  destruct Hsw3 as (tail3 & E3 & Hn3).
  exists (news ++ [slotI]), tail3. split; [| split; [| split]].
  - rewrite E3. unfold pre1, pre0. repeat rewrite <- app_assoc. reflexivity.
  - apply Forall_app. split; [exact Hal | repeat constructor].
  - apply Forall_app. split; [exact Hfr|]. constructor; [| constructor].
    simpl. intros H. apply HSlot. apply Hold. exact H.
  - exact Hn3.
Qed.
End HeadDemote.

Lemma lrel_ids_incl S l l' : lrel S l l' -> incl (map iid l) (map iid l').
Proof. intros H x Hx. eapply lrel_ids; eauto. Qed.

Lemma frel_ids_incl S F F' : frel S F F' -> incl (ids F) (ids F').
Proof.
  unfold frel, ids. induction 1 as [| b b' F F' Hb HF IH]; simpl; [intros x []|].
  intros x Hx. apply in_app_or in Hx. apply in_or_app. destruct Hx as [Hx | Hx].
  - left. destruct Hb as (_ & Hl & _). eapply lrel_ids; eauto.
  - right. apply IH. exact Hx.
Qed.

Lemma In_insertFirstNonPHI R x G :
  In R (bids G) -> In x (blockInsts (insertAt (posFirstNonPHI R) x G) R).
Proof.
  induction G as [| b G IH]; simpl; intros H; [contradiction|].
  unfold posFirstNonPHI at 1. destruct (Pos.eqb_spec (bid b) R) as [e | ne].
  - rewrite <- e. rewrite (blockInsts_cons_eq (mkBlock (bid b) _)). simpl.
    unfold insertNth. apply in_or_app. right. left. reflexivity.
  - rewrite blockInsts_cons_ne by exact ne. apply IH.
    destruct H as [H | H]; [contradiction | exact H].
Qed.

Lemma ids_move_incl c R F :
  In R (bids F) -> incl (ids F) (ids (moveToFirstNonPHI c R F)).
Proof.
  intros HR. unfold moveToFirstNonPHI.
  destruct (findInst F c) as [ci|] eqn:E; [| apply incl_refl].
  apply findInst_Some in E. destruct E as [_ Hid].
  intros x Hx. destruct (Pos.eq_dec x c) as [-> | ne].
  - rewrite <- Hid. eapply blockInsts_ids_incl. apply in_map.
    apply In_insertFirstNonPHI. rewrite bids_eraseFromParent. exact HR.
  - apply ids_insertAt_incl. apply ids_eraseFromParent. auto.
Qed.

Lemma replacePhiUsesWith_head Old New x l :
  isPHI x = false -> replacePhiUsesWith Old New (x :: l) = x :: l.
Proof. intros H. simpl. rewrite H. reflexivity. Qed.

Lemma blockInsts_replaceSuccessors_same succs Old New F B :
  replacePhiUsesWith Old New (blockInsts F B) = blockInsts F B ->
  blockInsts (replaceSuccessorsPhiUsesWith succs Old New F) B = blockInsts F B.
Proof.
  unfold replaceSuccessorsPhiUsesWith, blockInsts.
  induction F as [| b F IH]; simpl; intros H; [reflexivity|].
  destruct (existsb (Pos.eqb (bid b)) succs); simpl;
    destruct (Pos.eqb (bid b) B); auto.
Qed.

Lemma prefix_before c (pre tail l1 l2 : list instruction) ci :
  pre ++ tail = l1 ++ ci :: l2 -> iid ci = c ->
  ~ In c (map iid pre) -> ~ In c (map iid l1) ->
  exists l1', l1 = pre ++ l1' /\ tail = l1' ++ ci :: l2.
Proof.
  revert l1. induction pre as [| y pre IH]; simpl; intros l1 E Hc Hp Hl.
  - exists l1. auto.
  - destruct l1 as [| z l1]; simpl in E; inversion E; subst.
    + exfalso. apply Hp. left. reflexivity.
    + destruct (IH l1) as (l1' & -> & ->); auto.
      * intros H. apply Hl. right. exact H.
      * exists l1'. auto.
Qed.

Lemma inert_view_notCall x m : inert x = true -> view x = Some m -> isCallMark m = false.
Proof.
  intros Hi Hv. pose proof (view_isCall x) as H. rewrite Hv, (inert_notCall x Hi) in H.
  symmetry. exact H.
Qed.

Lemma atAllocaPoint_startsWith A S ap old n l :
  atAllocaPoint A S ap old n l ->
  exists news, startsWith (A ++ (S ++ news) ++ [ap]) n l /\
               Forall (fun s => isAlloca s = true) news /\
               Forall (fun s => ~ In (iid s) old) news.
Proof.
  intros (news & tail & E & H1 & H2 & Hn). exists news. split; [| auto].
  exists tail. split; [| exact Hn]. rewrite E. repeat rewrite <- app_assoc. reflexivity.
Qed.

Lemma startsWith_atAllocaPoint A S ap old n l news :
  startsWith (A ++ (S ++ news) ++ [ap]) n l ->
  Forall (fun s => isAlloca s = true) news ->
  Forall (fun s => ~ In (iid s) old) news ->
  atAllocaPoint A S ap old n l.
Proof.
  intros (tail & E & Hn) H1 H2. exists news, tail. split; [| auto].
  rewrite E. repeat rewrite <- app_assoc. reflexivity.
Qed.

Lemma head_inert A S news apn ap :
  Forall (fun s => isAlloca s = true) (A ++ S) ->
  Forall (fun s => isAlloca s = true) news ->
  Forall (fun s => inert s = true) (A ++ (S ++ news) ++ [allocaPoint apn ap]).
Proof.
  intros HAS Hn. apply Forall_app in HAS. destruct HAS as [HA HS].
  repeat rewrite Forall_app. repeat split;
    try (eapply Forall_impl; [| eassumption]; apply isAlloca_inert).
  repeat constructor.
Qed.

Section HeadFold.
Variable alloc : list positive -> positive.
Hypothesis alloc_fresh : forall l, ~ In (alloc l) l.
Variable uniqueName : function -> string -> string.
Hypothesis uniqueName_prefix :
  forall F nm, String.prefix nm (uniqueName F nm) = true.

Lemma atAllocaPoint_fold_Demote APn AP E A S old n xs :
  NoDup xs ->
  forall F,
    NoDup (ids F) -> (forall y, In y xs -> users F y <> []) ->
    Forall (fun s => isAlloca s = true) (A ++ S) ->
    incl old (ids F) ->
    (forall y, In y xs -> In y old /\ ~ In y (map iid (A ++ S))) ->
    atAllocaPoint A S (allocaPoint APn AP) old n (blockInsts F E) ->
    atAllocaPoint A S (allocaPoint APn AP) old n
      (blockInsts (fold_left (fun G d => DemoteRegToStack alloc uniqueName G d AP) xs F) E).
Proof.
  induction 1 as [| y xs Hy Hndx IH]; simpl; intros F Hnd Hu HAS Hold Hxs He; [exact He|].
  assert (G1 : gstep (eq y) F (DemoteRegToStack alloc uniqueName F y AP)).
  { apply DemoteRegToStack_gstep; auto. }
  destruct (G1 Hnd) as [Hf1 Hn1].
  destruct (Hxs y (or_introl eq_refl)) as [Hyo Hya].
  apply IH; auto.
  - intros y' Hy'. eapply frel_users; eauto. intros ->. contradiction.
  - intros z Hz. eapply frel_ids_incl; eauto.
  - apply atAllocaPoint_Demote; auto.
Qed.
End HeadFold.

Lemma replacePhiUsesWith_inert_head Old New pre tail :
  Forall (fun s => inert s = true) pre -> pre <> [] ->
  replacePhiUsesWith Old New (pre ++ tail) = pre ++ tail.
Proof.
  intros Hin Hne. destruct pre as [| x pre]; [contradiction|].
  inversion Hin; subst. simpl. rewrite inert_notPHI by assumption. reflexivity.
Qed.

Section HeadRewrite.
Variable alloc : list positive -> positive.
Hypothesis alloc_fresh : forall l, ~ In (alloc l) l.
Variable uniqueName : function -> string -> string.
Hypothesis uniqueName_prefix :
  forall F nm, String.prefix nm (uniqueName F nm) = true.

(** One call site: the head of the entry block keeps its allocas and its
    insertion point; new stack slots come right before the insertion
    point. *)
Lemma rewriteCaller_head cb E APn AP F toRet toPar c A1 P M1 m M2 A2 A S tail :
  NoDup (ids F) -> NoDup (bids F) ->
  bview F = A1 ++ (P, M1 ++ m :: M2) :: A2 -> markId m = c -> isCallMark m = true ->
  In E (bids F) ->
  Forall (fun s => isAlloca s = true) (A ++ S) ->
  blockInsts F E = A ++ S ++ allocaPoint APn AP :: tail ->
  let F' := rsF (rewriteCaller alloc uniqueName cb E AP (mkRS F toRet toPar) c) in
  exists news tail',
    blockInsts F' E = A ++ (S ++ news) ++ allocaPoint APn AP :: tail' /\
    Forall (fun s => isAlloca s = true) news.
Proof.
  intros Hnd Hnb Hv Hc Hcall HE HAS HlE.
  destruct (bview_app_inv _ _ _ Hv) as (G1 & G2' & HF & HA1 & H2).
  destruct (bview_cons_inv _ _ _ _ H2) as (b & G2 & -> & HbP & HM & HA2).
  destruct (marks_mid_inv _ _ _ _ HM) as (l1 & ci & l2 & Hb & HM1 & Hci & HM2).
  assert (Hcid : iid ci = c) by (rewrite <- (view_markId _ _ Hci); auto).
  assert (Hids : ids F = ids G1 ++ (map iid l1 ++ c :: map iid l2) ++ ids G2).
  { rewrite HF, ids_app. unfold ids at 2. simpl. fold (ids G2).
    rewrite Hb, map_app. simpl. rewrite Hcid. reflexivity. }
  assert (Hbids : bids F = bids G1 ++ P :: bids G2).
  { rewrite HF, bids_app. simpl. rewrite HbP. reflexivity. }
  assert (HcN : ~ In c (ids G1) /\ ~ In c (map iid l1)).
  { rewrite Hids in Hnd. apply NoDup_mid_notin' in Hnd. tauto. }
  destruct HcN as [HcG1 Hcl1].
  assert (HPN : ~ In P (bids G1) /\ ~ In P (bids G2)).
  { rewrite Hbids in Hnb. apply NoDup_remove_2 in Hnb. rewrite in_app_iff in Hnb. tauto. }
  destruct HPN as [HPG1 HPG2].
  set (R := alloc (bids F)).
  assert (HR : ~ In R (bids F)) by apply alloc_fresh.
  assert (HER : E <> R) by (intros e; apply HR; rewrite <- e; exact HE).
  set (brI := mkInst (alloc (ids F)) "" TVoid (Br R)).
  set (F1a := G1 ++ mkBlock (bid b) (l1 ++ [ci; brI]) :: mkBlock R l2 :: G2).
  assert (HF1a : F1a = splitAt c R brI F).
  { unfold F1a. rewrite HF. symmetry. apply splitAt_mid; auto. }
  assert (Hnd1a : NoDup (ids F1a)).
  { rewrite HF1a. apply NoDup_splitAt; auto. apply alloc_fresh. }
  intros F'. subst F'. unfold rewriteCaller. simpl rsF.
  assert (HgP : getParent F c = Some P).
  { rewrite HF, <- HbP. apply getParent_mid; auto.
    rewrite Hb, map_app. apply in_or_app. right. left. auto. }
  rewrite HgP. cbv zeta. simpl rsF. fold R.
  set (F1 := splitBasicBlock F c R (alloc (ids F))).
  assert (HF1 : exists succs, F1 = replaceSuccessorsPhiUsesWith succs P R F1a).
  { unfold F1, splitBasicBlock. rewrite HgP. cbv zeta. fold brI. rewrite <- HF1a.
    eexists. reflexivity. }
  assert (Hs1 : gstep (fun _ => False) F1a F1).
  { generalize (splitBasicBlock_spec (fun _ => False) G1 b G2 c l1 ci l2 R
                  (alloc (ids F)) HcG1 Hb Hcl1 Hcid).
    rewrite <- HF. auto. }
  assert (Hf1 : frel (fun _ => False) F1a F1) by (apply Hs1; auto).
  assert (Hnd1 : NoDup (ids F1)) by (apply Hs1; auto).
  set (xs := map iid (filter (fun I => negb (isAlloca I && Pos.eqb P E)
                                       && valueEscapes F1 (iid I)) (blockInsts F1 P))).
  set (F2 := fold_left (fun G d => DemoteRegToStack alloc uniqueName G d AP) xs F1).
  assert (Hxs : NoDup xs).
  { unfold xs. apply NoDup_map_filter. apply blockInsts_NoDup. exact Hnd1. }
  assert (Hus : forall x, In x xs -> users F1 x <> []).
  { intros x Hx. unfold xs in Hx. apply in_map_iff in Hx.
    destruct Hx as (I & <- & HI). apply filter_In in HI. destruct HI as [_ HI].
    apply andb_true_iff in HI. apply escapes_users. tauto. }
  assert (Hs2 : gstep (fun y => In y xs) F1 F2).
  { apply fold_Demote_gstep; auto. }
  assert (Hnd2 : NoDup (ids F2)) by (apply Hs2; auto).
  set (F3 := moveToFirstNonPHI c R F2).
  assert (Hnd3 : NoDup (ids F3)) by (apply NoDup_move; exact Hnd2).
  set (F4 := match users F3 c with
             | [] => F3
             | _ :: _ => DemoteRegToStack alloc uniqueName F3 c AP
             end).
  assert (Hs4 : gstep (eq c) F3 F4).
  { unfold F4. destruct (users F3 c) eqn:EU; [apply gstep_refl|].
    apply DemoteRegToStack_gstep; auto. rewrite EU. discriminate. }
  assert (Hb2 : bids F2 = bids F1a).
  { rewrite <- (frel_bids _ _ _ (gstep_frel _ _ _ Hs2 Hnd1)).
    symmetry. eapply frel_bids; eauto. }
  assert (Hb4 : bids F4 = bids F1a).
  { rewrite <- (frel_bids _ _ _ (gstep_frel _ _ _ Hs4 Hnd3)).
    unfold F3. rewrite bids_move. exact Hb2. }
  assert (HP1a : In P (bids F1a)).
  { unfold F1a. rewrite bids_app. apply in_or_app. right. left. simpl. exact HbP. }
  assert (HR1a : In R (bids F1a)).
  { unfold F1a. rewrite bids_app. apply in_or_app. right. right. left. reflexivity. }
  set (brC := mkInst (alloc (ids F4)) "" TVoid (Br cb)).
  assert (HbrC : forall B, ~ In (alloc (ids F4)) (map iid (blockInsts F4 B))).
  { intros B Hin. apply (alloc_fresh (ids F4)). eapply blockInsts_ids_incl; eauto. }
  (* the head of the entry block *)
  set (pre := A ++ (S ++ []) ++ [allocaPoint APn AP]).
  assert (Hpre : Forall (fun s => inert s = true) pre).
  { unfold pre. apply head_inert; auto. }
  assert (HlE' : blockInsts F E = pre ++ tail).
  { rewrite HlE. unfold pre. rewrite app_nil_r. repeat rewrite <- app_assoc. reflexivity. }
  assert (HbP0 : blockInsts F P = l1 ++ ci :: l2).
  { rewrite HF, blockInsts_app_notin by auto.
    rewrite <- HbP, blockInsts_cons_eq. exact Hb. }
  assert (Hciin : In ci (allInsts F)).
  { apply (blockInsts_In F P). rewrite HbP0. apply in_or_app. right. left. reflexivity. }
  assert (Hcpre : ~ In c (map iid pre)).
  { intros Hin. apply in_map_iff in Hin. destruct Hin as (s & Hid & Hs).
    assert (Hsin : In s (allInsts F)).
    { apply (blockInsts_In F E). rewrite HlE'. apply in_or_app. left. exact Hs. }
    assert (s = ci).
    { apply findInst_NoDup in Hsin; auto. apply findInst_NoDup in Hciin; auto.
      rewrite Hid, <- Hcid, Hciin in Hsin. congruence. }
    subst s. rewrite Forall_forall in Hpre.
    rewrite (inert_view_notCall ci m (Hpre ci Hs) Hci) in Hcall. discriminate. }
  assert (HcAS : ~ In c (map iid (A ++ S))).
  { intros H. apply Hcpre. unfold pre. rewrite app_nil_r, app_assoc, map_app.
    apply in_or_app. left. exact H. }
  set (n2 := if Pos.eqb P E then 2%nat else 0%nat).
  set (n3 := if Pos.eqb P E then 1%nat else 0%nat).
  assert (He1a : startsWith pre n2 (blockInsts F1a E)).
  { unfold n2. destruct (Pos.eqb_spec P E) as [e | ne].
    - subst E. rewrite HbP0 in HlE'.
      destruct (prefix_before c pre tail l1 l2 ci (eq_sym HlE') Hcid Hcpre Hcl1)
        as (l1' & -> & _).
      unfold F1a. rewrite blockInsts_app_notin by auto.
      rewrite <- HbP.
      rewrite (blockInsts_cons_eq (mkBlock (bid b) ((pre ++ l1') ++ [ci; brI]))). simpl.
      exists (l1' ++ [ci; brI]). split; [rewrite <- app_assoc; reflexivity|].
      rewrite length_app. simpl. lia.
    - unfold F1a. rewrite blockInsts_skip by (simpl; congruence).
      rewrite blockInsts_skip by (simpl; congruence).
      rewrite HF in HlE'. rewrite blockInsts_skip in HlE' by congruence.
      exists tail. split; [exact HlE' | lia]. }
  assert (He1 : startsWith pre n2 (blockInsts F1 E)).
  { destruct HF1 as [succs ->]. rewrite blockInsts_replaceSuccessors_same; auto.
    destruct He1a as (t1 & -> & _). apply replacePhiUsesWith_inert_head; auto.
    unfold pre. destruct A; simpl; try discriminate. destruct S; discriminate. }
  assert (HASin : forall s, In s (A ++ S) -> In s (blockInsts F1 E)).
  { intros s Hs. destruct He1 as (t1 & -> & _). apply in_or_app. left.
    unfold pre. rewrite app_nil_r, app_assoc. apply in_or_app. left. exact Hs. }
  assert (Hc1a : In c (ids F1a)).
  { rewrite ids_allInsts. rewrite <- Hcid. apply in_map.
    unfold F1a, allInsts. rewrite flat_map_app. apply in_or_app. right. simpl.
    apply in_or_app. left. apply in_or_app. right. left. reflexivity. }
  assert (Hc1 : In c (ids F1)) by (eapply frel_ids_incl; eauto).
  assert (Hxsc : forall y, In y xs -> In y (ids F1) /\ ~ In y (map iid (A ++ S))).
  { intros y Hy. unfold xs in Hy. apply in_map_iff in Hy.
    destruct Hy as (I & <- & HI). apply filter_In in HI. destruct HI as [HI Hf].
    split; [eapply blockInsts_ids_incl; apply in_map; eauto|].
    intros Hin. apply in_map_iff in Hin. destruct Hin as (s & Hid & Hs).
    pose proof (HASin s Hs) as Hsin.
    destruct (Pos.eqb_spec P E) as [e | ne].
    - subst E. assert (s = I).
      { apply blockInsts_In in Hsin. apply blockInsts_In in HI.
        apply findInst_NoDup in Hsin; auto. apply findInst_NoDup in HI; auto.
        rewrite Hid, HI in Hsin. congruence. }
      subst s. rewrite Forall_forall in HAS. rewrite (HAS I Hs) in Hf.
      simpl in Hf. discriminate.
    - apply (distinct_blocks F1 E P s I Hnd1); auto. }
  assert (He2 : atAllocaPoint A S (allocaPoint APn AP) (ids F1) n2 (blockInsts F2 E)).
  { unfold F2. apply atAllocaPoint_fold_Demote; auto.
    - apply incl_refl.
    - apply (startsWith_atAllocaPoint A S _ _ _ _ []); auto. }
  apply atAllocaPoint_startsWith in He2. destruct He2 as (news2 & Hsw2 & Hal2 & Hfr2).
  set (pre2 := A ++ (S ++ news2) ++ [allocaPoint APn AP]) in *.
  assert (Hcpre2 : ~ In c (map iid pre2)).
  { unfold pre2. rewrite !map_app, !in_app_iff. intros [H | [[H | H] | H]].
    - apply HcAS. rewrite map_app. apply in_or_app. auto.
    - apply HcAS. rewrite map_app. apply in_or_app. auto.
    - apply in_map_iff in H. destruct H as (s & Hid & Hs).
      rewrite Forall_forall in Hfr2. apply (Hfr2 s Hs). rewrite Hid. exact Hc1.
    - apply Hcpre. unfold pre. rewrite !map_app, !in_app_iff. auto. }
  assert (He3 : startsWith pre2 n3 (blockInsts F3 E)).
  { unfold F3, moveToFirstNonPHI. destruct (findInst F2 c) as [ci2|].
    - rewrite blockInsts_insertAt.
      + unfold n2, n3 in *. destruct (Pos.eqb P E).
        * apply startsWith_erase; auto.
        * eapply startsWith_erase0; eauto.
      + intros b0 Hb0. unfold posFirstNonPHI.
        destruct (Pos.eqb_spec (bid b0) R); congruence.
    - eapply startsWith_weaken; [| exact Hsw2].
      unfold n2, n3. destruct (Pos.eqb P E); lia. }
  assert (Hi3 : incl (ids F1) (ids F3)).
  { intros z Hz. unfold F3. apply ids_move_incl; [rewrite Hb2; exact HR1a|].
    eapply frel_ids_incl; [apply (gstep_frel _ _ _ Hs2 Hnd1) | exact Hz]. }
  assert (He4 : atAllocaPoint A S (allocaPoint APn AP) (ids F1) n3 (blockInsts F4 E)).
  { unfold F4. destruct (users F3 c) eqn:EU.
    - eapply startsWith_atAllocaPoint; eauto.
    - apply atAllocaPoint_Demote; auto.
      + rewrite EU. discriminate.
      + eapply startsWith_atAllocaPoint; eauto. }
  destruct He4 as (news4 & tail4 & E4 & Hal4 & _ & Hn4).
  exists news4.
  unfold erasePrev. rewrite (blockInsts_map (erasePrevIn (alloc (ids F4)))) by reflexivity.
  unfold n3 in Hn4. destruct (Pos.eqb_spec P E) as [e | ne].
  - subst E. rewrite blockInsts_insertEnd by (rewrite Hb4; exact HP1a).
    destruct (exists_last (l := tail4)) as (t & y0 & Et).
    { intros ->. simpl in Hn4. lia. }
    exists (t ++ [brC]). split; [| exact Hal4].
    rewrite E4, Et.
    replace ((A ++ (S ++ news4) ++ allocaPoint APn AP :: t ++ [y0])
             ++ [brC])
      with ((A ++ (S ++ news4) ++ allocaPoint APn AP :: t)
            ++ [y0; brC])
      by (repeat rewrite <- app_assoc; simpl; repeat rewrite <- app_assoc; reflexivity).
    rewrite erasePrevIn_last.
    + repeat rewrite <- app_assoc. simpl. reflexivity.
    + intros Hin. apply (HbrC P). rewrite E4, Et.
      replace (A ++ (S ++ news4) ++ allocaPoint APn AP :: t ++ [y0])
        with ((A ++ (S ++ news4) ++ allocaPoint APn AP :: t) ++ [y0])
        by (repeat rewrite <- app_assoc; simpl; reflexivity).
      exact Hin.
    + reflexivity.
  - exists tail4. split; [| exact Hal4].
    rewrite blockInsts_insertEnd_other by congruence.
    rewrite erasePrevIn_notin by apply HbrC. exact E4.
Qed.
End HeadRewrite.

Lemma notPHI_addIncoming_fix x v b :
  isPHI x = false ->
  match ikd x with PHI inc => setKind x (PHI (inc ++ [(v, b)])) | _ => x end = x.
Proof. unfold isPHI. destruct (ikd x); try discriminate; reflexivity. Qed.

Lemma inert_addCase_fix x v b :
  inert x = true ->
  match ikd x with
  | Switch c d cases => setKind x (Switch c d (cases ++ [(v, b)]))
  | _ => x
  end = x.
Proof. unfold inert. destruct (ikd x); try discriminate; reflexivity. Qed.

Lemma startsWith_addIncoming node v b F E pre n :
  Forall (fun s => inert s = true) pre ->
  startsWith pre n (blockInsts F E) ->
  startsWith pre n (blockInsts (addIncoming node v b F) E).
Proof.
  intros Hin. unfold addIncoming. apply startsWith_updInst.
  intros y Hy _. apply notPHI_addIncoming_fix. apply inert_notPHI.
  rewrite Forall_forall in Hin. auto.
Qed.

Lemma startsWith_addCase sw v b F E pre n :
  Forall (fun s => inert s = true) pre ->
  startsWith pre n (blockInsts F E) ->
  startsWith pre n (blockInsts (addCase sw v b F) E).
Proof.
  intros Hin. unfold addCase. apply startsWith_updInst.
  intros y Hy _. apply inert_addCase_fix. rewrite Forall_forall in Hin. auto.
Qed.

Lemma startsWith_eraseCallers w cs E pre :
  Forall (fun s => inert s = true) pre ->
  (forall c, In c cs -> ~ In c (map iid pre)) ->
  forall F n, startsWith pre n (blockInsts F E) ->
              startsWith pre 0 (blockInsts (eraseCallers w cs F) E).
Proof.
  intros Hin. unfold eraseCallers.
  induction cs as [| c cs IH]; intros Hcs F n He; cbn [fold_left].
  - eapply startsWith_weaken; [| exact He]. lia.
  - apply (IH (fun c' H => Hcs c' (or_intror H)) _ 0%nat).
    eapply startsWith_erase0; [apply Hcs; left; reflexivity|].
    unfold replaceAllUsesWith. apply startsWith_mapInsts; [| exact He].
    intros y Hy. apply inert_replaceUsesOfWith. rewrite Forall_forall in Hin. auto.
Qed.

Lemma countWhile_all p (l1 : list instruction) x l2 :
  Forall (fun y => p y = true) l1 -> p x = false ->
  countWhile p (l1 ++ x :: l2) = List.length l1.
Proof.
  induction 1 as [| y l1 Hy _ IH]; simpl; intros Hx.
  - rewrite Hx. reflexivity.
  - rewrite Hy, IH; auto.
Qed.

Section HeadGroup.
Variable alloc : list positive -> positive.
Hypothesis alloc_fresh : forall l, ~ In (alloc l) l.
Variable uniqueName : function -> string -> string.
Hypothesis uniqueName_prefix :
  forall F nm, String.prefix nm (uniqueName F nm) = true.
Variable arg_types : funcid -> list typ.
Variable ret_type : funcid -> typ.

Lemma rewInv_step_head cb t Mall E ME0 APn AP done c cs rs A S tail :
  rewInv cb t Mall E ME0 done (c :: cs) rs ->
  Forall (fun s => isAlloca s = true) (A ++ S) ->
  blockInsts (rsF rs) E = A ++ S ++ allocaPoint APn AP :: tail ->
  exists news tail',
    blockInsts (rsF (rewriteCaller alloc uniqueName cb E AP rs c)) E
    = A ++ (S ++ news) ++ allocaPoint APn AP :: tail' /\
    Forall (fun s => isAlloca s = true) news.
Proof.
  destruct rs as [F toRet toPar]. unfold rewInv. simpl.
  intros (Hnd & Hnb & HM & Hcb & Hcbe & Hsub & Htgt & _ & _ & _ & _ & _ & _
          & (ME & rest & Hhd & _)) HAS HlE.
  assert (HndM : NoDup (map markId Mall)).
  { rewrite <- HM. apply allMarks_NoDup. exact Hnd. }
  assert (Hc : In c (map markId (flat_map snd (bview F)))).
  { rewrite <- allMarks_bview, HM. eapply subseq_In; eauto. left; auto. }
  destruct (view_find _ _ Hc) as (A1 & P & M1 & m & M2 & A2 & Hv & Hmc).
  assert (Hmin : In m Mall).
  { rewrite <- HM, allMarks_bview, Hv, flat_map_app. apply in_or_app. right. simpl.
    apply in_or_app. left. apply in_or_app. right. left. reflexivity. }
  assert (Hmt : isCallMark m = true).
  { destruct (Htgt c (or_introl eq_refl)) as (m' & Hm' & Hid & Ht).
    assert (m' = m) by (eapply NoDup_map_inj_in; eauto; congruence).
    subst m'. eapply callsTarget_isCall; eauto. }
  assert (HE : In E (bids F)).
  { rewrite <- bview_fst, Hhd. left. reflexivity. }
  apply (rewriteCaller_head alloc alloc_fresh uniqueName cb E APn AP F toRet toPar c
           A1 P M1 m M2 A2 A S tail); auto.
Qed.

Lemma rewrite_head cb t Mall E ME0 APn AP A cs :
  Forall (fun s => isAlloca s = true) A ->
  forall done rs,
    rewInv cb t Mall E ME0 done cs rs ->
    (exists S tail, blockInsts (rsF rs) E = A ++ S ++ allocaPoint APn AP :: tail /\
                    Forall (fun s => isAlloca s = true) S) ->
    let rs' := fold_left (rewriteCaller alloc uniqueName cb E AP) cs rs in
    exists S tail, blockInsts (rsF rs') E = A ++ S ++ allocaPoint APn AP :: tail /\
                   Forall (fun s => isAlloca s = true) S.
Proof.
  intros HA. induction cs as [| c cs IH]; intros done rs Hinv He; cbn [fold_left];
    [exact He|].
  destruct He as (S & tail & HlE & HS).
  destruct (rewInv_step_head cb t Mall E ME0 APn AP done c cs rs A S tail Hinv)
    as (news & tail' & HlE' & Hn); auto.
  { apply Forall_app. auto. }
  pose proof (rewInv_step alloc alloc_fresh uniqueName cb t Mall E ME0 E AP done c cs rs Hinv)
    as Hinv'.
  apply (IH (done ++ [c]) _ Hinv').
  exists (S ++ news), tail'. split; [exact HlE'|]. apply Forall_app. auto.
Qed.

Lemma startsWith_buildArgs cb t callers toPar E pre n F :
  Forall (fun s => inert s = true) pre ->
  startsWith pre n (blockInsts F E) ->
  startsWith pre n (blockInsts (fst (buildArgs alloc arg_types cb t callers toPar F)) E).
Proof.
  intros Hin. unfold buildArgs.
  destruct (0 <? List.length (arg_types t))%nat; [| auto].
  generalize (@nil value) O. revert F.
  induction (arg_types t) as [| T tys IH]; intros F args i He; [exact He|].
  cbn [fold_left]. unfold buildArgPHI at 2. apply IH.
  assert (H : forall l G, startsWith pre n (blockInsts G E) ->
              startsWith pre n (blockInsts (fold_left
                (fun G0 caller =>
                   match olookup caller toPar with
                   | Some p => addIncoming (alloc (ids F)) (getArgOperand G0 caller i) p G0
                   | None => G0
                   end) l G) E)).
  { induction l as [| c l IHl]; intros G HG; [exact HG|].
    cbn [fold_left]. apply IHl. destruct (olookup c toPar); [| exact HG].
    apply startsWith_addIncoming; auto. }
  apply H. apply startsWith_insertEnd. exact He.
Qed.

Lemma startsWith_emitRouter cb ci toRet E pre n F :
  Forall (fun s => inert s = true) pre -> ~ In ci (map iid pre) ->
  startsWith pre n (blockInsts F E) ->
  startsWith pre n (blockInsts (emitRouter alloc cb ci toRet F) E).
Proof.
  intros Hin Hci He. unfold emitRouter.
  assert (H5 : startsWith pre n (blockInsts
              (insertAt (posBefore ci)
                 (mkInst (alloc (ids F)) "" (TInt 32) (PHI [])) F) E)).
  { apply startsWith_insertBefore; auto. }
  destruct toRet as [| first rest]; [exact H5|].
  set (w := alloc (ids F)) in *. set (F5 := insertAt (posBefore ci) _ F) in *.
  set (sw := alloc (ids F5)). set (F6 := insertAt (posEnd cb) _ F5).
  assert (H : forall l G z, startsWith pre n (blockInsts G E) ->
              startsWith pre n (blockInsts (fst (fold_left (routeBack w sw) l (G, z))) E)).
  { induction l as [| e l IHl]; intros G z HG; [exact HG|].
    cbn [fold_left]. unfold routeBack at 2. apply IHl.
    apply startsWith_addCase; auto. apply startsWith_addIncoming; auto. }
  apply H. unfold F6. apply startsWith_insertEnd. exact H5.
Qed.

(** The head of the entry block after one merged group. *)
Lemma mergeGroup_head F t callers b G :
  wf F -> F = b :: G -> callers = callsTo t F -> (2 <= List.length callers)%nat ->
  let F1 := mergeGroup alloc uniqueName arg_types ret_type F (t, callers) in
  let A := firstn (countWhile isAlloca (insts b)) (insts b) in
  exists slots rest,
    blockInsts F1 (bid b) = A ++ slots ++ allocaPoint (allocaPointName alloc uniqueName F) (allocaPointOf alloc F) :: rest /\
    Forall (fun s => isAlloca s = true) slots.
Proof.
  intros [Hnd Hnb] HF Hc Hk F1 A. subst F1.
  assert (Hc' : callers = map markId (filter (callsTarget t) (allMarks F))).
  { rewrite Hc. apply callsTo_marks. }
  pose proof (rewInv_prepared alloc alloc_fresh uniqueName uniqueName_prefix t F b G callers Hnd Hnb HF Hc') as H0.
  pose proof (rewriteGroup_spec alloc alloc_fresh uniqueName uniqueName_prefix t F b G callers Hnd Hnb HF Hc') as Hend.
  assert (HA : Forall (fun s => isAlloca s = true) A) by apply countWhile_firstn.
  assert (Hentry : entryOf alloc F = bid b) by (rewrite HF; reflexivity).
  unfold rewriteGroup in *. rewrite Hentry in *.
  destruct (rewrite_head (callBlockOf alloc F) t _ _ _ (allocaPointName alloc uniqueName F) (allocaPointOf alloc F) A callers
              HA [] _ H0) as (S & tail & HlE & HS).
  { simpl. exists [], (skipn (countWhile isAlloca (insts b)) (insts b)). split; [| constructor].
    clear - HF. subst A F. rewrite prepared_cons.
    apply (blockInsts_cons_eq (mkBlock (bid b) _)). }
  set (rs := fold_left _ callers _) in *.
  set (cb := callBlockOf alloc F) in *.
  set (ap := allocaPointOf alloc F) in *.
  set (apn := allocaPointName alloc uniqueName F) in *.
  destruct Hend as (HndG & _ & HMall & _ & _ & _ & Htgt & _).
  set (pre := A ++ (S ++ []) ++ [allocaPoint apn ap]).
  assert (Hpre : Forall (fun s => inert s = true) pre).
  { unfold pre. apply head_inert; [apply Forall_app; auto | constructor]. }
  assert (Hsw : startsWith pre 0 (blockInsts (rsF rs) (bid b))).
  { exists tail. split; [| lia]. rewrite HlE. unfold pre.
    rewrite app_nil_r. repeat rewrite <- app_assoc. reflexivity. }
  assert (Hcs : forall c, In c callers -> ~ In c (map iid pre)).
  { intros c Hin Hp. rewrite Hc' in Hin. apply in_map_iff in Hin.
    destruct Hin as (m & Hm & Hin). apply filter_In in Hin. destruct Hin as [Hin Ht].
    assert (Hin' : In m (allMarks (rsF rs))).
    { rewrite HMall. right. exact Hin. }
    rewrite allMarks_allInsts in Hin'. apply marks_In in Hin'.
    destruct Hin' as (y & Hy & Hvy).
    apply in_map_iff in Hp. destruct Hp as (s & Hid & Hs).
    assert (Hsin : In s (allInsts (rsF rs))).
    { apply (blockInsts_In _ (bid b)). destruct Hsw as (tl & -> & _).
      apply in_or_app. left. exact Hs. }
    assert (e : iid y = iid s).
    { rewrite <- (view_markId _ _ Hvy). congruence. }
    apply findInst_NoDup in Hy; auto. apply findInst_NoDup in Hsin; auto.
    rewrite e, Hsin in Hy. inversion Hy; subst.
    rewrite Forall_forall in Hpre.
    pose proof (inert_view_notCall y m (Hpre y Hs) Hvy) as Hnc.
    apply callsTarget_isCall in Ht. congruence. }
  assert (Hltb : (1 <? List.length callers)%nat = true) by (apply Nat.ltb_lt; lia).
  set (Gb := fst (builtArgs alloc uniqueName arg_types F t callers)).
  assert (Hswb : startsWith pre 0 (blockInsts Gb (bid b))).
  { unfold Gb, builtArgs, rewriteGroup. rewrite Hentry.
    apply startsWith_buildArgs; auto. }
  assert (Hci : ~ In (callInstrOf alloc uniqueName arg_types F t callers) (map iid pre)).
  { intros Hin. apply (alloc_fresh (ids Gb)). unfold callInstrOf in Hin. fold Gb in Hin.
    apply (blockInsts_ids_incl Gb (bid b)). destruct Hswb as (tl & -> & _).
    rewrite map_app. apply in_or_app. left. exact Hin. }
  assert (Hfin : startsWith pre 0
            (blockInsts (mergeGroup alloc uniqueName arg_types ret_type F (t, callers)) (bid b))).
  { unfold mergeGroup. simpl. rewrite Hltb.
    apply startsWith_emitRouter; auto.
    unfold unified. apply (startsWith_eraseCallers _ _ _ _ Hpre Hcs _ 0%nat).
    unfold emitCall. apply startsWith_insertEnd. exact Hswb. }
  destruct Hfin as (rest & Hr & _). exists S, rest. split; [| exact HS].
  rewrite Hr. unfold pre. rewrite app_nil_r. repeat rewrite <- app_assoc. reflexivity.
Qed.

(** X11.  After a group is merged the alloca insertion point is still
    the first instruction of the entry block that is not an alloca: the
    entry block starts with its original leading allocas, then come
    allocas only (the stack slots of the demoted values), then the
    insertion point. *)
Theorem alloca_point_keeps_its_place (F : function) (t : funcid) :
  wf F -> (2 <= List.length (callsTo t F))%nat ->
  let callers := callsTo t F in
  let F1 := mergeGroup alloc uniqueName arg_types ret_type F (t, callers) in
  let AllocaInsertionPoint := allocaPoint (allocaPointName alloc uniqueName F) (allocaPointOf alloc F) in
  let allocas := firstn (countWhile isAlloca (entryInsts F)) (entryInsts F) in
  exists slots rest,
    entryInsts F1 = allocas ++ slots ++ AllocaInsertionPoint :: rest /\
    Forall (fun s => isAlloca s = true) slots /\
    countWhile isAlloca (entryInsts F1) = List.length (allocas ++ slots).
Proof.
  intros Hwf Hk callers F1 AP allocas.
  assert (Hne : callsTo t F <> []).
  { intros H. rewrite H in Hk. simpl in Hk. lia. }
  destruct (callsTo_nonempty t F Hne) as (b & G & HF).
  destruct (mergeGroup_head F t callers b G Hwf HF eq_refl Hk) as (slots & rest & H1 & H2).
  destruct (mergeGroup_layout alloc alloc_fresh uniqueName uniqueName_prefix arg_types ret_type F t callers
              Hwf eq_refl Hk) as (_ & _ & _ & _ & Hhd & _).
  fold F1 in H1, Hhd.
  assert (HE0 : forall X, hd_error (bids X) = Some (bid b) ->
                          entryInsts X = blockInsts X (bid b)).
  { intros [| b1 G1] H; [discriminate|]. simpl in H. injection H as Hb1.
    rewrite <- Hb1. symmetry. apply blockInsts_cons_eq. }
  assert (HE : entryInsts F1 = blockInsts F1 (bid b)).
  { apply HE0. rewrite Hhd, HF. reflexivity. }
  assert (HA : allocas = firstn (countWhile isAlloca (insts b)) (insts b)).
  { unfold allocas. rewrite HF. reflexivity. }
  exists slots, rest. rewrite HE, H1, <- HA. split; [reflexivity|]. split; [exact H2|].
  rewrite app_assoc. apply countWhile_all; [| reflexivity].
  apply Forall_app. split; [| exact H2]. rewrite HA. apply countWhile_firstn.
Qed.
End HeadGroup.

Lemma alloca_point_keeps_its_place_witness :
  wf exF /\ (2 <= List.length (callsTo 100%positive exF))%nat /\
  exists slots rest,
    entryInsts (mergeGroup amax freshName ex_args ex_ret exF (100, callsTo 100 exF))
    = slots ++ allocaPoint (allocaPointName amax freshName exF) (allocaPointOf amax exF) :: rest /\
    Forall (fun s => isAlloca s = true) slots.
Proof.
  assert (Hwf : wf exF) by (apply wfb_wf; reflexivity).
  assert (Hk : (2 <= List.length (callsTo 100%positive exF))%nat) by (vm_compute; lia).
  split; [exact Hwf|]. split; [exact Hk|].
  destruct (alloca_point_keeps_its_place amax amax_fresh freshName freshName_prefix ex_args ex_ret exF 100 Hwf Hk)
    as (slots & rest & H1 & H2 & _).
  exists slots, rest. split; [exact H1 | exact H2].
Defined.

(** ** The PHI nodes of the shared block and its predecessors *)

Lemma Forall2_In_r {A B} (Q : A -> B -> Prop) l l' y :
  Forall2 Q l l' -> In y l' -> exists x, In x l /\ Q x y.
Proof.
  induction 1 as [| a b l l' Hab HF IH]; simpl; intros Hin; [contradiction|].
  destruct Hin as [<- | Hin]; [exists a; auto|].
  destruct (IH Hin) as (x & Hx & Hq). exists x. auto.
Qed.

Lemma Forall2_snd_NoDup {A} (Q : A -> value * blockid -> Prop)
  (key : A -> option blockid) (cs : list A) inc :
  (forall c p, Q c p -> key c = Some (snd p)) ->
  (forall c1 c2 P, In c1 cs -> In c2 cs -> key c1 = Some P -> key c2 = Some P -> c1 = c2) ->
  NoDup cs -> Forall2 Q cs inc -> NoDup (map snd inc).
Proof.
  intros HQ Hinj Hnd HF. induction HF as [| c p cs inc Hcp HF IH]; simpl; [constructor|].
  inversion Hnd as [| ? ? Hn Hnd']; subst. constructor.
  - intros Hin. apply in_map_iff in Hin. destruct Hin as (p' & Hs & Hp').
    destruct (Forall2_In_r _ _ _ _ HF Hp') as (c' & Hc' & Hcp').
    assert (c = c').
    { apply (Hinj c c' (snd p)); simpl; auto.
      rewrite <- Hs. apply HQ with (c := c'). exact Hcp'. }
    subst c'. contradiction.
  - apply IH; auto. intros c1 c2 P H1 H2. apply Hinj; simpl; auto.
Qed.

Section PhiBlocks.
Variable alloc : list positive -> positive.
Hypothesis alloc_fresh : forall l, ~ In (alloc l) l.
Variable uniqueName : function -> string -> string.
Hypothesis uniqueName_prefix :
  forall F nm, String.prefix nm (uniqueName F nm) = true.
Variable arg_types : funcid -> list typ.
Variable ret_type : funcid -> typ.

Lemma site_blocks_injective F t :
  wf F -> callsTo t F <> [] ->
  let callers := callsTo t F in
  let rs := rewriteGroup alloc uniqueName F callers in
  forall c1 c2 P, In c1 callers -> In c2 callers ->
    olookup c1 (callerToOrigParent rs) = Some P ->
    olookup c2 (callerToOrigParent rs) = Some P -> c1 = c2.
Proof.
  intros [Hnd Hnb] Hne callers rs c1 c2 P H1 H2 E1 E2.
  destruct (callsTo_nonempty t F Hne) as (b & G & HF).
  pose proof (rewriteGroup_spec alloc alloc_fresh uniqueName uniqueName_prefix t F b G callers Hnd Hnb HF
                (callsTo_marks t F)) as HR.
  fold rs in HR. unfold rewInv in HR.
  destruct HR as (_ & R2 & _ & _ & _ & _ & _ & _ & _ & _ & _ & _ & R13 & _).
  destruct (R13 c1 H1) as (P1 & Q1 & M1 & m1 & a1 & b1 & d1 & e1).
  destruct (R13 c2 H2) as (P2 & Q2 & M2 & m2 & a2 & b2 & d2 & e2).
  assert (P1 = P) by congruence. assert (P2 = P) by congruence. subst P1 P2.
  assert (Q1 = Q2) by congruence. subst Q2.
  assert (HndV : NoDup (map fst (bview (rsF rs)))) by (rewrite bview_fst; exact R2).
  pose proof (NoDup_fst_unique _ _ _ _ HndV d1 d2) as E. inversion E. congruence.
Qed.

(** X12.  Every PHI node of the shared block, the argument PHIs and the
    discriminator alike, has exactly one incoming pair for each
    predecessor block of the group: its incoming blocks are pairwise
    distinct and are, up to order, the keys of the
    predecessor-to-continuation map; and each of these blocks ends with
    an unconditional branch to the shared block. *)
Theorem phi_incoming_blocks (F : function) (t : funcid) :
  wf F -> (2 <= List.length (callsTo t F))%nat ->
  let callers := callsTo t F in
  let rs := rewriteGroup alloc uniqueName F callers in
  let callBlock := callBlockOf alloc F in
  let F1 := mergeGroup alloc uniqueName arg_types ret_type F (t, callers) in
  let preds := map fst (callerToRet rs) in
  exists phis whereFromNode callInstr switchBackInstr,
    blockInsts F1 callBlock = phis ++ [whereFromNode; callInstr; switchBackInstr] /\
    (forall p, In p (phis ++ [whereFromNode]) ->
       exists inc, ikd p = PHI inc /\ NoDup (map snd inc) /\
                   Permutation (map snd inc) preds) /\
    (forall P, In P preds ->
       exists l0 br, blockInsts F1 P = l0 ++ [br] /\ ikd br = Br callBlock).
Proof.
  intros Hwf Hk callers rs callBlock F1 preds.
  assert (Hne : callsTo t F <> []).
  { intros H. rewrite H in Hk. simpl in Hk. lia. }
  pose proof (site_blocks_injective F t Hwf Hne) as Hinj. cbv zeta in Hinj.
  fold callers in Hinj. fold rs in Hinj.
  destruct (group_shape alloc alloc_fresh uniqueName uniqueName_prefix arg_types ret_type F t Hwf Hk)
    as (phis & wfN & ci & sw & HL & _ & Hphi & Hsort & Hlen & Hsites).
  fold callers in HL, Hphi, Hlen, Hsites. fold rs in HL, Hphi, Hlen, Hsites, Hsort.
  fold preds in HL, Hsort.
  assert (Hndp : NoDup preds) by (apply sorted_NoDup; exact Hsort).
  assert (Hndc : NoDup callers).
  { unfold callers, callsTo. apply NoDup_map_filter. rewrite <- ids_allInsts. apply Hwf. }
  assert (Hlp : List.length preds = List.length callers).
  { unfold preds. rewrite length_map. exact Hlen. }
  eexists phis, _, _, _. split; [exact HL|]. split.
  - intros p Hp. apply in_app_or in Hp. destruct Hp as [Hp | [<- | []]].
    + apply In_nth_error in Hp. destruct Hp as (i & Hi).
      destruct (Hphi i p Hi) as (inc & Hk1 & HF2).
      exists inc. split; [exact Hk1|].
      assert (Hnd : NoDup (map snd inc)).
      { eapply (Forall2_snd_NoDup _ (fun c => olookup c (callerToOrigParent rs)));
          [| exact Hinj | exact Hndc | exact HF2].
        intros c q [H _]. exact H. }
      split; [exact Hnd|].
      apply NoDup_Permutation_bis; auto.
      * rewrite length_map, <- (Forall2_length HF2), Hlp. apply le_n.
      * intros P HP. apply in_map_iff in HP. destruct HP as (q & <- & Hq).
        destruct (Forall2_In_r _ _ _ _ HF2 Hq) as (c & Hc & [Hq1 _]).
        destruct (Hsites c Hc) as (P' & R & a1 & a2 & _).
        assert (P' = snd q) by congruence. subst P'.
        unfold preds. eapply olookup_Some_In; eauto.
    + eexists. split; [reflexivity|].
      rewrite map_snd_combine by (rewrite length_tagsFrom; symmetry; exact Hlp).
      split; [exact Hndp | apply Permutation_refl].
  - intros P HP.
    destruct (mergeGroup_branches alloc alloc_fresh uniqueName uniqueName_prefix arg_types ret_type F t callers
                Hwf eq_refl Hk P HP) as (xb & Hxb & l0 & He).
    exists l0, xb. split; [exact He | exact Hxb].
Qed.
End PhiBlocks.

Lemma phi_incoming_blocks_witness :
  wf exF /\ (2 <= List.length (callsTo 100%positive exF))%nat /\
  exists phis whereFromNode callInstr switchBackInstr,
    blockInsts (mergeGroup amax freshName ex_args ex_ret exF (100, callsTo 100 exF))
               (callBlockOf amax exF)
    = phis ++ [whereFromNode; callInstr; switchBackInstr] /\
    forall p, In p (phis ++ [whereFromNode]) ->
      exists inc, ikd p = PHI inc /\ NoDup (map snd inc).
Proof.
  assert (Hwf : wf exF) by (apply wfb_wf; reflexivity).
  assert (Hk : (2 <= List.length (callsTo 100%positive exF))%nat) by (vm_compute; lia).
  split; [exact Hwf|]. split; [exact Hk|].
  destruct (phi_incoming_blocks amax amax_fresh freshName freshName_prefix ex_args ex_ret exF 100 Hwf Hk)
    as (phis & w & c & s & H1 & H2 & _).
  exists phis, w, c, s. split; [exact H1|].
  intros p Hp. destruct (H2 p Hp) as (inc & Ha & Hb & _). exists inc. split; assumption.
Defined.

(** * The alloca insertion points of the function *)



Section AnchorCount.
Variable alloc : list positive -> positive.
Hypothesis alloc_fresh : forall l, ~ In (alloc l) l.
Variable uniqueName : function -> string -> string.
Hypothesis uniqueName_prefix :
  forall F nm, String.prefix nm (uniqueName F nm) = true.
Variable arg_types : funcid -> list typ.
Variable ret_type : funcid -> typ.
Variable isIntrinsic : funcid -> bool.



End AnchorCount.



(** * The block that holds a call site when it is rewritten *)

Section Parents.
Variable alloc : list positive -> positive.
Hypothesis alloc_fresh : forall l, ~ In (alloc l) l.
Variable uniqueName : function -> string -> string.
Hypothesis uniqueName_prefix :
  forall F nm, String.prefix nm (uniqueName F nm) = true.
Variable arg_types : funcid -> list typ.
Variable ret_type : funcid -> typ.

(** [home B c]: the call site [c] sat in block [B] when the group was
    started. *)
Variable home : blockid -> instid -> Prop.

(** A call site is rewritten in the block it started in, or in the
    continuation block of an earlier call site. *)
Lemma rewrite_parents cb t Mall E ME0 EB AP cs :
  forall done rs,
    rewInv cb t Mall E ME0 done cs rs ->
    (forall B M m, In (B, M) (bview (rsF rs)) -> In m M -> In (markId m) cs ->
       home B (markId m) \/ exists P0, olookup P0 (callerToRet rs) = Some B) ->
    (forall c P, olookup c (callerToOrigParent rs) = Some P ->
       home P c \/ exists P0, olookup P0 (callerToRet rs) = Some P) ->
    let rs' := fold_left (rewriteCaller alloc uniqueName cb EB AP) cs rs in
    forall c P, olookup c (callerToOrigParent rs') = Some P ->
      home P c \/ exists P0, olookup P0 (callerToRet rs') = Some P.
Proof.
  induction cs as [| c cs IH]; intros done rs Hinv HK HJ; cbn [fold_left].
  - exact HJ.
  - pose proof (rewInv_step alloc alloc_fresh uniqueName cb t Mall E ME0 EB AP
                  done c cs rs Hinv) as Hinv'.
    destruct rs as [F toRet toPar]. unfold rewInv in Hinv. simpl in Hinv, HK, HJ.
    destruct Hinv as (Hnd & Hnb & HM & Hcb & Hcbe & Hsub & _ & _ & _ & _ & _ & Hkeys & _).
    assert (Hc : In c (map markId (flat_map snd (bview F)))).
    { rewrite <- allMarks_bview, HM. eapply subseq_In; eauto. left; auto. }
    destruct (view_find _ _ Hc) as (A1 & P & M1 & m & M2 & A2 & Hv & Hmc).
    destruct (rewriteCaller_spec alloc alloc_fresh uniqueName cb EB AP F toRet toPar c
                A1 P M1 m M2 A2 Hnd Hnb Hv Hmc Hcb Hcbe)
      as (_ & Hv' & _ & HtoRet & HtoPar).
    set (rs1 := rewriteCaller alloc uniqueName cb EB AP (mkRS F toRet toPar) c) in *.
    set (R := alloc (bids F)) in *.
    assert (HinV : In (P, M1 ++ m :: M2) (bview F)).
    { rewrite Hv. apply in_or_app. right. left. reflexivity. }
    assert (HPk : ~ In P (map fst toRet)).
    { intros HP. apply (Hkeys P (M1 ++ m :: M2) m HP HinV).
      - apply in_or_app. right. left. reflexivity.
      - left. auto. }
    assert (Hmono : forall B, (exists P0, olookup P0 toRet = Some B) ->
                              exists P0, olookup P0 (callerToRet rs1) = Some B).
    { intros B (P0 & H0). exists P0. rewrite HtoRet, olookup_oinsert.
      destruct (Pos.eqb_spec P0 P) as [-> |]; [| exact H0].
      exfalso. apply HPk. eapply olookup_Some_In; eauto. }
    assert (HR : exists P0, olookup P0 (callerToRet rs1) = Some R).
    { exists P. rewrite HtoRet, olookup_oinsert, Pos.eqb_refl. reflexivity. }
    apply (IH (done ++ [c]) rs1 Hinv').
    + intros B M m' HB Hm' Hcs. rewrite Hv' in HB.
      apply in_app_or in HB. destruct HB as [HB | [HB | [HB | HB]]].
      * destruct (HK B M m') as [H | H]; auto.
        rewrite Hv. apply in_or_app. left. exact HB.
      * injection HB as <- <-.
        destruct (HK P (M1 ++ m :: M2) m') as [H | H]; auto.
        apply in_or_app. left. exact Hm'.
      * injection HB as <- <-. right. exact HR.
      * destruct (HK B M m') as [H | H]; auto.
        rewrite Hv. apply in_or_app. right. right. exact HB.
    + intros c' P' Hl. rewrite HtoPar, olookup_oinsert in Hl.
      destruct (Pos.eqb_spec c' c) as [-> | Hne].
      * injection Hl as <-.
        assert (Hin : In m (M1 ++ m :: M2)) by (apply in_or_app; right; left; reflexivity).
        assert (Hcs : In (markId m) (c :: cs)) by (rewrite Hmc; left; reflexivity).
        destruct (HK P (M1 ++ m :: M2) m HinV Hin Hcs) as [H | H].
        -- left. rewrite <- Hmc. exact H.
        -- right. apply Hmono. exact H.
      * destruct (HJ c' P' Hl) as [H | H]; auto.
Qed.
End Parents.

Section Routing.
Variable alloc : list positive -> positive.
Hypothesis alloc_fresh : forall l, ~ In (alloc l) l.
Variable uniqueName : function -> string -> string.
Hypothesis uniqueName_prefix :
  forall F nm, String.prefix nm (uniqueName F nm) = true.
Variable arg_types : funcid -> list typ.
Variable ret_type : funcid -> typ.

Lemma rewriteGroup_parents F t callers :
  wf F -> callers = callsTo t F -> (2 <= List.length callers)%nat ->
  let rs := rewriteGroup alloc uniqueName F callers in
  forall c P, olookup c (callerToOrigParent rs) = Some P ->
    getParent F c = Some P \/ exists P0, olookup P0 (callerToRet rs) = Some P.
Proof.
  intros [Hnd Hnb] Hc Hk rs.
  assert (Hne : callsTo t F <> []).
  { rewrite <- Hc. destruct callers; simpl in Hk; [lia | discriminate]. }
  destruct (callsTo_nonempty t F Hne) as (b & G & HF).
  assert (Hc' : callers = map markId (filter (callsTarget t) (allMarks F))).
  { rewrite Hc. apply callsTo_marks. }
  pose proof (rewInv_prepared alloc alloc_fresh uniqueName uniqueName_prefix
                t F b G callers Hnd Hnb HF Hc') as H0.
  unfold rs, rewriteGroup.
  apply (rewrite_parents alloc alloc_fresh uniqueName
           (fun B c => getParent F c = Some B) _ t _ _ _ _ _ callers [] _ H0).
  - simpl. intros B M m HB Hm Hcs. left.
    assert (Hidm : In (markId m) (ids F)).
    { rewrite Hc' in Hcs. apply in_map_iff in Hcs. destruct Hcs as (m' & <- & Hm').
      apply filter_In in Hm'. destruct Hm' as [Hm' _].
      apply allMarks_ids_incl. apply in_map. exact Hm'. }
    rewrite HF in HB at 1. rewrite prepared_cons in HB.
    unfold bview in HB. simpl in HB. destruct HB as [HB | HB].
    + injection HB as <- <-.
      rewrite marks_insert_lead in Hm by apply view_Alloca.
      apply in_app_or in Hm. destruct Hm as [Hm | Hm].
      * exfalso. simpl in Hm.
        rewrite view_allocaPoint in Hm by apply uniqueName_prefix.
        simpl in Hm. destruct Hm as [<- | []]. simpl in Hidm.
        revert Hidm. rewrite <- HF. unfold allocaPointOf.
        rewrite ids_withCallBlock. apply alloc_fresh.
      * apply (getParent_of_view F (bid b) (marks (insts b)) m); auto.
        rewrite HF. left. reflexivity.
    + rewrite map_app in HB. apply in_app_or in HB. destruct HB as [HB | HB].
      * apply (getParent_of_view F B M m); auto.
        rewrite HF. right. exact HB.
      * simpl in HB. destruct HB as [HB | []]. injection HB as <- <-. contradiction.
  - simpl. intros c P Hl. discriminate.
Qed.

(** C3.  The switch of a merged group of k call sites has exactly k
    cases with pairwise distinct tags, and the discriminator PHI exactly
    k incoming pairs from pairwise distinct blocks.  Every call site [c]
    has a predecessor block [P] and a continuation block [R]: [P] is the
    block in which [c] was rewritten (the block [c] sat in, or the
    continuation block of an earlier call site), it ends with the
    branch to the shared block; [R] is the block the split made of what
    followed [c], a new block laid out right after [P], recorded for [P]
    in the map, and [c] sits in it until the original calls are erased.
    The tag that comes in from [P] selects the case that leads to [R].
    (k is at most 2^32, the number of 32-bit tags.) *)
Theorem routing (F : function) (t : funcid) :
  wf F -> (2 <= List.length (callsTo t F))%nat ->
  (Z.of_nat (List.length (callsTo t F)) <= 2 ^ 32)%Z ->
  let callers := callsTo t F in
  let rs := rewriteGroup alloc uniqueName F callers in
  let callBlock := callBlockOf alloc F in
  let F1 := mergeGroup alloc uniqueName arg_types ret_type F (t, callers) in
  exists phis whereFromNode callInstr switchBackInstr inc def cases,
    blockInsts F1 callBlock = phis ++ [whereFromNode; callInstr; switchBackInstr] /\
    ikd whereFromNode = PHI inc /\
    ikd switchBackInstr = Switch (VInst (iid whereFromNode)) def cases /\
    List.length cases = List.length callers /\ NoDup (map fst cases) /\
    List.length inc = List.length callers /\ NoDup (map snd inc) /\
    forall c, In c callers ->
      exists P R tag,
        olookup c (callerToOrigParent rs) = Some P /\
        olookup P (callerToRet rs) = Some R /\
        In (tag, P) inc /\ In (tag, R) cases /\
        (getParent F c = Some P \/ exists P0, olookup P0 (callerToRet rs) = Some P) /\
        (exists l0 br, blockInsts F1 P = l0 ++ [br] /\ ikd br = Br callBlock) /\
        ~ In R (bids F) /\ R <> callBlock /\
        (exists B1 B2, bids F1 = B1 ++ P :: R :: B2) /\
        getParent (rsF rs) c = Some R.
Proof.
  intros Hwf Hk Hb callers rs callBlock F1.
  destruct (router_shape alloc alloc_fresh uniqueName uniqueName_prefix
              arg_types ret_type F t Hwf Hk Hb)
    as (phis & w & ci & sw & inc & def & cases & H1 & H2 & H3 & H4 & H5 & H6 & H7 & H8).
  fold callers in H4, H6, H8. fold rs in H8. fold callBlock in H1. fold F1 in H1.
  exists phis, w, ci, sw, inc, def, cases.
  repeat (split; [assumption|]).
  intros c Hc. destruct (H8 c Hc) as (P & R & tag & HP & HR & Hi & Hc2).
  destruct (group_shape alloc alloc_fresh uniqueName uniqueName_prefix
              arg_types ret_type F t Hwf Hk)
    as (_ & _ & _ & _ & _ & _ & _ & _ & _ & Hsites).
  fold callers in Hsites. fold rs in Hsites.
  destruct (Hsites c Hc) as (P' & R' & HP' & HPR & HR').
  assert (P' = P) by congruence. subst P'.
  assert (R' = R) by congruence. subst R'.
  exists P, R, tag.
  split; [exact HP|]. split; [exact HPR|]. split; [exact Hi|]. split; [exact Hc2|].
  split.
  { apply (rewriteGroup_parents F t callers Hwf eq_refl Hk c P HP). }
  split.
  { destruct (mergeGroup_branches alloc alloc_fresh uniqueName uniqueName_prefix
                arg_types ret_type F t callers Hwf eq_refl Hk P) as (xb & Hxb & l0 & Hl0).
    - eapply olookup_Some_In. exact HPR.
    - exists l0, xb. split; [exact Hl0 | exact Hxb]. }
  destruct (mergeGroup_layout alloc alloc_fresh uniqueName uniqueName_prefix
              arg_types ret_type F t callers Hwf eq_refl Hk)
    as (_ & _ & _ & _ & _ & Hadj).
  destruct (Hadj P R (olookup_In _ _ _ HPR)) as (Hn & Hne & Hd).
  split; [exact Hn|]. split; [exact Hne|]. split; [exact Hd | exact HR].
Qed.
End Routing.

Lemma routing_witness :
  wf exF /\ (2 <= List.length (callsTo 100%positive exF))%nat /\
  (Z.of_nat (List.length (callsTo 100%positive exF)) <= 2 ^ 32)%Z /\
  exists phis whereFromNode callInstr switchBackInstr def cases,
    blockInsts (mergeGroup amax freshName ex_args ex_ret exF (100, callsTo 100 exF))
               (callBlockOf amax exF)
    = phis ++ [whereFromNode; callInstr; switchBackInstr] /\
    ikd switchBackInstr = Switch (VInst (iid whereFromNode)) def cases /\
    List.length cases = List.length (callsTo 100%positive exF) /\
    NoDup (map fst cases).
Proof.
  assert (Hwf : wf exF) by (apply wfb_wf; reflexivity).
  assert (Hk : (2 <= List.length (callsTo 100%positive exF))%nat) by (vm_compute; lia).
  assert (Hb : (Z.of_nat (List.length (callsTo 100%positive exF)) <= 2 ^ 32)%Z)
    by (simpl; lia).
  split; [exact Hwf|]. split; [exact Hk|]. split; [exact Hb|].
  destruct (routing amax amax_fresh freshName freshName_prefix ex_args ex_ret exF 100
              Hwf Hk Hb)
    as (phis & w & c & s & inc & def & cases & H1 & _ & H2 & H3 & H4 & _).
  exists phis, w, c, s, def, cases.
  split; [exact H1 | split; [exact H2 | split; [exact H3 | exact H4]]].
Defined.

(** * What becomes of the uses of the original calls *)

Lemma usesb_redirect callers w c I :
  In c callers -> usesb c I = true ->
  usesb w (setKind I (mapOperands (redirect callers w) (ikd I))) = true.
Proof.
  intros Hc Hu. apply usesb_In in Hu. apply usesb_In. simpl.
  rewrite operands_mapOperands. apply in_map_iff. exists (VInst c).
  split; [| exact Hu]. simpl.
  assert (E : inb c callers = true).
  { unfold inb. apply existsb_exists. exists c. split; auto. apply Pos.eqb_refl. }
  rewrite E. reflexivity.
Qed.

Section MergeCount.
Variable alloc : list positive -> positive.
Hypothesis alloc_fresh : forall l, ~ In (alloc l) l.
Variable uniqueName : function -> string -> string.
Hypothesis uniqueName_prefix :
  forall F nm, String.prefix nm (uniqueName F nm) = true.
Variable arg_types : funcid -> list typ.
Variable ret_type : funcid -> typ.
Variable isIntrinsic : funcid -> bool.

(** C1.  A function with k >= 2 calls of a target [t] that is not an
    intrinsic has exactly one call of [t] after the pass.  When the
    group of [t] is merged (in any well-formed state [F]), the one call
    left is the new instruction [callInstr], and it sits in the new
    shared block.  The loop of lines 119-123 turns the state [E], in
    which the new call has just been emitted, into the state [U]: every
    original call is gone from [U] and has no user left; the blocks are
    the same, and each holds the instructions it held in [E] other than
    the original calls, in the same order and unchanged except that
    every operand that named an original call now names [callInstr] --
    so whatever used an original call uses the new call instead. *)
Theorem merge_count (F : function) (t : funcid) :
  wf F -> isIntrinsic t = false -> (2 <= List.length (callsTo t F))%nat ->
  let callers := callsTo t F in
  let callBlock := callBlockOf alloc F in
  let callInstr := callInstrOf alloc uniqueName arg_types F t callers in
  let E := emitCall alloc uniqueName arg_types ret_type F t callers in
  let U := unified alloc uniqueName arg_types ret_type F t callers in
  let F1 := mergeGroup alloc uniqueName arg_types ret_type F (t, callers) in
  List.length
    (callsTo t (fst (runOnFunction alloc uniqueName arg_types ret_type isIntrinsic F)))
  = 1%nat /\
  callsTo t F1 = [callInstr] /\ ~ In callInstr callers /\
  getParent F1 callInstr = Some callBlock /\ ~ In callBlock (bids F) /\
  (forall c, In c callers -> ~ In c (ids U) /\ users U c = []) /\
  bids U = bids E /\
  (forall B,
     blockInsts U B
     = map (fun I => setKind I (mapOperands (redirect callers callInstr) (ikd I)))
           (filter (fun I => negb (inb (iid I) callers)) (blockInsts E B))) /\
  (forall B I c,
     In I (blockInsts E B) -> ~ In (iid I) callers ->
     In c callers -> usesb c I = true ->
     exists I', In I' (blockInsts U B) /\ iid I' = iid I /\ iname I' = iname I /\
                usesb callInstr I' = true /\ usesb c I' = false).
Proof.
  intros Hwf Ht Hk callers callBlock callInstr E U F1.
  destruct (merged_call_count alloc alloc_fresh uniqueName uniqueName_prefix
              arg_types ret_type isIntrinsic F t Hwf Ht Hk)
    as (H1 & H2 & H3 & H4 & H5 & H6).
  fold callers in H1, H2, H3, H4, H6. fold callInstr in H2, H3, H4.
  fold callBlock in H4. fold F1 in H2, H4. fold U in H6.
  assert (Hclosed : forall B,
     blockInsts U B
     = map (fun I => setKind I (mapOperands (redirect callers callInstr) (ikd I)))
           (filter (fun I => negb (inb (iid I) callers)) (blockInsts E B))).
  { intros B. unfold U, unified. fold callers. fold callInstr. fold E.
    rewrite blockInsts_eraseCallers.
    apply map_ext. intros I. apply instruction_eq; simpl.
    - apply substAll_iid.
    - apply iname_substAll.
    - apply ity_substAll.
    - rewrite ikd_substAll. apply mapOperands_ext.
      intros v. apply substAllV_redirect. exact H3. }
  split; [exact H1|]. split; [exact H2|]. split; [exact H3|]. split; [exact H4|].
  split; [exact H5|]. split; [exact H6|].
  split.
  { unfold U, unified. apply bids_eraseCallers. }
  split; [exact Hclosed|].
  intros B I c HI Hn Hc Hu.
  set (g := fun I : instruction =>
              setKind I (mapOperands (redirect callers callInstr) (ikd I))) in *.
  assert (Hin : In (g I) (blockInsts U B)).
  { rewrite Hclosed. apply (in_map g). apply filter_In. split; [exact HI|].
    apply negb_true_iff. destruct (inb (iid I) callers) eqn:Ei; [| reflexivity].
    exfalso. apply Hn. unfold inb in Ei. apply existsb_exists in Ei.
    destruct Ei as (x & Hx & Hxe). apply Pos.eqb_eq in Hxe. subst x. exact Hx. }
  exists (g I).
  split; [exact Hin|]. split; [reflexivity|]. split; [reflexivity|]. split.
  { unfold g. eapply usesb_redirect; eauto. }
  destruct (H6 c Hc) as [_ Hus].
  destruct (usesb c (g I)) eqn:Eu; [| reflexivity].
  exfalso.
  assert (Hne : users U c <> []).
  { apply users_nonempty. exists (g I). split; [| exact Eu].
    apply (blockInsts_In U B). exact Hin. }
  congruence.
Qed.
End MergeCount.

Lemma merge_count_witness :
  wf exF /\ ex_intr 100 = false /\ (2 <= List.length (callsTo 100%positive exF))%nat /\
  List.length (callsTo 100 (fst (runOnFunction amax freshName ex_args ex_ret ex_intr exF)))
  = 1%nat /\
  getParent (mergeGroup amax freshName ex_args ex_ret exF (100, callsTo 100 exF))
            (callInstrOf amax freshName ex_args exF 100 (callsTo 100 exF))
  = Some (callBlockOf amax exF).
Proof.
  assert (Hwf : wf exF) by (apply wfb_wf; reflexivity).
  assert (Hk : (2 <= List.length (callsTo 100%positive exF))%nat) by (vm_compute; lia).
  destruct (merge_count amax amax_fresh freshName freshName_prefix
              ex_args ex_ret ex_intr exF 100 Hwf eq_refl Hk)
    as (H1 & _ & _ & H2 & _).
  split; [exact Hwf|]. split; [reflexivity|]. split; [exact Hk|].
  split; [exact H1 | exact H2].
Defined.

(** * Instructions the pass keeps: the relation *)

Lemma skeleton_mapOperands g k : skeleton (mapOperands g k) = skeleton k.
Proof.
  unfold skeleton.
  destruct k as [| c args | inc | | | | | | v d cases | [v|] | |]; simpl; auto;
    rewrite ?map_map; reflexivity.
Qed.

Lemma skeleton_isPHI I I' : skeleton (ikd I') = skeleton (ikd I) -> isPHI I' = isPHI I.
Proof.
  unfold skeleton, isPHI.
  destruct (ikd I) as [| ? ? | ? | | | | | | ? ? ? | [?|] | |];
    destruct (ikd I') as [| ? ? | ? | | | | | | ? ? ? | [?|] | |];
    simpl; intros H; try discriminate; reflexivity.
Qed.

Lemma skeleton_isLoad I I' : skeleton (ikd I') = skeleton (ikd I) -> isLoad I' = isLoad I.
Proof.
  unfold skeleton, isLoad.
  destruct (ikd I) as [| ? ? | ? | | | | | | ? ? ? | [?|] | |];
    destruct (ikd I') as [| ? ? | ? | | | | | | ? ? ? | [?|] | |];
    simpl; intros H; try discriminate; reflexivity.
Qed.

Lemma isLoad_notPHI I : isLoad I = true -> isPHI I = false.
Proof. unfold isLoad, isPHI. destruct (ikd I); try discriminate; reflexivity. Qed.

Lemma reloaded_refl F v : reloaded F v v.
Proof. left. reflexivity. Qed.

Lemma Forall2_same {A} (R : A -> A -> Prop) l : (forall x, R x x) -> Forall2 R l l.
Proof. intros H. induction l; constructor; auto. Qed.

Lemma Forall2_compose {A} (R1 R2 R3 : A -> A -> Prop) l1 :
  (forall x y z, R1 x y -> R2 y z -> R3 x z) ->
  forall l2 l3, Forall2 R1 l1 l2 -> Forall2 R2 l2 l3 -> Forall2 R3 l1 l3.
Proof.
  intros H. induction l1 as [| x l1 IH]; intros l2 l3 H12 H23.
  - inversion H12; subst. inversion H23; subst. constructor.
  - inversion H12; subst. inversion H23; subst. constructor; eauto.
Qed.

Lemma Forall2_map_r {A} (R : A -> A -> Prop) g l :
  (forall x, R x (g x)) -> Forall2 R l (map g l).
Proof. intros H. induction l; simpl; constructor; auto. Qed.

Lemma kept_refl F I : kept F I I.
Proof.
  repeat split; auto. apply Forall2_same. apply reloaded_refl.
Qed.

Lemma reloaded_trans F G v v' v'' :
  (forall r, loadAt F r -> loadAt G r) ->
  reloaded F v v' -> reloaded G v' v'' -> reloaded G v v''.
Proof.
  intros HL [-> | (x & r & -> & -> & Hr)] [-> | (x' & r' & E & -> & Hr')].
  - left. reflexivity.
  - right. exists x', r'. auto.
  - right. exists x, r. auto.
  - right. exists x, r'. auto.
Qed.

Lemma kept_trans F G I I' I'' :
  (forall r, loadAt F r -> loadAt G r) ->
  kept F I I' -> kept G I' I'' -> kept G I I''.
Proof.
  intros HL (a1 & a2 & a3 & a4 & a5) (b1 & b2 & b3 & b4 & b5).
  split; [congruence|]. split; [congruence|]. split; [congruence|].
  split; [auto|]. intros Hn.
  destruct (a5 Hn) as [s1 o1].
  assert (Hn' : isPHI I' = false) by (rewrite (skeleton_isPHI _ _ s1); exact Hn).
  destruct (b5 Hn') as [s2 o2].
  split; [congruence|].
  eapply Forall2_compose; [| exact o1 | exact o2].
  intros x y z. apply reloaded_trans. exact HL.
Qed.

Lemma kept_isLoad F I I' : kept F I I' -> isLoad I = true -> isLoad I' = true.
Proof.
  intros (_ & _ & _ & _ & H) Hl.
  destruct (H (isLoad_notPHI _ Hl)) as [Hs _].
  rewrite (skeleton_isLoad _ _ Hs). exact Hl.
Qed.

Lemma keeps_refl K F : keeps K F F.
Proof.
  split; [auto|]. intros I HI _. exists I. split; [exact HI | apply kept_refl].
Qed.

Lemma keeps_trans K F G H : keeps K F G -> keeps K G H -> keeps K F H.
Proof.
  intros [L1 K1] [L2 K2]. split; [auto|].
  intros I HI HK. destruct (K1 I HI HK) as (I' & HI' & Hk').
  assert (HK' : K (iid I')) by (destruct Hk' as (e & _); rewrite e; exact HK).
  destruct (K2 I' HI' HK') as (I'' & HI'' & Hk'').
  exists I''. split; [exact HI''|]. eapply kept_trans; eauto.
Qed.

Lemma keeps_mono (K K' : instid -> Prop) F G :
  (forall i, K' i -> K i) -> keeps K F G -> keeps K' F G.
Proof. intros H [L1 K1]. split; auto. Qed.

Lemma keeps_incl K F G : incl (allInsts F) (allInsts G) -> keeps K F G.
Proof.
  intros H. split.
  - intros r (L & HL & e & l). exists L. auto.
  - intros I HI _. exists I. split; [apply H; exact HI | apply kept_refl].
Qed.

Lemma keeps_ids K F G i : keeps K F G -> K i -> In i (ids F) -> In i (ids G).
Proof.
  intros [_ HK] Hi Hin. unfold ids in Hin. apply in_flat_map in Hin.
  destruct Hin as (b & Hb & Hin). apply in_map_iff in Hin. destruct Hin as (I & <- & HI).
  assert (HIa : In I (allInsts F)) by (unfold allInsts; apply in_flat_map; eauto).
  destruct (HK I HIa Hi) as (I' & HI' & e & _). rewrite <- e.
  apply In_ids_allInsts. exact HI'.
Qed.

(** * Instructions the pass keeps: the primitives *)

Lemma allInsts_mapInsts g F : allInsts (mapInsts g F) = map g (allInsts F).
Proof.
  unfold allInsts, mapInsts. induction F as [| b F IH]; simpl; auto.
  rewrite map_app, IH. reflexivity.
Qed.

Lemma allInsts_eraseFromParent c F :
  allInsts (eraseFromParent c F)
  = filter (fun x => negb (Pos.eqb (iid x) c)) (allInsts F).
Proof.
  unfold allInsts, eraseFromParent. induction F as [| b F IH]; simpl; auto.
  rewrite filter_app, IH. reflexivity.
Qed.

Lemma allInsts_app F G : allInsts (F ++ G) = allInsts F ++ allInsts G.
Proof. unfold allInsts. apply flat_map_app. Qed.

Lemma In_insertNth k (n : instruction) l x :
  In x (insertNth k n l) <-> x = n \/ In x l.
Proof.
  unfold insertNth. rewrite <- (firstn_skipn k l) at 3.
  rewrite !in_app_iff. simpl. split; intros H; intuition.
Qed.

Lemma allInsts_insertAt_inv pos n F I :
  In I (allInsts (insertAt pos n F)) -> I = n \/ In I (allInsts F).
Proof.
  unfold allInsts. induction F as [| b F IH]; simpl; [tauto|].
  destruct (pos b) as [k|]; simpl; rewrite !in_app_iff.
  - rewrite In_insertNth. tauto.
  - intros [H | H]; [tauto|]. destruct (IH H); tauto.
Qed.

(** The insertion takes place when some block offers a position. *)
Lemma allInsts_insertAt_new pos n F :
  (exists b, In b F /\ pos b <> None) -> In n (allInsts (insertAt pos n F)).
Proof.
  unfold allInsts. induction F as [| b F IH]; simpl; intros (b0 & Hb0 & Hp).
  - contradiction.
  - destruct (pos b) as [k|] eqn:E; simpl; apply in_or_app.
    + left. apply In_insertNth. left. reflexivity.
    + right. apply IH. destruct Hb0 as [-> | Hb0]; [congruence|]. eauto.
Qed.

Lemma keeps_insertAt K pos n F : keeps K F (insertAt pos n F).
Proof. apply keeps_incl. apply allInsts_insertAt. Qed.

Lemma keeps_mapInsts K g F :
  (forall I, iid (g I) = iid I) ->
  (forall I, In I (allInsts F) -> isLoad I = true -> isLoad (g I) = true) ->
  ((forall r, loadAt F r -> loadAt (mapInsts g F) r) ->
   forall I, In I (allInsts F) -> K (iid I) -> kept (mapInsts g F) I (g I)) ->
  keeps K F (mapInsts g F).
Proof.
  intros Hid Hload Hkept.
  assert (HL : forall r, loadAt F r -> loadAt (mapInsts g F) r).
  { intros r (L & HLin & e & l). exists (g L).
    rewrite allInsts_mapInsts. split; [apply in_map; exact HLin|].
    split; [rewrite Hid; exact e | apply Hload; auto]. }
  split; [exact HL|].
  intros I HI HK. exists (g I). split.
  - rewrite allInsts_mapInsts. apply in_map. exact HI.
  - apply Hkept; auto.
Qed.

Lemma isLoad_replaceUsesOfWith x w I :
  isLoad (replaceUsesOfWith x w I) = isLoad I.
Proof.
  unfold isLoad, replaceUsesOfWith. simpl.
  destruct (ikd I) as [| ? ? | ? | | | | | | ? ? ? | [?|] | |]; reflexivity.
Qed.

Lemma isPHI_replaceUsesOfWith x w I :
  isPHI (replaceUsesOfWith x w I) = isPHI I.
Proof.
  unfold isPHI, replaceUsesOfWith. simpl.
  destruct (ikd I) as [| ? ? | ? | | | | | | ? ? ? | [?|] | |]; reflexivity.
Qed.

Lemma kept_replaceUsesOfWith F' x ld I :
  loadAt F' ld -> kept F' I (replaceUsesOfWith x (VInst ld) I).
Proof.
  intros Hld. unfold kept. simpl.
  split; [reflexivity|]. split; [reflexivity|]. split; [reflexivity|].
  split; [rewrite isPHI_replaceUsesOfWith; auto|].
  intros _. split; [apply skeleton_mapOperands|].
  rewrite operands_mapOperands. apply Forall2_map_r.
  intros v. unfold substValue. destruct (isVInst x v) eqn:E.
  - apply isVInst_true in E. subst v. right. exists x, ld. auto.
  - apply reloaded_refl.
Qed.

(** One user is redirected to the load [ld]. *)
Lemma keeps_updInst_replace K U x ld F :
  loadAt F ld -> keeps K F (updInst U (replaceUsesOfWith x (VInst ld)) F).
Proof.
  intros Hld. unfold updInst. apply keeps_mapInsts.
  - intros I. destruct (Pos.eqb (iid I) U); reflexivity.
  - intros I _ Hl. destruct (Pos.eqb (iid I) U); auto.
    rewrite isLoad_replaceUsesOfWith. exact Hl.
  - intros HL I _ _. destruct (Pos.eqb (iid I) U); [| apply kept_refl].
    apply kept_replaceUsesOfWith. apply HL. exact Hld.
Qed.

(** The instruction at [U] is a PHI node and gets new incoming pairs. *)
Lemma keeps_updInst_PHI K U UI l F :
  NoDup (ids F) -> findInst F U = Some UI -> isPHI UI = true ->
  keeps K F (updInst U (fun PN => setKind PN (PHI l)) F).
Proof.
  intros Hnd HU HP.
  assert (Hsame : forall I, In I (allInsts F) -> iid I = U -> I = UI).
  { intros I HI e. apply findInst_NoDup in HI; auto. rewrite e, HU in HI. congruence. }
  unfold updInst. apply keeps_mapInsts.
  - intros I. destruct (Pos.eqb (iid I) U); reflexivity.
  - intros I HI Hl. destruct (Pos.eqb_spec (iid I) U) as [e |]; auto.
    rewrite (Hsame I HI e) in Hl. apply isLoad_notPHI in Hl. congruence.
  - intros _ I HI _. destruct (Pos.eqb_spec (iid I) U) as [e |]; [| apply kept_refl].
    rewrite (Hsame I HI e). unfold kept. simpl.
    split; [reflexivity|]. split; [reflexivity|]. split; [reflexivity|].
    split; [reflexivity | congruence].
Qed.

(** A mutation that leaves everything but PHI nodes alone. *)
Lemma keeps_updInst_onPHI K U g F :
  (forall I, iid (g I) = iid I /\ iname (g I) = iname I /\ ity (g I) = ity I) ->
  (forall I, isPHI I = true -> isPHI (g I) = true) ->
  (forall I, isPHI I = false -> g I = I) ->
  keeps K F (updInst U g F).
Proof.
  intros Hid HP Hn. unfold updInst. apply keeps_mapInsts.
  - intros I. destruct (Pos.eqb (iid I) U); [apply Hid | reflexivity].
  - intros I _ Hl. destruct (Pos.eqb (iid I) U); auto.
    rewrite Hn by (apply isLoad_notPHI; exact Hl). exact Hl.
  - intros _ I _ _. destruct (Pos.eqb (iid I) U); [| apply kept_refl].
    destruct (isPHI I) eqn:E.
    + destruct (Hid I) as (a & b & c). unfold kept.
      split; [exact a|]. split; [exact b|]. split; [exact c|].
      split; [intros _; apply HP; exact E | congruence].
    + rewrite Hn by exact E. apply kept_refl.
Qed.

(** A mutation of an instruction that is not among the kept ones. *)
Lemma keeps_updInst_other K U g F :
  ~ K U -> (forall I, iid (g I) = iid I) ->
  (forall I, isLoad I = true -> g I = I) ->
  keeps K F (updInst U g F).
Proof.
  intros HK Hid Hl. unfold updInst. apply keeps_mapInsts.
  - intros I. destruct (Pos.eqb (iid I) U); [apply Hid | reflexivity].
  - intros I _ H. destruct (Pos.eqb (iid I) U); auto. rewrite Hl; auto.
  - intros _ I _ HKI. destruct (Pos.eqb_spec (iid I) U) as [e |]; [| apply kept_refl].
    exfalso. apply HK. rewrite <- e. exact HKI.
Qed.

Lemma keeps_erase K c F :
  ~ K c -> (forall L, In L (allInsts F) -> isLoad L = true -> iid L <> c) ->
  keeps K F (eraseFromParent c F).
Proof.
  intros HK HL.
  assert (Hin : forall I, In I (allInsts F) -> iid I <> c ->
                          In I (allInsts (eraseFromParent c F))).
  { intros I HI Hne. rewrite allInsts_eraseFromParent. apply filter_In.
    split; [exact HI|]. apply negb_true_iff. apply Pos.eqb_neq. exact Hne. }
  split.
  - intros r (L & HLin & e & l). exists L. split; [| auto].
    apply Hin; auto.
  - intros I HI HKI. exists I. split; [| apply kept_refl].
    apply Hin; auto. intros e. apply HK. rewrite <- e. exact HKI.
Qed.

Lemma allInsts_splitAt c New br F : incl (allInsts F) (allInsts (splitAt c New br F)).
Proof.
  unfold allInsts. induction F as [| b F IH]; simpl; [apply incl_refl|].
  destruct (indexOf c (insts b)) as [k|]; simpl.
  - intros I HI. apply in_app_or in HI. destruct HI as [HI | HI].
    + rewrite <- (firstn_skipn (Datatypes.S k) (insts b)) in HI.
      apply in_app_or in HI. rewrite !in_app_iff. tauto.
    + rewrite !in_app_iff. tauto.
  - apply incl_app; [apply incl_appl, incl_refl | apply incl_appr, IH].
Qed.

Lemma replacePhiUsesWith_In Old New l I :
  In I l ->
  exists I', In I' (replacePhiUsesWith Old New l) /\
             (I' = I \/ (isPHI I = true /\ I' = replaceIncomingBlockWith Old New I)).
Proof.
  induction l as [| x l IH]; simpl; [tauto|].
  destruct (isPHI x) eqn:E; intros [-> | HI].
  - eexists. split; [left; reflexivity|]. right. auto.
  - destruct (IH HI) as (I' & H1 & H2). exists I'. split; [right; exact H1 | exact H2].
  - exists I. split; [left; reflexivity | left; reflexivity].
  - exists I. split; [right; exact HI | left; reflexivity].
Qed.

Lemma kept_replaceIncomingBlockWith F' Old New I :
  isPHI I = true -> kept F' I (replaceIncomingBlockWith Old New I).
Proof.
  intros HP. unfold replaceIncomingBlockWith, isPHI in *.
  destruct (ikd I) eqn:E; try discriminate.
  unfold kept, isPHI. simpl. rewrite E.
  split; [reflexivity|]. split; [reflexivity|]. split; [reflexivity|].
  split; [reflexivity | discriminate].
Qed.

Lemma keeps_replaceSuccessors K succs Old New F :
  keeps K F (replaceSuccessorsPhiUsesWith succs Old New F).
Proof.
  assert (H : forall I, In I (allInsts F) ->
            exists I', In I' (allInsts (replaceSuccessorsPhiUsesWith succs Old New F)) /\
                       (I' = I \/ (isPHI I = true /\
                                   I' = replaceIncomingBlockWith Old New I))).
  { unfold allInsts, replaceSuccessorsPhiUsesWith.
    induction F as [| b F IH]; simpl; [tauto|].
    intros I HI. apply in_app_or in HI. destruct HI as [HI | HI].
    - destruct (existsb (Pos.eqb (bid b)) succs); simpl.
      + destruct (replacePhiUsesWith_In Old New _ _ HI) as (I' & H1 & H2).
        exists I'. split; [apply in_or_app; left; exact H1 | exact H2].
      + exists I. split; [apply in_or_app; left; exact HI | left; reflexivity].
    - destruct (IH I HI) as (I' & H1 & H2).
      exists I'. split; [apply in_or_app; right; exact H1 | exact H2]. }
  split.
  - intros r (L & HL & e & l). destruct (H L HL) as (L' & H1 & [-> | [HP ->]]).
    + exists L. auto.
    + apply isLoad_notPHI in l. congruence.
  - intros I HI _. destruct (H I HI) as (I' & H1 & [-> | [HP ->]]).
    + exists I. split; [exact H1 | apply kept_refl].
    + eexists. split; [exact H1|]. apply kept_replaceIncomingBlockWith. exact HP.
Qed.

Lemma keeps_splitBasicBlock K F c New brId : keeps K F (splitBasicBlock F c New brId).
Proof.
  unfold splitBasicBlock. destruct (getParent F c); [| apply keeps_refl].
  eapply keeps_trans; [| apply keeps_replaceSuccessors].
  apply keeps_incl. apply allInsts_splitAt.
Qed.

Lemma keeps_move K c R F :
  NoDup (ids F) -> In R (bids F) -> keeps K F (moveToFirstNonPHI c R F).
Proof.
  intros Hnd HR. unfold moveToFirstNonPHI.
  destruct (findInst F c) as [ci|] eqn:Ec; [| apply keeps_refl].
  apply keeps_incl. intros I HI.
  destruct (Pos.eqb_spec (iid I) c) as [e | Hne].
  - assert (I = ci).
    { apply findInst_NoDup in HI; auto. rewrite e, Ec in HI. congruence. }
    subst I. apply allInsts_insertAt_new.
    rewrite <- (bids_eraseFromParent c) in HR. unfold bids in HR.
    apply in_map_iff in HR. destruct HR as (b & Hb & Hin).
    exists b. split; [exact Hin|]. unfold posFirstNonPHI.
    rewrite Hb, Pos.eqb_refl. discriminate.
  - apply allInsts_insertAt. rewrite allInsts_eraseFromParent. apply filter_In.
    split; [exact HI|]. apply negb_true_iff. apply Pos.eqb_neq. exact Hne.
Qed.

(** The new branch is appended to block [P] and the instruction before
    it, [y], erased: every other instruction stays. *)
Lemma erasePrev_insertEnd_In P n F l0 y I :
  ~ In (iid n) (ids F) -> blockInsts F P = l0 ++ [y] ->
  In I (allInsts F) -> iid I <> iid y ->
  In I (allInsts (erasePrev (iid n) (insertAt (posEnd P) n F))).
Proof.
  unfold blockInsts, allInsts. induction F as [| b F IH]; simpl; [tauto|].
  intros Hid Hl HI Hne. unfold ids in Hid. simpl in Hid. rewrite in_app_iff in Hid.
  unfold posEnd at 1. destruct (Pos.eqb (bid b) P).
  - simpl. rewrite insertNth_end, Hl, <- app_assoc. simpl.
    rewrite erasePrevIn_last by (try tauto; rewrite <- Hl; tauto).
    fold (erasePrev (iid n) F). rewrite erasePrev_id by tauto.
    apply in_app_or in HI. apply in_or_app. destruct HI as [HI | HI]; [left | right; exact HI].
    rewrite Hl in HI. apply in_app_or in HI. apply in_or_app.
    destruct HI as [HI | [<- | []]]; [left; exact HI | congruence].
  - simpl. rewrite erasePrevIn_notin by tauto.
    apply in_app_or in HI. apply in_or_app. destruct HI as [HI | HI]; [left; exact HI|].
    right. apply IH; auto.
Qed.

Lemma keeps_erasePrev K P n F l0 y :
  ~ In (iid n) (ids F) -> blockInsts F P = l0 ++ [y] ->
  ~ K (iid y) -> isLoad y = false -> NoDup (ids F) ->
  keeps K F (erasePrev (iid n) (insertAt (posEnd P) n F)).
Proof.
  intros Hid Hl HK Hy Hnd.
  assert (Hyin : In y (allInsts F)).
  { apply (blockInsts_In F P). rewrite Hl. apply in_or_app. right. left. reflexivity. }
  split.
  - intros r (L & HL & e & l). exists L. split; [| auto].
    eapply erasePrev_insertEnd_In; eauto. intros e'.
    assert (L = y).
    { apply findInst_NoDup in HL; auto. apply findInst_NoDup in Hyin; auto.
      rewrite e' in HL. congruence. }
    congruence.
  - intros I HI HKI. exists I. split; [| apply kept_refl].
    eapply erasePrev_insertEnd_In; eauto. intros e. apply HK. rewrite <- e. exact HKI.
Qed.

(** * The end of a block under demotion *)

Lemma endsFresh_intro old y l :
  endsWith y l -> ~ In (iid y) old -> isLoad y = false -> endsFresh old l.
Proof. intros [l0 E] H1 H2. exists l0, y. auto. Qed.

Lemma endsFresh_insertNth_new old l k n :
  endsFresh old l -> ~ In (iid n) old -> isLoad n = false ->
  endsFresh old (insertNth k n l).
Proof.
  intros (l0 & y & E & H1 & H2) Hn1 Hn2. unfold insertNth.
  destruct (skipn k l) as [| z tl] eqn:Es.
  - exists (firstn k l), n. auto.
  - assert (Hl : l = firstn k l ++ z :: tl) by (rewrite <- Es, firstn_skipn; reflexivity).
    assert (Htl : exists t0, z :: tl = t0 ++ [y]).
    { rewrite E in Hl. revert Hl. generalize (firstn k l) as p. intros p Hp.
      destruct (exists_last (l := z :: tl)) as (t0 & w & Ew); [discriminate|].
      exists t0. rewrite Ew in *. rewrite app_assoc in Hp.
      apply app_inj_tail in Hp. destruct Hp as [_ ->]. reflexivity. }
    destruct Htl as (t0 & Et). rewrite Et.
    exists (firstn k l ++ n :: t0), y. rewrite <- app_assoc. auto.
Qed.

Lemma endsFresh_insertAt_new old pos n F B :
  ~ In (iid n) old -> isLoad n = false ->
  endsFresh old (blockInsts F B) -> endsFresh old (blockInsts (insertAt pos n F) B).
Proof.
  intros Hn1 Hn2. induction F as [| b F IH]; intros He; [exact He|].
  simpl. destruct (pos b) as [k|] eqn:Ep.
  - destruct (Pos.eqb_spec (bid b) B) as [e | ne].
    + subst B. rewrite blockInsts_cons_eq in He.
      rewrite (blockInsts_cons_eq (mkBlock (bid b) (insertNth k n (insts b)))).
      simpl. apply endsFresh_insertNth_new; auto.
    + rewrite (blockInsts_cons_ne (mkBlock (bid b) _)) by exact ne.
      rewrite blockInsts_cons_ne in He by exact ne. exact He.
  - destruct (Pos.eqb_spec (bid b) B) as [e | ne].
    + subst B. rewrite blockInsts_cons_eq in *. exact He.
    + rewrite blockInsts_cons_ne in * by exact ne. apply IH; auto.
Qed.

Lemma endsFresh_updInst old u g F B :
  (forall y, iid (g y) = iid y) ->
  (forall y, isLoad y = false -> isLoad (g y) = false) ->
  endsFresh old (blockInsts F B) -> endsFresh old (blockInsts (updInst u g F) B).
Proof.
  intros Hid Hl (l0 & y & E & H1 & H2). rewrite blockInsts_updInst, E, map_app. simpl.
  eexists _, _. split; [reflexivity|].
  destruct (Pos.eqb (iid y) u); [rewrite Hid; auto | auto].
Qed.

Lemma endsFresh_erase old c F B :
  In c old ->
  endsFresh old (blockInsts F B) -> endsFresh old (blockInsts (eraseFromParent c F) B).
Proof.
  intros Hc (l0 & y & E & H1 & H2).
  apply (endsFresh_intro old y); auto.
  apply endsWith_erase; [| exists l0; exact E].
  intros e. apply H1. rewrite e. exact Hc.
Qed.

Section FreshEnd.
Variable alloc : list positive -> positive.
Hypothesis alloc_fresh : forall l, ~ In (alloc l) l.
Variable uniqueName : function -> string -> string.
Hypothesis uniqueName_prefix :
  forall F nm, String.prefix nm (uniqueName F nm) = true.

Lemma endsFresh_demoteUser old x slot nm ty F U B :
  NoDup (ids F) ->
  endsFresh old (blockInsts F B) ->
  endsFresh old (blockInsts (demoteUser alloc uniqueName x slot nm ty F U) B).
Proof.
  intros Hnd He. unfold demoteUser.
  destruct (findInst F U) as [UI|] eqn:EU; [| exact He].
  assert (Hother : endsFresh old
            (blockInsts (updInst U (replaceUsesOfWith x (VInst (alloc (ids F))))
               (insertAt (posBefore U)
                  (mkReload (alloc (ids F)) (uniqueName F (nm ++ ".reload")) ty slot)
                  F)) B)).
  { apply endsFresh_updInst.
    - reflexivity.
    - intros y Hy. rewrite isLoad_replaceUsesOfWith. exact Hy.
    - destruct He as (l0 & y & E & H1 & H2). apply (endsFresh_intro old y); auto.
      apply endsWith_insertBefore. exists l0. exact E. }
  destruct (ikd UI) as [| c args | inc | | | | | | | | |] eqn:EK; try exact Hother.
  apply endsFresh_updInst.
  - reflexivity.
  - reflexivity.
  - destruct He as (l0 & y & E & H1 & H2). apply (endsFresh_intro old y); auto.
    apply endsWith_demotePHILoop. exists l0. exact E.
Qed.

Lemma endsFresh_fold_demoteUser old x slot nm ty B us :
  forall F,
    NoDup (ids F) ->
    endsFresh old (blockInsts F B) ->
    endsFresh old
      (blockInsts (fold_left (demoteUser alloc uniqueName x slot nm ty) us F) B).
Proof.
  induction us as [| U us IH]; simpl; intros F Hnd He; [exact He|].
  apply IH.
  - apply (demoteUser_gstep alloc alloc_fresh uniqueName x slot nm ty F U). exact Hnd.
  - apply endsFresh_demoteUser; auto.
Qed.

Lemma endsFresh_Demote old F y AP B :
  NoDup (ids F) -> users F y <> [] -> incl old (ids F) ->
  endsFresh old (blockInsts F B) ->
  endsFresh old (blockInsts (DemoteRegToStack alloc uniqueName F y AP) B).
Proof.
  intros Hnd Hus Hold He. unfold DemoteRegToStack.
  destruct (findInst F y) as [yi|]; [| exact He].
  destruct (users F y) as [| u us] eqn:Eu; [contradiction|].
  set (Slot := alloc (ids F)).
  set (slotI := mkInst Slot (uniqueName F (iname yi ++ ".reg2mem")) TPtr (Alloca (ity yi))).
  set (F1 := insertAt (posBefore AP) slotI F).
  set (F2 := fold_left _ _ F1).
  assert (G1 : gstep (eq y) F F1).
  { unfold F1. apply (insert_gstep alloc alloc_fresh); [reflexivity | apply posBefore_nonempty
                                           | reflexivity]. }
  destruct (G1 Hnd) as [Hf1 Hnd1].
  assert (G2 : gstep (eq y) F1 F2).
  { unfold F2. apply (fold_demoteUser_gstep alloc alloc_fresh). }
  destruct (G2 Hnd1) as [Hf2 Hnd2].
  assert (He2 : endsFresh old (blockInsts F2 B)).
  { unfold F2. apply endsFresh_fold_demoteUser; auto.
    destruct He as (l0 & z & E & H1 & H2). apply (endsFresh_intro old z); auto.
    unfold F1. apply endsWith_insertBefore. exists l0. exact E. }
  apply endsFresh_insertAt_new; auto.
  simpl. intros Hin. apply (alloc_fresh (ids F2)).
  eapply frel_ids_incl; [exact Hf2|]. eapply frel_ids_incl; [exact Hf1|].
  apply Hold. exact Hin.
Qed.

Lemma endsFresh_fold_Demote old AP B xs :
  NoDup xs ->
  forall F,
    NoDup (ids F) -> (forall y, In y xs -> users F y <> []) -> incl old (ids F) ->
    endsFresh old (blockInsts F B) ->
    endsFresh old
      (blockInsts (fold_left (fun G d => DemoteRegToStack alloc uniqueName G d AP) xs F) B).
Proof.
  induction 1 as [| y xs Hy Hndx IH]; simpl; intros F Hnd Hu Hold He; [exact He|].
  assert (G1 : gstep (eq y) F (DemoteRegToStack alloc uniqueName F y AP)).
  { apply (DemoteRegToStack_gstep alloc alloc_fresh); auto. }
  destruct (G1 Hnd) as [Hf1 Hn1].
  apply IH; auto.
  - intros y' Hy'. eapply frel_users; eauto. intros ->. contradiction.
  - intros i Hi. eapply frel_ids_incl; [exact Hf1|]. apply Hold. exact Hi.
  - apply endsFresh_Demote; auto.
Qed.
End FreshEnd.

(** * Instructions the pass keeps: demotion *)

Lemma findIn_indexOf i l x : findIn i l = Some x -> indexOf i l <> None.
Proof.
  induction l as [| y l IH]; simpl; [discriminate|].
  destruct (Pos.eqb (iid y) i); [discriminate|].
  intros H. destruct (indexOf i l); [discriminate|]. apply IH in H. congruence.
Qed.

Lemma findInst_posBefore F U UI :
  findInst F U = Some UI -> exists b, In b F /\ posBefore U b <> None.
Proof.
  induction F as [| b F IH]; simpl; [discriminate|].
  destruct (findIn U (insts b)) as [x|] eqn:E.
  - intros _. exists b. split; [left; reflexivity|].
    unfold posBefore. eapply findIn_indexOf; eauto.
  - intros H. destruct (IH H) as (b0 & Hb0 & Hp). exists b0. auto.
Qed.

Section KeepDemote.
Variable alloc : list positive -> positive.
Hypothesis alloc_fresh : forall l, ~ In (alloc l) l.
Variable uniqueName : function -> string -> string.
Hypothesis uniqueName_prefix :
  forall F nm, String.prefix nm (uniqueName F nm) = true.

(** The loop over the incoming pairs of a PHI user only inserts reloads. *)
Lemma allInsts_demotePHILoop x slot nm ty inc :
  forall Loads F,
    incl (allInsts F)
         (allInsts (fst (demotePHILoop alloc uniqueName x slot nm ty inc Loads F))) /\
    forall J, In J (allInsts (fst (demotePHILoop alloc uniqueName x slot nm ty inc Loads F))) ->
              In J (allInsts F) \/ ikd J = Load (VInst slot).
Proof.
  induction inc as [| [v b] inc IH]; simpl; intros Loads F.
  - split; [apply incl_refl | auto].
  - destruct (isVInst x v); [destruct (olookup b Loads)|]; simpl; try apply IH.
    set (F1 := insertAt _ _ F).
    destruct (IH ((b, VInst (alloc (ids F))) :: Loads) F1) as [H1 H2]. split.
    + eapply incl_tran; [| exact H1]. apply allInsts_insertAt.
    + intros J HJ. destruct (H2 J HJ) as [H | H]; [| auto].
      apply allInsts_insertAt_inv in H. destruct H as [-> | H]; auto.
Qed.

Lemma keeps_demoteUser K x slot nm ty F U :
  NoDup (ids F) -> keeps K F (demoteUser alloc uniqueName x slot nm ty F U).
Proof.
  intros Hnd. unfold demoteUser.
  destruct (findInst F U) as [UI|] eqn:EU; [| apply keeps_refl].
  assert (HUI : In UI (allInsts F) /\ iid UI = U) by (apply findInst_Some; auto).
  destruct HUI as [HUI HUid].
  assert (Hother : keeps K F
            (updInst U (replaceUsesOfWith x (VInst (alloc (ids F))))
               (insertAt (posBefore U)
                  (mkReload (alloc (ids F)) (uniqueName F (nm ++ ".reload")) ty slot)
                  F))).
  { eapply keeps_trans; [apply keeps_insertAt|].
    apply keeps_updInst_replace.
    exists (mkReload (alloc (ids F)) (uniqueName F (nm ++ ".reload")) ty slot).
    split; [| split; reflexivity].
    apply allInsts_insertAt_new. eapply findInst_posBefore; eauto. }
  destruct (ikd UI) as [| c args | inc | | | | | | | | |] eqn:EK; try exact Hother.
  destruct (demotePHILoop_gstep alloc alloc_fresh uniqueName
              (eq x) x slot nm ty inc [] F Hnd) as [_ Hnd2].
  destruct (allInsts_demotePHILoop x slot nm ty inc [] F) as [Hincl _].
  eapply keeps_trans; [apply keeps_incl; exact Hincl|].
  apply (keeps_updInst_PHI K U UI); auto.
  - rewrite <- HUid. apply findInst_NoDup; auto.
  - unfold isPHI. rewrite EK. reflexivity.
Qed.

Lemma keeps_fold_demoteUser K x slot nm ty us :
  forall F, NoDup (ids F) ->
            keeps K F (fold_left (demoteUser alloc uniqueName x slot nm ty) us F).
Proof.
  induction us as [| U us IH]; simpl; intros F Hnd; [apply keeps_refl|].
  eapply keeps_trans; [apply keeps_demoteUser; exact Hnd|].
  apply IH. apply (demoteUser_gstep alloc alloc_fresh uniqueName x slot nm ty F U). exact Hnd.
Qed.

Lemma keeps_Demote K F x AP :
  NoDup (ids F) -> users F x <> [] ->
  keeps K F (DemoteRegToStack alloc uniqueName F x AP).
Proof.
  intros Hnd Hus. unfold DemoteRegToStack.
  destruct (findInst F x) as [xi|]; [| apply keeps_refl].
  destruct (users F x) as [| u us] eqn:Eu; [contradiction|].
  eapply keeps_trans; [| apply keeps_insertAt].
  eapply keeps_trans; [apply keeps_insertAt|].
  apply keeps_fold_demoteUser.
  apply (insert_gstep alloc alloc_fresh (eq x));
    [reflexivity | apply posBefore_nonempty | reflexivity | exact Hnd].
Qed.

Lemma keeps_fold_Demote K AP xs :
  NoDup xs ->
  forall F,
    NoDup (ids F) -> (forall y, In y xs -> users F y <> []) ->
    keeps K F (fold_left (fun G d => DemoteRegToStack alloc uniqueName G d AP) xs F).
Proof.
  induction 1 as [| y xs Hy Hndx IH]; simpl; intros F Hnd Hu; [apply keeps_refl|].
  assert (G1 : gstep (eq y) F (DemoteRegToStack alloc uniqueName F y AP)).
  { apply (DemoteRegToStack_gstep alloc alloc_fresh); auto. }
  destruct (G1 Hnd) as [Hf1 Hn1].
  eapply keeps_trans; [apply keeps_Demote; auto|].
  apply IH; auto.
  intros y' Hy'. eapply frel_users; eauto. intros ->. contradiction.
Qed.

(** ** After its demotion a value is used by its store only *)

Lemma usesb_replaceUsesOfWith_self x w I :
  w <> VInst x -> usesb x (replaceUsesOfWith x w I) = false.
Proof.
  intros Hw. destruct (usesb x (replaceUsesOfWith x w I)) eqn:E; [| reflexivity].
  exfalso. apply usesb_In in E. unfold replaceUsesOfWith in E. simpl in E.
  rewrite operands_mapOperands in E. apply in_map_iff in E.
  destruct E as (v & Hv & _). unfold substValue in Hv.
  destruct (isVInst x v) eqn:Ev; [congruence|].
  subst v. simpl in Ev. rewrite Pos.eqb_refl in Ev. discriminate.
Qed.

Lemma clears_demoteUser x slot nm ty F U rem :
  NoDup (ids F) -> In x (ids F) -> slot <> x ->
  (forall I, In I (allInsts F) -> isPHI I = false -> usesb x I = true ->
             In (iid I) (U :: rem)) ->
  forall I, In I (allInsts (demoteUser alloc uniqueName x slot nm ty F U)) ->
            isPHI I = false -> usesb x I = true -> In (iid I) rem.
Proof.
  intros Hnd Hx Hslot HQ I HI HP Hu. unfold demoteUser in HI.
  assert (Hload : forall J, ikd J = Load (VInst slot) -> usesb x J = false).
  { intros J EJ. unfold usesb. rewrite EJ. simpl.
    destruct (Pos.eqb_spec slot x); [contradiction | reflexivity]. }
  destruct (findInst F U) as [UI|] eqn:EU.
  2: { destruct (HQ I HI HP Hu) as [e | H]; [| exact H].
       exfalso. apply findInst_None in EU. apply EU. rewrite e.
       apply In_ids_allInsts. exact HI. }
  assert (Hcase : forall g (G : function),
            (forall J, In J (allInsts G) -> In J (allInsts F) \/ ikd J = Load (VInst slot)) ->
            (forall J, isPHI (g J) = false -> usesb x (g J) = false) ->
            In I (allInsts (updInst U g G)) -> In (iid I) rem).
  { intros g G HG Hg HIn. unfold updInst in HIn. rewrite allInsts_mapInsts in HIn.
    apply in_map_iff in HIn. destruct HIn as (J & EJ & HJ).
    destruct (Pos.eqb_spec (iid J) U) as [e | ne].
    - subst I. rewrite Hg in Hu by exact HP. discriminate.
    - subst I. destruct (HG J HJ) as [HJF | HJl].
      + destruct (HQ J HJF HP Hu) as [e | H]; [congruence | exact H].
      + rewrite (Hload J HJl) in Hu. discriminate. }
  destruct (ikd UI) as [| c args | inc | | | | | | | | |] eqn:EK.
  3: { eapply Hcase; [| | exact HI].
       - apply allInsts_demotePHILoop.
       - intros J HJ. unfold isPHI in HJ. simpl in HJ. discriminate. }
  all: eapply Hcase; [| | exact HI];
    [ intros J HJ; apply allInsts_insertAt_inv in HJ; destruct HJ as [-> | HJ]; auto
    | intros J _; apply usesb_replaceUsesOfWith_self;
      intros [= e]; apply (alloc_fresh (ids F)); rewrite e; exact Hx ].
Qed.

Lemma clears_fold_demoteUser x slot nm ty us :
  forall F,
    NoDup (ids F) -> In x (ids F) -> slot <> x ->
    (forall I, In I (allInsts F) -> isPHI I = false -> usesb x I = true ->
               In (iid I) us) ->
    forall I, In I (allInsts (fold_left (demoteUser alloc uniqueName x slot nm ty) us F)) ->
              isPHI I = false -> usesb x I = false.
Proof.
  induction us as [| U us IH]; simpl; intros F Hnd Hx Hslot HQ I HI HP.
  - destruct (usesb x I) eqn:E; [| reflexivity]. destruct (HQ I HI HP E).
  - assert (G1 : gstep (eq x) F (demoteUser alloc uniqueName x slot nm ty F U)).
    { apply (demoteUser_gstep alloc alloc_fresh). }
    destruct (G1 Hnd) as [Hf1 Hnd1].
    apply (IH (demoteUser alloc uniqueName x slot nm ty F U)); auto.
    + eapply frel_ids_incl; eauto.
    + apply clears_demoteUser; auto.
Qed.

(** What still uses [x] after [DemoteRegToStack], PHI nodes apart, is
    new: it is the store. *)
Lemma Demote_clears F x AP :
  NoDup (ids F) -> In x (ids F) ->
  forall I, In I (allInsts (DemoteRegToStack alloc uniqueName F x AP)) ->
            isPHI I = false -> usesb x I = true -> ~ In (iid I) (ids F).
Proof.
  intros Hnd Hx I HI HP Hu. unfold DemoteRegToStack in HI.
  destruct (findInst F x) as [xi|] eqn:Ex.
  2: { apply findInst_None in Ex. contradiction. }
  destruct (users F x) as [| u us] eqn:Eu.
  { exfalso. rewrite allInsts_eraseFromParent in HI. apply filter_In in HI.
    destruct HI as [HI _].
    assert (Hne : users F x <> []) by (apply users_nonempty; eauto).
    congruence. }
  set (Slot := alloc (ids F)) in *.
  set (slotI := mkInst Slot (uniqueName F (iname xi ++ ".reg2mem")) TPtr (Alloca (ity xi)))
    in *.
  set (F1 := insertAt (posBefore AP) slotI F) in *.
  set (F2 := fold_left _ _ F1) in *.
  assert (G1 : gstep (eq x) F F1).
  { unfold F1. apply (insert_gstep alloc alloc_fresh);
      [reflexivity | apply posBefore_nonempty | reflexivity]. }
  destruct (G1 Hnd) as [Hf1 Hnd1].
  assert (G2 : gstep (eq x) F1 F2).
  { unfold F2. apply (fold_demoteUser_gstep alloc alloc_fresh). }
  destruct (G2 Hnd1) as [Hf2 Hnd2].
  assert (Hslot : Slot <> x).
  { intros e. apply (alloc_fresh (ids F)). fold Slot. rewrite e. exact Hx. }
  assert (H2 : forall J, In J (allInsts F2) -> isPHI J = false -> usesb x J = false).
  { unfold F2. apply clears_fold_demoteUser; auto.
    - eapply frel_ids_incl; eauto.
    - intros J HJ HPJ HuJ. unfold F1 in HJ. apply allInsts_insertAt_inv in HJ.
      destruct HJ as [-> | HJ]; [discriminate|].
      unfold allInsts in HJ. apply in_flat_map in HJ. destruct HJ as (b & Hb & HJ).
      apply in_map_iff. exists (bid b, J). split; [reflexivity|].
      rewrite <- Eu. apply users_In. exists b. auto. }
  apply allInsts_insertAt_inv in HI. destruct HI as [-> | HI].
  - simpl. intros Hin. apply (alloc_fresh (ids F2)).
    eapply frel_ids_incl; [exact Hf2|]. eapply frel_ids_incl; [exact Hf1|]. exact Hin.
  - rewrite (H2 I HI HP) in Hu. discriminate.
Qed.
End KeepDemote.

(** * Instructions the pass keeps: one call site *)

Lemma erasePrevIn_incl i l : incl (erasePrevIn i l) l.
Proof.
  induction l as [| x l IH]; simpl; [apply incl_refl|].
  destruct l as [| y l']; [apply incl_refl|].
  destruct (Pos.eqb (iid y) i).
  - apply incl_tl, incl_refl.
  - intros a [<- | Ha]; [left; auto | right; apply IH; exact Ha].
Qed.

Lemma allInsts_erasePrev i F : incl (allInsts (erasePrev i F)) (allInsts F).
Proof.
  unfold allInsts, erasePrev. induction F as [| b F IH]; simpl; [apply incl_refl|].
  apply incl_app; [apply incl_appl, erasePrevIn_incl | apply incl_appr, IH].
Qed.

Lemma keeps_ids_incl F G : keeps (fun _ => True) F G -> incl (ids F) (ids G).
Proof. intros H i Hi. apply (keeps_ids (fun _ => True) F G i H I Hi). Qed.

Section KeepRewrite.
Variable alloc : list positive -> positive.
Hypothesis alloc_fresh : forall l, ~ In (alloc l) l.
Variable uniqueName : function -> string -> string.
Hypothesis uniqueName_prefix :
  forall F nm, String.prefix nm (uniqueName F nm) = true.

(** One call site: every instruction of [F] whose address is in [K] is
    kept, and what uses the call afterwards, PHI nodes apart, is new. *)
Lemma rewriteCaller_keeps K cb E AP F toRet toPar c A1 P M1 m M2 A2 :
  NoDup (ids F) -> NoDup (bids F) ->
  bview F = A1 ++ (P, M1 ++ m :: M2) :: A2 -> markId m = c ->
  (forall i, K i -> In i (ids F)) ->
  let F' := rsF (rewriteCaller alloc uniqueName cb E AP (mkRS F toRet toPar) c) in
  keeps K F F' /\
  (forall I, In I (allInsts F') -> isPHI I = false -> usesb c I = true ->
             ~ In (iid I) (ids F)).
Proof.
  intros Hnd Hnb Hv Hc HK.
  destruct (bview_app_inv _ _ _ Hv) as (G1 & G2' & HF & HA1 & H2).
  destruct (bview_cons_inv _ _ _ _ H2) as (b & G2 & -> & HbP & HM & HA2).
  destruct (marks_mid_inv _ _ _ _ HM) as (l1 & ci & l2 & Hb & HM1 & Hci & HM2).
  assert (Hcid : iid ci = c) by (rewrite <- (view_markId _ _ Hci); auto).
  assert (Hids : ids F = ids G1 ++ (map iid l1 ++ c :: map iid l2) ++ ids G2).
  { rewrite HF, ids_app. unfold ids at 2. simpl. fold (ids G2).
    rewrite Hb, map_app. simpl. rewrite Hcid. reflexivity. }
  assert (Hbids : bids F = bids G1 ++ P :: bids G2).
  { rewrite HF, bids_app. simpl. rewrite HbP. reflexivity. }
  assert (HcF : In c (ids F)).
  { rewrite Hids. apply in_or_app. right. apply in_or_app. left.
    apply in_or_app. right. left. reflexivity. }
  assert (HcN : ~ In c (ids G1) /\ ~ In c (map iid l1)).
  { rewrite Hids in Hnd. apply NoDup_mid_notin' in Hnd. tauto. }
  destruct HcN as [HcG1 Hcl1].
  assert (HPN : ~ In P (bids G1) /\ ~ In P (bids G2)).
  { rewrite Hbids in Hnb. apply NoDup_remove_2 in Hnb. rewrite in_app_iff in Hnb. tauto. }
  destruct HPN as [HPG1 HPG2].
  set (R := alloc (bids F)).
  assert (HR : ~ In R (bids F)) by apply alloc_fresh.
  assert (HRP : R <> P).
  { intros e. apply HR. rewrite Hbids, e. apply in_or_app. right. left. auto. }
  set (brI := mkInst (alloc (ids F)) "" TVoid (Br R)).
  set (F1a := G1 ++ mkBlock (bid b) (l1 ++ [ci; brI]) :: mkBlock R l2 :: G2).
  assert (HF1a : F1a = splitAt c R brI F).
  { unfold F1a. rewrite HF. symmetry. apply splitAt_mid; auto. }
  assert (Hnd1a : NoDup (ids F1a)).
  { rewrite HF1a. apply NoDup_splitAt; auto. apply alloc_fresh. }
  intros F'. subst F'. unfold rewriteCaller. simpl rsF.
  assert (HgP : getParent F c = Some P).
  { rewrite HF, <- HbP. apply getParent_mid; auto.
    rewrite Hb, map_app. apply in_or_app. right. left. auto. }
  rewrite HgP. cbv zeta. simpl rsF. fold R.
  set (F1 := splitBasicBlock F c R (alloc (ids F))).
  assert (HF1 : exists succs, F1 = replaceSuccessorsPhiUsesWith succs P R F1a).
  { unfold F1, splitBasicBlock. rewrite HgP. cbv zeta. fold brI. rewrite <- HF1a.
    eexists. reflexivity. }
  assert (Hs1 : gstep (fun _ => False) F1a F1).
  { generalize (splitBasicBlock_spec (fun _ => False) G1 b G2 c l1 ci l2 R
                  (alloc (ids F)) HcG1 Hb Hcl1 Hcid).
    rewrite <- HF. auto. }
  assert (Hnd1 : NoDup (ids F1)) by (apply Hs1; auto).
  set (xs := map iid (filter (fun I => negb (isAlloca I && Pos.eqb P E)
                                       && valueEscapes F1 (iid I)) (blockInsts F1 P))).
  set (F2 := fold_left (fun G d => DemoteRegToStack alloc uniqueName G d AP) xs F1).
  assert (Hxs : NoDup xs).
  { unfold xs. apply NoDup_map_filter. apply blockInsts_NoDup. exact Hnd1. }
  assert (Hus : forall x, In x xs -> users F1 x <> []).
  { intros x Hx. unfold xs in Hx. apply in_map_iff in Hx.
    destruct Hx as (I & <- & HI). apply filter_In in HI. destruct HI as [_ HI].
    apply andb_true_iff in HI. apply escapes_users. tauto. }
  assert (Hs2 : gstep (fun y => In y xs) F1 F2).
  { apply (fold_Demote_gstep alloc alloc_fresh); auto. }
  assert (Hnd2 : NoDup (ids F2)) by (apply Hs2; auto).
  set (F3 := moveToFirstNonPHI c R F2).
  assert (Hnd3 : NoDup (ids F3)) by (apply NoDup_move; exact Hnd2).
  set (F4 := match users F3 c with
             | [] => F3
             | _ :: _ => DemoteRegToStack alloc uniqueName F3 c AP
             end).
  assert (Hs4 : gstep (eq c) F3 F4).
  { unfold F4. destruct (users F3 c) eqn:EU; [apply gstep_refl|].
    apply (DemoteRegToStack_gstep alloc alloc_fresh); auto. rewrite EU. discriminate. }
  assert (Hnd4 : NoDup (ids F4)) by (apply Hs4; auto).
  assert (Hb2 : bids F2 = bids F1a).
  { rewrite <- (frel_bids _ _ _ (gstep_frel _ _ _ Hs2 Hnd1)).
    symmetry. eapply frel_bids. apply Hs1. exact Hnd1a. }
  assert (HRin2 : In R (bids F2)).
  { rewrite Hb2. unfold F1a. rewrite bids_app. apply in_or_app. right. right. left.
    reflexivity. }
  (* every instruction is kept up to [F4] *)
  assert (K1 : forall K0, keeps K0 F F1) by (intros K0; apply keeps_splitBasicBlock).
  assert (K2 : forall K0, keeps K0 F1 F2).
  { intros K0. apply keeps_fold_Demote; auto. }
  assert (K3 : forall K0, keeps K0 F2 F3).
  { intros K0. apply keeps_move; auto. }
  assert (K4 : forall K0, keeps K0 F3 F4).
  { intros K0. unfold F4. destruct (users F3 c) eqn:EU; [apply keeps_refl|].
    apply keeps_Demote; auto. rewrite EU. discriminate. }
  assert (K13 : forall K0, keeps K0 F F3).
  { intros K0. eapply keeps_trans; [apply K1|]. eapply keeps_trans; [apply K2 | apply K3]. }
  assert (K14 : forall K0, keeps K0 F F4).
  { intros K0. eapply keeps_trans; [apply K13 | apply K4]. }
  assert (Hi1 : incl (ids F) (ids F1)) by (apply keeps_ids_incl; apply K1).
  assert (Hi3 : incl (ids F) (ids F3)) by (apply keeps_ids_incl; apply K13).
  (* the end of block [P] *)
  assert (He1 : endsFresh (ids F) (blockInsts F1 P)).
  { apply (endsFresh_intro (ids F) brI); [| apply alloc_fresh | reflexivity].
    destruct HF1 as [succs ->]. apply endsWith_replaceSuccessors; [reflexivity|].
    unfold F1a. rewrite blockInsts_app_notin by auto.
    rewrite <- HbP, (blockInsts_cons_eq (mkBlock (bid b) (l1 ++ [ci; brI]))).
    exists (l1 ++ [ci]). rewrite <- app_assoc. reflexivity. }
  assert (He2 : endsFresh (ids F) (blockInsts F2 P)).
  { unfold F2. apply endsFresh_fold_Demote; auto. }
  assert (He3 : endsFresh (ids F) (blockInsts F3 P)).
  { unfold F3, moveToFirstNonPHI. destruct (findInst F2 c) as [ci2|]; [| exact He2].
    rewrite blockInsts_insertAt.
    - apply endsFresh_erase; auto.
    - intros b0 Hb0. unfold posFirstNonPHI.
      destruct (Pos.eqb_spec (bid b0) R); congruence. }
  assert (He4 : endsFresh (ids F) (blockInsts F4 P)).
  { unfold F4. destruct (users F3 c) eqn:EU; [exact He3|].
    apply endsFresh_Demote; auto. rewrite EU. discriminate. }
  set (brC := mkInst (alloc (ids F4)) "" TVoid (Br cb)).
  change (alloc (ids F4)) with (iid brC).
  destruct He4 as (l0 & y & El & Hy1 & Hy2).
  split.
  - eapply keeps_trans; [apply K14|].
    apply (keeps_erasePrev K P brC F4 l0 y);
      [apply alloc_fresh | exact El | | exact Hy2 | exact Hnd4].
    intros Hk. apply Hy1. apply HK. exact Hk.
  - intros I HI HP Hu. apply allInsts_erasePrev in HI.
    apply allInsts_insertAt_inv in HI. destruct HI as [-> | HI]; [discriminate|].
    unfold F4 in HI. destruct (users F3 c) eqn:EU.
    + exfalso. assert (Hne : users F3 c <> []) by (apply users_nonempty; eauto).
      congruence.
    + intros Hin.
      apply (Demote_clears alloc alloc_fresh uniqueName F3 c AP Hnd3 (Hi3 c HcF)
               I HI HP Hu).
      apply Hi3. exact Hin.
Qed.
End KeepRewrite.

(** * Instructions the pass keeps: the call sites of one group *)

Lemma In_ids_inst F i : In i (ids F) -> exists I, In I (allInsts F) /\ iid I = i.
Proof.
  rewrite ids_allInsts. intros H. apply in_map_iff in H.
  destruct H as (I & e & HI). eauto.
Qed.

(** An instruction that is kept uses, of the values that are not loads,
    only what it used before. *)
Lemma kept_usesb F' I I' d :
  kept F' I I' -> isPHI I' = false -> usesb d I' = true ->
  (forall L, In L (allInsts F') -> iid L = d -> isLoad L = false) ->
  isPHI I = false /\ usesb d I = true.
Proof.
  intros (_ & _ & _ & HP & Hops) HP' Hu Hd.
  assert (HPI : isPHI I = false).
  { destruct (isPHI I) eqn:E; [| reflexivity]. rewrite HP in HP' by reflexivity.
    discriminate. }
  split; [exact HPI|].
  destruct (Hops HPI) as [_ Ho]. apply usesb_In in Hu. apply usesb_In.
  destruct (Forall2_In_r _ _ _ _ Ho Hu)
    as (v & Hv & [e | (x & r & -> & e & (L & HL & e2 & l))]).
  - rewrite e. exact Hv.
  - exfalso. injection e as <-. rewrite (Hd L HL e2) in l. discriminate.
Qed.

(** The instruction of a call mark is no load. *)
Lemma call_mark_not_load F m :
  NoDup (ids F) -> In m (allMarks F) -> isCallMark m = true ->
  forall L, In L (allInsts F) -> iid L = markId m -> isLoad L = false.
Proof.
  intros Hnd Hm Hc L HL e.
  rewrite allMarks_allInsts in Hm. apply marks_In in Hm. destruct Hm as (J & HJ & Hv).
  assert (L = J).
  { apply findInst_NoDup in HL; auto. apply findInst_NoDup in HJ; auto.
    rewrite e, (view_markId _ _ Hv) in HL. congruence. }
  subst L. pose proof (view_isCall J) as H. rewrite Hv, Hc in H.
  unfold isCall in H. unfold isLoad. destruct (ikd J); try discriminate; reflexivity.
Qed.

Section KeepLoop.
Variable alloc : list positive -> positive.
Hypothesis alloc_fresh : forall l, ~ In (alloc l) l.
Variable uniqueName : function -> string -> string.
Hypothesis uniqueName_prefix :
  forall F nm, String.prefix nm (uniqueName F nm) = true.

(** The loop over the call sites: the instructions of [F0] whose
    address is in [K] are kept, and none of them, PHI nodes apart, uses
    a call site that has been rewritten. *)
Lemma rewrite_keeps (K : instid -> Prop) F0 cb t Mall E ME0 EB AP cs :
  (forall i, K i -> In i (ids F0)) ->
  forall done rs,
    rewInv cb t Mall E ME0 done cs rs ->
    (forall c, In c done -> exists m, In m Mall /\ markId m = c /\ isCallMark m = true) ->
    keeps K F0 (rsF rs) ->
    (forall c I, In c done -> In I (allInsts (rsF rs)) -> K (iid I) ->
                 isPHI I = false -> usesb c I = false) ->
    let rs' := fold_left (rewriteCaller alloc uniqueName cb EB AP) cs rs in
    keeps K F0 (rsF rs') /\
    (forall c I, In c (done ++ cs) -> In I (allInsts (rsF rs')) -> K (iid I) ->
                 isPHI I = false -> usesb c I = false).
Proof.
  intros HK0. induction cs as [| c cs IH]; intros done rs Hinv Hdone Hk Hu; cbn [fold_left].
  - rewrite app_nil_r. auto.
  - pose proof (rewInv_step alloc alloc_fresh uniqueName cb t Mall E ME0 EB AP
                  done c cs rs Hinv) as Hinv'.
    assert (Hcm : exists m, In m Mall /\ markId m = c /\ isCallMark m = true).
    { destruct Hinv as (_ & _ & _ & _ & _ & _ & Htgt & _).
      destruct (Htgt c (or_introl eq_refl)) as (m & H1 & H2 & H3).
      exists m. split; [exact H1|]. split; [exact H2|].
      destruct m as [i [[| | | |f| |]|] a|]; simpl in *; try discriminate; reflexivity. }
    destruct rs as [F toRet toPar]. simpl in Hk, Hu.
    assert (Hinv0 := Hinv). unfold rewInv in Hinv. simpl in Hinv.
    destruct Hinv as (Hnd & Hnb & HM & Hcb & Hcbe & Hsub & _).
    assert (Hc : In c (map markId (flat_map snd (bview F)))).
    { rewrite <- allMarks_bview, HM. eapply subseq_In; eauto. left; auto. }
    destruct (view_find _ _ Hc) as (A1 & P & M1 & m & M2 & A2 & Hv & Hmc).
    assert (HKF : forall i, K i -> In i (ids F)).
    { intros i Hi. eapply keeps_ids; eauto. }
    destruct (rewriteCaller_keeps alloc alloc_fresh uniqueName K cb EB AP F toRet toPar c
                A1 P M1 m M2 A2 Hnd Hnb Hv Hmc HKF) as [Hk1 Hclr].
    set (rs1 := rewriteCaller alloc uniqueName cb EB AP (mkRS F toRet toPar) c) in *.
    assert (Hinv1 := Hinv'). unfold rewInv in Hinv1.
    destruct Hinv1 as (Hnd1 & _ & HM1 & _).
    assert (Hdone1 : forall c0, In c0 (done ++ [c]) ->
              exists m0, In m0 Mall /\ markId m0 = c0 /\ isCallMark m0 = true).
    { intros c0 Hc0. apply in_app_or in Hc0. destruct Hc0 as [Hc0 | [<- | []]]; auto. }
    destruct (IH (done ++ [c]) rs1 Hinv' Hdone1) as [R1 R2].
    + eapply keeps_trans; eauto.
    + intros c0 I' Hc0 HI' HKI HP.
      destruct (usesb c0 I') eqn:Eu; [exfalso | reflexivity].
      apply in_app_or in Hc0. destruct Hc0 as [Hc0 | [<- | []]].
      * destruct (In_ids_inst F (iid I') (HKF _ HKI)) as (I & HI & Hid).
        destruct Hk1 as [_ Hk1]. rewrite <- Hid in HKI.
        destruct (Hk1 I HI HKI) as (I'' & HI'' & Hkept).
        assert (I'' = I').
        { apply findInst_NoDup in HI''; auto. apply findInst_NoDup in HI'; auto.
          destruct Hkept as (e & _). rewrite e, Hid in HI''. congruence. }
        subst I''. destruct (Hdone c0 Hc0) as (m0 & Hm0 & Hid0 & Hcall0).
        destruct (kept_usesb _ _ _ c0 Hkept HP Eu) as [HPI HuI].
        { rewrite <- Hid0. apply call_mark_not_load; auto. rewrite HM1. exact Hm0. }
        rewrite (Hu c0 I Hc0 HI HKI HPI) in HuI. discriminate.
      * apply (Hclr I' HI' HP Eu). apply HKF. exact HKI.
    + split; [exact R1|]. intros c0 I Hc0. apply R2.
      rewrite <- app_assoc. exact Hc0.
Qed.
End KeepLoop.

(** * Instructions the pass keeps: the shared block and the erasure *)

Lemma keeps_addIncoming K node v b F : keeps K F (addIncoming node v b F).
Proof.
  unfold addIncoming. apply keeps_updInst_onPHI.
  - intros I. destruct (ikd I); auto.
  - intros I HP. unfold isPHI in *. destruct (ikd I) eqn:E; try discriminate.
    reflexivity.
  - intros I HP. unfold isPHI in HP. destruct (ikd I); try discriminate; reflexivity.
Qed.

(** What is not a PHI node after [addIncoming] was there before. *)
Lemma addIncoming_back node v b F I :
  In I (allInsts (addIncoming node v b F)) -> isPHI I = false -> In I (allInsts F).
Proof.
  unfold addIncoming, updInst. rewrite allInsts_mapInsts. intros HI HP.
  apply in_map_iff in HI. destruct HI as (J & <- & HJ).
  destruct (Pos.eqb (iid J) node); [| exact HJ].
  unfold isPHI in HP. destruct (ikd J) eqn:E; try exact HJ.
  simpl in HP. discriminate.
Qed.

Lemma mapOperands_same g k :
  (forall v, In v (operands k) -> g v = v) -> mapOperands g k = k.
Proof.
  assert (Hm : forall l, (forall v, In v l -> g v = v) -> map g l = l).
  { induction l as [| a l IH]; simpl; intros H; [reflexivity|].
    rewrite H by auto. rewrite IH; auto. }
  assert (Hp : forall l : list (value * blockid),
            (forall v, In v (map fst l) -> g v = v) ->
            map (fun p => (g (fst p), snd p)) l = l).
  { induction l as [| [a b] l IH]; simpl; intros H; [reflexivity|].
    rewrite H by auto. rewrite IH; auto. }
  destruct k as [| c args | inc | p | v p | v | | c t f | v d cases | [v|] | | o ops];
    simpl; intros H; try reflexivity.
  - rewrite (H c) by (apply in_or_app; right; left; reflexivity).
    rewrite Hm; [reflexivity|]. intros v Hv. apply H. apply in_or_app. left. exact Hv.
  - rewrite Hp; auto.
  - rewrite (H p) by (left; reflexivity). reflexivity.
  - rewrite (H v) by (left; reflexivity).
    rewrite (H p) by (right; left; reflexivity). reflexivity.
  - rewrite (H v) by (left; reflexivity). reflexivity.
  - rewrite (H c) by (left; reflexivity). reflexivity.
  - rewrite (H v) by (left; reflexivity).
    rewrite Hp; [reflexivity|]. intros v0 Hv. apply H. right. exact Hv.
  - rewrite (H v) by (left; reflexivity). reflexivity.
  - rewrite Hm; auto.
Qed.

Lemma replaceUsesOfWith_unused x w I : usesb x I = false -> replaceUsesOfWith x w I = I.
Proof.
  intros Hu. unfold replaceUsesOfWith. destruct I as [i nm ty k]. unfold setKind. simpl.
  f_equal. apply mapOperands_same. intros v Hv. unfold substValue.
  destruct (isVInst x v) eqn:E; [| reflexivity].
  exfalso. unfold usesb in Hu. simpl in Hu.
  assert (existsb (isVInst x) (operands k) = true)
    by (apply existsb_exists; exists v; auto).
  congruence.
Qed.

Lemma keeps_RAUW K c w F :
  (forall I, In I (allInsts F) -> K (iid I) -> isPHI I = false -> usesb c I = false) ->
  keeps K F (replaceAllUsesWith c (VInst w) F).
Proof.
  intros Hu. unfold replaceAllUsesWith. apply keeps_mapInsts.
  - reflexivity.
  - intros I _ Hl. rewrite isLoad_replaceUsesOfWith. exact Hl.
  - intros _ I HI HK. destruct (isPHI I) eqn:E.
    + unfold kept. split; [reflexivity|]. split; [reflexivity|]. split; [reflexivity|].
      split; [intros _; rewrite isPHI_replaceUsesOfWith; exact E | congruence].
    + rewrite replaceUsesOfWith_unused by (apply Hu; auto). apply kept_refl.
Qed.

Lemma keeps_eraseCallers K w cs :
  (forall i, K i -> ~ In i cs) ->
  forall G,
    (forall L, In L (allInsts G) -> isLoad L = true -> ~ In (iid L) cs) ->
    (forall c I, In c cs -> In I (allInsts G) -> K (iid I) -> isPHI I = false ->
                 usesb c I = false) ->
    keeps K G (eraseCallers w cs G).
Proof.
  unfold eraseCallers. induction cs as [| c cs IH]; intros HK G HL Hu; cbn [fold_left].
  - apply keeps_refl.
  - set (G1 := replaceAllUsesWith c (VInst w) G).
    assert (Hback : forall I, In I (allInsts (eraseFromParent c G1)) ->
              exists J, In J (allInsts G) /\ I = replaceUsesOfWith c (VInst w) J).
    { intros I HI. rewrite allInsts_eraseFromParent in HI. apply filter_In in HI.
      destruct HI as [HI _]. unfold G1, replaceAllUsesWith in HI.
      rewrite allInsts_mapInsts in HI. apply in_map_iff in HI.
      destruct HI as (J & <- & HJ). eauto. }
    eapply keeps_trans; [apply keeps_RAUW; intros; apply (Hu c); auto; left; reflexivity|].
    eapply keeps_trans.
    + apply keeps_erase.
      * intros Hk. apply (HK c Hk). left. reflexivity.
      * intros L HLin Hl e. unfold replaceAllUsesWith in HLin.
        rewrite allInsts_mapInsts in HLin. apply in_map_iff in HLin.
        destruct HLin as (J & <- & HJ). rewrite isLoad_replaceUsesOfWith in Hl.
        apply (HL J HJ Hl). left. symmetry. exact e.
    + apply IH.
      * intros i Hi Hin. apply (HK i Hi). right. exact Hin.
      * intros L HLin Hl Hin. destruct (Hback L HLin) as (J & HJ & ->).
        rewrite isLoad_replaceUsesOfWith in Hl. apply (HL J HJ Hl). right. exact Hin.
      * intros c' I Hc' HI HKI HP. destruct (Hback I HI) as (J & HJ & ->).
        rewrite isPHI_replaceUsesOfWith in HP. simpl in HKI.
        rewrite replaceUsesOfWith_unused by (apply (Hu c); auto; left; reflexivity).
        apply (Hu c'); auto. right. exact Hc'.
Qed.

Lemma quiet_refl G : quiet G G.
Proof. split; [intros K; apply keeps_refl | auto]. Qed.

Lemma quiet_trans G1 G2 G3 : quiet G1 G2 -> quiet G2 G3 -> quiet G1 G3.
Proof.
  intros [a1 a2] [b1 b2]. split.
  - intros K. eapply keeps_trans; eauto.
  - intros I HI HP. apply a2; auto.
Qed.

Lemma quiet_addIncoming node v b F : quiet F (addIncoming node v b F).
Proof.
  split; [intros K; apply keeps_addIncoming|].
  intros I. apply addIncoming_back.
Qed.

Lemma quiet_insertPHI pos n F : isPHI n = true -> quiet F (insertAt pos n F).
Proof.
  intros Hn. split; [intros K; apply keeps_insertAt|].
  intros I HI HP. apply allInsts_insertAt_inv in HI. destruct HI as [-> | HI]; auto.
  congruence.
Qed.

Section KeepGroup.
Variable alloc : list positive -> positive.
Hypothesis alloc_fresh : forall l, ~ In (alloc l) l.
Variable uniqueName : function -> string -> string.
Hypothesis uniqueName_prefix :
  forall F nm, String.prefix nm (uniqueName F nm) = true.
Variable arg_types : funcid -> list typ.
Variable ret_type : funcid -> typ.

Lemma quiet_buildArgPHI cb callers toPar st A :
  quiet (fst (fst st)) (fst (fst (buildArgPHI alloc cb callers toPar st A))).
Proof.
  destruct st as [[F args] n]. unfold buildArgPHI. simpl.
  set (node := alloc (ids F)).
  eapply quiet_trans; [apply (quiet_insertPHI (posEnd cb) (mkInst node "" A (PHI [])));
                       reflexivity|].
  generalize (insertAt (posEnd cb) (mkInst node "" A (PHI [])) F).
  induction callers as [| c cs IH]; intros G; simpl; [apply quiet_refl|].
  eapply quiet_trans; [| apply IH].
  destruct (olookup c toPar); [apply quiet_addIncoming | apply quiet_refl].
Qed.

Lemma quiet_buildArgs cb t callers toPar F :
  quiet F (fst (buildArgs alloc arg_types cb t callers toPar F)).
Proof.
  unfold buildArgs. destruct (0 <? List.length (arg_types t))%nat; [| apply quiet_refl].
  change F with (fst (fst (F, @nil value, O))) at 1.
  generalize (F, @nil value, O). induction (arg_types t) as [| A tys IH]; intros st; simpl.
  - apply quiet_refl.
  - eapply quiet_trans; [apply quiet_buildArgPHI | apply IH].
Qed.

Lemma keeps_addCase K sw v b F : ~ K sw -> keeps K F (addCase sw v b F).
Proof.
  intros HK. unfold addCase. apply keeps_updInst_other; auto.
  - intros I. destruct (ikd I); reflexivity.
  - intros I Hl. unfold isLoad in Hl. destruct (ikd I); try discriminate; reflexivity.
Qed.

Lemma keeps_emitRouter K cb ci toRet F :
  (forall i, K i -> In i (ids F)) -> keeps K F (emitRouter alloc cb ci toRet F).
Proof.
  intros HK. unfold emitRouter.
  set (wf := alloc (ids F)).
  set (F5 := insertAt (posBefore ci) (mkInst wf "" (TInt 32) (PHI [])) F).
  assert (K5 : keeps K F F5) by apply keeps_insertAt.
  destruct toRet as [| first rest]; [exact K5|].
  set (sw := alloc (ids F5)).
  set (F6 := insertAt (posEnd cb) _ F5).
  assert (Hsw : ~ K sw).
  { intros Hk. apply (alloc_fresh (ids F5)). apply ids_insertAt_incl. apply HK. exact Hk. }
  eapply keeps_trans; [exact K5|].
  apply (keeps_trans K F5 F6); [apply keeps_insertAt|].
  generalize F6 0%Z. generalize (first :: rest).
  induction l as [| e l IH]; intros G z; simpl; [apply keeps_refl|].
  eapply keeps_trans; [| apply IH].
  eapply keeps_trans; [apply keeps_addIncoming | apply keeps_addCase; exact Hsw].
Qed.
End KeepGroup.

(** * Instructions the pass keeps: one group *)

Section KeepMerge.
Variable alloc : list positive -> positive.
Hypothesis alloc_fresh : forall l, ~ In (alloc l) l.
Variable uniqueName : function -> string -> string.
Hypothesis uniqueName_prefix :
  forall F nm, String.prefix nm (uniqueName F nm) = true.
Variable arg_types : funcid -> list typ.
Variable ret_type : funcid -> typ.

Lemma prepared_keeps K F : keeps K F (prepared alloc uniqueName F).
Proof.
  unfold prepared. eapply keeps_trans; [| apply keeps_insertAt].
  apply keeps_incl. unfold withCallBlock. rewrite allInsts_app.
  apply incl_appl, incl_refl.
Qed.

(** The loop over the call sites of a group, started in [F]. *)
Lemma rewriteGroup_keeps (K : instid -> Prop) F t callers :
  wf F -> callers = callsTo t F -> (2 <= List.length callers)%nat ->
  (forall i, K i -> In i (ids F)) ->
  let rs := rewriteGroup alloc uniqueName F callers in
  keeps K F (rsF rs) /\
  (forall c I, In c callers -> In I (allInsts (rsF rs)) -> K (iid I) ->
               isPHI I = false -> usesb c I = false) /\
  NoDup (ids (rsF rs)) /\
  (forall c L, In c callers -> In L (allInsts (rsF rs)) -> iid L = c ->
               isLoad L = false).
Proof.
  intros [Hnd Hnb] Hc Hk HK rs.
  assert (Hne : callsTo t F <> []).
  { rewrite <- Hc. destruct callers; simpl in Hk; [lia | discriminate]. }
  destruct (callsTo_nonempty t F Hne) as (b & G & HF).
  assert (Hc' : callers = map markId (filter (callsTarget t) (allMarks F))).
  { rewrite Hc. apply callsTo_marks. }
  pose proof (rewInv_prepared alloc alloc_fresh uniqueName uniqueName_prefix
                t F b G callers Hnd Hnb HF Hc') as H0.
  pose proof (rewriteGroup_spec alloc alloc_fresh uniqueName uniqueName_prefix
                t F b G callers Hnd Hnb HF Hc') as Hend.
  fold rs in Hend.
  assert (Hcalls : forall c, In c callers ->
            exists m, In m (MAllocaPoint (allocaPointOf alloc F) :: allMarks F) /\
                      markId m = c /\ isCallMark m = true).
  { intros c Hin. rewrite Hc' in Hin. apply in_map_iff in Hin.
    destruct Hin as (m & <- & Hm). apply filter_In in Hm. destruct Hm as [Hm Ht].
    exists m. split; [right; exact Hm|]. split; [reflexivity|].
    destruct m as [i [[| | | |f| |]|] a|]; simpl in *; try discriminate; reflexivity. }
  destruct (rewrite_keeps alloc alloc_fresh uniqueName K F _ t _ _ _
              (entryOf alloc F) (allocaPointOf alloc F) callers HK [] _ H0)
    as [R1 R2].
  - intros c [].
  - simpl. apply prepared_keeps.
  - intros c I [].
  - fold (rewriteGroup alloc uniqueName F callers) in R1, R2. fold rs in R1, R2.
    destruct Hend as (HndE & _ & HME & _).
    split; [exact R1|]. split; [exact R2|]. split; [exact HndE|].
    intros c L Hin HL e. destruct (Hcalls c Hin) as (m & Hm & Hid & Hcm).
    rewrite <- Hid in e. eapply call_mark_not_load; eauto. rewrite HME. exact Hm.
Qed.

(** One merged group: every instruction of [F] whose address is in [K],
    a set that holds none of the merged calls, is kept. *)
(** From the rewritten call sites to the merged group. *)
Lemma unify_keeps (K : instid -> Prop) F t callers :
  let rs := rewriteGroup alloc uniqueName F callers in
  (forall i, K i -> In i (ids (rsF rs)) /\ ~ In i callers) ->
  (forall c I, In c callers -> In I (allInsts (rsF rs)) -> K (iid I) ->
               isPHI I = false -> usesb c I = false) ->
  (forall c L, In c callers -> In L (allInsts (rsF rs)) -> iid L = c ->
               isLoad L = false) ->
  (1 <? List.length callers)%nat = true ->
  keeps K (rsF rs) (mergeGroup alloc uniqueName arg_types ret_type F (t, callers)).
Proof.
  intros rs HK R2 R4 E1.
  unfold mergeGroup. simpl.
  rewrite E1. unfold unified, emitCall, callInstrOf, builtArgs.
  fold rs.
  set (cb := callBlockOf alloc F).
  set (ba := buildArgs alloc arg_types cb t callers (callerToOrigParent rs) (rsF rs)).
  destruct (quiet_buildArgs alloc arg_types cb t callers (callerToOrigParent rs) (rsF rs))
    as [Q1 Q2].
  fold ba in Q1, Q2.
  set (ci := alloc (ids (fst ba))).
  set (callI := mkInst ci "" (ret_type t) (Call (VFunc t) (snd ba))).
  set (E := insertAt (posEnd cb) callI (fst ba)).
  assert (KB : keeps K (rsF rs) (fst ba)) by apply Q1.
  assert (KE : keeps K (rsF rs) E) by (eapply keeps_trans; [exact KB | apply keeps_insertAt]).
  assert (Hci : ~ K ci).
  { intros Hk'. apply (alloc_fresh (ids (fst ba))). fold ci.
    apply (keeps_ids K (rsF rs) (fst ba) ci KB Hk'). apply HK. exact Hk'. }
  assert (HbackE : forall I, In I (allInsts E) -> isPHI I = false ->
                             I = callI \/ In I (allInsts (rsF rs))).
  { intros I HI HP. apply allInsts_insertAt_inv in HI.
    destruct HI as [-> | HI]; auto. }
  set (U := eraseCallers ci callers E).
  assert (KU : keeps K E U).
  { apply keeps_eraseCallers.
    - intros i Hi. apply HK. exact Hi.
    - intros L HL Hl Hin. destruct (HbackE L HL (isLoad_notPHI _ Hl)) as [-> | HLG].
      + discriminate.
      + rewrite (R4 (iid L) L Hin HLG eq_refl) in Hl. discriminate.
    - intros c I Hcin HI HKI HP. destruct (HbackE I HI HP) as [-> | HIG].
      + contradiction.
      + apply R2; auto. }
  eapply keeps_trans; [exact KE|]. eapply keeps_trans; [exact KU|].
  apply keeps_emitRouter; auto.
  intros i Hi. apply (keeps_ids K (rsF rs) U i); auto.
  - eapply keeps_trans; eauto.
  - apply HK. exact Hi.
Qed.

Lemma mergeGroup_keeps (K : instid -> Prop) F t callers :
  wf F -> callers = callsTo t F -> (2 <= List.length callers)%nat ->
  (forall i, K i -> In i (ids F) /\ ~ In i callers) ->
  keeps K F (mergeGroup alloc uniqueName arg_types ret_type F (t, callers)).
Proof.
  intros Hwf Hc Hk HK.
  assert (HK1 : forall i, K i -> In i (ids F)) by (intros i Hi; apply HK; exact Hi).
  destruct (rewriteGroup_keeps K F t callers Hwf Hc Hk HK1) as (R1 & R2 & R3 & R4).
  eapply keeps_trans; [exact R1|].
  apply unify_keeps; auto.
  - intros i Hi. split; [| apply HK; exact Hi].
    apply (keeps_ids K F _ i R1 Hi). apply HK1. exact Hi.
  - apply Nat.ltb_lt. lia.
Qed.
End KeepMerge.

(** * Instructions the pass keeps: the whole pass *)

(** What [kept] says of a call. *)
Lemma kept_call F' I I' called args :
  kept F' I I' -> ikd I = Call called args ->
  exists called' args',
    ikd I' = Call called' args' /\
    reloaded F' called called' /\ Forall2 (reloaded F') args args'.
Proof.
  intros (_ & _ & _ & _ & H) E.
  assert (HP : isPHI I = false) by (unfold isPHI; rewrite E; reflexivity).
  destruct (H HP) as [Hs Ho]. rewrite E in Hs, Ho. unfold skeleton in Hs. simpl in Hs, Ho.
  destruct (ikd I') as [| c' args' | | | | | | | | [?|] | |]; simpl in Hs; try discriminate.
  simpl in Ho. exists c', args'. split; [reflexivity|].
  apply Forall2_app_inv_l in Ho. destruct Ho as (l1 & l2 & H1 & H2 & E2).
  inversion H2 as [| a b0 la lb Hab Hnil]; subst. inversion Hnil; subst.
  apply app_inj_tail in E2. destruct E2 as [-> ->]. auto.
Qed.

Lemma reloaded_ineligible isIntrinsic F' I I' called args called' args' :
  ikd I = Call called args -> ikd I' = Call called' args' ->
  reloaded F' called called' ->
  ineligible isIntrinsic I' = ineligible isIntrinsic I.
Proof.
  intros E E' [-> | (x & r & -> & -> & _)]; unfold ineligible; rewrite E, E'; reflexivity.
Qed.

Section KeepRun.
Variable alloc : list positive -> positive.
Hypothesis alloc_fresh : forall l, ~ In (alloc l) l.
Variable uniqueName : function -> string -> string.
Hypothesis uniqueName_prefix :
  forall F nm, String.prefix nm (uniqueName F nm) = true.
Variable arg_types : funcid -> list typ.
Variable ret_type : funcid -> typ.
Variable isIntrinsic : funcid -> bool.

Lemma run_keeps_fold (K : instid -> Prop) groups :
  (forall i t cs, K i -> In (t, cs) (merged groups) -> ~ In i cs) ->
  forall F,
    wf F -> NoDup (map fst groups) ->
    (forall t cs, In (t, cs) groups -> cs = callsTo t F /\ cs <> []) ->
    (forall i, K i -> In i (ids F)) ->
    keeps K F (fold_left (mergeGroup alloc uniqueName arg_types ret_type) groups F).
Proof.
  induction groups as [| [t0 cs0] rest IH]; intros HKm F Hwf Hnd Hg HK; cbn [fold_left].
  - apply keeps_refl.
  - inversion Hnd as [| ? ? Hn0 Hnd']; subst.
    destruct (Hg t0 cs0 (or_introl eq_refl)) as (Hc0 & Hne0).
    destruct (1 <? List.length cs0)%nat eqn:Ek.
    + assert (Hk : (2 <= List.length cs0)%nat) by (apply Nat.ltb_lt in Ek; lia).
      destruct (mergeGroup_marks alloc alloc_fresh uniqueName uniqueName_prefix
                  arg_types ret_type t0 F cs0 Hwf Hc0 Hk) as (W1 & W2 & _).
      assert (K1 : keeps K F (mergeGroup alloc uniqueName arg_types ret_type F (t0, cs0))).
      { apply mergeGroup_keeps; auto. intros i Hi. split; [apply HK; exact Hi|].
        apply (HKm i t0 cs0 Hi). unfold merged. simpl. rewrite Ek. left. reflexivity. }
      set (F1 := mergeGroup alloc uniqueName arg_types ret_type F (t0, cs0)) in *.
      assert (Hg1 : forall t cs, In (t, cs) rest -> cs = callsTo t F1 /\ cs <> []).
      { intros t cs Hin. destruct (Hg t cs (or_intror Hin)) as (a1 & a2).
        split; auto. rewrite W2.
        destruct (Pos.eqb_spec t t0) as [->|]; auto.
        exfalso. apply Hn0. apply (in_map fst) in Hin. exact Hin. }
      eapply keeps_trans; [exact K1|]. apply IH; auto.
      * intros i t cs Hi Hin. apply (HKm i t cs Hi).
        unfold merged. simpl. rewrite Ek. right. exact Hin.
      * intros i Hi. eapply keeps_ids; eauto.
    + rewrite mergeGroup_small by auto.
      apply IH; auto.
      * intros i t cs Hi Hin. apply (HKm i t cs Hi).
        unfold merged. simpl. rewrite Ek. exact Hin.
      * intros t cs Hin. apply Hg. right. exact Hin.
Qed.

(** Every instruction that is not one of the merged calls is kept. *)
Lemma run_keeps F :
  wf F ->
  let F' := fst (runOnFunction alloc uniqueName arg_types ret_type isIntrinsic F) in
  forall I, In I (allInsts F) ->
    (forall t cs, In (t, cs) (merged (collect isIntrinsic F)) -> ~ In (iid I) cs) ->
    exists I', In I' (allInsts F') /\ kept F' I I'.
Proof.
  intros Hwf F' I HI Hn.
  set (K := fun i => In i (ids F) /\
                     forall t cs, In (t, cs) (merged (collect isIntrinsic F)) -> ~ In i cs).
  assert (HK : keeps K F F').
  { unfold F', runOnFunction. simpl. apply run_keeps_fold; auto.
    - intros i t cs [_ Hi]. apply Hi.
    - apply sorted_NoDup. apply (collect_spec isIntrinsic F).
    - intros t cs Hin. apply collect_In in Hin. tauto.
    - intros i [Hi _]. exact Hi. }
  destruct HK as [_ HK]. apply HK; auto.
  split; [apply In_ids_allInsts; exact HI | exact Hn].
Qed.
Lemma not_merged_caller F I :
  wf F -> In I (allInsts F) -> ineligible isIntrinsic I = true ->
  forall t cs, In (t, cs) (merged (collect isIntrinsic F)) -> ~ In (iid I) cs.
Proof.
  intros [Hnd _] HI Hin t cs Hm Hc.
  unfold merged in Hm. apply filter_In in Hm. destruct Hm as [Hm _].
  apply collect_In in Hm. destruct Hm as (Ht & -> & _).
  apply callsTo_In in Hc. destruct Hc as (J & HJ & Hid & HcJ).
  assert (J = I).
  { rewrite ids_allInsts in Hnd. apply (NoDup_map_inj_in iid (allInsts F)); auto. }
  subst J. unfold isCallTo in HcJ. unfold ineligible in Hin.
  destruct (ikd I) as [| c args | | | | | | | | | |]; try discriminate.
  destruct c; try discriminate. apply Pos.eqb_eq in HcJ. subst. congruence.
Qed.

End KeepRun.

(** * The arguments that reach the argument PHI nodes *)

Lemma Forall2_nth {A B} (R : A -> B -> Prop) d d' :
  R d d' -> forall l l' i, Forall2 R l l' -> R (nth i l d) (nth i l' d').
Proof.
  intros Hd l l' i H. revert i.
  induction H as [| a b l l' Hab H IH]; intros [| i]; simpl; auto.
Qed.

Lemma nth_VInst_In (l : list value) i x : nth i l VUndef = VInst x -> In (VInst x) l.
Proof.
  revert i. induction l as [| a l IH]; intros [| i]; simpl; try discriminate; eauto.
Qed.

Lemma reloaded_mono F F' v v' :
  (forall r, loadAt F r -> loadAt F' r) -> reloaded F v v' -> reloaded F' v v'.
Proof.
  intros H [-> | (x & r & -> & -> & Hr)]; [left; reflexivity|].
  right. exists x, r. auto.
Qed.

Section ArgPhis.
Variable alloc : list positive -> positive.
Hypothesis alloc_fresh : forall l, ~ In (alloc l) l.
Variable uniqueName : function -> string -> string.
Hypothesis uniqueName_prefix :
  forall F nm, String.prefix nm (uniqueName F nm) = true.
Variable arg_types : funcid -> list typ.
Variable ret_type : funcid -> typ.

(** The arguments of a call site when its PHI operands are read: what
    they were, or loads; none of them is the result of a call site of the
    group. *)
Lemma caller_args_reloaded F t callers c i :
  wf F -> callers = callsTo t F -> (2 <= List.length callers)%nat -> In c callers ->
  let rs := rewriteGroup alloc uniqueName F callers in
  reloaded (rsF rs) (getArgOperand F c i) (getArgOperand (rsF rs) c i) /\
  (forall c', In c' callers -> getArgOperand (rsF rs) c i <> VInst c').
Proof.
  intros Hwf Hc Hk Hin rs.
  destruct (rewriteGroup_keeps alloc alloc_fresh uniqueName uniqueName_prefix
              (fun i => In i (ids F)) F t callers Hwf Hc Hk (fun i H => H))
    as ((_ & R1) & R2 & R3 & _).
  fold rs in R1, R2, R3.
  pose proof Hin as Hin'. rewrite Hc in Hin'. apply callsTo_In in Hin'.
  destruct Hin' as (C & HC & Hid & Ht).
  assert (Ek : exists args, ikd C = Call (VFunc t) args).
  { unfold isCallTo in Ht. destruct (ikd C) as [| c0 args | | | | | | | | | |]; try discriminate.
    destruct c0; try discriminate. apply Pos.eqb_eq in Ht. subst. eauto. }
  destruct Ek as (args & Ek).
  destruct (R1 C HC (In_ids_allInsts _ _ HC)) as (C' & HC' & HK).
  destruct (kept_call _ _ _ _ _ HK Ek) as (called' & args' & Ek' & _ & Ha).
  destruct HK as (Hid' & _).
  assert (E1 : getArgOperand F c i = nth i args VUndef).
  { unfold getArgOperand. rewrite <- Hid, (findInst_NoDup F C (proj1 Hwf) HC), Ek.
    reflexivity. }
  assert (E2 : getArgOperand (rsF rs) c i = nth i args' VUndef).
  { unfold getArgOperand. rewrite <- Hid, <- Hid', (findInst_NoDup _ C' R3 HC'), Ek'.
    reflexivity. }
  rewrite E1, E2. split.
  - apply Forall2_nth; [left; reflexivity | exact Ha].
  - intros c' Hc' E. apply nth_VInst_In in E.
    assert (Hu : usesb c' C' = true).
    { unfold usesb. rewrite Ek'. simpl. apply existsb_exists. exists (VInst c').
      split; [apply in_or_app; left; exact E | simpl; apply Pos.eqb_refl]. }
    rewrite (R2 c' C' Hc' HC') in Hu; [discriminate | |].
    + rewrite Hid'. apply In_ids_allInsts. exact HC.
    + unfold isPHI. rewrite Ek'. reflexivity.
Qed.
End ArgPhis.

(** * Reloads: the relation *)

Lemma spilled_trans Sl B F v w u :
  spilled Sl B F v w -> spilled Sl B F w u -> spilled Sl B F v u.
Proof.
  intros H1 H2. induction H2.
  - exact H1.
  - eapply sp_merge; eauto.
  - eapply sp_load; eauto.
Qed.

Lemma spilled_mono (Sl Sl' : instid -> Prop) (B B' : instid -> instid -> Prop) F v w :
  (forall s, Sl s -> Sl' s) -> (forall c ci, B c ci -> B' c ci) ->
  spilled Sl B F v w -> spilled Sl' B' F v w.
Proof.
  intros HS HB H. induction H.
  - apply sp_same.
  - eapply sp_merge; eauto.
  - eapply sp_load; eauto.
Qed.

Lemma defined_other F v : (forall x, v <> VInst x) -> defined F v.
Proof. intros H x E. exfalso. eapply H; eauto. Qed.

Lemma loadFrom_defined F r s : loadFrom F r s -> defined F (VInst r).
Proof.
  intros (L & HL & e & k) x [= <-]. exists L. repeat split; auto.
  unfold yields. rewrite k. reflexivity.
Qed.

(** A derivation survives a step that tracks. *)
Lemma spilled_tracks Sl Sl' B K G G' v w :
  tracks Sl Sl' B K G G' -> spilled Sl B G v w -> spilled Sl' B G' v w.
Proof.
  intros (Ta & Tb & Tc & _) H. induction H.
  - apply sp_same.
  - eapply sp_merge; eauto.
  - destruct (Tc w s H0 H1 H2) as (w' & Hs & Hw & Hd).
    apply (sp_load Sl' B G' v w' s r); auto.
    eapply spilled_trans; eauto.
Qed.

Lemma tracks_refl Sl B K G : tracks Sl Sl B K G G.
Proof.
  split; [auto|]. split; [auto|]. split.
  { intros w s _ Hs Hd. exists w. split; [exact Hs|]. split; [apply sp_same | exact Hd]. }
  intros I HI _ _. exists I. split; [exact HI|]. split; [reflexivity|]. split; [reflexivity|].
  apply Forall2_same. intros v Hd. split; [apply sp_same | exact Hd].
Qed.

Lemma tracks_trans Sl Sl' Sl'' B K G G' G'' :
  tracks Sl Sl' B K G G' -> tracks Sl' Sl'' B K G' G'' -> tracks Sl Sl'' B K G G''.
Proof.
  intros T1 T2.
  assert (Hp : forall v w, spilled Sl' B G' v w -> spilled Sl'' B G'' v w)
    by (intros v w; apply (spilled_tracks _ _ _ _ _ _ v w T2)).
  destruct T1 as (a1 & b1 & c1 & d1). destruct T2 as (a2 & b2 & c2 & d2).
  split; [auto|]. split; [auto|]. split.
  { intros w s Hs Hst Hd.
    destruct (c1 w s Hs Hst Hd) as (w' & Hs' & Hw' & Hd').
    destruct (c2 w' s (a1 s Hs) Hs' Hd') as (w'' & Hs'' & Hw'' & Hd'').
    exists w''. split; [exact Hs''|]. split; [| exact Hd''].
    eapply spilled_trans; [apply Hp; exact Hw' | exact Hw'']. }
  intros I HI HK HP.
  destruct (d1 I HI HK HP) as (I' & HI' & e' & s' & o').
  assert (HK' : K (iid I')) by (rewrite e'; exact HK).
  assert (HP' : isPHI I' = false) by (rewrite (skeleton_isPHI _ _ s'); exact HP).
  destruct (d2 I' HI' HK' HP') as (I'' & HI'' & e'' & s'' & o'').
  exists I''. split; [exact HI''|]. split; [congruence|]. split; [congruence|].
  eapply Forall2_compose; [| exact o' | exact o''].
  intros x y z Hxy Hyz Hd. destruct (Hxy Hd) as [X1 X2]. destruct (Hyz X2) as [Y1 Y2].
  split; [| exact Y2]. eapply spilled_trans; [apply Hp; exact X1 | exact Y1].
Qed.

Lemma tracks_mono (Sl Sl' : instid -> Prop) B (K K' : instid -> Prop) G G' :
  (forall i, K' i -> K i) -> tracks Sl Sl' B K G G' -> tracks Sl Sl' B K' G G'.
Proof.
  intros H (a & b & c & d). repeat split; auto.
Qed.

Lemma tracks_slots (S0 Sl Sl' S1 : instid -> Prop) B K G G' :
  (forall s, S0 s -> Sl s) -> (forall s, Sl' s -> S1 s) ->
  tracks Sl Sl' B K G G' -> tracks S0 S1 B K G G'.
Proof.
  intros H0 H1 (a & b & c & d).
  split; [auto|]. split; [auto|]. split.
  { intros w s Hs Hst Hd. destruct (c w s (H0 s Hs) Hst Hd) as (w' & X1 & X2 & X3).
    exists w'. split; [exact X1|]. split; [| exact X3].
    eapply spilled_mono; [exact H1 | | exact X2]. auto. }
  intros I HI HK HP. destruct (d I HI HK HP) as (I' & Y1 & Y2 & Y3 & Y4).
  exists I'. split; [exact Y1|]. split; [exact Y2|]. split; [exact Y3|].
  eapply Forall2_impl; [| exact Y4].
  intros v v' Hv Hd. destruct (Hv Hd) as [Z1 Z2]. split; [| exact Z2].
  eapply spilled_mono; [exact H1 | | exact Z1]. auto.
Qed.
(** ** Images *)

Lemma img_refl (R : value -> value -> Prop) I : (forall v, R v v) -> img R I I.
Proof. intros H. split; [reflexivity|]. split; [reflexivity|]. apply Forall2_same. exact H. Qed.

Lemma img_trans (R1 R2 R3 : value -> value -> Prop) I I' I'' :
  (forall x y z, R1 x y -> R2 y z -> R3 x z) ->
  img R1 I I' -> img R2 I' I'' -> img R3 I I''.
Proof.
  intros H (a1 & a2 & a3) (b1 & b2 & b3).
  split; [congruence|]. split; [congruence|].
  eapply Forall2_compose; eauto.
Qed.

Lemma img_impl (R1 R2 : value -> value -> Prop) I I' :
  (forall x y, R1 x y -> R2 x y) -> img R1 I I' -> img R2 I I'.
Proof.
  intros H (a1 & a2 & a3). split; [exact a1|]. split; [exact a2|].
  eapply Forall2_impl; eauto.
Qed.

Lemma img_isPHI R I I' : img R I I' -> isPHI I' = isPHI I.
Proof. intros (_ & H & _). apply skeleton_isPHI. exact H. Qed.

Lemma img_load R I I' p :
  img R I I' -> ikd I = Load p -> exists p', ikd I' = Load p' /\ R p p'.
Proof.
  intros (_ & Hs & Ho) E. rewrite E in Hs, Ho. unfold skeleton in Hs. simpl in Hs, Ho.
  destruct (ikd I') as [| ? ? | ? | p' | | | | | ? ? ? | [?|] | |]; simpl in Hs; try discriminate.
  simpl in Ho. inversion Ho; subst. eauto.
Qed.

Lemma img_store R I I' w p :
  img R I I' -> ikd I = Store w p ->
  exists w' p', ikd I' = Store w' p' /\ R w w' /\ R p p'.
Proof.
  intros (_ & Hs & Ho) E. rewrite E in Hs, Ho. unfold skeleton in Hs. simpl in Hs, Ho.
  destruct (ikd I') as [| ? ? | ? | | w' p' | | | | ? ? ? | [?|] | |]; simpl in Hs; try discriminate.
  simpl in Ho. inversion Ho as [| ? ? ? ? H1 H2]; subst.
  inversion H2 as [| ? ? ? ? H3 _]; subst. eauto 6.
Qed.

(** A step under which every instruction worth keeping has an image
    tracks. *)
Lemma tracks_intro (Sl Sl' : instid -> Prop) B (K : instid -> Prop) G G'
  (R : value -> value -> Prop) :
  (forall s, Sl s -> Sl' s) ->
  (forall v v', R v v' -> defined G v -> spilled Sl' B G' v v' /\ defined G' v') ->
  (forall s p, Sl s -> R (VInst s) p -> p = VInst s) ->
  (forall I, In I (allInsts G) -> isPHI I = false ->
     K (iid I) \/ isLoad I = true \/ (exists w p, ikd I = Store w p /\ defined G w) ->
     exists I', In I' (allInsts G') /\ img R I I') ->
  tracks Sl Sl' B K G G'.
Proof.
  intros Ha HR Hp Hi.
  split; [exact Ha|]. split; [| split].
  - intros r s Hs (L & HL & e & k).
    assert (HP : isPHI L = false) by (unfold isPHI; rewrite k; reflexivity).
    destruct (Hi L HL HP) as (L' & HL' & Himg).
    { right. left. unfold isLoad. rewrite k. reflexivity. }
    destruct (img_load _ _ _ _ Himg k) as (p' & k' & Hr).
    rewrite (Hp s p' Hs Hr) in k'. exists L'. split; [exact HL'|].
    split; [| exact k']. destruct Himg as [e' _]. congruence.
  - intros w s Hs (S & HS & k) Hd.
    assert (HP : isPHI S = false) by (unfold isPHI; rewrite k; reflexivity).
    destruct (Hi S HS HP) as (S' & HS' & Himg).
    { right. right. eauto. }
    destruct (img_store _ _ _ _ _ Himg k) as (w' & p' & k' & Hw & Hr).
    rewrite (Hp s p' Hs Hr) in k'. destruct (HR w w' Hw Hd) as [X1 X2].
    exists w'. split; [exists S'; auto | auto].
  - intros I HI HK HP. destruct (Hi I HI HP (or_introl HK)) as (I' & HI' & e & sk & ops).
    exists I'. split; [exact HI'|]. split; [exact e|]. split; [exact sk|].
    eapply Forall2_impl; [| exact ops]. intros v v' Hv Hd. apply HR; auto.
Qed.

(** Definedness survives a step that keeps the instruction. *)
Lemma defined_keeps (K : instid -> Prop) G G' x :
  keeps K G G' -> K x -> defined G (VInst x) -> defined G' (VInst x).
Proof.
  intros [_ HK] Hx Hd y [= <-]. destruct (Hd x eq_refl) as (X & HX & e & Hy).
  rewrite <- e in Hx. destruct (HK X HX Hx) as (X' & HX' & e' & _ & _ & Hphi & Hk).
  exists X'. split; [exact HX'|]. split; [congruence|].
  unfold yields in *. destruct (isPHI X) eqn:EP.
  - specialize (Hphi eq_refl). unfold isPHI in Hphi.
    destruct (ikd X'); try discriminate. reflexivity.
  - destruct (Hk eq_refl) as [Hs _]. unfold skeleton in Hs.
    destruct (ikd X) as [| ? ? | ? | | | | | | ? ? ? | [?|] | |];
      destruct (ikd X') as [| ? ? | ? | | | | | | ? ? ? | [?|] | |];
      simpl in Hs; try discriminate; auto.
Qed.

Lemma defined_keeps_all G G' v :
  keeps (fun _ => True) G G' -> defined G v -> defined G' v.
Proof.
  intros HK Hd x ->. apply (defined_keeps (fun _ => True) G G' x HK I Hd x eq_refl).
Qed.
(** A step that leaves the instructions worth keeping as they are. *)
Lemma tracks_same (Sl Sl' : instid -> Prop) B (K : instid -> Prop) G G' :
  (forall s, Sl s -> Sl' s) ->
  (forall v, defined G v -> defined G' v) ->
  (forall I, In I (allInsts G) -> isPHI I = false ->
     K (iid I) \/ isLoad I = true \/ (exists w p, ikd I = Store w p /\ defined G w) ->
     In I (allInsts G')) ->
  tracks Sl Sl' B K G G'.
Proof.
  intros Ha Hd Hi. apply (tracks_intro Sl Sl' B K G G' eq).
  - exact Ha.
  - intros v v' <- Hv. split; [apply sp_same | apply Hd; exact Hv].
  - intros s p _ <-. reflexivity.
  - intros I HI HP Hk. exists I. split; [apply Hi; assumption|].
    apply img_refl. reflexivity.
Qed.

(** * Stack slots stay where they are *)

Lemma leadsIn_insertNth k n l X :
  isCall n = false -> leadsIn l X -> leadsIn (insertNth k n l) X.
Proof.
  intros Hn (pre & post & -> & Hpre). unfold insertNth.
  destruct (Nat.le_gt_cases k (List.length pre)) as [Hk | Hk].
  - exists (firstn k pre ++ n :: skipn k pre), post. split.
    + rewrite firstn_app, skipn_app.
      replace (k - List.length pre)%nat with 0%nat by lia. simpl.
      rewrite app_nil_r. rewrite <- app_assoc. reflexivity.
    + rewrite <- (firstn_skipn k pre) in Hpre. apply Forall_app in Hpre.
      destruct Hpre as [H1 H2].
      apply Forall_app. split; [exact H1|]. constructor; [exact Hn | exact H2].
  - exists pre, (firstn (k - List.length pre - 1) post ++ n :: skipn (k - List.length pre - 1) post).
    split; [| exact Hpre].
    rewrite firstn_app, skipn_app.
    rewrite firstn_all2 by lia. rewrite skipn_all2 by lia.
    destruct (k - List.length pre)%nat as [| j] eqn:Ej; [lia|].
    simpl. replace (j - 0)%nat with j by lia.
    rewrite <- app_assoc. reflexivity.
Qed.

Lemma leadsIn_map g l X :
  (forall y, isCall y = false -> isCall (g y) = false) -> g X = X ->
  leadsIn l X -> leadsIn (map g l) X.
Proof.
  intros Hg HX (pre & post & -> & Hpre).
  exists (map g pre), (map g post). split.
  - rewrite map_app. simpl. rewrite HX. reflexivity.
  - apply Forall_map. eapply Forall_impl; [| exact Hpre]. exact Hg.
Qed.

Lemma leadsIn_filter p l X : p X = true -> leadsIn l X -> leadsIn (filter p l) X.
Proof.
  intros HX (pre & post & -> & Hpre).
  exists (filter p pre), (filter p post). split.
  - rewrite filter_app. simpl. rewrite HX. reflexivity.
  - rewrite Forall_forall in *. intros y Hy. apply filter_In in Hy. apply Hpre. tauto.
Qed.

Lemma leadsIn_replacePhiUsesWith Old New l X :
  isPHI X = false -> leadsIn l X -> leadsIn (replacePhiUsesWith Old New l) X.
Proof.
  intros HX (pre & post & -> & Hpre).
  induction pre as [| y pre IH]; simpl.
  - rewrite HX. exists [], post. split; [reflexivity | constructor].
  - inversion Hpre as [| ? ? Hy Hpre']; subst.
    destruct (isPHI y) eqn:Ey.
    + destruct (IH Hpre') as (pre' & post' & E' & H').
      exists (replaceIncomingBlockWith Old New y :: pre'), post'. split.
      * simpl. rewrite E'. reflexivity.
      * constructor; [| exact H'].
        unfold replaceIncomingBlockWith, isPHI, isCall in *.
        destruct (ikd y); try discriminate. reflexivity.
    + exists (y :: pre), post. split; [reflexivity | exact Hpre].
Qed.

Lemma leadsIn_In l X : leadsIn l X -> In X l.
Proof. intros (pre & post & -> & _). apply in_or_app. right. left. reflexivity. Qed.

(** ** The steps of the pass *)

Lemma blockInsts_insertAt_cases pos n F B :
  blockInsts (insertAt pos n F) B = blockInsts F B \/
  exists k, blockInsts (insertAt pos n F) B = insertNth k n (blockInsts F B).
Proof.
  unfold blockInsts. induction F as [| b F IH]; simpl; [left; reflexivity|].
  destruct (pos b) as [k|] eqn:Ep; simpl.
  - destruct (Pos.eqb (bid b) B); [right; exists k; reflexivity | left; reflexivity].
  - destruct (Pos.eqb (bid b) B); [left; reflexivity | exact IH].
Qed.

Lemma leads_insertAt E pos n F X :
  isCall n = false \/ (forall b, bid b = E -> pos b = None) ->
  leads E F X -> leads E (insertAt pos n F) X.
Proof.
  unfold leads. intros [Hn | Hp] H.
  - destruct (blockInsts_insertAt_cases pos n F E) as [-> | [k ->]]; auto.
    apply leadsIn_insertNth; auto.
  - rewrite blockInsts_insertAt by exact Hp. exact H.
Qed.

Lemma leads_mapInsts E g F X :
  (forall y, isCall y = false -> isCall (g y) = false) -> g X = X ->
  leads E F X -> leads E (mapInsts g F) X.
Proof.
  intros Hg HX H. unfold leads. rewrite blockInsts_mapInsts.
  apply (leadsIn_map g _ X Hg HX H).
Qed.

Lemma leads_updInst E u g F X :
  (forall y, isCall y = false -> isCall (g y) = false) -> (iid X = u -> g X = X) ->
  leads E F X -> leads E (updInst u g F) X.
Proof.
  intros Hg HX H. unfold updInst. apply leads_mapInsts; auto.
  - intros y Hy. destruct (Pos.eqb (iid y) u); auto.
  - destruct (Pos.eqb_spec (iid X) u); auto.
Qed.

Lemma leads_erase E c F X : iid X <> c -> leads E F X -> leads E (eraseFromParent c F) X.
Proof.
  intros Hc H. unfold leads. rewrite blockInsts_eraseFromParent.
  apply (leadsIn_filter _ _ X); [| exact H].
  apply negb_true_iff. apply Pos.eqb_neq. exact Hc.
Qed.

Lemma isCall_replaceUsesOfWith x w y : isCall (replaceUsesOfWith x w y) = isCall y.
Proof. unfold isCall, replaceUsesOfWith. simpl. destruct (ikd y) as [| | | | | | | | | [?|] | |]; reflexivity. Qed.

Lemma leads_In E F X : leads E F X -> In X (allInsts F).
Proof. intros H. apply (blockInsts_In F E). apply leadsIn_In. exact H. Qed.

(** * Reloads: demotion *)

Lemma In_updInst u g F I :
  In I (allInsts F) ->
  In (if Pos.eqb (iid I) u then g I else I) (allInsts (updInst u g F)).
Proof.
  intros H. unfold updInst. rewrite allInsts_mapInsts.
  apply (in_map (fun y => if Pos.eqb (iid y) u then g y else y)). exact H.
Qed.

Lemma In_updInst_other u g F I :
  iid I <> u -> In I (allInsts F) -> In I (allInsts (updInst u g F)).
Proof.
  intros Hne H. apply (In_updInst u g) in H.
  destruct (Pos.eqb_spec (iid I) u); [contradiction | exact H].
Qed.

Lemma loadFrom_incl F F' r s :
  incl (allInsts F) (allInsts F') -> loadFrom F r s -> loadFrom F' r s.
Proof. intros H (L & HL & e & k). exists L. auto. Qed.

Lemma storeTo_incl F F' w s :
  incl (allInsts F) (allInsts F') -> storeTo F w s -> storeTo F' w s.
Proof. intros H (S & HS & k). exists S. auto. Qed.

Lemma pending_incl x slot F F' v v' :
  incl (allInsts F) (allInsts F') -> pending x slot F v v' -> pending x slot F' v v'.
Proof.
  intros H [-> | (-> & ld & -> & Hl)]; [left; reflexivity|].
  right. split; [reflexivity|]. exists ld. split; [reflexivity|].
  eapply loadFrom_incl; eauto.
Qed.

Lemma img_replace x slot ld F' I :
  loadFrom F' ld slot -> img (pending x slot F') I (replaceUsesOfWith x (VInst ld) I).
Proof.
  intros Hl. split; [reflexivity|]. split.
  - unfold replaceUsesOfWith. simpl. apply skeleton_mapOperands.
  - unfold replaceUsesOfWith. simpl. rewrite operands_mapOperands.
    apply Forall2_map_r. intros v. unfold substValue.
    destruct (isVInst x v) eqn:E; [| left; reflexivity].
    apply isVInst_true in E. right. split; [exact E|]. eauto.
Qed.

(** Under images by [pending] the loads from other addresses than [x]
    stay. *)
Lemma pending_loads x slot F F' r s :
  (forall I, In I (allInsts F) -> isPHI I = false ->
     exists I', In I' (allInsts F') /\ img (pending x slot F') I I') ->
  s <> x -> loadFrom F r s -> loadFrom F' r s.
Proof.
  intros Hi Hs (L & HL & e & k).
  assert (HP : isPHI L = false) by (unfold isPHI; rewrite k; reflexivity).
  destruct (Hi L HL HP) as (L' & HL' & Himg).
  destruct (img_load _ _ _ _ Himg k) as (p' & k' & [-> | ([= E] & _)]); [| congruence].
  exists L'. split; [exact HL'|]. split; [| exact k']. destruct Himg as [e' _]. congruence.
Qed.

Lemma pending_trans x slot F' F'' v v' v'' :
  (forall ld, loadFrom F' ld slot -> loadFrom F'' ld slot) ->
  pending x slot F' v v' -> pending x slot F'' v' v'' -> pending x slot F'' v v''.
Proof.
  intros HL [-> | (-> & ld & -> & Hl)] H2; [exact H2|].
  destruct H2 as [-> | (_ & ld2 & -> & Hl2)].
  - right. split; [reflexivity|]. exists ld. auto.
  - right. split; [reflexivity|]. exists ld2. auto.
Qed.

Section SpillDemote.
Variable alloc : list positive -> positive.
Hypothesis alloc_fresh : forall l, ~ In (alloc l) l.
Variable uniqueName : function -> string -> string.
Hypothesis uniqueName_prefix :
  forall F nm, String.prefix nm (uniqueName F nm) = true.

Lemma demoteUser_img x slot nm ty F U :
  NoDup (ids F) ->
  let F' := demoteUser alloc uniqueName x slot nm ty F U in
  forall I, In I (allInsts F) -> isPHI I = false ->
    exists I', In I' (allInsts F') /\ img (pending x slot F') I I'.
Proof.
  intros Hnd F' I HI HP. subst F'. unfold demoteUser.
  assert (Hrefl : forall G, img (pending x slot G) I I).
  { intros G. apply img_refl. intros v. left. reflexivity. }
  destruct (findInst F U) as [UI|] eqn:EU; [| exists I; auto].
  assert (HUI : In UI (allInsts F) /\ iid UI = U) by (apply findInst_Some; auto).
  destruct HUI as [HUI HUid].
  set (ld := alloc (ids F)).
  set (ldI := mkReload ld (uniqueName F (nm ++ ".reload")) ty slot).
  set (F1 := insertAt (posBefore U) ldI F).
  set (F2 := updInst U (replaceUsesOfWith x (VInst ld)) F1).
  assert (Hother : exists I', In I' (allInsts F2) /\ img (pending x slot F2) I I').
  { assert (Hld : loadFrom F2 ld slot).
    { exists ldI. split; [| split; reflexivity].
      apply In_updInst_other.
      - simpl. intros e. apply (alloc_fresh (ids F)). fold ld. rewrite e, <- HUid.
        apply In_ids_allInsts. exact HUI.
      - apply allInsts_insertAt_new. eapply findInst_posBefore; eauto. }
    assert (HI1 : In I (allInsts F1)) by (apply allInsts_insertAt; exact HI).
    exists (if Pos.eqb (iid I) U then replaceUsesOfWith x (VInst ld) I else I). split.
    - apply In_updInst. exact HI1.
    - destruct (Pos.eqb (iid I) U); [apply img_replace; exact Hld | apply Hrefl]. }
  destruct (ikd UI) as [| c args | inc | | | | | | | | |] eqn:EK; try exact Hother.
  destruct (allInsts_demotePHILoop alloc uniqueName x slot nm ty inc [] F) as [Hincl _].
  exists I. split; [| apply Hrefl].
  apply In_updInst_other; [| apply Hincl; exact HI].
  intros e. assert (I = UI).
  { apply findInst_NoDup in HI; auto. rewrite e, EU in HI. congruence. }
  subst I. unfold isPHI in HP. rewrite EK in HP. discriminate.
Qed.

Lemma fold_demoteUser_img x slot nm ty us :
  slot <> x ->
  forall F, NoDup (ids F) ->
    let F' := fold_left (demoteUser alloc uniqueName x slot nm ty) us F in
    forall I, In I (allInsts F) -> isPHI I = false ->
      exists I', In I' (allInsts F') /\ img (pending x slot F') I I'.
Proof.
  intros Hs. induction us as [| U us IH]; simpl; intros F Hnd I HI HP.
  - exists I. split; [exact HI|]. apply img_refl. intros v. left. reflexivity.
  - set (F1 := demoteUser alloc uniqueName x slot nm ty F U).
    assert (Hnd1 : NoDup (ids F1)).
    { apply (demoteUser_gstep alloc alloc_fresh uniqueName x slot nm ty F U). exact Hnd. }
    destruct (demoteUser_img x slot nm ty F U Hnd I HI HP) as (I1 & HI1 & Himg1).
    fold F1 in HI1, Himg1.
    assert (HP1 : isPHI I1 = false) by (rewrite (img_isPHI _ _ _ Himg1); exact HP).
    destruct (IH F1 Hnd1 I1 HI1 HP1) as (I2 & HI2 & Himg2).
    exists I2. split; [exact HI2|].
    eapply img_trans; [| exact Himg1 | exact Himg2].
    intros a b c. apply pending_trans.
    intros ld. apply (pending_loads x slot F1 _ ld slot); [| exact Hs].
    intros J HJ HPJ. apply (IH F1 Hnd1 J HJ HPJ).
Qed.
(** ** Stack slots and the alloca insertion point stay in place *)

Lemma leads_demotePHILoop E X x slot nm ty inc :
  forall Loads F,
    leads E F X ->
    leads E (fst (demotePHILoop alloc uniqueName x slot nm ty inc Loads F)) X.
Proof.
  induction inc as [| [v b] inc IH]; simpl; intros Loads F H; [exact H|].
  destruct (isVInst x v); [destruct (olookup b Loads)|]; simpl; try (apply IH; exact H).
  apply IH. apply leads_insertAt; [left; reflexivity | exact H].
Qed.

Lemma leads_demoteUser E X x slot nm ty F U :
  NoDup (ids F) -> inert X = true -> leads E F X ->
  leads E (demoteUser alloc uniqueName x slot nm ty F U) X.
Proof.
  intros Hnd HX H. unfold demoteUser.
  destruct (findInst F U) as [UI|] eqn:EU; [| exact H].
  assert (Hother : leads E
            (updInst U (replaceUsesOfWith x (VInst (alloc (ids F))))
               (insertAt (posBefore U)
                  (mkReload (alloc (ids F)) (uniqueName F (nm ++ ".reload")) ty slot) F)) X).
  { apply leads_updInst.
    - intros y Hy. rewrite isCall_replaceUsesOfWith. exact Hy.
    - intros _. apply inert_replaceUsesOfWith. exact HX.
    - apply leads_insertAt; [left; reflexivity | exact H]. }
  destruct (ikd UI) as [| c args | inc | | | | | | | | |] eqn:EK; try exact Hother.
  apply leads_updInst.
  - intros y _. reflexivity.
  - intros e. exfalso. assert (X = UI).
    { pose proof (leads_In _ _ _ H) as HXin.
      apply findInst_NoDup in HXin; auto. rewrite e, EU in HXin. congruence. }
    subst X. apply inert_notPHI in HX. unfold isPHI in HX. rewrite EK in HX. discriminate.
  - apply leads_demotePHILoop. exact H.
Qed.

Lemma leads_fold_demoteUser E X x slot nm ty us :
  inert X = true ->
  forall F, NoDup (ids F) -> leads E F X ->
            leads E (fold_left (demoteUser alloc uniqueName x slot nm ty) us F) X.
Proof.
  intros HX. induction us as [| U us IH]; simpl; intros F Hnd H; [exact H|].
  apply IH.
  - apply (demoteUser_gstep alloc alloc_fresh uniqueName x slot nm ty F U). exact Hnd.
  - apply leads_demoteUser; auto.
Qed.

Lemma leads_Demote E X F y AP :
  NoDup (ids F) -> inert X = true -> leads E F X ->
  iid X <> y \/ users F y <> [] ->
  leads E (DemoteRegToStack alloc uniqueName F y AP) X.
Proof.
  intros Hnd HX H Hy. unfold DemoteRegToStack.
  destruct (findInst F y) as [yi|]; [| exact H].
  destruct (users F y) as [| u us] eqn:Eu.
  - apply leads_erase; [| exact H]. destruct Hy as [Hy | Hy]; [exact Hy | contradiction].
  - apply leads_insertAt; [left; reflexivity|].
    apply leads_fold_demoteUser; [exact HX | |].
    + apply (insert_gstep alloc alloc_fresh (eq y));
        [reflexivity | apply posBefore_nonempty | reflexivity | exact Hnd].
    + apply leads_insertAt; [left; reflexivity | exact H].
Qed.

Lemma slotIn_Demote E F y AP s :
  NoDup (ids F) -> users F y <> [] -> slotIn E F s ->
  slotIn E (DemoteRegToStack alloc uniqueName F y AP) s.
Proof.
  intros Hnd Hu (A & HA & e & Ha). exists A. split; [| auto].
  apply leads_Demote; auto. apply isAlloca_inert. exact Ha.
Qed.

(** The new stack slot is a stack slot. *)
Lemma Demote_slot E F y yi AP APi :
  NoDup (ids F) -> findInst F y = Some yi -> users F y <> [] ->
  leads E F APi -> iid APi = AP ->
  slotIn E (DemoteRegToStack alloc uniqueName F y AP) (alloc (ids F)).
Proof.
  intros Hnd Ey Hu (pre & post & El & Hpre) Hid. unfold DemoteRegToStack. rewrite Ey.
  destruct (users F y) as [| u us] eqn:Eu; [contradiction|].
  set (Slot := alloc (ids F)).
  set (slotI := mkInst Slot (uniqueName F (iname yi ++ ".reg2mem")) TPtr (Alloca (ity yi))).
  exists slotI. split; [| split; reflexivity].
  apply leads_insertAt; [left; reflexivity|].
  apply leads_fold_demoteUser; [reflexivity | |].
  - apply (insert_gstep alloc alloc_fresh (eq y));
      [reflexivity | apply posBefore_nonempty | reflexivity | exact Hnd].
  - exists pre, (APi :: post). split; [| exact Hpre].
    apply blockInsts_insertBefore; auto.
Qed.
Lemma posAfterSkipPHI_found F y :
  In y (ids F) -> exists b, In b F /\ posAfterSkipPHI y b <> None.
Proof.
  intros Hy. destruct (findInst F y) as [yi|] eqn:E.
  - destruct (findInst_posBefore F y yi E) as (b & Hb & Hp). exists b. split; [exact Hb|].
    unfold posAfterSkipPHI. unfold posBefore in Hp.
    destruct (indexOf y (insts b)); [discriminate | contradiction].
  - apply findInst_None in E. contradiction.
Qed.

(** ** One demotion *)

Lemma Demote_tracks B (K : instid -> Prop) E F y AP APi :
  NoDup (ids F) -> users F y <> [] ->
  leads E F APi -> iid APi = AP -> ~ slotIn E F y ->
  let F' := DemoteRegToStack alloc uniqueName F y AP in
  tracks (slotIn E F) (slotIn E F') B K F F'.
Proof.
  intros Hnd Hu HAP Hid Hy F'.
  assert (HK : keeps (fun _ => True) F F') by (apply keeps_Demote; auto).
  assert (HSl : forall s, slotIn E F s -> slotIn E F' s).
  { intros s Hs. apply slotIn_Demote; auto. }
  destruct (findInst F y) as [yi|] eqn:Ey.
  2:{ assert (EF : F' = F) by (unfold F', DemoteRegToStack; rewrite Ey; reflexivity).
      rewrite EF. apply tracks_refl. }
  pose proof (Demote_slot E F y yi AP APi Hnd Ey Hu HAP Hid) as HSlot. fold F' in HSlot.
  set (Slot := alloc (ids F)) in *.
  assert (HyF : In y (ids F)).
  { apply findInst_Some in Ey. destruct Ey as [H <-]. apply In_ids_allInsts. exact H. }
  assert (HSy : Slot <> y) by (intros e; apply (alloc_fresh (ids F)); fold Slot; rewrite e; exact HyF).
  (* the three stages *)
  assert (EF : exists us F1 F2 st,
            F1 = insertAt (posBefore AP)
                   (mkInst Slot (uniqueName F (iname yi ++ ".reg2mem")) TPtr (Alloca (ity yi))) F /\
            F2 = fold_left (demoteUser alloc uniqueName y Slot (iname yi) (ity yi)) us F1 /\
            F' = insertAt (posAfterSkipPHI y)
                   (mkInst st "" TVoid (Store (VInst y) (VInst Slot))) F2).
  { unfold F', DemoteRegToStack. rewrite Ey.
    destruct (users F y) as [| u us] eqn:Eu; [contradiction|].
    eexists _, _, _, _. split; [reflexivity|]. split; reflexivity. }
  destruct EF as (us & F1 & F2 & st & EF1 & EF2 & EF').
  assert (Hnd1 : NoDup (ids F1)).
  { rewrite EF1. apply (insert_gstep alloc alloc_fresh (eq y));
      [reflexivity | apply posBefore_nonempty | reflexivity | exact Hnd]. }
  assert (Hi2 : incl (allInsts F2) (allInsts F')) by (rewrite EF'; apply allInsts_insertAt).
  assert (Hy2 : In y (ids F2)).
  { rewrite EF2.
    destruct (fold_demoteUser_gstep alloc alloc_fresh uniqueName y Slot (iname yi) (ity yi) us F1 Hnd1)
      as [Hf _].
    eapply frel_ids_incl; [exact Hf|]. rewrite EF1. apply ids_insertAt_incl. exact HyF. }
  assert (Hst : storeTo F' (VInst y) Slot).
  { exists (mkInst st "" TVoid (Store (VInst y) (VInst Slot))). split; [| reflexivity].
    rewrite EF'. apply allInsts_insertAt_new. apply posAfterSkipPHI_found. exact Hy2. }
  assert (Himg : forall I, In I (allInsts F) -> isPHI I = false ->
            exists I', In I' (allInsts F') /\ img (pending y Slot F') I I').
  { intros I HI HP.
    assert (HI1 : In I (allInsts F1)) by (rewrite EF1; apply allInsts_insertAt; exact HI).
    destruct (fold_demoteUser_img y Slot (iname yi) (ity yi) us HSy F1 Hnd1 I HI1 HP)
      as (I2 & HI2 & Him).
    rewrite <- EF2 in HI2, Him.
    exists I2. split; [apply Hi2; exact HI2|].
    eapply img_impl; [| exact Him]. intros a b. apply pending_incl. exact Hi2. }
  apply (tracks_intro _ _ B K F F' (pending y Slot F')); auto.
  - intros v v' [-> | (-> & ld & -> & Hl)] Hd.
    + split; [apply sp_same | apply (defined_keeps_all F F'); auto].
    + assert (Hd' : defined F' (VInst y)) by (apply (defined_keeps_all F F'); auto).
      split; [| eapply loadFrom_defined; eauto].
      apply (sp_load _ _ _ _ (VInst y) Slot ld); auto. apply sp_same.
  - intros s p Hs [-> | ([= e] & _)]; [reflexivity|].
    exfalso. apply Hy. rewrite <- e. exact Hs.
Qed.
End SpillDemote.

(** * The end of a block under demotion, again *)

Lemma victim_notPHI b old y : victim b old y -> isPHI y = false.
Proof.
  intros [[_ H] | (p & H & _)].
  - apply isBr_notPHI. exact H.
  - unfold isPHI. rewrite H. reflexivity.
Qed.

Lemma victim_yields b old y : victim b old y -> yields y = false.
Proof.
  intros [[_ H] | (p & H & _)]; unfold yields.
  - unfold isBr in H. destruct (ikd y); try discriminate. reflexivity.
  - rewrite H. reflexivity.
Qed.

Lemma isBr_usesb x y : isBr y = true -> usesb x y = false.
Proof. unfold isBr, usesb. destruct (ikd y); try discriminate. reflexivity. Qed.

Lemma blockInsts_insertAfterLast n F B l0 y :
  NoDup (ids F) -> blockInsts F B = l0 ++ [y] ->
  blockInsts (insertAt (posAfterSkipPHI (iid y)) n F) B = l0 ++ [y; n].
Proof.
  unfold blockInsts. induction F as [| b F IH]; simpl.
  - intros _ H. destruct l0; discriminate.
  - intros Hnd. unfold ids in Hnd. simpl in Hnd.
    apply NoDup_app_inv in Hnd. destruct Hnd as (Hn1 & Hn2 & Hd).
    destruct (Pos.eqb_spec (bid b) B) as [e|ne]; intros HB.
    + assert (Hl0 : ~ In (iid y) (map iid l0)).
      { rewrite HB, map_app in Hn1. simpl in Hn1. apply NoDup_remove_2 in Hn1.
        rewrite in_app_iff in Hn1. tauto. }
      assert (Hp : posAfterSkipPHI (iid y) b = Some (List.length (l0 ++ [y]))).
      { unfold posAfterSkipPHI. rewrite HB. rewrite indexOf_mid by auto.
        f_equal. rewrite length_app. simpl.
        change (match l0 ++ [y] with [] => [] | _ :: l => skipn (List.length l0) l end)
          with (skipn (Datatypes.S (List.length l0)) (l0 ++ [y])).
        rewrite skipn_all2 by (rewrite length_app; simpl; lia). simpl. lia. }
      rewrite Hp. simpl. rewrite e, Pos.eqb_refl. rewrite HB.
      rewrite insertNth_end. rewrite <- app_assoc. reflexivity.
    + assert (Hi : In (iid y) (ids F)).
      { assert (H : In y (blockInsts F B)).
        { unfold blockInsts. rewrite HB. apply in_or_app. right. left. auto. }
        rewrite ids_allInsts. apply in_map. eapply blockInsts_In; eauto. }
      assert (Hp : posAfterSkipPHI (iid y) b = None).
      { unfold posAfterSkipPHI. rewrite indexOf_notin; [reflexivity|].
        intros Hin. apply (Hd (iid y)); auto. }
      rewrite Hp. simpl. destruct (Pos.eqb_spec (bid b) B); [contradiction|].
      apply IH; auto.
Qed.

Section BadEnd.
Variable alloc : list positive -> positive.
Hypothesis alloc_fresh : forall l, ~ In (alloc l) l.
Variable uniqueName : function -> string -> string.
Hypothesis uniqueName_prefix :
  forall F nm, String.prefix nm (uniqueName F nm) = true.

Lemma endsKeep_demoteUser x slot nm ty F U B y :
  NoDup (ids F) -> isPHI y = false -> usesb x y = false ->
  endsWith y (blockInsts F B) ->
  endsWith y (blockInsts (demoteUser alloc uniqueName x slot nm ty F U) B).
Proof.
  intros Hnd HP Hu He. unfold demoteUser.
  destruct (findInst F U) as [UI|] eqn:EU; [| exact He].
  assert (Hother : endsWith y
            (blockInsts (updInst U (replaceUsesOfWith x (VInst (alloc (ids F))))
               (insertAt (posBefore U)
                  (mkReload (alloc (ids F)) (uniqueName F (nm ++ ".reload")) ty slot)
                  F)) B)).
  { apply endsWith_updInst.
    - intros _. apply replaceUsesOfWith_unused. exact Hu.
    - apply endsWith_insertBefore. exact He. }
  destruct (ikd UI) as [| c args | inc | | | | | | | | |] eqn:EK; try exact Hother.
  apply endsWith_updInst.
  - intros e. exfalso.
    assert (Hin : In y (allInsts F)).
    { eapply blockInsts_In. eapply endsWith_In. eauto. }
    apply findInst_NoDup in Hin; auto. rewrite e, EU in Hin.
    inversion Hin; subst. unfold isPHI in HP. rewrite EK in HP. discriminate.
  - apply (endsWith_demotePHILoop alloc uniqueName). exact He.
Qed.

Lemma endsKeep_fold_demoteUser x slot nm ty B y us :
  isPHI y = false -> usesb x y = false ->
  forall F,
    NoDup (ids F) -> endsWith y (blockInsts F B) ->
    endsWith y (blockInsts (fold_left (demoteUser alloc uniqueName x slot nm ty) us F) B).
Proof.
  intros HP Hu. induction us as [| U us IH]; simpl; intros F Hnd He; [exact He|].
  apply IH.
  - apply (demoteUser_gstep alloc alloc_fresh uniqueName x slot nm ty F U). exact Hnd.
  - apply endsKeep_demoteUser; auto.
Qed.

Lemma endsKeep_Demote F x AP B y :
  NoDup (ids F) -> isPHI y = false -> usesb x y = false -> iid y <> x ->
  endsWith y (blockInsts F B) ->
  endsWith y (blockInsts (DemoteRegToStack alloc uniqueName F x AP) B).
Proof.
  intros Hnd HP Hu Hy He. unfold DemoteRegToStack.
  destruct (findInst F x) as [xi|]; [| exact He].
  destruct (users F x) as [| u us]; [apply endsWith_erase; auto|].
  set (Slot := alloc (ids F)).
  set (F1 := insertAt (posBefore AP) _ F).
  set (F2 := fold_left _ _ F1).
  assert (Hnd1 : NoDup (ids F1)).
  { unfold F1. apply NoDup_insertAt; auto. simpl. apply alloc_fresh. }
  assert (He2 : endsWith y (blockInsts F2 B)).
  { unfold F2. apply endsKeep_fold_demoteUser; auto.
    unfold F1. apply endsWith_insertBefore. exact He. }
  apply endsWith_insertAt; auto.
  intros b k _ Hb. apply (posAfterSkipPHI_lt x b k y); auto.
  rewrite Hb. exact He2.
Qed.
(** The demotion of the last instruction of a block puts its store at the
    end. *)
Lemma Demote_appends F x AP B y old :
  NoDup (ids F) -> users F x <> [] -> iid y = x -> isBr y = true ->
  incl old (ids F) -> endsWith y (blockInsts F B) ->
  exists n, endsWith n (blockInsts (DemoteRegToStack alloc uniqueName F x AP) B) /\
            victim x old n.
Proof.
  intros Hnd Hu Hid Hbr Hold He. unfold DemoteRegToStack.
  assert (Hyin : In y (allInsts F)).
  { eapply blockInsts_In. eapply endsWith_In. eauto. }
  pose proof (findInst_NoDup F y Hnd Hyin) as Ey. rewrite Hid in Ey. rewrite Ey.
  destruct (users F x) as [| u us] eqn:Eu; [contradiction|].
  set (Slot := alloc (ids F)).
  set (F1 := insertAt (posBefore AP) _ F).
  set (F2 := fold_left _ _ F1).
  assert (G1 : gstep (eq x) F F1).
  { unfold F1. apply (insert_gstep alloc alloc_fresh);
      [reflexivity | apply posBefore_nonempty | reflexivity]. }
  destruct (G1 Hnd) as [Hf1 Hnd1].
  assert (G2 : gstep (eq x) F1 F2).
  { unfold F2. apply (fold_demoteUser_gstep alloc alloc_fresh). }
  destruct (G2 Hnd1) as [Hf2 Hnd2].
  assert (Hi2 : incl (ids F) (ids F2)).
  { intros i Hi. eapply frel_ids_incl; [exact Hf2|]. eapply frel_ids_incl; eauto. }
  assert (He2 : endsWith y (blockInsts F2 B)).
  { unfold F2. apply endsKeep_fold_demoteUser; auto.
    - apply isBr_notPHI. exact Hbr.
    - apply isBr_usesb. exact Hbr.
    - unfold F1. apply endsWith_insertBefore. exact He. }
  destruct He2 as [l0 El].
  set (n := mkInst (alloc (ids F2)) "" TVoid (Store (VInst x) (VInst Slot))).
  exists n. split.
  - exists (l0 ++ [y]). rewrite <- Hid.
    rewrite (blockInsts_insertAfterLast n F2 B l0 y Hnd2 El).
    rewrite <- app_assoc. reflexivity.
  - right. exists (VInst Slot). split; [reflexivity|]. split.
    + simpl. intros Hin. apply (alloc_fresh (ids F2)). apply Hi2. apply Hold. exact Hin.
    + intros z Hz Huz. unfold usesb in Huz. simpl in Huz.
      rewrite orb_false_r in Huz. apply orb_true_iff in Huz.
      destruct Huz as [Huz | Huz]; apply Pos.eqb_eq in Huz; [congruence|].
      exfalso. apply (alloc_fresh (ids F)). fold Slot. rewrite Huz. apply Hold. exact Hz.
Qed.

(** The end of the block through the demotions of [xs]. *)
Lemma victim_fold_Demote b old AP B xs :
  NoDup xs ->
  forall F,
    NoDup (ids F) -> (forall y, In y xs -> users F y <> []) ->
    incl old (ids F) -> (forall y, In y xs -> In y old) ->
    (exists y, endsWith y (blockInsts F B) /\ victim b old y /\
               (In b xs -> isBr y = true)) ->
    exists y, endsWith y
                (blockInsts (fold_left (fun G d => DemoteRegToStack alloc uniqueName G d AP) xs F) B)
              /\ victim b old y.
Proof.
  induction 1 as [| x xs Hx Hndx IH]; simpl; intros F Hnd Hu Hold Hxs (y & He & Hv & Hb).
  - exists y. auto.
  - assert (G1 : gstep (eq x) F (DemoteRegToStack alloc uniqueName F x AP)).
    { apply (DemoteRegToStack_gstep alloc alloc_fresh); auto. }
    destruct (G1 Hnd) as [Hf1 Hn1].
    apply IH; auto.
    + intros y' Hy'. eapply frel_users; eauto. intros ->. contradiction.
    + intros i Hi. eapply frel_ids_incl; [exact Hf1|]. apply Hold. exact Hi.
    + destruct (Pos.eq_dec x b) as [-> | Hne].
      * pose proof (Hb (or_introl eq_refl)) as Hbr.
        assert (Hid : iid y = b).
        { destruct Hv as [[H _] | (p & H & _)]; [exact H|].
          unfold isBr in Hbr. rewrite H in Hbr. discriminate. }
        destruct (Demote_appends F b AP B y old Hnd (Hu b (or_introl eq_refl)) Hid Hbr Hold He)
          as (n & Ha1 & Ha2).
        exists n. split; [exact Ha1|]. split; [exact Ha2|]. intros Hin. contradiction.
      * exists y. split; [| split; [exact Hv|]].
        -- apply endsKeep_Demote; auto.
           ++ eapply victim_notPHI; eauto.
           ++ destruct Hv as [[_ H] | (p & _ & _ & H)]; [apply isBr_usesb; exact H|].
              destruct (usesb x y) eqn:E; [| reflexivity].
              exfalso. apply Hne. apply H; auto.
           ++ destruct Hv as [[H _] | (p & _ & H & _)]; [congruence|].
              intros e. apply H. rewrite e. apply Hxs. left. reflexivity.
        -- intros Hin. apply Hb. right. exact Hin.
Qed.
End BadEnd.

(** * Reloads: one call site *)

Lemma notSlot_not E G y : NoDup (ids G) -> notSlot E G y -> ~ slotIn E G y.
Proof.
  intros Hnd Hn (A & HA & e & Ha).
  assert (HAin : In A (blockInsts G E)) by (apply leadsIn_In; exact HA).
  destruct Hn as [(Y & HY & eY & HYa) | (P & HP & Hin)].
  - assert (Y = A).
    { rewrite ids_allInsts in Hnd. apply (NoDup_map_inj_in iid (allInsts G)); auto.
      - eapply blockInsts_In; eauto.
      - congruence. }
    subst Y. congruence.
  - apply in_map_iff in Hin. destruct Hin as (Z & eZ & HZ).
    apply (distinct_blocks G P E Z A Hnd HP HZ HAin). congruence.
Qed.

Lemma kept_notAlloca F' Y Y' : kept F' Y Y' -> isAlloca Y = false -> isAlloca Y' = false.
Proof.
  intros (_ & _ & _ & Hphi & Hk) Ha. destruct (isPHI Y) eqn:EP.
  - specialize (Hphi eq_refl). unfold isPHI in Hphi. unfold isAlloca.
    destruct (ikd Y'); try discriminate. reflexivity.
  - destruct (Hk eq_refl) as [Hs _]. unfold skeleton in Hs. unfold isAlloca in *.
    destruct (ikd Y) as [| ? ? | ? | | | | | | ? ? ? | [?|] | |];
      destruct (ikd Y') as [| ? ? | ? | | | | | | ? ? ? | [?|] | |];
      simpl in Hs; try discriminate; auto.
Qed.

Lemma notSlot_step S E G G' y :
  frel S G G' -> keeps (fun _ => True) G G' -> notSlot E G y -> notSlot E G' y.
Proof.
  intros Hf [_ HK] [(Y & HY & eY & HYa) | (P & HP & Hin)].
  - destruct (HK Y HY I) as (Y' & HY' & Hk). left. exists Y'. split; [exact HY'|].
    split; [destruct Hk as [e _]; congruence|]. eapply kept_notAlloca; eauto.
  - right. exists P. split; [exact HP|].
    destruct (frel_blockInsts S G G' P Hf) as [Hl _]. eapply lrel_ids; eauto.
Qed.

Lemma replaceSuccessors_In succs Old New F I :
  In I (allInsts F) -> isPHI I = false ->
  In I (allInsts (replaceSuccessorsPhiUsesWith succs Old New F)).
Proof.
  unfold allInsts, replaceSuccessorsPhiUsesWith.
  induction F as [| b F IH]; simpl; [tauto|].
  intros HI HP. apply in_app_or in HI. apply in_or_app. destruct HI as [HI | HI].
  - left. destruct (existsb (Pos.eqb (bid b)) succs); simpl; [| exact HI].
    destruct (replacePhiUsesWith_In Old New _ _ HI) as (I' & H1 & [-> | [H2 _]]);
      [exact H1 | congruence].
  - right. apply IH; auto.
Qed.

Lemma split_In F c New brId I :
  In I (allInsts F) -> isPHI I = false -> In I (allInsts (splitBasicBlock F c New brId)).
Proof.
  intros HI HP. unfold splitBasicBlock. destruct (getParent F c); [| exact HI].
  apply replaceSuccessors_In; [| exact HP]. apply allInsts_splitAt. exact HI.
Qed.

Lemma blockInsts_replaceSuccessors_cases succs Old New F B :
  blockInsts (replaceSuccessorsPhiUsesWith succs Old New F) B = blockInsts F B \/
  blockInsts (replaceSuccessorsPhiUsesWith succs Old New F) B
  = replacePhiUsesWith Old New (blockInsts F B).
Proof.
  unfold replaceSuccessorsPhiUsesWith, blockInsts.
  induction F as [| b F IH]; simpl; [left; reflexivity|].
  destruct (existsb (Pos.eqb (bid b)) succs); simpl;
    destruct (Pos.eqb (bid b) B); auto.
Qed.

Lemma leads_replaceSuccessors E succs Old New F X :
  isPHI X = false -> leads E F X ->
  leads E (replaceSuccessorsPhiUsesWith succs Old New F) X.
Proof.
  intros HP H. unfold leads.
  destruct (blockInsts_replaceSuccessors_cases succs Old New F E) as [-> | ->]; [exact H|].
  apply leadsIn_replacePhiUsesWith; auto.
Qed.

Lemma allInsts_move c R F :
  NoDup (ids F) -> In R (bids F) ->
  incl (allInsts F) (allInsts (moveToFirstNonPHI c R F)).
Proof.
  intros Hnd HR. unfold moveToFirstNonPHI.
  destruct (findInst F c) as [ci|] eqn:Ec; [| apply incl_refl].
  intros I HI.
  destruct (Pos.eqb_spec (iid I) c) as [e | Hne].
  - assert (I = ci).
    { apply findInst_NoDup in HI; auto. rewrite e, Ec in HI. congruence. }
    subst I. apply allInsts_insertAt_new.
    rewrite <- (bids_eraseFromParent c) in HR. unfold bids in HR.
    apply in_map_iff in HR. destruct HR as (b & Hb & Hin).
    exists b. split; [exact Hin|]. unfold posFirstNonPHI.
    rewrite Hb, Pos.eqb_refl. discriminate.
  - apply allInsts_insertAt. rewrite allInsts_eraseFromParent. apply filter_In.
    split; [exact HI|]. apply negb_true_iff. apply Pos.eqb_neq. exact Hne.
Qed.

Lemma leads_move E c R F X :
  iid X <> c -> E <> R -> leads E F X -> leads E (moveToFirstNonPHI c R F) X.
Proof.
  intros Hc HR H. unfold moveToFirstNonPHI. destruct (findInst F c); [| exact H].
  apply leads_insertAt.
  - right. intros b Hb. unfold posFirstNonPHI.
    destruct (Pos.eqb_spec (bid b) R); [congruence | reflexivity].
  - apply leads_erase; auto.
Qed.

Lemma app_last_split {A} (pre : list A) X post l0 y :
  pre ++ X :: post = l0 ++ [y] -> X <> y ->
  exists post', post = post' ++ [y] /\ l0 = pre ++ X :: post'.
Proof.
  intros E Hne. destruct (exists_last (l := X :: post)) as (t & z & Et); [discriminate|].
  rewrite Et, app_assoc in E. apply app_inj_tail in E. destruct E as [E1 ->].
  destruct t as [| a t].
  - simpl in Et. inversion Et. congruence.
  - simpl in Et. injection Et as Ea Ep. exists t. split; [exact Ep|].
    rewrite <- E1, Ea. reflexivity.
Qed.

Lemma blockInsts_erasePrev_insertEnd P n F l0 y B :
  ~ In (iid n) (ids F) -> In P (bids F) -> blockInsts F P = l0 ++ [y] ->
  blockInsts (erasePrev (iid n) (insertAt (posEnd P) n F)) B
  = if Pos.eqb B P then l0 ++ [n] else blockInsts F B.
Proof.
  intros Hn HP El. unfold erasePrev.
  rewrite (blockInsts_map (erasePrevIn (iid n))) by reflexivity.
  destruct (Pos.eqb_spec B P) as [-> | ne].
  - rewrite blockInsts_insertEnd by exact HP. rewrite El, <- app_assoc. simpl.
    apply erasePrevIn_last; [| reflexivity].
    intros Hin. apply Hn. apply (blockInsts_ids_incl F P). rewrite El. exact Hin.
  - rewrite blockInsts_insertEnd_other by exact ne.
    apply erasePrevIn_notin. intros Hin. apply Hn. eapply blockInsts_ids_incl; eauto.
Qed.

Lemma leads_erasePrev E P n F l0 y X :
  ~ In (iid n) (ids F) -> In P (bids F) -> blockInsts F P = l0 ++ [y] ->
  X <> y -> leads E F X ->
  leads E (erasePrev (iid n) (insertAt (posEnd P) n F)) X.
Proof.
  intros Hn HP El Hne H. unfold leads.
  rewrite (blockInsts_erasePrev_insertEnd P n F l0 y E Hn HP El).
  destruct (Pos.eqb_spec E P) as [-> | ne]; [| exact H].
  destruct H as (pre & post & Eq & Hpre). rewrite El in Eq.
  destruct (app_last_split pre X post l0 y (eq_sym Eq) Hne) as (post' & -> & ->).
  exists pre, (post' ++ [n]). split; [| exact Hpre].
  rewrite <- app_assoc. reflexivity.
Qed.

Section SpillCaller.
Variable alloc : list positive -> positive.
Hypothesis alloc_fresh : forall l, ~ In (alloc l) l.
Variable uniqueName : function -> string -> string.
Hypothesis uniqueName_prefix :
  forall F nm, String.prefix nm (uniqueName F nm) = true.

Lemma fold_Demote_tracks B (K : instid -> Prop) E AP APi xs :
  NoDup xs -> inert APi = true -> iid APi = AP ->
  forall F,
    NoDup (ids F) -> (forall y, In y xs -> users F y <> []) ->
    leads E F APi -> (forall y, In y xs -> notSlot E F y) ->
    let F' := fold_left (fun G d => DemoteRegToStack alloc uniqueName G d AP) xs F in
    tracks (slotIn E F) (slotIn E F') B K F F' /\ leads E F' APi.
Proof.
  intros Hxs HAPi Hid. induction Hxs as [| y xs Hy Hndx IH]; simpl; intros F Hnd Hu HAP Hns.
  - split; [apply tracks_refl | exact HAP].
  - assert (G1 : gstep (eq y) F (DemoteRegToStack alloc uniqueName F y AP)).
    { apply (DemoteRegToStack_gstep alloc alloc_fresh); auto. }
    destruct (G1 Hnd) as [Hf1 Hn1].
    assert (Huy : users F y <> []) by (apply Hu; left; reflexivity).
    assert (HK1 : keeps (fun _ => True) F (DemoteRegToStack alloc uniqueName F y AP)).
    { apply keeps_Demote; auto. }
    destruct (IH (DemoteRegToStack alloc uniqueName F y AP)) as [T2 L2]; auto.
    + intros y' Hy'. eapply frel_users; eauto. intros ->. contradiction.
    + apply leads_Demote; auto.
    + intros y' Hy'. eapply notSlot_step; eauto.
    + split; [| exact L2].
      eapply tracks_trans; [| exact T2].
      apply (Demote_tracks alloc alloc_fresh uniqueName B K E F y AP APi); auto.
      apply notSlot_not; auto.
Qed.
End SpillCaller.

(** * Spilled values: one call site *)

Lemma inst_unique G X Y :
  NoDup (ids G) -> In X (allInsts G) -> In Y (allInsts G) -> iid X = iid Y -> X = Y.
Proof.
  intros Hnd HX HY e. apply findInst_NoDup in HX; auto. apply findInst_NoDup in HY; auto.
  rewrite e in HX. congruence.
Qed.

Lemma leadsIn_cut l1 ci l2 t X :
  isCall ci = true -> leadsIn (l1 ++ ci :: l2) X -> leadsIn (l1 ++ ci :: t) X.
Proof.
  intros Hc (pre & post & E & Hpre). revert pre E Hpre.
  induction l1 as [| a l1 IH]; intros pre E Hpre.
  - destruct pre as [| p pre]; simpl in E.
    + injection E as -> _. exists [], t. split; [reflexivity | constructor].
    + injection E as -> _. inversion Hpre; subst. congruence.
  - destruct pre as [| p pre]; simpl in E.
    + injection E as -> _. exists [], (l1 ++ ci :: t). split; [reflexivity | constructor].
    + injection E as -> E. inversion Hpre; subst.
      destruct (IH pre E) as (pre' & post' & E' & Hpre'); [assumption|].
      exists (p :: pre'), post'. split; [simpl; rewrite E'; reflexivity|].
      constructor; assumption.
Qed.

Lemma leads_split_mid E G1 b G2 l1 ci l2 R brI X :
  insts b = l1 ++ ci :: l2 -> isCall ci = true -> ~ In (bid b) (bids G1) -> E <> R ->
  leads E (G1 ++ b :: G2) X ->
  leads E (G1 ++ mkBlock (bid b) (l1 ++ [ci; brI]) :: mkBlock R l2 :: G2) X.
Proof.
  intros Hb Hc HP HR. unfold leads.
  destruct (Pos.eq_dec (bid b) E) as [e | ne].
  - subst E. rewrite !blockInsts_app_notin by exact HP.
    rewrite blockInsts_cons_eq.
    rewrite (blockInsts_cons_eq (mkBlock (bid b) (l1 ++ [ci; brI]))). simpl insts.
    rewrite Hb. apply leadsIn_cut. exact Hc.
  - rewrite (blockInsts_skip G1 b G2 E ne).
    rewrite (blockInsts_skip G1 (mkBlock (bid b) (l1 ++ [ci; brI])) _ E ne).
    rewrite (blockInsts_skip G1 (mkBlock R l2) G2 E); [auto|].
    simpl. congruence.
Qed.

Lemma isAlloca_notPHI A : isAlloca A = true -> isPHI A = false.
Proof. unfold isAlloca, isPHI. destruct (ikd A); try discriminate; reflexivity. Qed.

Lemma isAlloca_notCall A : isAlloca A = true -> isCall A = false.
Proof. unfold isAlloca, isCall. destruct (ikd A); try discriminate; reflexivity. Qed.

Lemma victim_notAlloca b old y : victim b old y -> isAlloca y = false.
Proof.
  intros [[_ H] | (p & H & _)]; unfold isAlloca.
  - unfold isBr in H. destruct (ikd y); try discriminate. reflexivity.
  - rewrite H. reflexivity.
Qed.

Lemma victim_notLoad b old y : victim b old y -> isLoad y = false.
Proof.
  intros [[_ H] | (p & H & _)]; unfold isLoad.
  - unfold isBr in H. destruct (ikd y); try discriminate. reflexivity.
  - rewrite H. reflexivity.
Qed.

Lemma victim_notInert b old y : victim b old y -> inert y = false.
Proof.
  intros [[_ H] | (p & H & _)]; unfold inert.
  - unfold isBr in H. destruct (ikd y); try discriminate. reflexivity.
  - rewrite H. reflexivity.
Qed.

Lemma kept_isCall F' I I' : kept F' I I' -> isCall I = true -> isCall I' = true.
Proof.
  intros (_ & _ & _ & _ & H) Hc.
  assert (HP : isPHI I = false).
  { unfold isCall in Hc. unfold isPHI. destruct (ikd I); try discriminate; reflexivity. }
  destruct (H HP) as [Hs _]. unfold isCall in *. unfold skeleton in Hs.
  destruct (ikd I); try discriminate.
  destruct (ikd I') as [| ? ? | ? | | | | | | ? ? ? | [?|] | |]; simpl in Hs;
    try discriminate; reflexivity.
Qed.

Lemma kept_isBr F' I I' : kept F' I I' -> isBr I = true -> isBr I' = true.
Proof.
  intros (_ & _ & _ & _ & H) Hc.
  assert (HP : isPHI I = false) by (apply isBr_notPHI; exact Hc).
  destruct (H HP) as [Hs _]. unfold isBr in *. unfold skeleton in Hs.
  destruct (ikd I); try discriminate.
  destruct (ikd I') as [| ? ? | ? | | | | | | ? ? ? | [?|] | |]; simpl in Hs;
    try discriminate; reflexivity.
Qed.
Section SpillRewrite.
Variable alloc : list positive -> positive.
Hypothesis alloc_fresh : forall l, ~ In (alloc l) l.
Variable uniqueName : function -> string -> string.
Hypothesis uniqueName_prefix :
  forall F nm, String.prefix nm (uniqueName F nm) = true.

(** One call site: what the instructions with an address in [K] use
    afterwards is what they used, or stands for it, and the alloca
    insertion point still leads the entry block. *)
Lemma rewriteCaller_tracks B (K : instid -> Prop) cb E AP APi F toRet toPar c A1 P M1 m M2 A2 :
  NoDup (ids F) -> NoDup (bids F) ->
  bview F = A1 ++ (P, M1 ++ m :: M2) :: A2 -> markId m = c -> isCallMark m = true ->
  (forall i, K i -> In i (ids F)) ->
  inert APi = true -> iid APi = AP -> leads E F APi ->
  let F' := rsF (rewriteCaller alloc uniqueName cb E AP (mkRS F toRet toPar) c) in
  tracks (slotIn E F) (slotIn E F') B K F F' /\ leads E F' APi.
Proof.
  intros Hnd Hnb Hv Hc Hcall HK HAPi HAP HL.
  destruct (bview_app_inv _ _ _ Hv) as (G1 & G2' & HF & HA1 & H2).
  destruct (bview_cons_inv _ _ _ _ H2) as (b & G2 & -> & HbP & HM & HA2).
  destruct (marks_mid_inv _ _ _ _ HM) as (l1 & ci & l2 & Hb & HM1 & Hci & HM2).
  assert (Hcid : iid ci = c) by (rewrite <- (view_markId _ _ Hci); auto).
  assert (Hcic : isCall ci = true) by (rewrite view_isCall, Hci; exact Hcall).
  assert (Hids : ids F = ids G1 ++ (map iid l1 ++ c :: map iid l2) ++ ids G2).
  { rewrite HF, ids_app. unfold ids at 2. simpl. fold (ids G2).
    rewrite Hb, map_app. simpl. rewrite Hcid. reflexivity. }
  assert (Hbids : bids F = bids G1 ++ P :: bids G2).
  { rewrite HF, bids_app. simpl. rewrite HbP. reflexivity. }
  assert (HcF : In c (ids F)).
  { rewrite Hids. apply in_or_app. right. apply in_or_app. left.
    apply in_or_app. right. left. reflexivity. }
  assert (HciF : In ci (allInsts F)).
  { rewrite HF. unfold allInsts. rewrite flat_map_app. apply in_or_app. right.
    simpl. apply in_or_app. left. rewrite Hb. apply in_or_app. right. left. reflexivity. }
  assert (HcN : ~ In c (ids G1) /\ ~ In c (map iid l1)).
  { rewrite Hids in Hnd. apply NoDup_mid_notin' in Hnd. tauto. }
  destruct HcN as [HcG1 Hcl1].
  assert (HPN : ~ In P (bids G1) /\ ~ In P (bids G2)).
  { rewrite Hbids in Hnb. apply NoDup_remove_2 in Hnb. rewrite in_app_iff in Hnb. tauto. }
  destruct HPN as [HPG1 HPG2].
  set (R := alloc (bids F)).
  assert (HR : ~ In R (bids F)) by apply alloc_fresh.
  assert (HRP : R <> P).
  { intros e. apply HR. rewrite Hbids, e. apply in_or_app. right. left. auto. }
  assert (HER : E <> R).
  { intros e. apply leads_In in HL as HL'. destruct HL as (pre & post & El & _).
    rewrite e, (blockInsts_notin F R HR) in El. destruct pre; discriminate. }
  set (bb := alloc (ids F)).
  assert (Hbb : ~ In bb (ids F)) by apply alloc_fresh.
  set (brI := mkInst bb "" TVoid (Br R)).
  set (F1a := G1 ++ mkBlock (bid b) (l1 ++ [ci; brI]) :: mkBlock R l2 :: G2).
  assert (HF1a : F1a = splitAt c R brI F).
  { unfold F1a. rewrite HF. symmetry. apply splitAt_mid; auto. }
  assert (Hnd1a : NoDup (ids F1a)).
  { rewrite HF1a. apply NoDup_splitAt; auto. }
  intros F'. subst F'. unfold rewriteCaller. simpl rsF.
  assert (HgP : getParent F c = Some P).
  { rewrite HF, <- HbP. apply getParent_mid; auto.
    rewrite Hb, map_app. apply in_or_app. right. left. auto. }
  rewrite HgP. cbv zeta. simpl rsF. fold R. fold bb.
  set (F1 := splitBasicBlock F c R bb).
  assert (HF1 : exists succs, F1 = replaceSuccessorsPhiUsesWith succs P R F1a).
  { unfold F1, splitBasicBlock. rewrite HgP. cbv zeta. fold brI. rewrite <- HF1a.
    eexists. reflexivity. }
  assert (Hs1 : gstep (fun _ => False) F1a F1).
  { generalize (splitBasicBlock_spec (fun _ => False) G1 b G2 c l1 ci l2 R
                  bb HcG1 Hb Hcl1 Hcid).
    rewrite <- HF. auto. }
  assert (Hnd1 : NoDup (ids F1)) by (apply Hs1; auto).
  set (xs := map iid (filter (fun I => negb (isAlloca I && Pos.eqb P E)
                                       && valueEscapes F1 (iid I)) (blockInsts F1 P))).
  set (F2 := fold_left (fun G d => DemoteRegToStack alloc uniqueName G d AP) xs F1).
  assert (Hxs : NoDup xs).
  { unfold xs. apply NoDup_map_filter. apply blockInsts_NoDup. exact Hnd1. }
  assert (Hus : forall x, In x xs -> users F1 x <> []).
  { intros x Hx. unfold xs in Hx. apply in_map_iff in Hx.
    destruct Hx as (I & <- & HI). apply filter_In in HI. destruct HI as [_ HI].
    apply andb_true_iff in HI. apply escapes_users. tauto. }
  assert (Hs2 : gstep (fun y => In y xs) F1 F2).
  { apply (fold_Demote_gstep alloc alloc_fresh); auto. }
  assert (Hnd2 : NoDup (ids F2)) by (apply Hs2; auto).
  set (F3 := moveToFirstNonPHI c R F2).
  assert (Hnd3 : NoDup (ids F3)) by (apply NoDup_move; exact Hnd2).
  set (F4 := match users F3 c with
             | [] => F3
             | _ :: _ => DemoteRegToStack alloc uniqueName F3 c AP
             end).
  assert (Hs4 : gstep (eq c) F3 F4).
  { unfold F4. destruct (users F3 c) eqn:EU; [apply gstep_refl|].
    apply (DemoteRegToStack_gstep alloc alloc_fresh); auto. rewrite EU. discriminate. }
  assert (Hnd4 : NoDup (ids F4)) by (apply Hs4; auto).
  assert (Hb2 : bids F2 = bids F1a).
  { rewrite <- (frel_bids _ _ _ (gstep_frel _ _ _ Hs2 Hnd1)).
    symmetry. eapply frel_bids. apply Hs1. exact Hnd1a. }
  assert (HRin2 : In R (bids F2)).
  { rewrite Hb2. unfold F1a. rewrite bids_app. apply in_or_app. right. right. left.
    reflexivity. }
  assert (HPin2 : In P (bids F2)).
  { rewrite Hb2. unfold F1a. rewrite bids_app. apply in_or_app. right. left.
    exact HbP. }
  (* every instruction is kept up to [F4] *)
  assert (K1 : forall K0, keeps K0 F F1) by (intros K0; apply keeps_splitBasicBlock).
  assert (K2 : forall K0, keeps K0 F1 F2).
  { intros K0. apply keeps_fold_Demote; auto. }
  assert (K3 : forall K0, keeps K0 F2 F3).
  { intros K0. apply keeps_move; auto. }
  assert (K4 : forall K0, keeps K0 F3 F4).
  { intros K0. unfold F4. destruct (users F3 c) eqn:EU; [apply keeps_refl|].
    apply keeps_Demote; auto. rewrite EU. discriminate. }
  assert (K12 : forall K0, keeps K0 F F2).
  { intros K0. eapply keeps_trans; [apply K1 | apply K2]. }
  assert (K13 : forall K0, keeps K0 F F3).
  { intros K0. eapply keeps_trans; [apply K12 | apply K3]. }
  assert (K24 : forall K0, keeps K0 F1 F4).
  { intros K0. eapply keeps_trans; [apply K2|]. eapply keeps_trans; [apply K3 | apply K4]. }
  assert (Hi1 : incl (ids F) (ids F1)) by (apply keeps_ids_incl; apply K1).
  (* the call site stays a call *)
  assert (HcX : forall G X, keeps (fun _ => True) F G -> NoDup (ids G) ->
                            In X (allInsts G) -> isCall X = false -> iid X <> c).
  { intros G X [_ HG] HndG HX HnC e.
    destruct (HG ci HciF I) as (ci' & Hci' & Hk).
    assert (X = ci').
    { apply (inst_unique G); auto. destruct Hk as [e' _]. congruence. }
    subst X. rewrite (kept_isCall _ _ _ Hk Hcic) in HnC. discriminate. }
  (* step 1: the split *)
  assert (L1 : forall X, isPHI X = false -> leads E F X -> leads E F1 X).
  { intros X HP HX. destruct HF1 as [succs ->].
    apply leads_replaceSuccessors; [exact HP|]. unfold F1a. rewrite HF in HX.
    apply leads_split_mid; auto. rewrite HbP. exact HPG1. }
  assert (T1 : tracks (slotIn E F) (slotIn E F1) B K F F1).
  { apply tracks_same.
    - intros s (A & HA & e & Ha). exists A. split; [| auto].
      apply L1; [apply isAlloca_notPHI; exact Ha | exact HA].
    - intros v. apply defined_keeps_all. apply K1.
    - intros I HI HP _. apply split_In; assumption. }
  (* step 2: the values that escape *)
  assert (HnS : forall y, In y xs -> notSlot E F1 y).
  { intros y Hy. unfold xs in Hy. apply in_map_iff in Hy.
    destruct Hy as (I & <- & HI). apply filter_In in HI. destruct HI as [HI Hf].
    apply andb_true_iff in Hf. destruct Hf as [Hf _]. apply negb_true_iff in Hf.
    destruct (isAlloca I) eqn:Ea.
    - right. exists P. simpl in Hf. split; [| apply in_map; exact HI].
      intros e. rewrite e, Pos.eqb_refl in Hf. discriminate.
    - left. exists I. split; [eapply blockInsts_In; eauto | auto]. }
  destruct (fold_Demote_tracks alloc alloc_fresh uniqueName B K E AP APi xs Hxs HAPi HAP
              F1 Hnd1 Hus (L1 APi (inert_notPHI _ HAPi) HL) HnS) as [T2 L2].
  fold F2 in T2, L2.
  (* step 3: the call moves *)
  assert (T3 : tracks (slotIn E F2) (slotIn E F3) B K F2 F3).
  { apply tracks_same.
    - intros s (A & HA & e & Ha). exists A. split; [| auto].
      apply leads_move; [| exact HER | exact HA].
      apply (HcX F2); auto. + apply leads_In in HA. exact HA.
      + apply isAlloca_notCall. exact Ha.
    - intros v. apply defined_keeps_all. apply K3.
    - intros I HI _ _. apply allInsts_move; auto. }
  assert (L3 : leads E F3 APi).
  { apply leads_move; [| exact HER | exact L2].
    apply (HcX F2); auto. + apply leads_In in L2. exact L2.
    + apply inert_notCall. exact HAPi. }
  (* step 4: the result of the call *)
  assert (T4 : tracks (slotIn E F3) (slotIn E F4) B K F3 F4).
  { unfold F4. destruct (users F3 c) eqn:EU; [apply tracks_refl|].
    apply (Demote_tracks alloc alloc_fresh uniqueName B K E F3 c AP APi); auto.
    - rewrite EU. discriminate.
    - intros (A & HA & e & Ha). apply (HcX F3 A); auto.
      + apply leads_In in HA. exact HA.
      + apply isAlloca_notCall. exact Ha. }
  assert (L4 : leads E F4 APi).
  { unfold F4. destruct (users F3 c) eqn:EU; [exact L3|].
    apply (leads_Demote alloc alloc_fresh uniqueName); auto. right. rewrite EU. discriminate. }
  (* the end of block [P] *)
  assert (V1 : endsWith brI (blockInsts F1 P)).
  { destruct HF1 as [succs ->]. apply endsWith_replaceSuccessors; [reflexivity|].
    unfold F1a. rewrite blockInsts_app_notin by auto.
    rewrite <- HbP, (blockInsts_cons_eq (mkBlock (bid b) (l1 ++ [ci; brI]))).
    exists (l1 ++ [ci]). rewrite <- app_assoc. reflexivity. }
  assert (HbrI1 : In brI (allInsts F1)).
  { apply (blockInsts_In F1 P). destruct V1 as [l0 ->]. apply in_or_app. right. left.
    reflexivity. }
  destruct (victim_fold_Demote alloc alloc_fresh uniqueName bb (ids F1) AP P xs Hxs
              F1 Hnd1 Hus (incl_refl _)) as (y & V2 & Hvic).
  { intros x Hx. unfold xs in Hx. apply in_map_iff in Hx. destruct Hx as (I & <- & HI).
    apply filter_In in HI. destruct HI as [HI _].
    apply (blockInsts_ids_incl F1 P). apply in_map. exact HI. }
  { exists brI. split; [exact V1|]. split; [left; split; reflexivity|]. reflexivity. }
  fold F2 in V2.
  assert (Hyc : forall x, In x (ids F) -> iid y <> x).
  { intros x Hx e. destruct Hvic as [[e' _] | (q & _ & Hn & _)].
    - apply Hbb. rewrite <- e', e. exact Hx.
    - apply Hn. apply Hi1. rewrite e. exact Hx. }
  assert (V3 : endsWith y (blockInsts F3 P)).
  { unfold F3, moveToFirstNonPHI. destruct (findInst F2 c) as [ci2|]; [| exact V2].
    rewrite blockInsts_insertAt.
    - apply endsWith_erase; auto.
    - intros b0 Hb0. unfold posFirstNonPHI.
      destruct (Pos.eqb_spec (bid b0) R); congruence. }
  assert (V4 : endsWith y (blockInsts F4 P)).
  { unfold F4. destruct (users F3 c) eqn:EU; [exact V3|].
    apply (endsKeep_Demote alloc alloc_fresh uniqueName); auto.
    - eapply victim_notPHI; eauto.
    - destruct Hvic as [[_ Hbr] | (q & _ & _ & Hu)]; [apply isBr_usesb; exact Hbr|].
      destruct (usesb c y) eqn:Eu; [| reflexivity]. exfalso. apply Hbb.
      rewrite <- (Hu c (Hi1 c HcF) Eu). exact HcF. }
  set (brC := mkInst (alloc (ids F4)) "" TVoid (Br cb)).
  change (alloc (ids F4)) with (iid brC).
  destruct V4 as (l0 & El).
  assert (Hy4 : In y (allInsts F4)).
  { apply (blockInsts_In F4 P). rewrite El. apply in_or_app. right. left. reflexivity. }
  assert (HP4 : In P (bids F4)).
  { rewrite <- (frel_bids _ _ _ (gstep_frel _ _ _ Hs4 Hnd3)).
    unfold F3, moveToFirstNonPHI. destruct (findInst F2 c); [| exact HPin2].
    rewrite bids_insertAt, bids_eraseFromParent. exact HPin2. }
  assert (Hfr : ~ In (iid brC) (ids F4)) by apply alloc_fresh.
  assert (Hin5 : forall I, In I (allInsts F4) -> I <> y ->
                           In I (allInsts (erasePrev (iid brC) (insertAt (posEnd P) brC F4)))).
  { intros I HI Hne. apply (erasePrev_insertEnd_In P brC F4 l0 y I Hfr El HI).
    intros e. apply Hne. apply (inst_unique F4); auto. }
  assert (T5 : tracks (slotIn E F4)
                 (slotIn E (erasePrev (iid brC) (insertAt (posEnd P) brC F4))) B K
                 F4 (erasePrev (iid brC) (insertAt (posEnd P) brC F4))).
  { apply tracks_same.
    - intros s (A & HA & e & Ha). exists A. split; [| auto].
      apply (leads_erasePrev E P brC F4 l0 y A Hfr HP4 El); [| exact HA].
      intros ->. rewrite (victim_notAlloca _ _ _ Hvic) in Ha. discriminate.
    - intros v Hd x ->. destruct (Hd x eq_refl) as (X & HX & e & Hy).
      exists X. split; [| auto]. apply Hin5; [exact HX|].
      intros ->. rewrite (victim_yields _ _ _ Hvic) in Hy. discriminate.
    - intros I HI HP Hk. apply Hin5; [exact HI|]. intros ->.
      destruct Hk as [Hk | [Hk | (w & p & Hk & Hd)]].
      + apply (Hyc (iid y)); [apply HK; exact Hk | reflexivity].
      + rewrite (victim_notLoad _ _ _ Hvic) in Hk. discriminate.
      + destruct Hvic as [[_ Hbr] | (p' & Hst & _)].
        * unfold isBr in Hbr. rewrite Hk in Hbr. discriminate.
        * rewrite Hk in Hst. injection Hst as -> _.
          destruct (Hd bb eq_refl) as (X & HX & e & HyX).
          destruct (K24 (fun _ => True)) as [_ HK24].
          destruct (HK24 brI HbrI1 I) as (br' & Hbr' & Hkb).
          assert (X = br').
          { apply (inst_unique F4); auto. destruct Hkb as [e' _]. rewrite e, e'.
            reflexivity. }
          subst X. assert (Hb' : isBr br' = true) by (apply (kept_isBr _ _ _ Hkb); reflexivity).
          unfold isBr in Hb'. unfold yields in HyX. destruct (ikd br'); discriminate. }
  split.
  - eapply tracks_trans; [exact T1|]. eapply tracks_trans; [exact T2|].
    eapply tracks_trans; [exact T3|]. eapply tracks_trans; [exact T4 | exact T5].
  - apply (leads_erasePrev E P brC F4 l0 y APi Hfr HP4 El); [| exact L4].
    intros ->. rewrite (victim_notInert _ _ _ Hvic) in HAPi. discriminate.
Qed.
End SpillRewrite.

(** * Spilled values: the call sites of one group *)

Section SpillLoop.
Variable alloc : list positive -> positive.
Hypothesis alloc_fresh : forall l, ~ In (alloc l) l.
Variable uniqueName : function -> string -> string.
Hypothesis uniqueName_prefix :
  forall F nm, String.prefix nm (uniqueName F nm) = true.

Lemma rewrite_tracks B (K : instid -> Prop) cb t Mall E ME0 EB AP APi cs :
  inert APi = true -> iid APi = AP ->
  forall done rs,
    rewInv cb t Mall E ME0 done cs rs ->
    (forall i, K i -> In i (ids (rsF rs))) ->
    leads EB (rsF rs) APi ->
    let rs' := fold_left (rewriteCaller alloc uniqueName cb EB AP) cs rs in
    tracks (slotIn EB (rsF rs)) (slotIn EB (rsF rs')) B K (rsF rs) (rsF rs') /\
    leads EB (rsF rs') APi.
Proof.
  intros HAPi HAP. induction cs as [| c cs IH]; intros done rs Hinv HK HL; cbn [fold_left].
  - split; [apply tracks_refl | exact HL].
  - pose proof (rewInv_step alloc alloc_fresh uniqueName cb t Mall E ME0 EB AP
                  done c cs rs Hinv) as Hinv'.
    destruct rs as [F toRet toPar]. simpl in HK, HL.
    unfold rewInv in Hinv. simpl in Hinv.
    destruct Hinv as (Hnd & Hnb & HM & _ & _ & _ & Htgt & _).
    destruct (Htgt c (or_introl eq_refl)) as (m & Hm & Hmc & Hmt).
    assert (Hcall : isCallMark m = true).
    { destruct m as [i [[| | | |f| |]|] a|]; simpl in *; try discriminate; reflexivity. }
    rewrite <- HM, allMarks_bview in Hm. apply in_flat_map in Hm.
    destruct Hm as ([P M] & HPM & HmM). simpl in HmM.
    apply in_split in HPM. destruct HPM as (A1 & A2 & Hv).
    apply in_split in HmM. destruct HmM as (M1 & M2 & ->).
    destruct (rewriteCaller_tracks alloc alloc_fresh uniqueName B K cb EB AP APi F toRet toPar c
                A1 P M1 m M2 A2 Hnd Hnb Hv Hmc Hcall HK HAPi HAP HL) as [T1 L1].
    destruct (rewriteCaller_keeps alloc alloc_fresh uniqueName K cb EB AP F toRet toPar c
                A1 P M1 m M2 A2 Hnd Hnb Hv Hmc HK) as [Hk1 _].
    set (rs1 := rewriteCaller alloc uniqueName cb EB AP (mkRS F toRet toPar) c) in *.
    destruct (IH (done ++ [c]) rs1 Hinv') as [T2 L2].
    + intros i Hi. eapply keeps_ids; eauto.
    + exact L1.
    + split; [| exact L2]. simpl rsF at 1 3. eapply tracks_trans; [exact T1 | exact T2].
Qed.
End SpillLoop.

(** * Spilled values: the shared block and the erasure *)

Lemma yields_replaceUsesOfWith x w I : yields (replaceUsesOfWith x w I) = yields I.
Proof. unfold yields, replaceUsesOfWith. simpl. destruct (ikd I) as [| | | | | | | | | [?|] | |]; reflexivity. Qed.

Lemma defined_incl F F' v :
  incl (allInsts F) (allInsts F') -> defined F v -> defined F' v.
Proof.
  intros Hi Hd x e. destruct (Hd x e) as (X & HX & H). exists X. split; [apply Hi; exact HX | exact H].
Qed.

Lemma defined_mapInsts g F v :
  (forall I, iid (g I) = iid I /\ yields (g I) = yields I) ->
  defined F v -> defined (mapInsts g F) v.
Proof.
  intros Hg Hd x e. destruct (Hd x e) as (X & HX & e1 & e2). exists (g X).
  rewrite allInsts_mapInsts. split; [apply in_map; exact HX|].
  destruct (Hg X) as [-> ->]. auto.
Qed.

(** A step that keeps the instructions as they are, PHI nodes and
    switches aside. *)
Lemma tracks_step E B (K : instid -> Prop) G G' :
  (forall A, isAlloca A = true -> leads E G A -> leads E G' A) ->
  (forall v, defined G v -> defined G' v) ->
  (forall I, In I (allInsts G) -> isPHI I = false ->
     K (iid I) \/ isLoad I = true \/ (exists w p, ikd I = Store w p /\ defined G w) ->
     In I (allInsts G')) ->
  tracks (slotIn E G) (slotIn E G') B K G G'.
Proof.
  intros Hl Hd Hi. apply tracks_same; auto.
  intros s (A & HA & e & Ha). exists A. split; [apply Hl; assumption | auto].
Qed.

Lemma tracks_insert E B K pos n F :
  isCall n = false \/ (forall b, bid b = E -> pos b = None) ->
  tracks (slotIn E F) (slotIn E (insertAt pos n F)) B K F (insertAt pos n F).
Proof.
  intros H. apply tracks_step.
  - intros A _. apply leads_insertAt. exact H.
  - intros v. apply defined_incl. apply allInsts_insertAt.
  - intros I HI _ _. apply allInsts_insertAt. exact HI.
Qed.

Lemma tracks_addIncoming E B K node v b F :
  tracks (slotIn E F) (slotIn E (addIncoming node v b F)) B K F (addIncoming node v b F).
Proof.
  unfold addIncoming. apply tracks_step.
  - intros A Ha. apply leads_updInst.
    + intros y Hy. unfold isCall in *. destruct (ikd y) eqn:Ek; simpl; rewrite ?Ek; auto.
    + intros _. unfold isAlloca in Ha. destruct (ikd A) eqn:Ek; try discriminate; reflexivity.
  - intros v0. unfold updInst. apply defined_mapInsts. intros I.
    destruct (Pos.eqb (iid I) node); [| auto]. unfold yields.
    destruct (ikd I) eqn:Ek; simpl; rewrite ?Ek; auto.
  - intros I HI HP _. apply In_updInst with (u := node)
      (g := fun PN => match ikd PN with PHI inc => setKind PN (PHI (inc ++ [(v, b)])) | _ => PN end)
      in HI.
    destruct (Pos.eqb (iid I) node); [| exact HI].
    unfold isPHI in HP. destruct (ikd I); try discriminate; exact HI.
Qed.

Lemma tracks_addCase E B (K : instid -> Prop) sw v b F :
  ~ K sw ->
  tracks (slotIn E F) (slotIn E (addCase sw v b F)) B K F (addCase sw v b F).
Proof.
  intros HK. unfold addCase. apply tracks_step.
  - intros A Ha. apply leads_updInst.
    + intros y Hy. unfold isCall in *. destruct (ikd y) eqn:Ek; simpl; rewrite ?Ek; auto.
    + intros _. unfold isAlloca in Ha. destruct (ikd A) eqn:Ek; try discriminate; reflexivity.
  - intros v0. unfold updInst. apply defined_mapInsts. intros I.
    destruct (Pos.eqb (iid I) sw); [| auto]. unfold yields.
    destruct (ikd I) eqn:Ek; simpl; rewrite ?Ek; auto.
  - intros I HI HP Hk. apply In_updInst with (u := sw)
      (g := fun SI => match ikd SI with
                      | Switch c d cases => setKind SI (Switch c d (cases ++ [(v, b)]))
                      | _ => SI end) in HI.
    destruct (Pos.eqb_spec (iid I) sw) as [e |]; [| exact HI].
    destruct Hk as [Hk | [Hk | (w & p & Hk & _)]].
    + exfalso. apply HK. rewrite <- e. exact Hk.
    + unfold isLoad in Hk. destruct (ikd I); try discriminate; exact HI.
    + rewrite Hk in HI. exact HI.
Qed.

(** ** The erasure of the call sites *)

Lemma tracks_eraseCaller E (B : instid -> instid -> Prop) (K : instid -> Prop) w c G :
  NoDup (ids G) -> B c w -> w <> c -> ~ K c ->
  (forall X, In X (allInsts G) -> iid X = c -> isCall X = true) ->
  (exists W, In W (allInsts G) /\ iid W = w /\ yields W = true) ->
  let G' := eraseFromParent c (replaceAllUsesWith c (VInst w) G) in
  tracks (slotIn E G) (slotIn E G') B K G G'.
Proof.
  intros Hnd HB Hwc HK Hcall (W & HW & HWid & HWy) G'.
  assert (Hin : forall I, In I (allInsts G) -> iid I <> c ->
                          In (replaceUsesOfWith c (VInst w) I) (allInsts G')).
  { intros I HI Hne. unfold G'. rewrite allInsts_eraseFromParent. apply filter_In.
    split.
    - unfold replaceAllUsesWith. rewrite allInsts_mapInsts. apply in_map. exact HI.
    - rewrite iid_replaceUsesOfWith. apply negb_true_iff. apply Pos.eqb_neq. exact Hne. }
  assert (Hnc : forall I, In I (allInsts G) -> isCall I = false -> iid I <> c).
  { intros I HI Hn e. rewrite (Hcall I HI e) in Hn. discriminate. }
  assert (Hdef : forall x, x <> c -> defined G (VInst x) -> defined G' (VInst x)).
  { intros x Hx Hd y [= <-]. destruct (Hd x eq_refl) as (X & HX & e & Hy).
    exists (replaceUsesOfWith c (VInst w) X).
    split; [apply Hin; [exact HX | congruence]|].
    rewrite iid_replaceUsesOfWith, yields_replaceUsesOfWith. auto. }
  assert (HdW : defined G' (VInst w)).
  { intros y [= <-]. exists (replaceUsesOfWith c (VInst w) W).
    split; [apply Hin; [exact HW | congruence]|].
    rewrite iid_replaceUsesOfWith, yields_replaceUsesOfWith. auto. }
  assert (Hslot : forall A, isAlloca A = true -> leads E G A -> leads E G' A).
  { intros A Ha HA. unfold G'. apply leads_erase.
    - apply Hnc; [apply leads_In in HA; exact HA | apply isAlloca_notCall; exact Ha].
    - unfold replaceAllUsesWith. apply leads_mapInsts; [| | exact HA].
      + intros y Hy. rewrite isCall_replaceUsesOfWith. exact Hy.
      + apply inert_replaceUsesOfWith. apply isAlloca_inert. exact Ha. }
  assert (Hsc : forall s, slotIn E G s -> s <> c).
  { intros s (A & HA & e & Ha) ->. apply (Hnc A); auto.
    - apply leads_In in HA. exact HA.
    - apply isAlloca_notCall. exact Ha. }
  apply (tracks_intro _ _ B K G G' (fun v v' => v' = substValue c (VInst w) v)).
  - intros s (A & HA & e & Ha). exists A. split; [apply Hslot; assumption | auto].
  - intros v v' -> Hd. unfold substValue. destruct (isVInst c v) eqn:Ev.
    + apply isVInst_true in Ev. subst v. split; [| exact HdW].
      apply (sp_merge _ _ _ _ c w); [apply sp_same | exact HB].
    + split; [apply sp_same|]. destruct v as [x | | | | | |];
        try (intros y Hy; discriminate).
      apply Hdef; [| exact Hd].
      intros ->. simpl in Ev. rewrite Pos.eqb_refl in Ev. discriminate.
  - intros s p Hs ->. unfold substValue. simpl.
    destruct (Pos.eqb_spec s c) as [e |]; [| reflexivity].
    exfalso. apply (Hsc s Hs e).
  - intros I HI HP Hk. exists (replaceUsesOfWith c (VInst w) I). split.
    + apply Hin; [exact HI|].
      destruct Hk as [Hk | [Hk | (v & p & Hk & _)]].
      * intros e. apply HK. rewrite <- e. exact Hk.
      * apply Hnc; [exact HI|]. unfold isLoad in Hk. unfold isCall.
        destruct (ikd I); try discriminate; reflexivity.
      * apply Hnc; [exact HI|]. unfold isCall. rewrite Hk. reflexivity.
    + split; [reflexivity|]. split.
      * unfold replaceUsesOfWith. simpl. apply skeleton_mapOperands.
      * unfold replaceUsesOfWith. simpl. rewrite operands_mapOperands.
        apply Forall2_map_r. intros v. reflexivity.
Qed.

Lemma tracks_eraseCallers E (B : instid -> instid -> Prop) (K : instid -> Prop) w cs :
  (forall c, In c cs -> B c w) -> ~ In w cs -> (forall i, K i -> ~ In i cs) ->
  forall G,
    NoDup (ids G) ->
    (forall X, In X (allInsts G) -> In (iid X) cs -> isCall X = true) ->
    (exists W, In W (allInsts G) /\ iid W = w /\ yields W = true) ->
    tracks (slotIn E G) (slotIn E (eraseCallers w cs G)) B K G (eraseCallers w cs G).
Proof.
  unfold eraseCallers. induction cs as [| c cs IH]; intros HB Hw HK G Hnd Hcall HW;
    cbn [fold_left].
  - apply tracks_refl.
  - set (G1 := eraseFromParent c (replaceAllUsesWith c (VInst w) G)).
    assert (Hback : forall I, In I (allInsts G1) ->
              exists J, In J (allInsts G) /\ I = replaceUsesOfWith c (VInst w) J /\ iid J <> c).
    { intros I HI. unfold G1 in HI. rewrite allInsts_eraseFromParent in HI.
      apply filter_In in HI. destruct HI as [HI Hne]. unfold replaceAllUsesWith in HI.
      rewrite allInsts_mapInsts in HI. apply in_map_iff in HI.
      destruct HI as (J & <- & HJ). exists J. split; [exact HJ|]. split; [reflexivity|].
      rewrite iid_replaceUsesOfWith in Hne. apply negb_true_iff in Hne.
      apply Pos.eqb_neq. exact Hne. }
    eapply tracks_trans.
    + apply (tracks_eraseCaller E B K w c G); auto.
      * apply HB. left. reflexivity.
      * intros e. apply Hw. left. symmetry. exact e.
      * intros Hk. apply (HK c Hk). left. reflexivity.
      * intros X HX e. apply Hcall; [exact HX|]. left. symmetry. exact e.
    + apply IH.
      * intros c' Hc'. apply HB. right. exact Hc'.
      * intros Hin. apply Hw. right. exact Hin.
      * intros i Hi Hin. apply (HK i Hi). right. exact Hin.
      * apply NoDup_eraseFromParent. unfold replaceAllUsesWith.
        rewrite ids_mapInsts; [exact Hnd|]. intros i. apply iid_replaceUsesOfWith.
      * intros X HX Hin. destruct (Hback X HX) as (J & HJ & -> & _).
        rewrite isCall_replaceUsesOfWith. apply Hcall; [exact HJ|].
        rewrite iid_replaceUsesOfWith in Hin. right. exact Hin.
      * destruct HW as (W & HW & e & Hy). exists (replaceUsesOfWith c (VInst w) W).
        split; [| rewrite iid_replaceUsesOfWith, yields_replaceUsesOfWith; auto].
        unfold G1. rewrite allInsts_eraseFromParent. apply filter_In. split.
        -- unfold replaceAllUsesWith. rewrite allInsts_mapInsts. apply in_map. exact HW.
        -- rewrite iid_replaceUsesOfWith, e. apply negb_true_iff. apply Pos.eqb_neq.
           intros e'. apply Hw. left. symmetry. exact e'.
Qed.

(** * Spilled values: one group *)

Lemma tracks_monoB (Sl Sl' : instid -> Prop) (B B' : instid -> instid -> Prop) K G G' :
  (forall c ci, B c ci -> B' c ci) -> tracks Sl Sl' B K G G' -> tracks Sl Sl' B' K G G'.
Proof.
  intros HB (a & b & c & d).
  split; [exact a|]. split; [exact b|]. split.
  - intros w s Hs Hst Hd. destruct (c w s Hs Hst Hd) as (w' & X1 & X2 & X3).
    exists w'. split; [exact X1|]. split; [| exact X3].
    eapply spilled_mono; [| exact HB | exact X2]. auto.
  - intros I HI HK HP. destruct (d I HI HK HP) as (I' & Y1 & Y2 & Y3 & Y4).
    exists I'. split; [exact Y1|]. split; [exact Y2|]. split; [exact Y3|].
    eapply Forall2_impl; [| exact Y4].
    intros v v' Hv Hd. destruct (Hv Hd) as [Z1 Z2]. split; [| exact Z2].
    eapply spilled_mono; [| exact HB | exact Z1]. auto.
Qed.

Lemma blockInsts_app_in F G B : In B (bids F) -> blockInsts (F ++ G) B = blockInsts F B.
Proof.
  unfold blockInsts, bids. induction F as [| b F IH]; simpl; [tauto|].
  intros H. destruct (Pos.eqb_spec (bid b) B); [reflexivity|].
  apply IH. destruct H; [contradiction | assumption].
Qed.

Lemma leads_app E F G X : leads E F X -> leads E (F ++ G) X.
Proof.
  unfold leads. intros H. rewrite blockInsts_app_in; [exact H|].
  destruct (in_dec Pos.eq_dec E (bids F)) as [Hin | Hn]; [exact Hin|].
  rewrite (blockInsts_notin F E Hn) in H. destruct H as (pre & post & e & _).
  destruct pre; discriminate.
Qed.

Section SpillGroup.
Variable alloc : list positive -> positive.
Hypothesis alloc_fresh : forall l, ~ In (alloc l) l.
Variable uniqueName : function -> string -> string.
Hypothesis uniqueName_prefix :
  forall F nm, String.prefix nm (uniqueName F nm) = true.
Variable arg_types : funcid -> list typ.
Variable ret_type : funcid -> typ.

Lemma tracks_prepared E B K F :
  tracks (slotIn E F) (slotIn E (prepared alloc uniqueName F)) B K
         F (prepared alloc uniqueName F).
Proof.
  unfold prepared. eapply tracks_trans; [| apply tracks_insert; left; reflexivity].
  unfold withCallBlock. apply tracks_step.
  - intros A _. apply leads_app.
  - intros v. apply defined_incl. rewrite allInsts_app. apply incl_appl, incl_refl.
  - intros I HI _ _. rewrite allInsts_app. apply in_or_app. left. exact HI.
Qed.

Lemma leads_prepared b G :
  leads (entryOf alloc (b :: G)) (prepared alloc uniqueName (b :: G))
        (allocaPoint (allocaPointName alloc uniqueName (b :: G)) (allocaPointOf alloc (b :: G))).
Proof.
  rewrite prepared_cons. unfold leads. simpl entryOf.
  rewrite (blockInsts_cons_eq (mkBlock (bid b) _)). simpl insts.
  exists (firstn (countWhile isAlloca (insts b)) (insts b)),
         (skipn (countWhile isAlloca (insts b)) (insts b)).
  split; [reflexivity|].
  eapply Forall_impl; [| apply countWhile_firstn].
  intros a. apply isAlloca_notCall.
Qed.

Lemma tracks_buildArgPHI E B K cb callers toPar st A :
  tracks (slotIn E (fst (fst st)))
         (slotIn E (fst (fst (buildArgPHI alloc cb callers toPar st A)))) B K
         (fst (fst st)) (fst (fst (buildArgPHI alloc cb callers toPar st A))).
Proof.
  destruct st as [[F args] n]. unfold buildArgPHI. simpl.
  set (node := alloc (ids F)).
  eapply tracks_trans;
    [apply (tracks_insert E B K (posEnd cb) (mkInst node "" A (PHI []))); left; reflexivity|].
  generalize (insertAt (posEnd cb) (mkInst node "" A (PHI [])) F).
  induction callers as [| c cs IH]; intros G; simpl; [apply tracks_refl|].
  eapply tracks_trans; [| apply IH].
  destruct (olookup c toPar); [apply tracks_addIncoming | apply tracks_refl].
Qed.

Lemma tracks_buildArgs E B K cb t callers toPar F :
  tracks (slotIn E F)
         (slotIn E (fst (buildArgs alloc arg_types cb t callers toPar F))) B K
         F (fst (buildArgs alloc arg_types cb t callers toPar F)).
Proof.
  unfold buildArgs. destruct (0 <? List.length (arg_types t))%nat; [| apply tracks_refl].
  change F with (fst (fst (F, @nil value, O))) at 1 3.
  generalize (F, @nil value, O). induction (arg_types t) as [| A tys IH]; intros st; simpl.
  - apply tracks_refl.
  - eapply tracks_trans; [apply tracks_buildArgPHI | apply IH].
Qed.

Lemma tracks_emitRouter E B (K : instid -> Prop) cb ci toRet F :
  (forall i, K i -> In i (ids F)) ->
  tracks (slotIn E F) (slotIn E (emitRouter alloc cb ci toRet F)) B K
         F (emitRouter alloc cb ci toRet F).
Proof.
  intros HK. unfold emitRouter.
  set (wf := alloc (ids F)).
  set (F5 := insertAt (posBefore ci) (mkInst wf "" (TInt 32) (PHI [])) F).
  assert (T5 : tracks (slotIn E F) (slotIn E F5) B K F F5)
    by (apply tracks_insert; left; reflexivity).
  destruct toRet as [| first rest]; [exact T5|].
  set (sw := alloc (ids F5)).
  set (F6 := insertAt (posEnd cb) _ F5).
  assert (Hsw : ~ K sw).
  { intros Hk. apply (alloc_fresh (ids F5)). apply ids_insertAt_incl. apply HK. exact Hk. }
  eapply tracks_trans; [exact T5|].
  apply (tracks_trans _ (slotIn E F6) _ B K F5 F6);
    [apply tracks_insert; left; reflexivity|].
  generalize F6 0%Z. generalize (first :: rest).
  induction l as [| e l IH]; intros G z; simpl; [apply tracks_refl|].
  eapply tracks_trans; [| apply IH].
  eapply tracks_trans; [apply tracks_addIncoming | apply tracks_addCase; exact Hsw].
Qed.

(** The loop over the call sites of a group, started in [F]. *)
Lemma rewriteGroup_tracks B (K : instid -> Prop) F t callers :
  wf F -> callers = callsTo t F -> (2 <= List.length callers)%nat ->
  (forall i, K i -> In i (ids F)) ->
  let rs := rewriteGroup alloc uniqueName F callers in
  tracks (slotIn (entryOf alloc F) F) (slotIn (entryOf alloc F) (rsF rs)) B K F (rsF rs).
Proof.
  intros [Hnd Hnb] Hc Hk HK rs.
  assert (Hne : callsTo t F <> []).
  { rewrite <- Hc. destruct callers; simpl in Hk; [lia | discriminate]. }
  destruct (callsTo_nonempty t F Hne) as (b & G & HF).
  assert (Hc' : callers = map markId (filter (callsTarget t) (allMarks F))).
  { rewrite Hc. apply callsTo_marks. }
  pose proof (rewInv_prepared alloc alloc_fresh uniqueName uniqueName_prefix
                t F b G callers Hnd Hnb HF Hc') as H0.
  destruct (rewrite_tracks alloc alloc_fresh uniqueName B K _ t _ _ _
              (entryOf alloc F) (allocaPointOf alloc F)
              (allocaPoint (allocaPointName alloc uniqueName F) (allocaPointOf alloc F))
              callers eq_refl eq_refl [] _ H0) as [T _].
  - intros i Hi. simpl. unfold prepared. apply ids_insertAt_incl.
    rewrite ids_withCallBlock. apply HK. exact Hi.
  - simpl. rewrite HF. apply leads_prepared.
  - eapply tracks_trans; [apply tracks_prepared | exact T].
Qed.
End SpillGroup.

(** * Spilled values: the merged group *)

Section SpillMerge.
Variable alloc : list positive -> positive.
Hypothesis alloc_fresh : forall l, ~ In (alloc l) l.
Variable uniqueName : function -> string -> string.
Hypothesis uniqueName_prefix :
  forall F nm, String.prefix nm (uniqueName F nm) = true.
Variable arg_types : funcid -> list typ.
Variable ret_type : funcid -> typ.

(** From the rewritten call sites to the merged group. *)
Lemma unify_tracks (B : instid -> instid -> Prop) (K : instid -> Prop) F t callers :
  wf F -> callers = callsTo t F -> (2 <= List.length callers)%nat ->
  let rs := rewriteGroup alloc uniqueName F callers in
  let ci := callInstrOf alloc uniqueName arg_types F t callers in
  let F1 := mergeGroup alloc uniqueName arg_types ret_type F (t, callers) in
  (forall i, K i -> In i (ids (rsF rs)) /\ ~ In i callers) ->
  (forall c, In c callers -> B c ci) ->
  tracks (slotIn (entryOf alloc F) (rsF rs)) (slotIn (entryOf alloc F) F1) B K (rsF rs) F1.
Proof.
  intros [Hnd Hnb] Hc Hk rs ci F1 HK HB.
  assert (Hne : callsTo t F <> []).
  { rewrite <- Hc. destruct callers; simpl in Hk; [lia | discriminate]. }
  destruct (callsTo_nonempty t F Hne) as (b & G & HF).
  assert (Hc' : callers = map markId (filter (callsTarget t) (allMarks F))).
  { rewrite Hc. apply callsTo_marks. }
  pose proof (rewriteGroup_spec alloc alloc_fresh uniqueName uniqueName_prefix
                t F b G callers Hnd Hnb HF Hc') as HR.
  fold rs in HR. unfold rewInv in HR.
  destruct HR as (R1 & R2 & R3 & R4 & R5 & _).
  set (cb := callBlockOf alloc F) in *.
  set (E := entryOf alloc F).
  assert (HEcb : E <> cb).
  { intros e. apply (alloc_fresh (bids F)). fold (callBlockOf alloc F). fold cb.
    rewrite <- e. unfold E. rewrite HF. simpl. left. reflexivity. }
  assert (Hcall : forall c, In c callers ->
            exists J, In J (allInsts (rsF rs)) /\ iid J = c /\ isCall J = true).
  { intros c Hin. rewrite Hc' in Hin. apply in_map_iff in Hin.
    destruct Hin as (m & <- & Hm). apply filter_In in Hm. destruct Hm as [Hm Ht].
    assert (Hm' : In m (allMarks (rsF rs))) by (rewrite R3; right; exact Hm).
    rewrite allMarks_allInsts in Hm'. apply marks_In in Hm'.
    destruct Hm' as (J & HJ & Hv). exists J. split; [exact HJ|].
    split; [symmetry; eapply view_markId; eauto|].
    rewrite view_isCall, Hv.
    destruct m as [i [[| | | |f| |]|] a|]; simpl in *; try discriminate; reflexivity. }
  assert (Hcs : forall c, In c callers -> In c (ids (rsF rs))).
  { intros c Hin. destruct (Hcall c Hin) as (J & HJ & <- & _).
    apply In_ids_allInsts. exact HJ. }
  pose proof (buildArgs_fold alloc alloc_fresh cb callers (callerToOrigParent rs)
                (arg_types t) (rsF rs) [] O R1 R4 Hcs) as HBA.
  cbv zeta in HBA.
  unfold F1, mergeGroup. simpl fst. simpl snd.
  assert (E1 : (1 <? List.length callers)%nat = true) by (apply Nat.ltb_lt; lia).
  rewrite E1. unfold unified, emitCall. unfold ci, callInstrOf, builtArgs.
  fold rs. fold cb.
  set (ba := buildArgs alloc arg_types cb t callers (callerToOrigParent rs) (rsF rs)).
  assert (Eba : fst ba = fst (fst (fold_left (buildArgPHI alloc cb callers (callerToOrigParent rs))
                                     (arg_types t) (rsF rs, [], O)))).
  { unfold ba. rewrite buildArgs_eq. reflexivity. }
  rewrite <- Eba in HBA. destruct HBA as (B1 & _ & _ & B4 & B5 & _).
  set (w := alloc (ids (fst ba))).
  set (callI := mkInst w "" (ret_type t) (Call (VFunc t) (snd ba))).
  set (E' := insertAt (posEnd cb) callI (fst ba)).
  assert (Hw : ~ In w (ids (fst ba))) by apply alloc_fresh.
  assert (Hwc : ~ In w callers).
  { intros Hin. apply Hw. apply B4. apply Hcs. exact Hin. }
  assert (HndE : NoDup (ids E')) by (apply NoDup_insertAt; auto).
  assert (HcbA : In cb (bids (fst ba))).
  { unfold ba. rewrite bids_buildArgs. exact R4. }
  assert (HWin : In callI (allInsts E')).
  { apply allInsts_insertAt_new. unfold bids in HcbA. apply in_map_iff in HcbA.
    destruct HcbA as (b0 & e & Hb0). exists b0. split; [exact Hb0|].
    unfold posEnd. rewrite e, Pos.eqb_refl. discriminate. }
  assert (T1 : tracks (slotIn E (rsF rs)) (slotIn E (fst ba)) B K (rsF rs) (fst ba))
    by apply tracks_buildArgs.
  assert (T2 : tracks (slotIn E (fst ba)) (slotIn E E') B K (fst ba) E').
  { apply tracks_insert. right. intros b0 e. unfold posEnd.
    destruct (Pos.eqb_spec (bid b0) cb); [congruence | reflexivity]. }
  assert (T3 : tracks (slotIn E E') (slotIn E (eraseCallers w callers E')) B K
                 E' (eraseCallers w callers E')).
  { apply tracks_eraseCallers; auto.
    - intros i Hi. apply HK. exact Hi.
    - intros X HX Hin. apply allInsts_insertAt_inv in HX. destruct HX as [-> | HX]; [reflexivity|].
      destruct (Hcall _ Hin) as (J & HJ & e & HJc).
      apply findInst_NoDup in HX; [| exact B1]. rewrite B5 in HX by (apply Hcs; exact Hin).
      apply findInst_NoDup in HJ; [| exact R1]. rewrite e in HJ. congruence.
    - exists callI. split; [exact HWin|]. split; reflexivity. }
  eapply tracks_trans; [exact T1|]. eapply tracks_trans; [exact T2|].
  eapply tracks_trans; [exact T3|]. apply (tracks_emitRouter alloc alloc_fresh).
  intros i Hi. destruct (HK i Hi) as [H1 H2].
  destruct (eraseCallers_spec w callers E' HndE) as (_ & _ & _ & Hids & _).
  apply Hids. split; [| exact H2]. apply ids_insertAt_incl. apply B4. exact H1.
Qed.

(** One merged group: what an instruction of [F] with an address in
    [K], a set that holds none of the merged calls, uses afterwards
    stands for what it used. *)
Lemma mergeGroup_tracks (B : instid -> instid -> Prop) (K : instid -> Prop) F t callers :
  wf F -> callers = callsTo t F -> (2 <= List.length callers)%nat ->
  (forall i, K i -> In i (ids F) /\ ~ In i callers) ->
  (forall c, In c callers -> B c (callInstrOf alloc uniqueName arg_types F t callers)) ->
  let F1 := mergeGroup alloc uniqueName arg_types ret_type F (t, callers) in
  tracks (slotIn (entryOf alloc F) F) (slotIn (entryOf alloc F) F1) B K F F1.
Proof.
  intros Hwf Hc Hk HK HB F1.
  assert (HK1 : forall i, K i -> In i (ids F)) by (intros i Hi; apply HK; exact Hi).
  destruct (rewriteGroup_keeps alloc alloc_fresh uniqueName uniqueName_prefix
              K F t callers Hwf Hc Hk HK1) as (R1 & _).
  eapply tracks_trans.
  - apply (rewriteGroup_tracks alloc alloc_fresh uniqueName uniqueName_prefix B K F t callers);
      auto.
  - apply unify_tracks; auto.
    intros i Hi. split; [| apply HK; exact Hi].
    apply (keeps_ids K F _ i R1 Hi). apply HK1. exact Hi.
Qed.
End SpillMerge.

(** * Spilled values: the whole pass *)

(** A value that is spilled nowhere stands for itself only. *)
Lemma spilled_stays Sl B F v v' : unspilled Sl B F v -> spilled Sl B F v v' -> v' = v.
Proof.
  intros [H1 H2] H. induction H as [| c ci H IH Hb | w s r H IH Hs Hst Hd Hl].
  - reflexivity.
  - exfalso. apply (H2 c ci); [symmetry; exact IH | exact Hb].
  - exfalso. apply (H1 s Hs). rewrite <- IH. exact Hst.
Qed.

Lemma Forall2_conj {A B} (R1 R2 : A -> B -> Prop) l l' :
  Forall2 R1 l l' -> Forall2 R2 l l' -> Forall2 (fun a b => R1 a b /\ R2 a b) l l'.
Proof.
  intros H. induction H; intros H2; inversion H2; subst; constructor; auto.
Qed.

(** The operands of a call and of what became of it. *)
Lemma Forall2_call (R : value -> value -> Prop) c args c' args' :
  Forall2 R (operands (Call c args)) (operands (Call c' args')) ->
  R c c' /\ Forall2 R args args'.
Proof.
  simpl. intros Ho.
  apply Forall2_app_inv_l in Ho. destruct Ho as (l1 & l2 & H1 & H2 & E2).
  inversion H2 as [| a b0 la lb Hab Hnil]; subst. inversion Hnil; subst.
  apply app_inj_tail in E2. destruct E2 as [-> ->]. auto.
Qed.

Lemma entryOf_hd alloc F F' :
  F <> [] -> hd_error (bids F') = hd_error (bids F) -> entryOf alloc F' = entryOf alloc F.
Proof.
  destruct F as [| b G]; [congruence|]. intros _. destruct F' as [| b' G']; simpl.
  - discriminate.
  - intros [= e]. exact e.
Qed.

Section SpillRun.
Variable alloc : list positive -> positive.
Hypothesis alloc_fresh : forall l, ~ In (alloc l) l.
Variable uniqueName : function -> string -> string.
Hypothesis uniqueName_prefix :
  forall F nm, String.prefix nm (uniqueName F nm) = true.
Variable arg_types : funcid -> list typ.
Variable ret_type : funcid -> typ.
Variable isIntrinsic : funcid -> bool.

Lemma mergedBy_tail g rest F c ci :
  mergedBy alloc uniqueName arg_types ret_type rest
           (mergeGroup alloc uniqueName arg_types ret_type F g) c ci ->
  mergedBy alloc uniqueName arg_types ret_type (g :: rest) F c ci.
Proof.
  intros (gs1 & t & cs & gs2 & -> & H1 & H2 & H3).
  exists (g :: gs1), t, cs, gs2. repeat split; auto.
Qed.

Lemma run_tracks_fold (K : instid -> Prop) groups :
  (forall i t cs, K i -> In (t, cs) (merged groups) -> ~ In i cs) ->
  forall F,
    wf F -> NoDup (map fst groups) ->
    (forall t cs, In (t, cs) groups -> cs = callsTo t F /\ cs <> []) ->
    (forall i, K i -> In i (ids F)) ->
    let F' := fold_left (mergeGroup alloc uniqueName arg_types ret_type) groups F in
    tracks (slotIn (entryOf alloc F) F) (slotIn (entryOf alloc F) F')
           (mergedBy alloc uniqueName arg_types ret_type groups F) K F F'.
Proof.
  induction groups as [| [t0 cs0] rest IH]; intros HKm F Hwf Hnd Hg HK; cbn [fold_left].
  - apply tracks_refl.
  - inversion Hnd as [| ? ? Hn0 Hnd']; subst.
    destruct (Hg t0 cs0 (or_introl eq_refl)) as (Hc0 & Hne0).
    destruct (1 <? List.length cs0)%nat eqn:Ek.
    + assert (Hk : (2 <= List.length cs0)%nat) by (apply Nat.ltb_lt in Ek; lia).
      destruct (mergeGroup_marks alloc alloc_fresh uniqueName uniqueName_prefix
                  arg_types ret_type t0 F cs0 Hwf Hc0 Hk) as (W1 & W2 & _).
      assert (HK0 : forall i, K i -> In i (ids F) /\ ~ In i cs0).
      { intros i Hi. split; [apply HK; exact Hi|].
        apply (HKm i t0 cs0 Hi). unfold merged. simpl. rewrite Ek. left. reflexivity. }
      assert (K1 : keeps K F (mergeGroup alloc uniqueName arg_types ret_type F (t0, cs0))).
      { apply mergeGroup_keeps; auto. }
      assert (T1 : tracks (slotIn (entryOf alloc F) F)
                     (slotIn (entryOf alloc F)
                        (mergeGroup alloc uniqueName arg_types ret_type F (t0, cs0)))
                     (mergedBy alloc uniqueName arg_types ret_type ((t0, cs0) :: rest) F) K
                     F (mergeGroup alloc uniqueName arg_types ret_type F (t0, cs0))).
      { apply (mergeGroup_tracks alloc alloc_fresh uniqueName uniqueName_prefix
                 arg_types ret_type); auto.
        intros c Hc. exists [], t0, cs0, rest. repeat split; auto. }
      assert (HE : entryOf alloc (mergeGroup alloc uniqueName arg_types ret_type F (t0, cs0))
                   = entryOf alloc F).
      { apply entryOf_hd.
        - intros ->. apply Hne0. rewrite Hc0. reflexivity.
        - apply (mergeGroup_layout alloc alloc_fresh uniqueName uniqueName_prefix
                   arg_types ret_type F t0 cs0 Hwf Hc0 Hk). }
      set (F1 := mergeGroup alloc uniqueName arg_types ret_type F (t0, cs0)) in *.
      assert (Hg1 : forall t cs, In (t, cs) rest -> cs = callsTo t F1 /\ cs <> []).
      { intros t cs Hin. destruct (Hg t cs (or_intror Hin)) as (a1 & a2).
        split; auto. rewrite W2.
        destruct (Pos.eqb_spec t t0) as [->|]; auto.
        exfalso. apply Hn0. apply (in_map fst) in Hin. exact Hin. }
      eapply tracks_trans; [exact T1|]. rewrite <- HE.
      eapply tracks_monoB; [| apply IH; auto].
      * intros c ci. apply mergedBy_tail.
      * intros i t cs Hi Hin. apply (HKm i t cs Hi).
        unfold merged. simpl. rewrite Ek. right. exact Hin.
      * intros i Hi. eapply keeps_ids; eauto.
    + eapply tracks_monoB; [intros c ci; apply (mergedBy_tail (t0, cs0))|].
      rewrite mergeGroup_small by auto.
      apply IH; auto.
      * intros i t cs Hi Hin. apply (HKm i t cs Hi).
        unfold merged. simpl. rewrite Ek. exact Hin.
      * intros t cs Hin. apply Hg. right. exact Hin.
Qed.

(** What an instruction that is not one of the merged calls, and no PHI
    node, uses after the pass stands for what it used. *)
Lemma run_tracks F :
  wf F ->
  let F' := fst (runOnFunction alloc uniqueName arg_types ret_type isIntrinsic F) in
  forall I, In I (allInsts F) -> isPHI I = false ->
    (forall t cs, In (t, cs) (merged (collect isIntrinsic F)) -> ~ In (iid I) cs) ->
    exists I', In I' (allInsts F') /\ iid I' = iid I /\
      Forall2 (fun v v' =>
                 defined F v ->
                 spilled (slotIn (entryOf alloc F) F')
                         (mergedInto alloc uniqueName arg_types ret_type isIntrinsic F) F' v v')
              (operands (ikd I)) (operands (ikd I')).
Proof.
  intros Hwf F' I HI HP Hn.
  set (K := fun i => In i (ids F) /\
                     forall t cs, In (t, cs) (merged (collect isIntrinsic F)) -> ~ In i cs).
  assert (HT : tracks (slotIn (entryOf alloc F) F) (slotIn (entryOf alloc F) F')
                 (mergedInto alloc uniqueName arg_types ret_type isIntrinsic F) K F F').
  { unfold F', runOnFunction, mergedInto. simpl. apply run_tracks_fold; auto.
    - intros i t cs [_ Hi]. apply Hi.
    - apply sorted_NoDup. apply (collect_spec isIntrinsic F).
    - intros t cs Hin. apply collect_In in Hin. tauto.
    - intros i [Hi _]. exact Hi. }
  destruct HT as (_ & _ & _ & HT).
  destruct (HT I HI) as (I' & HI' & e & _ & Ho); auto.
  { split; [apply In_ids_allInsts; exact HI | exact Hn]. }
  exists I'. split; [exact HI'|]. split; [exact e|].
  eapply Forall2_impl; [| exact Ho]. intros v v' H Hd. apply H. exact Hd.
Qed.
End SpillRun.

(** * The calls the pass leaves alone *)

Lemma standsFor_intro Sl B F F' v v' :
  reloaded F' v v' -> (defined F v -> spilled Sl B F' v v') -> standsFor Sl B F F' v v'.
Proof.
  intros H1 H2. split; [exact H1|]. intros Hd. split; [apply H2; exact Hd|].
  intros Hu. eapply spilled_stays; eauto.
Qed.

Lemma Forall2_standsFor Sl B F F' l l' :
  Forall2 (reloaded F') l l' ->
  Forall2 (fun v v' => defined F v -> spilled Sl B F' v v') l l' ->
  Forall2 (standsFor Sl B F F') l l'.
Proof.
  intros H1 H2. eapply Forall2_impl; [| apply (Forall2_conj _ _ _ _ H1 H2)].
  intros v v' [a b]. apply standsFor_intro; assumption.
Qed.

Section SurviveRun.
Variable alloc : list positive -> positive.
Hypothesis alloc_fresh : forall l, ~ In (alloc l) l.
Variable uniqueName : function -> string -> string.
Hypothesis uniqueName_prefix :
  forall F nm, String.prefix nm (uniqueName F nm) = true.
Variable arg_types : funcid -> list typ.
Variable ret_type : funcid -> typ.
Variable isIntrinsic : funcid -> bool.

(** C5 (as amended).  The groups hold eligible calls only; a function
    whose calls are all ineligible is returned as it is; and every
    ineligible call of the input is still in the output, at the same
    address, with the same name and type and as many arguments, and
    still ineligible.  Each of its operands (the callee and the
    arguments) is the one it had or, where that was the result of an
    instruction, the result of a load instruction of the output.  More
    precisely, for an operand that is no instruction result or the
    result of a value-producing instruction of the input: what is in its
    place is reached from it in steps, each of which goes from the
    result of a merged call to the result of the call created for its
    group, or from a value that the output stores into a stack slot
    (an alloca of the entry block with no call before it) to the result
    of a load from that slot; so an operand that the output stores in no
    such slot and that is not the result of a merged call is the one it
    was. *)
Theorem ineligible_calls_survive (F : function) :
  wf F ->
  let F' := fst (runOnFunction alloc uniqueName arg_types ret_type isIntrinsic F) in
  let Sl := slotIn (entryOf alloc F) F' in
  let B := mergedInto alloc uniqueName arg_types ret_type isIntrinsic F in
  (forall t cs c, In (t, cs) (collect isIntrinsic F) -> In c cs ->
      exists I, In I (allInsts F) /\ iid I = c /\ isCall I = true /\
                ineligible isIntrinsic I = false) /\
  ((forall I, In I (allInsts F) -> isCall I = true -> ineligible isIntrinsic I = true) ->
   collect isIntrinsic F = [] /\ F' = F) /\
  (forall I called args,
      In I (allInsts F) -> ikd I = Call called args -> ineligible isIntrinsic I = true ->
      exists I' called' args',
        In I' (allInsts F') /\ iid I' = iid I /\ iname I' = iname I /\ ity I' = ity I /\
        ikd I' = Call called' args' /\ ineligible isIntrinsic I' = true /\
        standsFor Sl B F F' called called' /\ Forall2 (standsFor Sl B F F') args args').
Proof.
  intros Hwf F' Sl B.
  destruct (ineligible_calls_views alloc alloc_fresh uniqueName uniqueName_prefix
              arg_types ret_type isIntrinsic F Hwf) as (H1 & H2 & _).
  split; [exact H1|]. split; [exact H2|].
  intros I called args HI E Hin.
  pose proof (not_merged_caller isIntrinsic F I Hwf HI Hin) as Hnm.
  destruct (run_keeps alloc alloc_fresh uniqueName uniqueName_prefix arg_types ret_type
              isIntrinsic F Hwf I HI Hnm) as (I' & HI' & HK).
  assert (HP : isPHI I = false) by (unfold isPHI; rewrite E; reflexivity).
  destruct (run_tracks alloc alloc_fresh uniqueName uniqueName_prefix arg_types ret_type
              isIntrinsic F Hwf I HI HP Hnm) as (I'' & HI'' & e'' & Ho).
  destruct (run_spec alloc alloc_fresh uniqueName uniqueName_prefix arg_types ret_type
              isIntrinsic F Hwf) as ([Hnd' _] & _).
  assert (I'' = I').
  { apply (inst_unique _ _ _ Hnd' HI'' HI'). destruct HK as [e' _]. congruence. }
  subst I''.
  destruct (kept_call _ _ _ _ _ HK E) as (called' & args' & E' & Hc & Ha).
  rewrite E, E' in Ho. apply Forall2_call in Ho. destruct Ho as [Sc Sa].
  exists I', called', args'. destruct HK as (K1 & K2 & K3 & _).
  split; [exact HI'|]. split; [exact K1|]. split; [exact K2|]. split; [exact K3|].
  split; [exact E'|].
  split; [rewrite (reloaded_ineligible isIntrinsic _ I I' _ _ _ _ E E' Hc); exact Hin|].
  split; [apply standsFor_intro; assumption | apply Forall2_standsFor; assumption].
Qed.
End SurviveRun.

Lemma ineligible_calls_survive_witness :
  let F' := fst (runOnFunction amax freshName ex_args ex_ret ex_intr exIntr) in
  let Sl := slotIn (entryOf amax exIntr) F' in
  let B := mergedInto amax freshName ex_args ex_ret ex_intr exIntr in
  wf exIntr /\
  exists I' called' args',
    In I' (allInsts F') /\ iid I' = 5 /\ ikd I' = Call called' args' /\
    standsFor Sl B exIntr F' (VFunc 200) called' /\
    Forall2 (standsFor Sl B exIntr F') [VInst 1] args'.
Proof.
  assert (Hwf : wf exIntr) by (apply wfb_wf; reflexivity).
  split; [exact Hwf|].
  destruct (ineligible_calls_survive amax amax_fresh freshName freshName_prefix
              ex_args ex_ret ex_intr exIntr Hwf) as (_ & _ & H).
  assert (HI : In (I_ 5 (Call (VFunc 200) [VInst 1])) (allInsts exIntr)).
  { cbv [exIntr allInsts flat_map insts app]. do 4 right. left. reflexivity. }
  destruct (H _ (VFunc 200) [VInst 1] HI eq_refl eq_refl)
    as (I' & called' & args' & H1 & H2 & _ & _ & H5 & _ & H7 & H8).
  exists I', called', args'.
  split; [exact H1|]. split; [exact H2|]. split; [exact H5|].
  split; [exact H7 | exact H8].
Defined.

(** * The arguments that reach the argument PHI nodes, and their slots *)

Lemma skeleton_Call k' c args :
  skeleton k' = skeleton (Call c args) -> exists c' args', k' = Call c' args'.
Proof.
  unfold skeleton.
  destruct k' as [| c' args' | | | | | | | | [?|] | |]; simpl; try discriminate. eauto.
Qed.

Section ArgSlots.
Variable alloc : list positive -> positive.
Hypothesis alloc_fresh : forall l, ~ In (alloc l) l.
Variable uniqueName : function -> string -> string.
Hypothesis uniqueName_prefix :
  forall F nm, String.prefix nm (uniqueName F nm) = true.
Variable arg_types : funcid -> list typ.
Variable ret_type : funcid -> typ.

(** The arguments of a call site when its PHI operands are read stand
    for the arguments it had. *)
Lemma caller_args_spilled (B : instid -> instid -> Prop) F t callers c i :
  wf F -> callers = callsTo t F -> (2 <= List.length callers)%nat -> In c callers ->
  let rs := rewriteGroup alloc uniqueName F callers in
  defined F (getArgOperand F c i) ->
  spilled (slotIn (entryOf alloc F) (rsF rs)) B (rsF rs)
          (getArgOperand F c i) (getArgOperand (rsF rs) c i).
Proof.
  intros Hwf Hc Hk Hin rs Hd.
  destruct (rewriteGroup_keeps alloc alloc_fresh uniqueName uniqueName_prefix
              (fun i => In i (ids F)) F t callers Hwf Hc Hk (fun i H => H))
    as (_ & _ & R3 & _).
  fold rs in R3.
  destruct (rewriteGroup_tracks alloc alloc_fresh uniqueName uniqueName_prefix
              B (fun i => In i (ids F)) F t callers Hwf Hc Hk (fun i H => H))
    as (_ & _ & _ & HT).
  fold rs in HT.
  pose proof Hin as Hin'. rewrite Hc in Hin'. apply callsTo_In in Hin'.
  destruct Hin' as (C & HC & Hid & Ht).
  assert (Ek : exists args, ikd C = Call (VFunc t) args).
  { unfold isCallTo in Ht. destruct (ikd C) as [| c0 args | | | | | | | | | |]; try discriminate.
    destruct c0; try discriminate. apply Pos.eqb_eq in Ht. subst. eauto. }
  destruct Ek as (args & Ek).
  assert (HP : isPHI C = false) by (unfold isPHI; rewrite Ek; reflexivity).
  destruct (HT C HC (In_ids_allInsts _ _ HC) HP) as (C' & HC' & Hid' & Hs & Ho).
  rewrite Ek in Hs. destruct (skeleton_Call _ _ _ Hs) as (called' & args' & Ek').
  rewrite Ek, Ek' in Ho. apply Forall2_call in Ho. destruct Ho as [_ Ha].
  assert (E1 : getArgOperand F c i = nth i args VUndef).
  { unfold getArgOperand. rewrite <- Hid, (findInst_NoDup F C (proj1 Hwf) HC), Ek.
    reflexivity. }
  assert (E2 : getArgOperand (rsF rs) c i = nth i args' VUndef).
  { unfold getArgOperand. rewrite <- Hid, <- Hid', (findInst_NoDup _ C' R3 HC'), Ek'.
    reflexivity. }
  rewrite E1, E2. rewrite E1 in Hd.
  assert (Hn : defined F (nth i args VUndef) ->
               spilled (slotIn (entryOf alloc F) (rsF rs)) B (rsF rs)
                       (nth i args VUndef) (nth i args' VUndef) /\
               defined (rsF rs) (nth i args' VUndef)).
  { apply (Forall2_nth (fun v v' => defined F v ->
                          spilled (slotIn (entryOf alloc F) (rsF rs)) B (rsF rs) v v' /\
                          defined (rsF rs) v')); [| exact Ha].
    intros _. split; [apply sp_same | intros x H; discriminate]. }
  apply Hn. exact Hd.
Qed.

(** C2 (as amended).  The shared block of a merged group starts with one
    PHI node per declared parameter of the callee, in declared order and
    of the parameter's type, followed by the discriminator PHI, the call
    and the switch; the call takes these PHI nodes as its arguments, in
    order.  The PHI for parameter [i] has one incoming pair per call
    site, in call-site order, from the predecessor block recorded for
    the call site; its value is the call site's [i]-th argument as it is
    when the PHI is built, which is the argument the call site had in
    the input or, where that was the result of an instruction, the
    result of a load instruction.  More precisely, for an argument that
    is no instruction result or the result of a value-producing
    instruction of the input: the incoming value is reached from it in
    steps, each of which goes from the result of a call site of the
    group to the result of the shared call, or from a value that the
    output stores into a stack slot (an alloca of the entry block with
    no call before it) to the result of a load from that slot; so an
    argument that the output stores in no such slot and that is not the
    result of a call site of the group is passed as it was. *)
Theorem arg_phis (F : function) (t : funcid) :
  wf F -> (2 <= List.length (callsTo t F))%nat ->
  let callers := callsTo t F in
  let rs := rewriteGroup alloc uniqueName F callers in
  let callBlock := callBlockOf alloc F in
  let F1 := mergeGroup alloc uniqueName arg_types ret_type F (t, callers) in
  let Sl := slotIn (entryOf alloc F) F1 in
  exists phis whereFromNode callInstr switchBackInstr,
    blockInsts F1 callBlock = phis ++ [whereFromNode; callInstr; switchBackInstr] /\
    List.length phis = List.length (arg_types t) /\
    map ity phis = arg_types t /\
    ikd callInstr = Call (VFunc t) (map (fun p => VInst (iid p)) phis) /\
    forall i phi, nth_error phis i = Some phi ->
      exists inc,
        ikd phi = PHI inc /\
        Forall2 (fun c p =>
                   olookup c (callerToOrigParent rs) = Some (snd p) /\
                   fst p = getArgOperand (rsF rs) c i /\
                   standsFor Sl (fun c0 ci => In c0 callers /\ ci = iid callInstr) F F1
                             (getArgOperand F c i) (fst p))
                callers inc.
Proof.
  intros Hwf Hk callers rs callBlock F1 Sl.
  assert (Hne : callsTo t F <> []).
  { intros E. rewrite E in Hk. simpl in Hk. lia. }
  destruct (callsTo_nonempty t F Hne) as (b & G & HF).
  destruct (mergeGroup_spec alloc alloc_fresh uniqueName uniqueName_prefix arg_types ret_type
              t F b G callers (proj1 Hwf) (proj2 Hwf) HF (callsTo_marks t F) Hk)
    as (_ & _ & Hci & _ & _ & _ & (phis & wfN & sw & HL & Hty & Hkd)).
  destruct (group_shape alloc alloc_fresh uniqueName uniqueName_prefix arg_types ret_type
              F t Hwf Hk) as (_ & _ & _ & _ & _ & _ & _ & _ & _ & Hsites).
  fold callers in Hsites. fold rs in Hsites, Hkd.
  eexists phis, _, _, _. split; [exact HL|].
  split; [rewrite <- Hty; symmetry; apply length_map|].
  split; [exact Hty|]. split; [reflexivity|].
  intros i phi Hn.
  destruct (map_seq_nth_error ikd _ phis _ _ _ _ Hkd Hn) as [Hi Hp]. simpl in Hp.
  eexists. split; [exact Hp|].
  assert (Hlk : forall c, In c callers ->
                  exists P, olookup c (callerToOrigParent rs) = Some P).
  { intros c Hc. destruct (Hsites c Hc) as (P & _ & H & _). eauto. }
  assert (E1 : (1 <? List.length callers)%nat = true)
    by (apply Nat.ltb_lt; unfold callers; lia).
  assert (Hloads : forall r, loadAt (rsF rs) r -> loadAt F1 r).
  { destruct (rewriteGroup_keeps alloc alloc_fresh uniqueName uniqueName_prefix
                (fun _ => False) F t callers Hwf eq_refl Hk
                (fun i (H : False) => match H with end)) as (_ & _ & _ & R4).
    apply (unify_keeps alloc alloc_fresh uniqueName arg_types ret_type
             (fun _ => False) F t callers
             (fun i (H : False) => match H with end)
             (fun c I _ _ (H : False) => match H with end) R4 E1). }
  set (B := fun c0 ci : instid =>
              In c0 callers /\
              ci = callInstrOf alloc uniqueName arg_types F t (callsTo t F)).
  assert (HU : tracks (slotIn (entryOf alloc F) (rsF rs)) Sl B (fun _ => False) (rsF rs) F1).
  { apply (unify_tracks alloc alloc_fresh uniqueName uniqueName_prefix arg_types ret_type
             B (fun _ => False) F t callers Hwf eq_refl Hk).
    - intros j [].
    - intros c Hc. split; [exact Hc | reflexivity]. }
  pose proof (incomingFor_Forall2 (rsF rs) (callerToOrigParent rs) callers i Hlk) as HF2.
  eapply Forall2_impl_map; [exact HF2|].
  intros c p Hc [H1 H2]. simpl.
  destruct (caller_args_reloaded alloc alloc_fresh uniqueName uniqueName_prefix
              F t callers c i Hwf eq_refl Hk Hc) as [A1 A2].
  fold rs in A1, A2.
  rewrite substAllV_other by (intros c' Hc'; rewrite H2; apply A2; exact Hc').
  split; [exact H1|]. split; [exact H2|].
  rewrite H2. apply standsFor_intro.
  - eapply reloaded_mono; [exact Hloads | exact A1].
  - intros Hd. apply (spilled_tracks _ _ _ _ _ _ _ _ HU).
    apply (caller_args_spilled B F t callers c i Hwf eq_refl Hk Hc Hd).
Qed.
End ArgSlots.

Lemma arg_phis_witness :
  let callers := callsTo 100 exF in
  let rs := rewriteGroup amax freshName exF callers in
  let F1 := mergeGroup amax freshName ex_args ex_ret exF (100, callers) in
  let Sl := slotIn (entryOf amax exF) F1 in
  wf exF /\ (2 <= List.length callers)%nat /\
  exists phis whereFromNode callInstr switchBackInstr,
    blockInsts F1 (callBlockOf amax exF)
    = phis ++ [whereFromNode; callInstr; switchBackInstr] /\
    List.length phis = List.length (ex_args 100) /\
    ikd callInstr = Call (VFunc 100) (map (fun p => VInst (iid p)) phis) /\
    forall phi, nth_error phis 0 = Some phi ->
      exists inc,
        ikd phi = PHI inc /\
        Forall2 (fun c p =>
                   olookup c (callerToOrigParent rs) = Some (snd p) /\
                   fst p = getArgOperand (rsF rs) c 0 /\
                   standsFor Sl (fun c0 ci => In c0 callers /\ ci = iid callInstr) exF F1
                             (getArgOperand exF c 0) (fst p))
                callers inc.
Proof.
  assert (Hwf : wf exF) by (apply wfb_wf; reflexivity).
  assert (Hk : (2 <= List.length (callsTo 100%positive exF))%nat) by (vm_compute; lia).
  split; [exact Hwf|]. split; [exact Hk|].
  destruct (arg_phis amax amax_fresh freshName freshName_prefix ex_args ex_ret exF 100 Hwf Hk)
    as (phis & w & c & s & H1 & H2 & _ & H3 & H4).
  exists phis, w, c, s.
  split; [exact H1|]. split; [exact H2|]. split; [exact H3|].
  intros phi Hn. exact (H4 O phi Hn).
Defined.
